(** * Shenandoah full GC: sliding mark-compact (shenandoahMarkCompact.cpp)

    A shallow embedding of the region closures, the sliding planner, the
    pointer adjuster and the object mover of [ShenandoahMarkCompact], with
    the properties of its four phases.

    Addresses are word indices ([HeapWord*] arithmetic counts words), a
    region pointer is the region's index in the heap's region table, and
    NULL is [None]. Assertions compile to nothing in a product build: every
    operation below is the product-build behaviour, and each assertion that
    matters is a predicate of its own, proved to hold where the code
    evaluates it. *)

From stdpp Require Import base tactics option list sorting gmap sets.
From Stdlib Require Import ZArith Lia.
Local Open Scope Z_scope.

Abbreviation HeapWord := Z.

(** ** Regions *)

(** The region states of the data model. *)
Inductive RegionState :=
  | regular
  | humongous_start
  | humongous_continuation
  | cset
  | trash
  | empty_committed
  | empty_uncommitted
  | pinned.

#[global] Instance RegionState_eq_dec : EqDecision RegionState.
Proof. solve_decision. Defined.

(** [ShenandoahHeapRegion]: the fixed bounds, the allocation watermark, the
    planned post-compaction watermark and the bookkeeping the closures
    touch. Allocation statistics are left out. *)
Record ShenandoahHeapRegion := mkRegion {
  bottom : HeapWord;
  top : HeapWord;
  end_ : HeapWord;
  new_top : HeapWord;
  state : RegionState;
  live_data : Z;
  concurrent_iteration_safe_limit : HeapWord
}.

#[global] Instance ShenandoahHeapRegion_inhabited : Inhabited ShenandoahHeapRegion :=
  populate (mkRegion 0 0 0 0 empty_uncommitted 0 0).

Definition set_top (v : HeapWord) (r : ShenandoahHeapRegion) : ShenandoahHeapRegion :=
  mkRegion (bottom r) v (end_ r) (new_top r) (state r) (live_data r)
           (concurrent_iteration_safe_limit r).

Definition set_new_top (v : HeapWord) (r : ShenandoahHeapRegion) : ShenandoahHeapRegion :=
  mkRegion (bottom r) (top r) (end_ r) v (state r) (live_data r)
           (concurrent_iteration_safe_limit r).

Definition set_state (s : RegionState) (r : ShenandoahHeapRegion) : ShenandoahHeapRegion :=
  mkRegion (bottom r) (top r) (end_ r) (new_top r) s (live_data r)
           (concurrent_iteration_safe_limit r).

Definition set_live_data (v : Z) (r : ShenandoahHeapRegion) : ShenandoahHeapRegion :=
  mkRegion (bottom r) (top r) (end_ r) (new_top r) (state r) v
           (concurrent_iteration_safe_limit r).

Definition clear_live_data (r : ShenandoahHeapRegion) : ShenandoahHeapRegion :=
  set_live_data 0 r.

Definition set_concurrent_iteration_safe_limit (v : HeapWord) (r : ShenandoahHeapRegion)
  : ShenandoahHeapRegion :=
  mkRegion (bottom r) (top r) (end_ r) (new_top r) (state r) (live_data r) v.

(** [used()] of a contiguous space. *)
Definition used (r : ShenandoahHeapRegion) : Z := top r - bottom r.

(** Modelled from the spec: the state predicates of [ShenandoahHeapRegion]
    (shenandoahHeapRegion.hpp is not part of the sources). A region is empty
    in either empty state, active when neither empty nor trash, humongous in
    either humongous state; allocation is allowed in empty, regular and
    pinned regions; contents may move out of regular and cset regions, never
    out of humongous ones. *)
Definition is_trash (r : ShenandoahHeapRegion) : bool := bool_decide (state r = trash).
Definition is_empty_uncommitted (r : ShenandoahHeapRegion) : bool :=
  bool_decide (state r = empty_uncommitted).
Definition is_empty_committed (r : ShenandoahHeapRegion) : bool :=
  bool_decide (state r = empty_committed).
Definition is_empty (r : ShenandoahHeapRegion) : bool :=
  is_empty_committed r || is_empty_uncommitted r.
Definition is_active (r : ShenandoahHeapRegion) : bool :=
  negb (is_empty r) && negb (is_trash r).
Definition is_regular (r : ShenandoahHeapRegion) : bool := bool_decide (state r = regular).
Definition is_cset (r : ShenandoahHeapRegion) : bool := bool_decide (state r = cset).
Definition is_pinned (r : ShenandoahHeapRegion) : bool := bool_decide (state r = pinned).
Definition is_humongous_start (r : ShenandoahHeapRegion) : bool :=
  bool_decide (state r = humongous_start).
Definition is_humongous_continuation (r : ShenandoahHeapRegion) : bool :=
  bool_decide (state r = humongous_continuation).
Definition is_humongous (r : ShenandoahHeapRegion) : bool :=
  is_humongous_start r || is_humongous_continuation r.
Definition is_alloc_allowed (r : ShenandoahHeapRegion) : bool :=
  is_empty r || is_regular r || is_pinned r.
Definition is_move_allowed (r : ShenandoahHeapRegion) : bool :=
  is_regular r || is_cset r.

(** Modelled from the spec: the state transitions of [ShenandoahHeapRegion]
    (shenandoahHeapRegion.cpp is not part of the sources). [recycle] leaves
    the region committed-empty, with no data and no live data;
    [make_regular_bypass] promotes a region to regular, which is how an
    empty region comes to host slid data and how a lingering cset region is
    demoted, and leaves a pinned region pinned; [make_trash] marks the region
    as trash. *)
Definition recycle (r : ShenandoahHeapRegion) : ShenandoahHeapRegion :=
  set_state empty_committed (clear_live_data (set_top (bottom r) r)).

Definition make_regular_bypass (r : ShenandoahHeapRegion) : ShenandoahHeapRegion :=
  match state r with
  | pinned => r
  | _ => set_state regular r
  end.

Definition make_trash (r : ShenandoahHeapRegion) : ShenandoahHeapRegion :=
  set_state trash r.

(** ** The Brooks forwarding pointer *)

(** Modelled from the spec: the forwarding header (brooksPointer.hpp is not
    part of the sources) is one reserved word immediately preceding the
    object; [get_raw] and [set_raw] read and write it, [initialize] makes it
    point to the object itself. Memory is a map from word addresses to
    words. *)
Module BrooksPointer.
Definition word_size : Z := 1.
Definition word_offset : Z := -1.

Definition get_raw (m : HeapWord → Z) (p : HeapWord) : HeapWord := m (p + word_offset).

Definition set_raw (p : HeapWord) (v : HeapWord) (m : HeapWord → Z) : HeapWord → Z :=
  λ a, if decide (a = p + word_offset) then v else m a.

Definition initialize (p : HeapWord) (m : HeapWord → Z) : HeapWord → Z :=
  set_raw p p m.
End BrooksPointer.

(** Modelled from the spec: object metadata (oop.inline.hpp and the klass
    hierarchy are not part of the sources). The first word of an object
    names its class; the class gives the object's size in words and the
    offsets of its reference fields. *)
Class KlassModel := {
  klass_size : Z → Z;
  klass_oop_offsets : Z → list Z
}.

(** ** The heap *)

(** [ShenandoahHeap]: the region table, the heap words, the complete mark
    bitmap, the two top-at-mark-start arrays (indexed by region), the
    collection set, the free set and the used counter. *)
Record ShenandoahHeap := mkHeap {
  regions : list ShenandoahHeapRegion;
  mem : HeapWord → Z;
  complete_mark_bit_map : gset Z;
  next_top_at_mark_start : gmap nat HeapWord;
  complete_top_at_mark_start : gmap nat HeapWord;
  collection_set : gset nat;
  free_regions : list nat;
  heap_used : Z
}.

Definition num_regions (h : ShenandoahHeap) : nat := length (regions h).

(** [r->field()] through a region pointer [i]. *)
Definition rgn (h : ShenandoahHeap) (i : nat) : ShenandoahHeapRegion := regions h !!! i.

Definition with_regions (rs : list ShenandoahHeapRegion) (h : ShenandoahHeap) : ShenandoahHeap :=
  mkHeap rs (mem h) (complete_mark_bit_map h) (next_top_at_mark_start h)
         (complete_top_at_mark_start h) (collection_set h) (free_regions h) (heap_used h).

Definition with_mem (m : HeapWord → Z) (h : ShenandoahHeap) : ShenandoahHeap :=
  mkHeap (regions h) m (complete_mark_bit_map h) (next_top_at_mark_start h)
         (complete_top_at_mark_start h) (collection_set h) (free_regions h) (heap_used h).

(** A mutation of the region behind pointer [i]. *)
Definition upd_region (i : nat) (f : ShenandoahHeapRegion → ShenandoahHeapRegion)
    (h : ShenandoahHeap) : ShenandoahHeap :=
  with_regions (alter f i (regions h)) h.

Definition set_next_top_at_mark_start (i : nat) (v : HeapWord) (h : ShenandoahHeap)
  : ShenandoahHeap :=
  mkHeap (regions h) (mem h) (complete_mark_bit_map h) (<[i:=v]> (next_top_at_mark_start h))
         (complete_top_at_mark_start h) (collection_set h) (free_regions h) (heap_used h).

Definition set_complete_top_at_mark_start (i : nat) (v : HeapWord) (h : ShenandoahHeap)
  : ShenandoahHeap :=
  mkHeap (regions h) (mem h) (complete_mark_bit_map h) (next_top_at_mark_start h)
         (<[i:=v]> (complete_top_at_mark_start h)) (collection_set h) (free_regions h)
         (heap_used h).

Definition is_marked_complete (h : ShenandoahHeap) (p : HeapWord) : bool :=
  bool_decide (p ∈ complete_mark_bit_map h).

(** Modelled from the spec: [ShenandoahHeap::heap_region_iterate]
    (shenandoahHeap.cpp is not part of the sources) visits every region of
    the table in index order. Every closure of this file returns false, so
    the walk never stops early. [S] is the heap together with whatever the
    closure object carries. *)
Definition heap_region_iterate {S} (n : nat) (heap_region_do : nat → S → S) (s : S) : S :=
  foldl (λ s i, heap_region_do i s) s (seq 0 n).

(** ** Prepare: make every region active, then reset the mark data *)

Module ShenandoahEnsureHeapActiveClosure.
Definition heap_region_do (i : nat) (h : ShenandoahHeap) : ShenandoahHeap :=
  let h1 := if is_trash (rgn h i) then upd_region i recycle h else h in
  if is_empty (rgn h1 i) then upd_region i make_regular_bypass h1 else h1.

(** assert (r->is_active(), "only active regions in heap now") *)
Definition assert_active (i : nat) (h : ShenandoahHeap) : bool := is_active (rgn h i).
End ShenandoahEnsureHeapActiveClosure.

Module ShenandoahClearRegionStatusClosure.
Definition heap_region_do (i : nat) (h : ShenandoahHeap) : ShenandoahHeap :=
  let h1 := set_next_top_at_mark_start i (top (rgn h i)) h in
  let h2 := upd_region i clear_live_data h1 in
  upd_region i (λ r, set_concurrent_iteration_safe_limit (top r) r) h2.
End ShenandoahClearRegionStatusClosure.

(** Steps f and g of [ShenandoahMarkCompact::do_it], under the heap lock. *)
Definition ensure_heap_active (h : ShenandoahHeap) : ShenandoahHeap :=
  heap_region_iterate (num_regions h) ShenandoahEnsureHeapActiveClosure.heap_region_do h.

Definition clear_region_status (h : ShenandoahHeap) : ShenandoahHeap :=
  heap_region_iterate (num_regions h) ShenandoahClearRegionStatusClosure.heap_region_do h.

Definition prepare_regions (h : ShenandoahHeap) : ShenandoahHeap :=
  clear_region_status (ensure_heap_active h).

(** ** Region sets and the claim cursor *)

(** Modelled from the spec: [ShenandoahHeapRegionSet]
    (shenandoahHeapRegionSet.cpp is not part of the sources) is an ordered
    set of region pointers with a cursor. [add_region] appends;
    [current_then_next] returns the region under the cursor and steps past
    it, or returns NULL at the end and stays there. *)
Record ShenandoahHeapRegionSet := mkRegionSet {
  set_regions : list nat;
  current_index : nat
}.

Definition new_region_set : ShenandoahHeapRegionSet := mkRegionSet [] 0.

Definition add_region (r : nat) (s : ShenandoahHeapRegionSet) : ShenandoahHeapRegionSet :=
  mkRegionSet (set_regions s ++ [r]) (current_index s).

Definition clear_current_index (s : ShenandoahHeapRegionSet) : ShenandoahHeapRegionSet :=
  mkRegionSet (set_regions s) 0.

Definition current_then_next (s : ShenandoahHeapRegionSet)
  : option nat * ShenandoahHeapRegionSet :=
  match set_regions s !! current_index s with
  | Some r => (Some r, mkRegionSet (set_regions s) (S (current_index s)))
  | None => (None, s)
  end.

(** The regions the cursor has not passed yet. *)
Definition remaining (s : ShenandoahHeapRegionSet) : list nat :=
  drop (current_index s) (set_regions s).

#[global] Instance ShenandoahHeapRegionSet_inhabited : Inhabited ShenandoahHeapRegionSet :=
  populate new_region_set.

(** Modelled from the spec: [claim_next] on the heap's region table is an
    atomic fetch-and-add on one cursor shared by the gang, so every region
    index is handed to exactly one worker and each worker receives
    increasing indices. A worker's view of the cursor is the list of the
    indices its own calls return; past the end the call returns NULL.
    [claims_of owner n w] is the view of worker [w] when [owner i] is the
    worker whose call returned index [i]. *)
Definition claim_next (view : list nat) : option nat * list nat :=
  match view with
  | [] => (None, [])
  | r :: view' => (Some r, view')
  end.

Definition claims_of (owner : nat → nat) (n : nat) (w : nat) : list nat :=
  filter (λ i, owner i = w) (seq 0 n).

(** ** Objects *)

(** [p->size()], through the class word of the object. *)
Definition obj_size `{!KlassModel} (m : HeapWord → Z) (p : HeapWord) : Z := klass_size (m p).

(** Modelled from the spec: [oop_iterate] (oop.inline.hpp is not part of the
    sources) hands every reference field of the object to the closure; the
    fields are those of the object's class, read when the walk starts. *)
Definition oop_iterate `{!KlassModel} {S} (m : HeapWord → Z) (p : HeapWord)
    (do_oop : HeapWord → S → S) (s : S) : S :=
  foldl (λ s off, do_oop (p + off) s) s (klass_oop_offsets (m p)).

(** The word addresses [lo, lo+1, ..., hi-1]. *)
Definition addresses (lo hi : HeapWord) : list HeapWord :=
  (λ k : nat, lo + Z.of_nat k) <$> seq 0 (Z.to_nat (hi - lo)).

(** Modelled from the spec: [marked_object_iterate]
    (shenandoahHeap.inline.hpp is not part of the sources) is the
    bitmap-driven walk over the live objects of a region in ascending
    address order. The first object of a region sits one forwarding word
    above its bottom, and no object starts at or above its top. *)
Definition live_objects (h : ShenandoahHeap) (i : nat) : list HeapWord :=
  filter (λ p, p ∈ complete_mark_bit_map h)
         (addresses (bottom (rgn h i) + BrooksPointer.word_size) (top (rgn h i))).

Definition marked_object_iterate {S} (h : ShenandoahHeap) (i : nat)
    (do_object : HeapWord → S → S) (s : S) : S :=
  foldl (λ s p, do_object p s) s (live_objects h i).

(** Modelled from the spec: [Copy::aligned_conjoint_words] (utilities/copy.hpp
    is not part of the sources) copies [count] words from [from] to [to] and
    is safe when the two ranges overlap: every destination word receives the
    word its source held before the copy. *)
Definition aligned_conjoint_words (from to : HeapWord) (count : Z) (m : HeapWord → Z)
  : HeapWord → Z :=
  λ a, if decide (to ≤ a < to + count) then m (from + (a - to)) else m a.

(** Modelled from the spec: the copy runs in ascending direction, one word
    after the other. It gives what [aligned_conjoint_words] gives whenever
    the destination is not above the source, which is how the mover uses
    it. *)
Fixpoint copy_words_ascending (count : nat) (from to : HeapWord) (m : HeapWord → Z)
  : HeapWord → Z :=
  match count with
  | O => m
  | S count' =>
      copy_words_ascending count' (from + 1) (to + 1)
                           (λ a, if decide (a = to) then m from else m a)
  end.

(** ** Phase 2: humongous sweep *)

(** The humongous continuations at the head of a run of regions. *)
Fixpoint continuation_run (rs : list ShenandoahHeapRegion) : nat :=
  match rs with
  | r :: rs' => if is_humongous_continuation r then S (continuation_run rs') else 0%nat
  | [] => 0%nat
  end.

(** Modelled from the spec: [trash_humongous_region_at] (shenandoahHeap.cpp
    is not part of the sources) trashes the entire multi-region humongous
    object: its start region and the humongous continuations that follow
    it. *)
Definition trash_humongous_region_at (i : nat) (h : ShenandoahHeap) : ShenandoahHeap :=
  foldl (λ h j, upd_region j make_trash h) h
        (seq i (S (continuation_run (drop (S i) (regions h))))).

Module ShenandoahMCReclaimHumongousRegionClosure.
Definition heap_region_do (i : nat) (h : ShenandoahHeap) : ShenandoahHeap :=
  if is_humongous_start (rgn h i) then
    let humongous_obj := bottom (rgn h i) + BrooksPointer.word_size in
    if negb (is_marked_complete h humongous_obj) then trash_humongous_region_at i h
    else h
  else h.
End ShenandoahMCReclaimHumongousRegionClosure.

(** ** Phase 2: the sliding planner *)

Module ShenandoahPrepareForCompactionObjectClosure.
(** The closure object. [_heap] and [_empty_regions] are pointers in the
    source: the heap and the set are shared with the task that owns the
    closure, so the planner state carries both. *)
Record t := mk {
  _heap : ShenandoahHeap;
  _empty_regions : ShenandoahHeapRegionSet;
  _to_region : nat;
  _from_region : option nat;
  _compact_point : HeapWord
}.

Definition new (h : ShenandoahHeap) (empty_regions : ShenandoahHeapRegionSet)
    (to_region : nat) : t :=
  mk h empty_regions to_region None (bottom (rgn h to_region)).

Definition set_from_region (from_region : nat) (cl : t) : t :=
  mk (_heap cl) (_empty_regions cl) (_to_region cl) (Some from_region) (_compact_point cl).

Definition finish_region (cl : t) : t :=
  mk (upd_region (_to_region cl) (set_new_top (_compact_point cl)) (_heap cl))
     (_empty_regions cl) (_to_region cl) (_from_region cl) (_compact_point cl).

Definition is_compact_same_region (cl : t) : bool :=
  bool_decide (_from_region cl = Some (_to_region cl)).

(** The branch taken when the object does not fit: finish the target,
    pick the next empty region or, out of empty regions, the from-region,
    and restart at its bottom. A NULL from-region would be dereferenced
    here; the task sets it before any object is visited, and the model
    keeps the old target in that case. *)
Definition advance_to_region (cl : t) : t :=
  let cl1 := finish_region cl in
  let '(popped, empty_regions) := current_then_next (_empty_regions cl1) in
  let new_to_region :=
    match popped with
    | Some r => r
    | None => default (_to_region cl1) (_from_region cl1)
    end in
  mk (_heap cl1) empty_regions new_to_region (_from_region cl1)
     (bottom (rgn (_heap cl1) new_to_region)).

Definition do_object `{!KlassModel} (p : HeapWord) (cl : t) : t :=
  let obj_size := obj_size (mem (_heap cl)) p + BrooksPointer.word_size in
  let cl1 :=
    if decide (_compact_point cl + obj_size > end_ (rgn (_heap cl) (_to_region cl)))
    then advance_to_region cl else cl in
  mk (with_mem (BrooksPointer.set_raw p (_compact_point cl1 + BrooksPointer.word_size)
                                      (mem (_heap cl1))) (_heap cl1))
     (_empty_regions cl1) (_to_region cl1) (_from_region cl1)
     (_compact_point cl1 + obj_size).

(** assert(_from_region != NULL, "must set before work") *)
Definition assert_from_set (cl : t) : bool := bool_decide (is_Some (_from_region cl)).

(** assert(_heap->is_marked_complete(p), "must be marked") *)
Definition assert_marked (p : HeapWord) (cl : t) : bool := is_marked_complete (_heap cl) p.

(** assert(new_to_region != _to_region, "must not reuse same to-region"),
    evaluated when the object does not fit. *)
Definition assert_new_to_region `{!KlassModel} (p : HeapWord) (cl : t) : bool :=
  let obj_size := obj_size (mem (_heap cl)) p + BrooksPointer.word_size in
  if decide (_compact_point cl + obj_size > end_ (rgn (_heap cl) (_to_region cl)))
  then bool_decide (_to_region (advance_to_region cl) ≠ _to_region cl)
  else true.

(** assert(_compact_point + obj_size <= _to_region->end(), "must fit"),
    evaluated after the target has been chosen. *)
Definition assert_must_fit `{!KlassModel} (p : HeapWord) (cl : t) : bool :=
  let obj_size := obj_size (mem (_heap cl)) p + BrooksPointer.word_size in
  let cl1 :=
    if decide (_compact_point cl + obj_size > end_ (rgn (_heap cl) (_to_region cl)))
    then advance_to_region cl else cl in
  bool_decide (_compact_point cl1 + obj_size ≤ end_ (rgn (_heap cl1) (_to_region cl1))).

(** assert(oopDesc::unsafe_equals(p, resolve_oop_static_not_null(p)),
    "expect forwarded oop"): the object is its own forwardee. *)
Definition assert_not_forwarded (p : HeapWord) (cl : t) : bool :=
  bool_decide (BrooksPointer.get_raw (mem (_heap cl)) p = p).
End ShenandoahPrepareForCompactionObjectClosure.

Module ShenandoahPrepareForCompactionTask.
Import ShenandoahPrepareForCompactionObjectClosure.

(** [claim_next] until the claimed region may be moved or the table is
    used up. *)
Fixpoint claim_movable (h : ShenandoahHeap) (view : list nat) : option nat * list nat :=
  match view with
  | [] => (None, [])
  | r :: view' =>
      if is_move_allowed (rgn h r) then (Some r, view') else claim_movable h view'
  end.

Definition next_from_region (h : ShenandoahHeap) (view : list nat)
    (slice : ShenandoahHeapRegionSet)
  : option nat * list nat * ShenandoahHeapRegionSet :=
  let '(from_region, view') := claim_movable h view in
  match from_region with
  | Some r => (from_region, view', add_region r slice)
  | None => (from_region, view', slice)
  end.

(** assert(from_region->is_move_allowed(), ...) in [next_from_region]. *)
Definition assert_move_allowed (h : ShenandoahHeap) (from_region : option nat) : bool :=
  match from_region with
  | Some r => is_move_allowed (rgn h r)
  | None => true
  end.

(** One turn of the loop of [work], up to the next claim: plan the live
    objects of the from-region, and remember the region as empty when it
    was compacted to somewhere else. *)
Definition plan_region `{!KlassModel} (from_region : nat) (cl : t) : t :=
  let cl := set_from_region from_region cl in
  let cl := marked_object_iterate (_heap cl) from_region do_object cl in
  if negb (is_compact_same_region cl)
  then mk (_heap cl) (add_region from_region (_empty_regions cl)) (_to_region cl)
          (_from_region cl) (_compact_point cl)
  else cl.

(** while (from_region != NULL) { ...; from_region = next_from_region(slice); }
    Every turn consumes at least one claim, so the length of the view is
    fuel enough. *)
Fixpoint work_loop `{!KlassModel} (fuel : nat) (from_region : option nat) (view : list nat)
    (slice : ShenandoahHeapRegionSet) (cl : t) : ShenandoahHeapRegionSet * t :=
  match from_region, fuel with
  | Some r, S fuel' =>
      let cl := plan_region r cl in
      let '(from_region, view, slice) := next_from_region (_heap cl) view slice in
      work_loop fuel' from_region view slice cl
  | _, _ => (slice, cl)
  end.

(** r = empty_regions.current_then_next();
    while (r != NULL) { r->set_new_top(r->bottom()); r = current_then_next(); } *)
Fixpoint mark_empty_loop (fuel : nat) (r : option nat)
    (empty_regions : ShenandoahHeapRegionSet) (h : ShenandoahHeap) : ShenandoahHeap :=
  match r, fuel with
  | Some r, S fuel' =>
      let h := upd_region r (λ x, set_new_top (bottom x) x) h in
      let '(r, empty_regions) := current_then_next empty_regions in
      mark_empty_loop fuel' r empty_regions h
  | _, _ => h
  end.

Definition mark_remaining_empty (empty_regions : ShenandoahHeapRegionSet)
    (h : ShenandoahHeap) : ShenandoahHeap :=
  let '(r, empty_regions) := current_then_next empty_regions in
  mark_empty_loop (S (length (set_regions empty_regions))) r empty_regions h.

(** [work(worker_id)], on the worker's view of the claim cursor and its
    slice; returns the heap and the slice. *)
Definition work `{!KlassModel} (h : ShenandoahHeap) (view : list nat)
    (slice : ShenandoahHeapRegionSet) : ShenandoahHeap * ShenandoahHeapRegionSet :=
  let '(from_region, view, slice) := next_from_region h view slice in
  match from_region with
  | None => (h, slice)
  | Some r =>
      let empty_regions := new_region_set in
      let cl := new h empty_regions r in
      let '(slice, cl) := work_loop (S (length view)) from_region view slice cl in
      let cl := finish_region cl in
      (mark_remaining_empty (_empty_regions cl) (_heap cl), slice)
  end.
End ShenandoahPrepareForCompactionTask.

(** Modelled from the spec: [run_task] (utilities/workgroup.hpp is not part
    of the sources) runs [work(worker_id)] for every worker of the gang and
    joins. The workers of the tasks below touch disjoint regions and
    objects, decided by who claims what; the model runs them one after the
    other, each on its own view of the claim cursor. *)
Definition run_task {S} (nworkers : nat) (work : nat → S → S) (s : S) : S :=
  foldl (λ s w, work w s) s (seq 0 nworkers).

Definition prepare_for_compaction `{!KlassModel} (owner : nat → nat) (nworkers : nat)
    (s : ShenandoahHeap * list ShenandoahHeapRegionSet)
  : ShenandoahHeap * list ShenandoahHeapRegionSet :=
  run_task nworkers
    (λ w '(h, worker_slices),
       let '(h', slice) :=
         ShenandoahPrepareForCompactionTask.work
           h (claims_of owner (num_regions h) w) (worker_slices !!! w) in
       (h', <[w := slice]> worker_slices))
    s.

Definition reclaim_humongous (h : ShenandoahHeap) : ShenandoahHeap :=
  heap_region_iterate (num_regions h) ShenandoahMCReclaimHumongousRegionClosure.heap_region_do h.

Definition phase2_calculate_target_addresses `{!KlassModel} (owner : nat → nat)
    (nworkers : nat) (s : ShenandoahHeap * list ShenandoahHeapRegionSet)
  : ShenandoahHeap * list ShenandoahHeapRegionSet :=
  let h := ensure_heap_active (reclaim_humongous s.1) in
  prepare_for_compaction owner nworkers (h, s.2).

(** ** Phase 3: adjust pointers *)

Definition store (p : HeapWord) (v : Z) (m : HeapWord → Z) : HeapWord → Z :=
  λ a, if decide (a = p) then v else m a.

Module ShenandoahAdjustPointersClosure.
(** [do_oop_work] on the slot at address [p]; NULL is the zero word. The
    narrow-oop instance differs only in how the slot encodes the
    reference. *)
Definition do_oop_work (p : HeapWord) (m : HeapWord → Z) : HeapWord → Z :=
  let o := m p in
  if decide (o ≠ 0) then
    let forw := BrooksPointer.get_raw m o in
    store p forw m
  else m.

Definition do_oop := do_oop_work.

(** assert(_heap->is_marked_complete(obj), "must be marked") *)
Definition assert_marked (h : ShenandoahHeap) (p : HeapWord) : bool :=
  let o := mem h p in
  if decide (o ≠ 0) then is_marked_complete h o else true.
End ShenandoahAdjustPointersClosure.

Module ShenandoahAdjustPointersObjectClosure.
Definition do_object `{!KlassModel} (p : HeapWord) (h : ShenandoahHeap) : ShenandoahHeap :=
  with_mem (oop_iterate (mem h) p ShenandoahAdjustPointersClosure.do_oop (mem h)) h.
End ShenandoahAdjustPointersObjectClosure.

Module ShenandoahAdjustPointersTask.
(** r = claim_next(); while (r != NULL) { ...; r = claim_next(); } on the
    worker's view of the cursor. *)
Fixpoint work `{!KlassModel} (view : list nat) (h : ShenandoahHeap) : ShenandoahHeap :=
  match view with
  | [] => h
  | r :: view' =>
      let h :=
        if negb (is_humongous_continuation (rgn h r))
        then marked_object_iterate h r ShenandoahAdjustPointersObjectClosure.do_object h
        else h in
      work view' h
  end.
End ShenandoahAdjustPointersTask.

(** Modelled from the spec: [process_all_roots] (shenandoahRootProcessor.cpp
    is not part of the sources) hands every root slot to the closure once,
    each worker taking its share. The root processor is the list of the root
    slots, which lie outside the heap. *)
Definition process_all_roots (rp : list HeapWord) (do_oop : HeapWord → (HeapWord → Z) → HeapWord → Z)
    (m : HeapWord → Z) : HeapWord → Z :=
  foldl (λ m p, do_oop p m) m rp.

Definition phase3_update_references `{!KlassModel} (rp : list HeapWord) (owner : nat → nat)
    (nworkers : nat) (h : ShenandoahHeap) : ShenandoahHeap :=
  let h := with_mem (process_all_roots rp ShenandoahAdjustPointersClosure.do_oop (mem h)) h in
  run_task nworkers
    (λ w h, ShenandoahAdjustPointersTask.work (claims_of owner (num_regions h) w) h) h.

(** ** Phase 4: move objects *)

Module ShenandoahCompactObjectsClosure.
Definition do_object `{!KlassModel} (p : HeapWord) (h : ShenandoahHeap) : ShenandoahHeap :=
  let size := obj_size (mem h) p in
  let compact_to := BrooksPointer.get_raw (mem h) p in
  let compact_from := p in
  let m :=
    if decide (compact_from ≠ compact_to)
    then aligned_conjoint_words compact_from compact_to size (mem h)
    else mem h in
  let new_obj := compact_to in
  with_mem (BrooksPointer.initialize new_obj m) h.
End ShenandoahCompactObjectsClosure.

Module ShenandoahCompactObjectsTask.
(** assert(!r->is_humongous(), "must not get humongous regions here") *)
Definition assert_not_humongous (h : ShenandoahHeap) (r : nat) : bool :=
  negb (is_humongous (rgn h r)).

Definition compact_region `{!KlassModel} (r : nat) (h : ShenandoahHeap) : ShenandoahHeap :=
  let h := marked_object_iterate h r ShenandoahCompactObjectsClosure.do_object h in
  upd_region r (λ x, set_top (new_top x) x) h.

Fixpoint work_loop `{!KlassModel} (fuel : nat) (r : option nat)
    (slice : ShenandoahHeapRegionSet) (h : ShenandoahHeap) : ShenandoahHeap :=
  match r, fuel with
  | Some r, S fuel' =>
      let h := compact_region r h in
      let '(r, slice) := current_then_next slice in
      work_loop fuel' r slice h
  | _, _ => h
  end.

Definition work `{!KlassModel} (slice : ShenandoahHeapRegionSet) (h : ShenandoahHeap)
  : ShenandoahHeap :=
  let slice := clear_current_index slice in
  let '(r, slice) := current_then_next slice in
  work_loop (S (length (set_regions slice))) r slice h.
End ShenandoahCompactObjectsTask.

(** ** Post-compact *)

Definition clear_free_regions (h : ShenandoahHeap) : ShenandoahHeap :=
  mkHeap (regions h) (mem h) (complete_mark_bit_map h) (next_top_at_mark_start h)
         (complete_top_at_mark_start h) (collection_set h) [] (heap_used h).

Definition add_free_region (i : nat) (h : ShenandoahHeap) : ShenandoahHeap :=
  mkHeap (regions h) (mem h) (complete_mark_bit_map h) (next_top_at_mark_start h)
         (complete_top_at_mark_start h) (collection_set h) (free_regions h ++ [i])
         (heap_used h).

Definition with_collection_set (cs : gset nat) (h : ShenandoahHeap) : ShenandoahHeap :=
  mkHeap (regions h) (mem h) (complete_mark_bit_map h) (next_top_at_mark_start h)
         (complete_top_at_mark_start h) cs (free_regions h) (heap_used h).

Definition set_used (v : Z) (h : ShenandoahHeap) : ShenandoahHeap :=
  mkHeap (regions h) (mem h) (complete_mark_bit_map h) (next_top_at_mark_start h)
         (complete_top_at_mark_start h) (collection_set h) (free_regions h) v.

Definition reset_complete_mark_bitmap (h : ShenandoahHeap) : ShenandoahHeap :=
  mkHeap (regions h) (mem h) ∅ (next_top_at_mark_start h)
         (complete_top_at_mark_start h) (collection_set h) (free_regions h) (heap_used h).

Module ShenandoahPostCompactClosure.
(** The closure object is its [_live] counter; the heap it points to is
    threaded with it. The constructor clears the free set. *)
Definition new (h : ShenandoahHeap) : Z * ShenandoahHeap := (0, clear_free_regions h).

Definition heap_region_do (i : nat) (s : Z * ShenandoahHeap) : Z * ShenandoahHeap :=
  let '(_live, h) := s in
  let h := set_complete_top_at_mark_start i (bottom (rgn h i)) h in
  let live := used (rgn h i) in
  let h :=
    if is_cset (rgn h i) && negb (live =? 0)
    then upd_region i make_regular_bypass h else h in
  let h :=
    if (is_regular (rgn h i) || is_cset (rgn h i)) && (live =? 0)
    then upd_region i make_trash h else h in
  let '(live, h) :=
    if is_trash (rgn h i) then (0, upd_region i recycle h) else (live, h) in
  let h :=
    if is_alloc_allowed (rgn h i) then
      let h :=
        if bool_decide (i ∈ collection_set h)
        then with_collection_set (collection_set h ∖ {[i]}) h else h in
      add_free_region i h
    else h in
  let h := upd_region i (set_live_data live) h in
  (_live + live, h).

Definition get_live (s : Z * ShenandoahHeap) : Z := s.1.
End ShenandoahPostCompactClosure.

(** The tail of [phase4_compact_objects]: reset the complete bitmap, bring
    the regions in their states after the collection under the heap lock,
    set the heap's used counter and clear the collection set. *)
Definition post_compact (h : ShenandoahHeap) : ShenandoahHeap :=
  let h := reset_complete_mark_bitmap h in
  let post_compact :=
    heap_region_iterate (num_regions h) ShenandoahPostCompactClosure.heap_region_do
                        (ShenandoahPostCompactClosure.new h) in
  let h := set_used (ShenandoahPostCompactClosure.get_live post_compact) post_compact.2 in
  with_collection_set ∅ h.

Definition compact_objects `{!KlassModel} (nworkers : nat)
    (worker_slices : list ShenandoahHeapRegionSet) (h : ShenandoahHeap) : ShenandoahHeap :=
  run_task nworkers (λ w h, ShenandoahCompactObjectsTask.work (worker_slices !!! w) h) h.

Definition phase4_compact_objects `{!KlassModel} (nworkers : nat)
    (worker_slices : list ShenandoahHeapRegionSet) (h : ShenandoahHeap) : ShenandoahHeap :=
  post_compact (compact_objects nworkers worker_slices h).

(** ** The moving part of [do_it]: phases 2 to 4 on fresh worker slices *)

(** The schedule of a collection: the number of workers of the gang, the
    size of the slice array, and who wins which claim in the two phases that
    claim from the heap's region table. *)
Record Schedule := mkSchedule {
  nworkers : nat;
  max_workers : nat;
  plan_owner : nat → nat;
  adjust_owner : nat → nat
}.

Definition do_it_move `{!KlassModel} (sch : Schedule) (rp : list HeapWord)
    (h : ShenandoahHeap) : ShenandoahHeap :=
  let worker_slices := replicate (max_workers sch) new_region_set in
  let '(h, worker_slices) :=
    phase2_calculate_target_addresses (plan_owner sch) (nworkers sch) (h, worker_slices) in
  let h := phase3_update_references rp (adjust_owner sch) (nworkers sch) h in
  phase4_compact_objects (nworkers sch) worker_slices h.

(** ** Parsable heaps

    What the collector relies on when planning starts: the regions tile the
    heap, and the marked objects, each with its forwarding word in front, do
    not overlap. These are the hypotheses of the properties of phases 2 to
    4; all are decidable, so a concrete heap can be checked by evaluation. *)

(** The size of a region and the end of the heap, read off the region
    table. *)
Definition region_size_words (h : ShenandoahHeap) : Z := end_ (rgn h 0) - bottom (rgn h 0).
Definition heap_base (h : ShenandoahHeap) : HeapWord := bottom (rgn h 0).
Definition heap_end (h : ShenandoahHeap) : HeapWord :=
  heap_base h + Z.of_nat (num_regions h) * region_size_words h.

(** Regions have one size, lie one after the other, and keep their top
    between bottom and end. *)
Definition geometry_ok (h : ShenandoahHeap) : Prop :=
  Forall (λ i : nat,
            bottom (rgn h i) = heap_base h + Z.of_nat i * region_size_words h
            ∧ end_ (rgn h i) = bottom (rgn h i) + region_size_words h
            ∧ bottom (rgn h i) ≤ top (rgn h i) ≤ end_ (rgn h i))
         (seq 0 (num_regions h)).

(** Every live object of the heap, in address order. *)
Definition all_objects (h : ShenandoahHeap) : list HeapWord :=
  i ← seq 0 (num_regions h); live_objects h i.

(** Objects in a row: each forwarding word lies at or above [lo], the end
    of the object before, and every object has a positive size. *)
Fixpoint objs_chain `{!KlassModel} (m : HeapWord → Z) (lo : HeapWord) (L : list HeapWord)
  : Prop :=
  match L with
  | [] => True
  | p :: L' =>
      lo + BrooksPointer.word_size ≤ p ∧ 0 < obj_size m p
      ∧ objs_chain m (p + obj_size m p) L'
  end.

#[global] Instance objs_chain_dec `{!KlassModel} m lo L : Decision (objs_chain m lo L).
Proof. revert lo. induction L; simpl; intros; apply _. Defined.

(** The extent of the object at [p], forwarding word included, misses the
    region [r]. *)
Definition misses_region `{!KlassModel} (m : HeapWord → Z) (p : HeapWord)
    (r : ShenandoahHeapRegion) : Prop :=
  p + obj_size m p ≤ bottom r ∨ end_ r ≤ p - BrooksPointer.word_size.

(** A parsable heap: the geometry is right; the live objects form one chain
    through the heap and end inside it; a live object of a region that may
    be moved ends inside that region; a live object of any other region
    (pinned, humongous) stays clear of every region that may be moved. *)
Definition parsable `{!KlassModel} (h : ShenandoahHeap) : Prop :=
  (0 < num_regions h)%nat
  ∧ geometry_ok h
  ∧ objs_chain (mem h) (heap_base h) (all_objects h)
  ∧ Forall (λ p, p + obj_size (mem h) p ≤ heap_end h) (all_objects h)
  ∧ Forall (λ i : nat,
              if is_move_allowed (rgn h i)
              then Forall (λ p, p + obj_size (mem h) p ≤ end_ (rgn h i)) (live_objects h i)
              else Forall (λ p, Forall (λ j : nat,
                                          is_move_allowed (rgn h j) = true →
                                          misses_region (mem h) p (rgn h j))
                                       (seq 0 (num_regions h)))
                          (live_objects h i))
           (seq 0 (num_regions h)).

#[global] Instance parsable_dec `{!KlassModel} h : Decision (parsable h).
Proof.
  unfold parsable, geometry_ok, misses_region.
  repeat apply and_dec; try apply _.
  apply Forall_dec. intros i. destruct (is_move_allowed (rgn h i)); apply _.
Defined.

(** Every live object is its own forwardee: the steady state outside of a
    collection, and what marking leaves behind. *)
Definition self_forwarded (h : ShenandoahHeap) : Prop :=
  Forall (λ p, BrooksPointer.get_raw (mem h) p = p) (all_objects h).

(** The claims of a worker come in increasing order and name regions of the
    table. *)
Definition view_ok (h : ShenandoahHeap) (view : list nat) : Prop :=
  StronglySorted Nat.lt view ∧ Forall (λ i, (i < num_regions h)%nat) view.

(** What marking leaves behind, as far as references go: the reference
    fields of a live object are distinct fields inside the object, and each
    holds NULL or a live object; the root slots are distinct, lie outside
    the heap, and each holds NULL or a live object; no object starts in a
    humongous continuation. *)
Definition refs_ok `{!KlassModel} (rp : list HeapWord) (h : ShenandoahHeap) : Prop :=
  Forall (λ p,
            NoDup (klass_oop_offsets (mem h p))
            ∧ Forall (λ off,
                        0 < off < obj_size (mem h) p
                        ∧ (mem h (p + off) = 0 ∨ mem h (p + off) ∈ all_objects h))
                     (klass_oop_offsets (mem h p)))
         (all_objects h)
  ∧ NoDup rp
  ∧ Forall (λ s,
              (s < heap_base h ∨ heap_end h ≤ s)
              ∧ (mem h s = 0 ∨ mem h s ∈ all_objects h)) rp
  ∧ Forall (λ i : nat,
              is_humongous_continuation (rgn h i) = true → live_objects h i = [])
           (seq 0 (num_regions h)).

#[global] Instance refs_ok_dec `{!KlassModel} rp h : Decision (refs_ok rp h).
Proof. unfold refs_ok. apply _. Defined.

(** Every region is claimed by a worker of the gang, in both phases that
    claim from the region table, and every worker has a slice. *)
Definition schedule_ok (sch : Schedule) (h : ShenandoahHeap) : Prop :=
  (nworkers sch ≤ max_workers sch)%nat
  ∧ Forall (λ i : nat,
              (plan_owner sch i < nworkers sch)%nat
              ∧ (adjust_owner sch i < nworkers sch)%nat)
           (seq 0 (num_regions h)).

#[global] Instance schedule_ok_dec sch h : Decision (schedule_ok sch h).
Proof. unfold schedule_ok. apply _. Defined.


(** * The vocabulary of the proofs

    What the properties below are stated with: the effect of a closure on
    the region it visits, heaps of the same shape, sliding plans and the
    planner's invariants, the objects and slots the gangs visit, and the
    phases of the collection in a row. *)

(** What [ShenandoahEnsureHeapActiveClosure] does to the region it visits. *)
Definition ensure_active_region (r : ShenandoahHeapRegion) : ShenandoahHeapRegion :=
  let r1 := if is_trash r then recycle r else r in
  if is_empty r1 then make_regular_bypass r1 else r1.

Definition clear_status_region (r : ShenandoahHeapRegion) : ShenandoahHeapRegion :=
  set_concurrent_iteration_safe_limit (top r) (clear_live_data r).

Section PlacementTerms.
Import ShenandoahPrepareForCompactionObjectClosure.

(** The region the planner turns to when the object does not fit. *)
Definition next_to_region (cl : t) : nat :=
match (current_then_next (_empty_regions cl)).1 with
| Some r => r
| None => default (_to_region cl) (_from_region cl)
end.
End PlacementTerms.

(** The region table up to the planned tops, which is all that planning
    writes to it. *)
Definition layout (h : ShenandoahHeap) : list ShenandoahHeapRegion :=
  set_new_top 0 <$> regions h.

(** Two heaps that differ in their heap words and planned tops only. *)
Definition same_shape (h h' : ShenandoahHeap) : Prop :=
  layout h' = layout h
  ∧ complete_mark_bit_map h' = complete_mark_bit_map h.

Section ChainsTerms.
Context `{!KlassModel}.

(** Where a chain ends. *)
Fixpoint chain_end (m : HeapWord → Z) (lo : HeapWord) (L : list HeapWord) : HeapWord :=
  match L with
  | [] => lo
  | p :: L' => chain_end m (p + obj_size m p) L'
  end.
End ChainsTerms.

(** A move: the object's address, its target and its size. *)
Abbreviation move := (HeapWord * HeapWord * Z)%type.

Section SlidingTerms.
Local Abbreviation ws := BrooksPointer.word_size.

(** [slide slo tlo mv]: the moves come in address order of both their
    sources and their targets, no target lies above its source, every
    source extent ends at or below the frontier [slo], every target extent
    at or below [tlo], and the target frontier is not above the source
    frontier. *)
Inductive slide : HeapWord → HeapWord → list move → Prop :=
  | slide_nil slo tlo : tlo ≤ slo → slide slo tlo []
  | slide_snoc slo tlo mv p t s slo' tlo' :
      slide slo tlo mv →
      slo + ws ≤ p → tlo + ws ≤ t → t ≤ p → 0 < s →
      p + s ≤ slo' → t + s ≤ tlo' → tlo' ≤ slo' →
      slide slo' tlo' (mv ++ [(p, t, s)]).

(** The heap words after the planned targets have been written to the
    forwarding words. *)
Definition planned_mem (mv : list move) (m : HeapWord → Z) : HeapWord → Z :=
  foldl (λ m '(p, t, _), BrooksPointer.set_raw p t m) m mv.
End SlidingTerms.

Section PlannerTerms.
Context `{!KlassModel}.
Import ShenandoahPrepareForCompactionObjectClosure.
Local Abbreviation ws := BrooksPointer.word_size.

(** The state of the planner while it walks the from-region [f] of the
    slice [M], every object below [lo] done, [mv] being the moves planned
    so far on the heap [h0] the worker started from. The target region is
    never above the from-region; the compact point lies in the target
    region and never above the next source; the empty regions still to be
    used lie strictly between the two, in increasing order. *)
Record plan_inv (h0 : ShenandoahHeap) (M : list nat) (f : nat) (lo : HeapWord)
    (mv : list move) (cl : t) : Prop := {
  pi_shape : same_shape h0 (_heap cl);
  pi_from : _from_region cl = Some f;
  pi_to_le : (_to_region cl ≤ f)%nat;
  pi_to_in : _to_region cl ∈ M;
  pi_cp_lo : bottom (rgn h0 (_to_region cl)) ≤ _compact_point cl;
  pi_cp_hi : _compact_point cl ≤ end_ (rgn h0 (_to_region cl));
  pi_lo_lo : bottom (rgn h0 f) ≤ lo;
  pi_lo_hi : lo ≤ end_ (rgn h0 f);
  pi_idx : (current_index (_empty_regions cl)
            ≤ length (set_regions (_empty_regions cl)))%nat;
  pi_empty : Forall (λ e, (_to_region cl < e < f)%nat ∧ e ∈ M)
                    (remaining (_empty_regions cl));
  pi_sorted : StronglySorted Nat.lt (remaining (_empty_regions cl));
  pi_slide : slide lo (_compact_point cl) mv;
  pi_mem : ∀ a, mem (_heap cl) a = planned_mem mv (mem h0) a;
  pi_sizes : Forall (λ '(p, _, s), s = obj_size (mem h0) p) mv;
  pi_inreg : Forall (λ '(_, t, s),
                       ∃ r, r ∈ M ∧ bottom (rgn h0 r) + ws ≤ t
                            ∧ t + s ≤ end_ (rgn h0 r)) mv
}.
End PlannerTerms.

Section PlanningTerms.
Context `{!KlassModel}.
Import ShenandoahPrepareForCompactionObjectClosure.
Import ShenandoahPrepareForCompactionTask.
Local Abbreviation ws := BrooksPointer.word_size.

(** The regions of a view the planner may move, on heap [h]. *)
Definition movable (h : ShenandoahHeap) (view : list nat) : list nat :=
  filter (λ i, is_move_allowed (rgn h i) = true) view.

(** The planner state after the worker has planned the movable regions
    [r0 :: Ms] of its view. *)
Definition planned (h : ShenandoahHeap) (r0 : nat) (Ms : list nat) : t :=
  foldl (λ cl r, plan_region r cl) (new h new_region_set r0) (r0 :: Ms).

Definition sources (mv : list move) : list HeapWord := (λ x : move, x.1.1) <$> mv.

(** The state of the planner between two from-regions, [f] being the
    last one walked. *)
Record plan_fin (h0 : ShenandoahHeap) (M : list nat) (f : nat)
    (mv : list move) (cl : t) : Prop := {
  pf_shape : same_shape h0 (_heap cl);
  pf_to_le : (_to_region cl ≤ f)%nat;
  pf_to_in : _to_region cl ∈ M;
  pf_cp_lo : bottom (rgn h0 (_to_region cl)) ≤ _compact_point cl;
  pf_cp_hi : _compact_point cl ≤ end_ (rgn h0 (_to_region cl));
  pf_idx : (current_index (_empty_regions cl)
            ≤ length (set_regions (_empty_regions cl)))%nat;
  pf_empty : Forall (λ e, (_to_region cl < e ≤ f)%nat ∧ e ∈ M)
                    (remaining (_empty_regions cl));
  pf_sorted : StronglySorted Nat.lt (remaining (_empty_regions cl));
  pf_slide : slide (end_ (rgn h0 f)) (_compact_point cl) mv;
  pf_mem : ∀ a, mem (_heap cl) a = planned_mem mv (mem h0) a;
  pf_sizes : Forall (λ '(p, _, s), s = obj_size (mem h0) p) mv;
  pf_inreg : Forall (λ '(_, t, s),
                       ∃ r, r ∈ M ∧ bottom (rgn h0 r) + ws ≤ t
                            ∧ t + s ≤ end_ (rgn h0 r)) mv
}.

(** The planner of a worker at the time it is handed an object: the
    worker has walked the movable regions [Ms1] of its view, has set the
    from-region to [f], and has planned the live objects [L1] of [f]
    that come before the object. The first target is the first region
    walked. *)
Definition planning_state (h : ShenandoahHeap) (Ms1 : list nat) (f : nat)
    (L1 : list HeapWord) : t :=
  foldl (λ cl p, do_object p cl)
        (set_from_region f
           (foldl (λ cl r, plan_region r cl) (new h new_region_set (hd f Ms1)) Ms1))
        L1.

(** The slice of worker [w]: the movable regions among its claims. *)
Definition slice_of (h : ShenandoahHeap) (owner : nat → nat) (w : nat) : list nat :=
  movable h (claims_of owner (num_regions h) w).

(** The plan of a slice on heap [h2]: the moves of the live objects of
    its regions, in the order they are walked, slide; every move has the
    size of its object, its target is in the forwarding word, and its
    target extent lies in a region of the slice. *)
Definition slice_plan (h h2 : ShenandoahHeap) (Ms : list nat) (mv : list move) : Prop :=
  (∃ slo tlo, slide slo tlo mv)
  ∧ sources mv = (r ← Ms; live_objects h r)
  ∧ Forall (λ '(p, t, s),
              s = obj_size (mem h) p ∧ BrooksPointer.get_raw (mem h2) p = t
              ∧ ∃ r, r ∈ Ms ∧ bottom (rgn h r) + ws ≤ t ∧ t + s ≤ end_ (rgn h r)) mv.

(** The gang after its first [k] workers have planned. *)
Record gang_planned (h : ShenandoahHeap) (owner : nat → nat)
    (slices : list ShenandoahHeapRegionSet) (k : nat)
    (s : ShenandoahHeap * list ShenandoahHeapRegionSet) : Prop := {
  gp_shape : same_shape h s.1;
  gp_len : length s.2 = length slices;
  gp_frame : ∀ a,
    (∀ i p, (i < num_regions h)%nat → (owner i < k)%nat →
            is_move_allowed (rgn h i) = true → p ∈ live_objects h i →
            a ≠ p + BrooksPointer.word_offset) →
    mem s.1 a = mem h a;
  gp_done : ∀ w, (w < k)%nat →
    set_regions (s.2 !!! w) = set_regions (slices !!! w) ++ slice_of h owner w
    ∧ current_index (s.2 !!! w) = current_index (slices !!! w)
    ∧ ∃ mv, slice_plan h s.1 (slice_of h owner w) mv;
  gp_todo : ∀ w, (k ≤ w)%nat → s.2 !!! w = slices !!! w
}.

(** The objects handed to the planner by the gang, worker after worker
    in the order each walks its slice. *)
Definition planned_objects (h : ShenandoahHeap) (owner : nat → nat) (nworkers : nat)
  : list HeapWord :=
  w ← seq 0 nworkers; r ← slice_of h owner w; live_objects h r.
End PlanningTerms.

Section CompactionTerms.
Context `{!KlassModel}.

(** What [ShenandoahCompactObjectsClosure::do_object] does to the heap
    words. *)
Definition compact_mem (p : HeapWord) (m : HeapWord → Z) : HeapWord → Z :=
  let size := obj_size m p in
  let compact_to := BrooksPointer.get_raw m p in
  BrooksPointer.initialize compact_to
    (if decide (p ≠ compact_to) then aligned_conjoint_words p compact_to size m else m).
End CompactionTerms.

Section AdjustTerms.
Context `{!KlassModel}.

(** What a reference becomes: NULL stays NULL, an object becomes its
    forwardee. *)
Definition forwardee (m : HeapWord → Z) (v : Z) : Z :=
  if decide (v ≠ 0) then BrooksPointer.get_raw m v else v.

(** The reference fields of the object at [p]. *)
Definition slots_of (m : HeapWord → Z) (p : HeapWord) : list HeapWord :=
  (λ off, p + off) <$> klass_oop_offsets (m p).

(** The objects a worker of the adjust task visits, in order. *)
Definition adjust_objects (h : ShenandoahHeap) (view : list nat) : list HeapWord :=
  r ← view; if is_humongous_continuation (rgn h r) then [] else live_objects h r.

(** The objects the gang of the adjust task visits. *)
Definition adjusted_objects (h : ShenandoahHeap) (owner : nat → nat) (nworkers : nat)
  : list HeapWord :=
  w ← seq 0 nworkers; adjust_objects h (claims_of owner (num_regions h) w).
End AdjustTerms.

(** Two heaps with the same region table but for the tops of the regions
    [R], and the same mark bitmap. *)
Definition same_but_tops (R : list nat) (h h' : ShenandoahHeap) : Prop :=
  complete_mark_bit_map h' = complete_mark_bit_map h
  ∧ (∀ i, set_top 0 (rgn h' i) = set_top 0 (rgn h i))
  ∧ (∀ i, i ∉ R → rgn h' i = rgn h i).

Section GangCompactionTerms.
Local Abbreviation ws := BrooksPointer.word_size.

(** The extents of two moves of different workers: neither target meets
    the other's source or target. *)
Definition apart (x y : move) : Prop :=
  let '(p1, t1, s1) := x in
  let '(p2, t2, s2) := y in
  (t1 + s1 ≤ p2 - ws ∨ p2 + s2 ≤ t1 - ws) ∧ (t1 + s1 ≤ t2 - ws ∨ t2 + s2 ≤ t1 - ws).
End GangCompactionTerms.

(** The heap and the slices after planning, the heap after adjusting, and
    the heap after moving, from the heap [h] on which planning starts. *)
Definition plan_phase `{!KlassModel} (sch : Schedule) (h : ShenandoahHeap)
  : ShenandoahHeap * list ShenandoahHeapRegionSet :=
  prepare_for_compaction (plan_owner sch) (nworkers sch)
                         (h, replicate (max_workers sch) new_region_set).

Definition adjust_phase `{!KlassModel} (sch : Schedule) (rp : list HeapWord)
    (h : ShenandoahHeap) : ShenandoahHeap :=
  phase3_update_references rp (adjust_owner sch) (nworkers sch) (plan_phase sch h).1.

Definition move_phase `{!KlassModel} (sch : Schedule) (rp : list HeapWord)
    (h : ShenandoahHeap) : ShenandoahHeap :=
  compact_objects (nworkers sch) (plan_phase sch h).2 (adjust_phase sch rp h).

(** Where planning sends an object: the forwarding word it leaves. *)
Definition new_address `{!KlassModel} (sch : Schedule) (h : ShenandoahHeap) (p : HeapWord)
  : HeapWord :=
  BrooksPointer.get_raw (mem (plan_phase sch h).1) p.

Section PipelineTerms.
Context `{!KlassModel}.
Variables (h : ShenandoahHeap) (sch : Schedule) (rp : list HeapWord).
Local Abbreviation size := (obj_size (mem h)).

(** The moves of worker [w]: the live objects of its slice in the order
    they are walked, each with its planned target and its size. *)
Definition moves_of (w : nat) : list move :=
  (λ p, (p, new_address sch h p, size p))
    <$> (r ← slice_of h (plan_owner sch) w; live_objects h r).

(** The slots the gang adjusts, roots first. *)
Definition adjusted_slots : list HeapWord :=
  rp ++ (p ← adjusted_objects h (adjust_owner sch) (nworkers sch); slots_of (mem h) p).
End PipelineTerms.

(** What [heap_region_do] makes of the region it is handed. *)
Definition post_region (r : ShenandoahHeapRegion) : ShenandoahHeapRegion :=
  let live := used r in
  let r1 := if is_cset r && negb (live =? 0) then make_regular_bypass r else r in
  let r2 := if (is_regular r1 || is_cset r1) && (live =? 0) then make_trash r1 else r1 in
  if is_trash r2 then set_live_data 0 (recycle r2) else set_live_data live r2.

Definition post_free (i : nat) (h : ShenandoahHeap) : ShenandoahHeap :=
  if is_alloc_allowed (post_region (rgn h i)) then
    add_free_region i (with_collection_set (collection_set h ∖ {[i]}) h)
  else h.

(** The sum of the live data of the regions. *)
Definition total_live (rs : list ShenandoahHeapRegion) : Z :=
  foldr (λ r a, live_data r + a) 0 rs.

(** The number of continuation regions of the humongous object that
    starts in region [i]. *)
Definition humongous_extent (h : ShenandoahHeap) (i : nat) : nat :=
  continuation_run (drop (S i) (regions h)).

(** A humongous start whose head object is not marked. *)
Definition dead_humongous_start (h : ShenandoahHeap) (i : nat) : bool :=
  is_humongous_start (rgn h i)
  && negb (is_marked_complete h (bottom (rgn h i) + BrooksPointer.word_size)).

(** Region [j] belongs to a dead humongous object that starts below [k]. *)
Definition reclaimed (h : ShenandoahHeap) (k j : nat) : Prop :=
  Exists (λ i, dead_humongous_start h i = true
               ∧ (i ≤ j ≤ i + humongous_extent h i)%nat) (seq 0 k).


(** * A heap to run the collector on

    Four regions of ten words. Region 0 holds the live objects [A] at 1 and
    [C] at 7 with a dead object between them, region 1 holds the live
    object [D] at 11 and a dead object, and regions 2 and 3 hold a live
    humongous object at 21. [A], [C] and [D] refer to each other; three root
    slots above the heap refer to [D], to the humongous object and to
    nothing. Two workers share the regions. *)

Module SmallHeap.
Import ShenandoahPrepareForCompactionObjectClosure.

(** Class 1: two words, a reference in word 1. Class 2: three words,
    references in words 1 and 2. Class 3: two words, no reference.
    Class 9: fifteen words, no reference. *)
#[local] Instance klasses : KlassModel := {|
  klass_size k :=
    match k with 1 => 2 | 2 => 3 | 3 => 2 | 9 => 15 | _ => 0 end;
  klass_oop_offsets k :=
    match k with 1 => [1] | 2 => [1; 2] | _ => [] end
|}.

Definition words : HeapWord → Z := λ a,
  match a with
  | 0 => 1 | 1 => 1 | 2 => 11
  | 3 => 4 | 4 => 3
  | 6 => 7 | 7 => 1 | 8 => 1
  | 10 => 11 | 11 => 2 | 12 => 7 | 13 => 0
  | 14 => 15 | 15 => 3
  | 20 => 21 | 21 => 9
  | 50 => 11 | 51 => 21
  | _ => 0
  end.

Definition region (b t : HeapWord) (s : RegionState) : ShenandoahHeapRegion :=
  mkRegion b t (b + 10) b s 0 b.

Definition heap : ShenandoahHeap :=
  mkHeap [region 0 9 regular; region 10 17 cset;
          region 20 30 humongous_start; region 30 36 humongous_continuation]
         words {[1; 7; 11; 21]} ∅ ∅ {[1%nat]} [] 0.

Definition roots : list HeapWord := [50; 51; 52].

Definition gang : Schedule :=
  mkSchedule 2 2 (λ i, (i / 2)%nat) (λ i, (i mod 2)%nat).

(** The heap on which planning starts. *)
Definition swept : ShenandoahHeap := ensure_heap_active (reclaim_humongous heap).

(** The planner at the first object of region 0, and at the second. *)
Definition planner0 : t := set_from_region 0 (new swept new_region_set 0).
Definition planner1 : t := do_object 1 planner0.

(** The heap with region 1 left as trash by an earlier cycle. *)
Definition heap_with_trash : ShenandoahHeap :=
  upd_region 1 (λ r, make_trash (set_top (bottom r) r)) heap.

(** The heap after the objects have moved, before post-compact. *)
Definition moved : ShenandoahHeap := move_phase gang roots swept.

(** The heap when the humongous object was not reached by marking. *)
Definition heap_dead_humongous : ShenandoahHeap :=
  mkHeap (regions heap) words {[1; 7; 11]} ∅ ∅ {[1%nat]} [] 0.
End SmallHeap.


(** * More vocabulary: packed regions *)

(** The cursor of a region set is within the set. *)
Definition cursor_ok (s : ShenandoahHeapRegionSet) : Prop :=
  (current_index s ≤ length (set_regions s))%nat.

(** The sum of [f] over a list. *)
Definition sum_over {A} (f : A → Z) (l : list A) : Z := foldr (λ x a, f x + a) 0 l.

Section PackingTerms.
Local Abbreviation ws := BrooksPointer.word_size.

(** The target of the move [x] lies in region [d]. *)
Definition lands_in (h : ShenandoahHeap) (d : nat) (x : move) : Prop :=
  bottom (rgn h d) ≤ x.1.2 < end_ (rgn h d).

#[global] Instance lands_in_dec h d x : Decision (lands_in h d x).
Proof. unfold lands_in. apply _. Defined.

(** The moves of a plan whose targets lie in region [d], in the order of
    the plan. *)
Definition targets_in (h : ShenandoahHeap) (d : nat) (mv : list move) : list move :=
  filter (lands_in h d) mv.

(** [packs lo g hi]: the targets of the moves [g] follow each other from
    [lo] to [hi] without a gap, each behind its forwarding word. *)
Fixpoint packs (lo : HeapWord) (g : list move) (hi : HeapWord) : Prop :=
  match g with
  | [] => hi = lo
  | (_, t, s) :: g' => t = lo + ws ∧ packs (t + s) g' hi
  end.

(** The words the moves [g] take at their targets, forwarding words
    included. *)
Definition footprint (g : list move) : Z := sum_over (λ x : move, x.2 + ws) g.
End PackingTerms.

Section WalkTerms.
Context `{!KlassModel}.
Local Abbreviation ws := BrooksPointer.word_size.

(** [dense_chain m lo L hi]: a walk through the heap words [m] that
    starts at [lo], finds each object behind its forwarding word and
    steps over it by the size its class word gives, visits exactly the
    objects [L] and stops at [hi]. *)
Fixpoint dense_chain (m : HeapWord → Z) (lo : HeapWord) (L : list HeapWord)
    (hi : HeapWord) : Prop :=
  match L with
  | [] => hi = lo
  | q :: L' => q = lo + ws ∧ dense_chain m (q + obj_size m q) L' hi
  end.
End WalkTerms.

Section PackingInvariants.
Context `{!KlassModel}.
Import ShenandoahPrepareForCompactionObjectClosure.

(** The planner while it walks the from-region [f], the regions [Pd]
    walked before: the targets planned into the current target region
    are packed up to the compact point; a region walked before that is
    neither the target nor waiting in the empty regions was a target
    and is packed up to its planned top; nothing has been planned into
    the regions that wait, nor into the from-region unless it is the
    target; and no region outside [Pd] and [f] has been written. *)
Record packing (h0 : ShenandoahHeap) (Pd : list nat) (f : nat) (mv : list move)
    (cl : t) : Prop := {
  pk_cur : packs (bottom (rgn h0 (_to_region cl))) (targets_in h0 (_to_region cl) mv)
                 (_compact_point cl);
  pk_done : ∀ d, d ∈ Pd → d ≠ _to_region cl → d ∉ remaining (_empty_regions cl) →
                 packs (bottom (rgn h0 d)) (targets_in h0 d mv)
                       (new_top (rgn (_heap cl) d));
  pk_free : ∀ d, d ∈ remaining (_empty_regions cl) → targets_in h0 d mv = [];
  pk_rem : ∀ d, d ∈ remaining (_empty_regions cl) → d ∈ Pd;
  pk_from : _to_region cl ≠ f → targets_in h0 f mv = [];
  pk_to : _to_region cl ∈ Pd ∨ _to_region cl = f;
  pk_frame : ∀ d, d ∉ Pd → d ≠ f → rgn (_heap cl) d = rgn h0 d;
  pk_range : Forall (λ d, (d < num_regions h0)%nat) Pd
}.

(** The planner between two from-regions, the regions [Pd] walked. *)
Record packed (h0 : ShenandoahHeap) (Pd : list nat) (mv : list move) (cl : t)
  : Prop := {
  pd_cur : packs (bottom (rgn h0 (_to_region cl))) (targets_in h0 (_to_region cl) mv)
                 (_compact_point cl);
  pd_done : ∀ d, d ∈ Pd → d ≠ _to_region cl → d ∉ remaining (_empty_regions cl) →
                 packs (bottom (rgn h0 d)) (targets_in h0 d mv)
                       (new_top (rgn (_heap cl) d));
  pd_free : ∀ d, d ∈ remaining (_empty_regions cl) → targets_in h0 d mv = [];
  pd_rem : ∀ d, d ∈ remaining (_empty_regions cl) → d ∈ Pd;
  pd_to : _to_region cl ∈ Pd;
  pd_frame : ∀ d, d ∉ Pd → rgn (_heap cl) d = rgn h0 d;
  pd_range : Forall (λ d, (d < num_regions h0)%nat) Pd
}.
End PackingInvariants.

Section PlanTerms.
Context `{!KlassModel}.

(** The plan of the regions [Ms] as the heap [h2] holds it: the live
    objects of the regions on heap [h], each with the target in its
    forwarding word on [h2] and its size. *)
Definition plan_of (h h2 : ShenandoahHeap) (Ms : list nat) : list move :=
  (λ p, (p, BrooksPointer.get_raw (mem h2) p, obj_size (mem h) p))
    <$> (r ← Ms; live_objects h r).
End PlanTerms.

Section DenseTerms.
Context `{!KlassModel}.

(** The live objects planned into region [d], in the order the worker
    that claimed [d] walks them: the objects of its slice whose new
    address lies in [d]. *)
Definition planned_into (sch : Schedule) (h : ShenandoahHeap) (d : nat) : list HeapWord :=
  filter (λ p, bottom (rgn h d) ≤ new_address sch h p < end_ (rgn h d))
         (r ← slice_of h (plan_owner sch) (plan_owner sch d); live_objects h r).
End DenseTerms.

Section AlikeTerms.
Context `{!KlassModel}.
Import ShenandoahPrepareForCompactionObjectClosure.

(** Two planners at the same point of the same walk, on two heaps that
    have the shape and the class words of [h]: they agree on the target
    region, the compact point and the empty regions, and on the
    forwarding words of the objects [Q] planned so far. *)
Record alike (h : ShenandoahHeap) (Q : list HeapWord) (cl cl' : t) : Prop := {
  al_to : _to_region cl = _to_region cl';
  al_from : _from_region cl = _from_region cl';
  al_cp : _compact_point cl = _compact_point cl';
  al_empty : _empty_regions cl = _empty_regions cl';
  al_shape : same_shape h (_heap cl);
  al_shape' : same_shape h (_heap cl');
  al_klass : ∀ p, p ∈ all_objects h → mem (_heap cl) p = mem h p;
  al_klass' : ∀ p, p ∈ all_objects h → mem (_heap cl') p = mem h p;
  al_fwd : ∀ q, q ∈ Q →
    BrooksPointer.get_raw (mem (_heap cl)) q = BrooksPointer.get_raw (mem (_heap cl')) q
}.
End AlikeTerms.


(** * Properties *)

(** ** Region table bookkeeping *)

Lemma num_regions_upd_region i f h : num_regions (upd_region i f h) = num_regions h.
Proof. unfold num_regions, upd_region; simpl. apply length_alter. Qed.

Lemma rgn_upd_region_eq i f h :
  (i < num_regions h)%nat → rgn (upd_region i f h) i = f (rgn h i).
Proof. intros Hi. unfold rgn, upd_region; simpl. by apply list_lookup_total_alter_eq. Qed.

Lemma rgn_upd_region_ne i j f h : i ≠ j → rgn (upd_region i f h) j = rgn h j.
Proof. intros Hij. unfold rgn, upd_region; simpl. by apply list_lookup_total_alter_ne. Qed.

Lemma rgn_lookup h i r : regions h !! i = Some r → rgn h i = r.
Proof. intros H. unfold rgn. by rewrite list_lookup_total_alt, H. Qed.

Lemma rgn_fmap (g : ShenandoahHeapRegion → ShenandoahHeapRegion) (rs : list ShenandoahHeapRegion) i :
  (i < length rs)%nat → (g <$> rs) !!! i = g (rs !!! i).
Proof.
  intros [r Hr]%lookup_lt_is_Some_2.
  by rewrite !list_lookup_total_alt, list_lookup_fmap, Hr.
Qed.

Lemma list_alter_oob {A} (f : A → A) (l : list A) (i : nat) :
  (length l ≤ i)%nat → alter f i l = l.
Proof.
  intros Hi. apply list_eq. intros j. rewrite list_lookup_alter.
  case_decide; [subst|done]. by rewrite (lookup_ge_None_2 l j).
Qed.

Lemma list_alter_same {A} (f : A → A) (l : list A) (i : nat) :
  (∀ x, l !! i = Some x → f x = x) → alter f i l = l.
Proof.
  intros Hf. apply list_eq. intros j. rewrite list_lookup_alter.
  case_decide; [subst|done]. destruct (l !! j) eqn:E; simpl; [|done]. by rewrite Hf.
Qed.

(** A closure that only mutates the region it is handed maps the table. *)
Lemma foldl_alter_seq {S} (rs_of : S → list ShenandoahHeapRegion)
    (f : nat → S → S) (g : ShenandoahHeapRegion → ShenandoahHeapRegion) (n : nat) (s : S) :
  (∀ i s, rs_of (f i s) = alter g i (rs_of s)) →
  rs_of (foldl (λ s i, f i s) s (seq 0 n)) = (g <$> take n (rs_of s)) ++ drop n (rs_of s).
Proof.
  intros Hf. induction n as [|n IH]; [by rewrite take_0, drop_0|].
  rewrite seq_S, foldl_snoc, Hf, IH. simpl.
  destruct (decide (n < length (rs_of s))%nat) as [Hn|Hn].
  - destruct (lookup_lt_is_Some_2 _ _ Hn) as [r Hr].
    rewrite (take_S_r _ _ _ Hr), (drop_S _ _ _ Hr), fmap_app. simpl.
    rewrite alter_app_r_alt by (rewrite length_fmap, length_take; lia).
    rewrite length_fmap, length_take.
    replace (n - n `min` length (rs_of s))%nat with 0%nat by lia.
    simpl. by rewrite <- app_assoc.
  - rewrite !take_ge, !drop_ge by lia. rewrite !app_nil_r.
    apply list_alter_oob. rewrite length_fmap. lia.
Qed.

Lemma heap_region_iterate_alter {S} (rs_of : S → list ShenandoahHeapRegion)
    (f : nat → S → S) (g : ShenandoahHeapRegion → ShenandoahHeapRegion) (s : S) :
  (∀ i s, rs_of (f i s) = alter g i (rs_of s)) →
  rs_of (heap_region_iterate (length (rs_of s)) f s) = g <$> rs_of s.
Proof.
  intros Hf. unfold heap_region_iterate.
  rewrite (foldl_alter_seq rs_of f g _ _ Hf), take_ge, drop_ge by lia.
  apply app_nil_r.
Qed.

(** ** Prepare *)

Lemma ensure_active_region_active r : is_active (ensure_active_region r) = true.
Proof. destruct r as [b t e n s l c]. by destruct s. Qed.

Lemma ensure_active_region_trash r :
  is_trash r = true → ensure_active_region r = make_regular_bypass (recycle r).
Proof. destruct r as [b t e n s l c]. by destruct s. Qed.

Lemma ensure_active_region_empty_uncommitted r :
  is_empty_uncommitted r = true →
  ensure_active_region r = make_regular_bypass r ∧ state (ensure_active_region r) = regular.
Proof. destruct r as [b t e n s l c]. by destruct s. Qed.

Lemma ensure_heap_active_do_regions i h :
  regions (ShenandoahEnsureHeapActiveClosure.heap_region_do i h)
  = alter ensure_active_region i (regions h).
Proof.
  unfold ShenandoahEnsureHeapActiveClosure.heap_region_do.
  destruct (decide (i < num_regions h)%nat) as [Hi|Hi].
  - unfold ensure_active_region.
    destruct (is_trash (rgn h i)) eqn:Ht.
    + rewrite rgn_upd_region_eq by done.
      replace (is_empty (recycle (rgn h i))) with true by done.
      simpl. rewrite list_alter_alter_eq. apply list_alter_ext; [|done].
      intros r Hr. apply (rgn_lookup h) in Hr. rewrite <- Hr, Ht. simpl.
      by replace (is_empty (recycle (rgn h i))) with true by done.
    + destruct (is_empty (rgn h i)) eqn:He; simpl.
      * apply list_alter_ext; [|done].
        intros r Hr. apply (rgn_lookup h) in Hr. by rewrite <- Hr, Ht, He.
      * symmetry. apply list_alter_same.
        intros r Hr. apply (rgn_lookup h) in Hr. by rewrite <- Hr, Ht, He.
  - rewrite (list_alter_oob _ (regions h)) by (unfold num_regions in Hi; lia).
    repeat case_match; simpl; rewrite ?list_alter_oob; try done;
      simpl; rewrite ?length_alter; unfold num_regions in Hi; lia.
Qed.

Lemma clear_region_status_do_regions i h :
  regions (ShenandoahClearRegionStatusClosure.heap_region_do i h)
  = alter clear_status_region i (regions h).
Proof.
  unfold ShenandoahClearRegionStatusClosure.heap_region_do. simpl.
  by rewrite list_alter_alter_eq.
Qed.

Lemma clear_region_status_do_tams i h :
  next_top_at_mark_start (ShenandoahClearRegionStatusClosure.heap_region_do i h)
  = <[i := top (rgn h i)]> (next_top_at_mark_start h).
Proof. done. Qed.

Lemma regions_ensure_heap_active h :
  regions (ensure_heap_active h) = ensure_active_region <$> regions h.
Proof.
  apply (heap_region_iterate_alter regions). apply ensure_heap_active_do_regions.
Qed.

Lemma regions_clear_region_status h :
  regions (clear_region_status h) = clear_status_region <$> regions h.
Proof.
  apply (heap_region_iterate_alter regions). apply clear_region_status_do_regions.
Qed.

(** While clearing, the slot of every region already visited holds the top
    of that region, and the tops are not touched. *)
Lemma clear_region_status_tams_prefix h (n : nat) :
  (∀ j, top (rgn (foldl (λ s i, ShenandoahClearRegionStatusClosure.heap_region_do i s) h
                        (seq 0 n)) j) = top (rgn h j))
  ∧ (∀ j, (j < n)%nat →
       next_top_at_mark_start
         (foldl (λ s i, ShenandoahClearRegionStatusClosure.heap_region_do i s) h (seq 0 n))
         !! j = Some (top (rgn h j))).
Proof.
  induction n as [|n [IH1 IH2]]; [split; [done|lia]|].
  rewrite seq_S, foldl_snoc. change (0 + n)%nat with n.
  set (h' := foldl _ h (seq 0 n)) in *. split.
  - intros j. rewrite <- IH1. unfold rgn at 1.
    rewrite clear_region_status_do_regions.
    rewrite list_lookup_total_alter. case_decide as Hc; [|done].
    destruct Hc as [-> _]. done.
  - intros j Hj. rewrite clear_region_status_do_tams.
    destruct (decide (j = n)) as [->|Hne].
    + by rewrite lookup_insert_eq, IH1.
    + rewrite lookup_insert_ne by done. apply IH2. lia.
Qed.

(** C7. Prepare, under the heap lock: a trash region is recycled, an
    empty_uncommitted region is promoted to regular, every region is active
    when the closure asserts it and when the pass is over; then the
    next-top-at-mark-start of every region is its current top, its live data
    is cleared and its concurrent-iteration safe limit is its top. *)
Theorem prepare_makes_active_and_resets_marks (h : ShenandoahHeap) (i : nat) :
  (i < num_regions h)%nat →
  let r := rgn h i in
  let h1 := ensure_heap_active h in
  let h2 := prepare_regions h in
  (is_trash r = true → rgn h1 i = make_regular_bypass (recycle r))
  ∧ (is_empty_uncommitted r = true →
       rgn h1 i = make_regular_bypass r ∧ state (rgn h1 i) = regular)
  ∧ (∀ h', (i < num_regions h')%nat →
       let h'' := ShenandoahEnsureHeapActiveClosure.heap_region_do i h' in
       ShenandoahEnsureHeapActiveClosure.assert_active i h'' = true)
  ∧ is_active (rgn h1 i) = true
  ∧ next_top_at_mark_start h2 !! i = Some (top (rgn h1 i))
  ∧ top (rgn h2 i) = top (rgn h1 i)
  ∧ live_data (rgn h2 i) = 0
  ∧ concurrent_iteration_safe_limit (rgn h2 i) = top (rgn h2 i).
Proof.
  intros Hi r h1 h2.
  assert (Hr1 : rgn h1 i = ensure_active_region r).
  { unfold rgn, h1. rewrite regions_ensure_heap_active. by apply rgn_fmap. }
  assert (Hn1 : num_regions h1 = num_regions h).
  { unfold num_regions, h1. by rewrite regions_ensure_heap_active, length_fmap. }
  assert (Hr2 : rgn h2 i = clear_status_region (rgn h1 i)).
  { unfold rgn, h2, prepare_regions. rewrite regions_clear_region_status.
    apply rgn_fmap. fold (num_regions h1). lia. }
  repeat split.
  - intros Ht. rewrite Hr1. by apply ensure_active_region_trash.
  - rewrite Hr1. by apply ensure_active_region_empty_uncommitted.
  - rewrite Hr1. by apply ensure_active_region_empty_uncommitted.
  - intros h' Hi'. simpl. unfold ShenandoahEnsureHeapActiveClosure.assert_active, rgn.
    rewrite ensure_heap_active_do_regions, list_lookup_total_alter_eq by done.
    apply ensure_active_region_active.
  - rewrite Hr1. apply ensure_active_region_active.
  - unfold h2, prepare_regions, clear_region_status, heap_region_iterate.
    fold h1. apply (clear_region_status_tams_prefix h1 (num_regions h1)). lia.
  - by rewrite Hr2.
  - by rewrite Hr2.
  - by rewrite Hr2.
Qed.


(** ** Phase 2: the placement rule *)

Import ShenandoahPrepareForCompactionObjectClosure.

Lemma rgn_upd_region i j f h :
  rgn (upd_region i f h) j
  = if decide (i = j ∧ (i < num_regions h)%nat) then f (rgn h i) else rgn h j.
Proof. unfold rgn, upd_region; simpl. apply list_lookup_total_alter. Qed.

Lemma bottom_upd_new_top i j v h :
  bottom (rgn (upd_region i (set_new_top v) h) j) = bottom (rgn h j).
Proof. rewrite rgn_upd_region. case_decide as Hc; [destruct Hc as [-> _]|]; done. Qed.

Lemma end_upd_new_top i j v h :
  end_ (rgn (upd_region i (set_new_top v) h) j) = end_ (rgn h j).
Proof. rewrite rgn_upd_region. case_decide as Hc; [destruct Hc as [-> _]|]; done. Qed.

Lemma get_raw_set_raw_eq p v m : BrooksPointer.get_raw (BrooksPointer.set_raw p v m) p = v.
Proof. unfold BrooksPointer.get_raw, BrooksPointer.set_raw. by rewrite decide_True. Qed.

Lemma get_raw_set_raw_ne p q v m :
  p ≠ q → BrooksPointer.get_raw (BrooksPointer.set_raw p v m) q = BrooksPointer.get_raw m q.
Proof.
  intros Hne. unfold BrooksPointer.get_raw, BrooksPointer.set_raw.
  rewrite decide_False; [done|]. unfold BrooksPointer.word_offset. lia.
Qed.

Lemma advance_to_region_spec cl :
  let cl1 := advance_to_region cl in
  _heap cl1 = upd_region (_to_region cl) (set_new_top (_compact_point cl)) (_heap cl)
  ∧ _empty_regions cl1 = (current_then_next (_empty_regions cl)).2
  ∧ _to_region cl1 = next_to_region cl
  ∧ _from_region cl1 = _from_region cl
  ∧ _compact_point cl1 = bottom (rgn (_heap cl) (next_to_region cl)).
Proof.
  unfold advance_to_region, next_to_region. simpl.
  destruct (current_then_next (_empty_regions cl)) as [[r|] er]; simpl;
    by rewrite bottom_upd_new_top.
Qed.

(** C1. The placement rule of [do_object]. With footprint
    [s = p->size() + word_size]: when [compact_point + s <= to_region.end]
    the forwarding word of [p] becomes [compact_point + word_size] and the
    compact point advances by [s], the target region staying what it was;
    otherwise the old target is finished with [new_top = compact_point], the
    new target is the region popped from the empty regions, or the
    from-region when none is left, and the object is placed from the bottom
    of the new target. *)
Theorem do_object_placement `{!KlassModel} (p : HeapWord) (cl : t) (from_region : nat) :
  (_to_region cl < num_regions (_heap cl))%nat →
  _from_region cl = Some from_region →
  let s := obj_size (mem (_heap cl)) p + BrooksPointer.word_size in
  let cl' := do_object p cl in
  (_compact_point cl + s ≤ end_ (rgn (_heap cl) (_to_region cl)) →
     BrooksPointer.get_raw (mem (_heap cl')) p = _compact_point cl + BrooksPointer.word_size
     ∧ _compact_point cl' = _compact_point cl + s
     ∧ _to_region cl' = _to_region cl
     ∧ _empty_regions cl' = _empty_regions cl
     ∧ regions (_heap cl') = regions (_heap cl))
  ∧ (¬ _compact_point cl + s ≤ end_ (rgn (_heap cl) (_to_region cl)) →
     let popped := (current_then_next (_empty_regions cl)).1 in
     let new_to_region := match popped with Some r => r | None => from_region end in
     new_top (rgn (_heap cl') (_to_region cl)) = _compact_point cl
     ∧ _to_region cl' = new_to_region
     ∧ _empty_regions cl' = (current_then_next (_empty_regions cl)).2
     ∧ _compact_point (advance_to_region cl) = bottom (rgn (_heap cl) new_to_region)
     ∧ BrooksPointer.get_raw (mem (_heap cl')) p
       = bottom (rgn (_heap cl) new_to_region) + BrooksPointer.word_size
     ∧ _compact_point cl' = bottom (rgn (_heap cl) new_to_region) + s).
Proof.
  intros Hto Hfrom s cl'. split.
  - intros Hfit. unfold cl', do_object. fold s.
    rewrite decide_False by lia. simpl.
    by rewrite get_raw_set_raw_eq.
  - intros Hover popped new_to_region. subst popped new_to_region.
    destruct (advance_to_region_spec cl) as (Hh & He & Ht & Hf & Hc).
    assert (Hnext : next_to_region cl
                    = match (current_then_next (_empty_regions cl)).1 with
                      | Some r => r | None => from_region end).
    { unfold next_to_region. by rewrite Hfrom. }
    rewrite <- Hnext.
    assert (Hnt : new_top (rgn (_heap (advance_to_region cl)) (_to_region cl))
                  = _compact_point cl).
    { rewrite Hh, rgn_upd_region_eq by done. done. }
    unfold cl', do_object. fold s. rewrite decide_True by lia. simpl.
    rewrite get_raw_set_raw_eq, Hc, Ht, He.
    repeat split; done.
Qed.


(** ** Geometry and layout *)

Lemma geometry_region h i :
  geometry_ok h → (i < num_regions h)%nat →
  bottom (rgn h i) = heap_base h + Z.of_nat i * region_size_words h
  ∧ end_ (rgn h i) = bottom (rgn h i) + region_size_words h
  ∧ bottom (rgn h i) ≤ top (rgn h i) ≤ end_ (rgn h i).
Proof.
  intros Hg Hi. unfold geometry_ok in Hg. rewrite Forall_forall in Hg.
  apply Hg. apply elem_of_seq. lia.
Qed.

Lemma region_size_nonneg h : geometry_ok h → (0 < num_regions h)%nat → 0 ≤ region_size_words h.
Proof. intros Hg Hn. destruct (geometry_region h 0 Hg Hn) as (_ & ? & ?). lia. Qed.

Lemma region_below h i j :
  geometry_ok h → (i < j)%nat → (j < num_regions h)%nat →
  end_ (rgn h i) ≤ bottom (rgn h j).
Proof.
  intros Hg Hij Hj.
  destruct (geometry_region h i Hg ltac:(lia)) as (Hbi & Hei & _).
  destruct (geometry_region h j Hg Hj) as (Hbj & _ & _).
  pose proof (region_size_nonneg h Hg ltac:(lia)). nia.
Qed.

Lemma region_size_eq h i :
  geometry_ok h → (i < num_regions h)%nat →
  end_ (rgn h i) - bottom (rgn h i) = region_size_words h.
Proof. intros Hg Hi. destruct (geometry_region h i Hg Hi) as (_ & ? & _). lia. Qed.

Lemma same_shape_refl h : same_shape h h.
Proof. done. Qed.

Lemma same_shape_trans h1 h2 h3 : same_shape h1 h2 → same_shape h2 h3 → same_shape h1 h3.
Proof. intros [? ?] [? ?]. split; congruence. Qed.

Lemma same_shape_num_regions h h' : same_shape h h' → num_regions h' = num_regions h.
Proof.
  intros [Hl _]. unfold num_regions.
  apply (f_equal length) in Hl. unfold layout in Hl. by rewrite !length_fmap in Hl.
Qed.

Lemma same_shape_rgn h h' i :
  same_shape h h' → set_new_top 0 (rgn h' i) = set_new_top 0 (rgn h i).
Proof.
  intros [Hl _]. unfold rgn, layout in *.
  apply (f_equal (λ l, l !! i)) in Hl. rewrite !list_lookup_fmap in Hl.
  rewrite !list_lookup_total_alt.
  destruct (regions h' !! i), (regions h !! i); simpl in *; congruence.
Qed.

Lemma same_shape_fields h h' i :
  same_shape h h' →
  bottom (rgn h' i) = bottom (rgn h i) ∧ top (rgn h' i) = top (rgn h i)
  ∧ end_ (rgn h' i) = end_ (rgn h i) ∧ state (rgn h' i) = state (rgn h i).
Proof.
  intros Hs. pose proof (same_shape_rgn h h' i Hs) as E.
  unfold set_new_top in E. by inversion E.
Qed.

Lemma same_shape_bottom h h' i : same_shape h h' → bottom (rgn h' i) = bottom (rgn h i).
Proof. intros Hs. apply (same_shape_fields h h' i Hs). Qed.
Lemma same_shape_top h h' i : same_shape h h' → top (rgn h' i) = top (rgn h i).
Proof. intros Hs. apply (same_shape_fields h h' i Hs). Qed.
Lemma same_shape_end h h' i : same_shape h h' → end_ (rgn h' i) = end_ (rgn h i).
Proof. intros Hs. apply (same_shape_fields h h' i Hs). Qed.
Lemma same_shape_state h h' i : same_shape h h' → state (rgn h' i) = state (rgn h i).
Proof. intros Hs. apply (same_shape_fields h h' i Hs). Qed.

Lemma same_shape_move_allowed h h' i :
  same_shape h h' → is_move_allowed (rgn h' i) = is_move_allowed (rgn h i).
Proof.
  intros Hs. unfold is_move_allowed, is_regular, is_cset.
  by rewrite (same_shape_state h h' i Hs).
Qed.

Lemma same_shape_humongous h h' i :
  same_shape h h' → is_humongous (rgn h' i) = is_humongous (rgn h i).
Proof.
  intros Hs. unfold is_humongous, is_humongous_start, is_humongous_continuation.
  by rewrite (same_shape_state h h' i Hs).
Qed.

Lemma same_shape_live_objects h h' i :
  same_shape h h' → live_objects h' i = live_objects h i.
Proof.
  intros Hs. unfold live_objects.
  rewrite (same_shape_bottom h h' i Hs), (same_shape_top h h' i Hs).
  destruct Hs as [_ ->]. done.
Qed.

Lemma same_shape_all_objects h h' : same_shape h h' → all_objects h' = all_objects h.
Proof.
  intros Hs. unfold all_objects. rewrite (same_shape_num_regions h h' Hs).
  apply list_bind_ext; [|done]. intros i. by apply same_shape_live_objects.
Qed.

Lemma same_shape_with_mem h m : same_shape h (with_mem m h).
Proof. done. Qed.

Lemma same_shape_upd_new_top h i v : same_shape h (upd_region i (set_new_top v) h).
Proof.
  split; [|done]. unfold layout, upd_region. simpl.
  rewrite (list_fmap_alter (set_new_top 0) (set_new_top v) id) by (by apply Forall_forall).
  by rewrite list_alter_id.
Qed.

Lemma same_shape_upd_new_top_fn h i (g : ShenandoahHeapRegion → HeapWord) :
  same_shape h (upd_region i (λ x, set_new_top (g x) x) h).
Proof.
  split; [|done]. unfold layout, upd_region. simpl.
  rewrite (list_fmap_alter (set_new_top 0) (λ x, set_new_top (g x) x) id)
    by (by apply Forall_forall).
  by rewrite list_alter_id.
Qed.

(** ** Live objects *)

Lemma elem_of_addresses a lo hi : a ∈ addresses lo hi ↔ lo ≤ a < hi.
Proof.
  unfold addresses. rewrite list_elem_of_fmap. split.
  - intros (k & -> & Hk). apply elem_of_seq in Hk. lia.
  - intros Ha. exists (Z.to_nat (a - lo)). split; [lia|]. apply elem_of_seq. lia.
Qed.

Lemma elem_of_live_objects h i p :
  p ∈ live_objects h i
  ↔ p ∈ complete_mark_bit_map h
    ∧ bottom (rgn h i) + BrooksPointer.word_size ≤ p < top (rgn h i).
Proof. unfold live_objects. rewrite list_elem_of_filter, elem_of_addresses. done. Qed.

Lemma elem_of_all_objects h p :
  p ∈ all_objects h ↔ ∃ i : nat, (i < num_regions h)%nat ∧ p ∈ live_objects h i.
Proof.
  unfold all_objects. rewrite list_elem_of_bind. split.
  - intros (i & Hp & Hi). apply elem_of_seq in Hi. exists i. split; [lia|done].
  - intros (i & Hi & Hp). exists i. split; [done|]. apply elem_of_seq. lia.
Qed.

(** ** Chains of objects *)

Section Chains.
Context `{!KlassModel}.
Local Abbreviation ws := BrooksPointer.word_size.

Lemma objs_chain_app m lo A B :
  objs_chain m lo (A ++ B) ↔ objs_chain m lo A ∧ objs_chain m (chain_end m lo A) B.
Proof.
  revert lo. induction A as [|p A IH]; intros lo; simpl; [tauto|].
  rewrite IH. tauto.
Qed.

Lemma objs_chain_weaken m lo lo' L : lo' ≤ lo → objs_chain m lo L → objs_chain m lo' L.
Proof. destruct L; simpl; [done|]. intros ? (? & ? & ?). repeat split; [lia|done..]. Qed.

Lemma chain_end_ge m lo L : objs_chain m lo L → lo ≤ chain_end m lo L.
Proof.
  revert lo. induction L as [|p L IH]; intros lo; simpl; [lia|].
  intros (? & ? & HL). apply IH in HL. unfold ws in *. lia.
Qed.

Lemma objs_chain_lower m lo L p :
  objs_chain m lo L → p ∈ L → lo + ws ≤ p ∧ 0 < obj_size m p.
Proof.
  revert lo. induction L as [|q L IH]; intros lo; simpl; [by intros _ ?%elem_of_nil|].
  intros (? & ? & HL) [->|Hp]%elem_of_cons; [done|].
  destruct (IH _ HL Hp). unfold ws in *. split; [lia|done].
Qed.

Lemma objs_chain_upper m lo L p :
  objs_chain m lo L → p ∈ L → p + obj_size m p ≤ chain_end m lo L.
Proof.
  revert lo. induction L as [|q L IH]; intros lo; simpl; [by intros _ ?%elem_of_nil|].
  intros (? & ? & HL) [->|Hp]%elem_of_cons; [by apply chain_end_ge|]. by apply IH.
Qed.

Lemma objs_chain_ext m m' lo L :
  (∀ p, p ∈ L → m' p = m p) → objs_chain m' lo L ↔ objs_chain m lo L.
Proof.
  revert lo. induction L as [|q L IH]; intros lo Hm; simpl; [done|].
  unfold obj_size. rewrite (Hm q) by left. fold (obj_size m q).
  rewrite IH; [done|]. intros p Hp. apply Hm. by right.
Qed.

(** Two objects of a chain do not overlap, forwarding words included. *)
Lemma objs_chain_disjoint m lo L p q :
  objs_chain m lo L → p ∈ L → q ∈ L → p ≠ q →
  p + obj_size m p + ws ≤ q ∨ q + obj_size m q + ws ≤ p.
Proof.
  revert lo. induction L as [|x L IH]; intros lo; simpl; [by intros _ ?%elem_of_nil|].
  intros (? & ? & HL) [->|Hp]%elem_of_cons [->|Hq]%elem_of_cons Hne.
  - done.
  - left. destruct (objs_chain_lower _ _ _ _ HL Hq). lia.
  - right. destruct (objs_chain_lower _ _ _ _ HL Hp). lia.
  - by apply (IH _ HL).
Qed.

Lemma objs_chain_NoDup m lo L : objs_chain m lo L → NoDup L.
Proof.
  revert lo. induction L as [|x L IH]; intros lo; simpl; [constructor|].
  intros (? & ? & HL). constructor; [|by eapply IH].
  intros Hx. destruct (objs_chain_lower _ _ _ _ HL Hx). unfold ws in *. lia.
Qed.

(** The live objects of one region are a segment of the heap's chain. *)
Lemma all_objects_split h i :
  (i < num_regions h)%nat →
  ∃ A B, all_objects h = A ++ live_objects h i ++ B.
Proof.
  intros Hi. unfold all_objects.
  replace (num_regions h) with (i + S (num_regions h - S i))%nat by lia.
  rewrite seq_app, bind_app. simpl. eauto.
Qed.

Lemma region_chain h i :
  parsable h → (i < num_regions h)%nat →
  objs_chain (mem h) (bottom (rgn h i)) (live_objects h i).
Proof.
  intros (_ & _ & Hc & _) Hi.
  destruct (all_objects_split h i Hi) as (A & B & E). rewrite E in Hc.
  apply objs_chain_app in Hc as [_ Hc]. apply objs_chain_app in Hc as [Hc _].
  destruct (live_objects h i) as [|p L] eqn:EL; [done|].
  simpl in *. destruct Hc as (_ & ? & ?). repeat split; [|done..].
  assert (Hp : p ∈ live_objects h i) by (rewrite EL; left).
  apply elem_of_live_objects in Hp. lia.
Qed.

Lemma region_objects_fit h i p :
  parsable h → (i < num_regions h)%nat → is_move_allowed (rgn h i) = true →
  p ∈ live_objects h i → p + obj_size (mem h) p ≤ end_ (rgn h i).
Proof.
  intros (_ & _ & _ & _ & Hf) Hi Hm Hp. rewrite Forall_forall in Hf.
  specialize (Hf i). rewrite Hm in Hf. rewrite Forall_forall in Hf.
  apply Hf; [|done]. apply elem_of_seq. lia.
Qed.

Lemma parsable_disjoint h p q :
  parsable h → p ∈ all_objects h → q ∈ all_objects h → p ≠ q →
  p + obj_size (mem h) p + ws ≤ q ∨ q + obj_size (mem h) q + ws ≤ p.
Proof. intros (_ & _ & Hc & _). by apply (objs_chain_disjoint _ _ _ _ _ Hc). Qed.

Lemma parsable_size_pos h p : parsable h → p ∈ all_objects h → 0 < obj_size (mem h) p.
Proof. intros (_ & _ & Hc & _) Hp. by destruct (objs_chain_lower _ _ _ _ Hc Hp). Qed.

(** A class word is nobody's forwarding word. *)
Lemma klass_word_not_fwd h p q :
  parsable h → p ∈ all_objects h → q ∈ all_objects h → p ≠ q + BrooksPointer.word_offset.
Proof.
  intros Hp Hin Hq. unfold BrooksPointer.word_offset.
  destruct (decide (p = q)) as [->|Hne]; [lia|].
  pose proof (parsable_size_pos h p Hp Hin). pose proof (parsable_size_pos h q Hp Hq).
  destruct (parsable_disjoint h p q Hp Hin Hq Hne); unfold ws in *; lia.
Qed.
End Chains.


(** ** Region sets *)

Lemma current_then_next_Some s r s' :
  current_then_next s = (Some r, s') →
  remaining s = r :: remaining s' ∧ set_regions s' = set_regions s
  ∧ current_index s' = S (current_index s).
Proof.
  unfold current_then_next, remaining.
  destruct (set_regions s !! current_index s) as [x|] eqn:E; [|done].
  intros [= <- <-]. simpl. by rewrite (drop_S _ _ _ E).
Qed.

Lemma current_then_next_None s s' :
  current_then_next s = (None, s') → remaining s = [] ∧ s' = s.
Proof.
  unfold current_then_next, remaining.
  destruct (set_regions s !! current_index s) as [x|] eqn:E; [done|].
  intros [= <-]. split; [|done]. apply drop_ge. by apply lookup_ge_None.
Qed.

Lemma remaining_add_region r s :
  (current_index s ≤ length (set_regions s))%nat →
  remaining (add_region r s) = remaining s ++ [r].
Proof. intros Hi. unfold remaining, add_region. simpl. by rewrite drop_app_le. Qed.

(** ** Sliding plans *)

Section Sliding.
Local Abbreviation ws := BrooksPointer.word_size.

Lemma slide_frontiers slo tlo mv : slide slo tlo mv → tlo ≤ slo.
Proof. by destruct 1. Qed.

Lemma slide_mono slo tlo mv slo' tlo' :
  slide slo tlo mv → slo ≤ slo' → tlo ≤ tlo' → tlo' ≤ slo' → slide slo' tlo' mv.
Proof.
  destruct 1; intros.
  - by constructor.
  - eapply slide_snoc; eauto; lia.
Qed.

Lemma slide_bounds slo tlo mv p t s :
  slide slo tlo mv → (p, t, s) ∈ mv →
  p + s ≤ slo ∧ t + s ≤ tlo ∧ t ≤ p ∧ 0 < s.
Proof.
  induction 1 as [|slo tlo mv p' t' s' slo' tlo' Hs IH]; [by intros ?%elem_of_nil|].
  intros [Hin|Hin]%elem_of_app.
  - destruct (IH Hin) as (? & ? & ? & ?). pose proof (slide_frontiers _ _ _ Hs).
    unfold ws in *. repeat split; lia.
  - apply list_elem_of_singleton in Hin as [= -> -> ->]. repeat split; lia.
Qed.

Lemma planned_mem_snoc mv p t s m :
  planned_mem (mv ++ [(p, t, s)]) m = BrooksPointer.set_raw p t (planned_mem mv m).
Proof. unfold planned_mem. by rewrite foldl_snoc. Qed.

Lemma planned_mem_other mv m a :
  (∀ p t s, (p, t, s) ∈ mv → a ≠ p + BrooksPointer.word_offset) →
  planned_mem mv m a = m a.
Proof.
  induction mv as [|[[p t] s] mv IH] using rev_ind; intros Ha; [done|].
  rewrite planned_mem_snoc. unfold BrooksPointer.set_raw.
  rewrite decide_False.
  - apply IH. intros p' t' s' Hin. apply (Ha p' t' s'). apply elem_of_app. by left.
  - apply (Ha p t s). apply elem_of_app. right. by left.
Qed.

Lemma planned_mem_target slo tlo mv m p t s :
  slide slo tlo mv → (p, t, s) ∈ mv → BrooksPointer.get_raw (planned_mem mv m) p = t.
Proof.
  induction 1 as [|slo tlo mv p' t' s' slo' tlo' Hs IH]; [by intros ?%elem_of_nil|].
  rewrite planned_mem_snoc. intros [Hin|Hin]%elem_of_app.
  - rewrite get_raw_set_raw_ne; [by apply IH|].
    destruct (slide_bounds _ _ _ _ _ _ Hs Hin) as (? & _ & _ & ?). unfold ws in *. lia.
  - apply list_elem_of_singleton in Hin as [= -> -> ->]. apply get_raw_set_raw_eq.
Qed.
End Sliding.

(** ** The planner's invariant *)

Section Planner.
Context `{!KlassModel}.
Import ShenandoahPrepareForCompactionObjectClosure.
Local Abbreviation ws := BrooksPointer.word_size.

(** The class word of an object not yet planned is as the worker found
    it. *)
Lemma plan_inv_klass h0 M f lo mv cl p :
  plan_inv h0 M f lo mv cl → lo + ws ≤ p → mem (_heap cl) p = mem h0 p.
Proof.
  intros HI Hp. rewrite (pi_mem _ _ _ _ _ _ HI). apply planned_mem_other.
  intros q t s Hin.
  destruct (slide_bounds _ _ _ _ _ _ (pi_slide _ _ _ _ _ _ HI) Hin) as (? & _ & _ & ?).
  unfold BrooksPointer.word_offset, ws in *. lia.
Qed.

Lemma plan_inv_fwd h0 M f lo mv cl p :
  plan_inv h0 M f lo mv cl → lo + ws ≤ p →
  BrooksPointer.get_raw (mem (_heap cl)) p = BrooksPointer.get_raw (mem h0) p.
Proof.
  intros HI Hp. unfold BrooksPointer.get_raw.
  rewrite (pi_mem _ _ _ _ _ _ HI). apply planned_mem_other.
  intros q t s Hin.
  destruct (slide_bounds _ _ _ _ _ _ (pi_slide _ _ _ _ _ _ HI) Hin) as (? & _ & _ & ?).
  unfold BrooksPointer.word_offset, ws in *. lia.
Qed.

(** One object. The invariant is kept, the target is at or above the old
    compact point and not above the object, and the two assertions on the
    choice of the target hold. *)
Lemma do_object_inv h0 M f lo mv p cl :
  geometry_ok h0 → Forall (λ r, (r < num_regions h0)%nat) M → f ∈ M →
  plan_inv h0 M f lo mv cl →
  lo + ws ≤ p → 0 < obj_size (mem h0) p → p + obj_size (mem h0) p ≤ end_ (rgn h0 f) →
  ∃ t,
    plan_inv h0 M f (p + obj_size (mem h0) p) (mv ++ [(p, t, obj_size (mem h0) p)])
             (do_object p cl)
    ∧ _compact_point cl + ws ≤ t ∧ t ≤ p
    ∧ bottom (rgn h0 (_to_region (do_object p cl))) + ws ≤ t
    ∧ _compact_point (do_object p cl) = t + obj_size (mem h0) p
    ∧ (_to_region cl = f → _to_region (do_object p cl) = f)
    ∧ assert_new_to_region p cl = true
    ∧ assert_must_fit p cl = true.
Proof.
  intros Hg HM Hf HI Hlo Hpos Hfit.
  pose proof (plan_inv_klass _ _ _ _ _ _ p HI Hlo) as Hk.
  assert (Hsz : obj_size (mem (_heap cl)) p = obj_size (mem h0) p).
  { unfold obj_size. by rewrite Hk. }
  destruct HI as [Hshape Hfrom Htole Htoin Hcplo Hcphi Hlolo Hlohi Hidx Hempty Hsorted
                    Hslide Hmem Hsizes Hinreg].
  pose proof (slide_frontiers _ _ _ Hslide) as Hcpsrc.
  rewrite Forall_forall in HM.
  pose proof (HM _ Hf) as Hfn. pose proof (HM _ Htoin) as Hton.
  pose proof (region_size_eq h0 f Hg Hfn) as Hrsf.
  set (sz := obj_size (mem h0) p) in *.
  unfold assert_new_to_region, assert_must_fit, do_object.
  rewrite Hsz, (same_shape_end h0 (_heap cl) _ Hshape).
  destruct (decide (_compact_point cl + (sz + ws) > end_ (rgn h0 (_to_region cl))))
    as [Hover|Hfits].
  - (* the object does not fit *)
    assert (Hlt : (_to_region cl < f)%nat).
    { destruct (decide (_to_region cl = f)) as [E|]; [|lia].
      rewrite E in Hover. unfold ws in *. lia. }
    pose proof (region_below h0 _ _ Hg Hlt Hfn) as Hbelow.
    destruct (advance_to_region_spec cl) as (Hh1 & He1 & Ht1 & Hf1 & Hc1).
    set (cl1 := advance_to_region cl) in *.
    assert (Hshape1 : same_shape h0 (_heap cl1)).
    { rewrite Hh1. eapply same_shape_trans; [done|]. apply same_shape_upd_new_top. }
    assert (Hnext : (_to_region cl < next_to_region cl ≤ f)%nat
                    ∧ next_to_region cl ∈ M
                    ∧ Forall (λ e, (next_to_region cl < e < f)%nat ∧ e ∈ M)
                             (remaining (_empty_regions cl1))
                    ∧ StronglySorted Nat.lt (remaining (_empty_regions cl1))
                    ∧ (current_index (_empty_regions cl1)
                       ≤ length (set_regions (_empty_regions cl1)))%nat).
    { rewrite He1. unfold next_to_region.
      destruct (current_then_next (_empty_regions cl)) as [[e|] er] eqn:Ecn; simpl.
      - apply current_then_next_Some in Ecn as (Hrem & Hset & Hci).
        rewrite Hrem in Hempty, Hsorted.
        apply Forall_cons in Hempty as [[He HeM] Hempty].
        apply StronglySorted_inv in Hsorted as [Hsorted Hall].
        repeat split; try done; try lia.
        + rewrite Forall_forall in Hempty, Hall |- *. intros x Hx.
          destruct (Hempty x Hx). specialize (Hall x Hx). split; [lia|done].
        + rewrite Hset, Hci.
          assert (length (remaining (_empty_regions cl)) = S (length (remaining er)))
            as Hlen by (by rewrite Hrem).
          unfold remaining in Hlen. rewrite !length_drop in Hlen. lia.
      - apply current_then_next_None in Ecn as (Hrem & ->).
        rewrite Hfrom. simpl. rewrite Hrem. repeat split; try done; try lia.
        constructor. }
    destruct Hnext as (Hnlt & HnM & Hempty1 & Hsorted1 & Hidx1).
    set (nt := next_to_region cl) in *.
    pose proof (HM _ HnM) as Hnn.
    pose proof (region_size_eq h0 nt Hg Hnn) as Hrsn.
    assert (Hbn : end_ (rgn h0 (_to_region cl)) ≤ bottom (rgn h0 nt)).
    { apply region_below; [done|lia|done]. }
    assert (Hnf : end_ (rgn h0 nt) ≤ end_ (rgn h0 f)).
    { destruct (decide (nt = f)) as [->|]; [lia|].
      pose proof (region_below h0 nt f Hg ltac:(lia) Hfn).
      pose proof (region_size_nonneg h0 Hg ltac:(lia)). lia. }
    assert (Hnb : bottom (rgn h0 nt) ≤ lo).
    { destruct (decide (nt = f)) as [->|]; [lia|].
      pose proof (region_below h0 nt f Hg ltac:(lia) Hfn).
      pose proof (region_size_nonneg h0 Hg ltac:(lia)). lia. }
    rewrite (same_shape_bottom h0 (_heap cl) nt Hshape) in Hc1.
    exists (bottom (rgn h0 nt) + ws).
    cbn [_heap _empty_regions _to_region _from_region _compact_point].
    rewrite Hc1, Ht1, Hf1, (same_shape_end h0 (_heap cl1) _ Hshape1).
    unfold ws in *.
    split; [|repeat split; try (apply bool_decide_eq_true); lia].
    constructor; cbn [_heap _empty_regions _to_region _from_region _compact_point];
      try done; try lia.
    + eapply slide_snoc; [exact Hslide|unfold ws; lia..].
    + intros a. rewrite planned_mem_snoc. unfold BrooksPointer.set_raw.
      rewrite Hh1. cbn [mem with_mem upd_region with_regions].
      case_decide; [done|]. apply Hmem.
    + apply Forall_app. split; [done|]. by repeat constructor.
    + apply Forall_app. split; [done|]. repeat constructor.
      exists nt. unfold ws. repeat split; [done|lia..].
  - (* the object fits *)
    exists (_compact_point cl + ws).
    cbn [_heap _empty_regions _to_region _from_region _compact_point].
    rewrite ?(same_shape_end h0 (_heap cl) _ Hshape).
    unfold ws in *.
    split; [|repeat split; try (apply bool_decide_eq_true); lia].
    constructor; cbn [_heap _empty_regions _to_region _from_region _compact_point];
      try done; try lia.
    + eapply slide_snoc; [exact Hslide|unfold ws; lia..].
    + intros a. rewrite planned_mem_snoc. unfold BrooksPointer.set_raw.
      cbn [mem with_mem]. case_decide; [done|]. apply Hmem.
    + apply Forall_app. split; [done|]. by repeat constructor.
    + apply Forall_app. split; [done|]. repeat constructor.
      exists (_to_region cl). unfold ws. repeat split; [done|lia..].
Qed.
End Planner.


(** ** The planning task as a fold over the movable claims *)

Section PlanningTask.
Context `{!KlassModel}.
Import ShenandoahPrepareForCompactionObjectClosure.
Import ShenandoahPrepareForCompactionTask.
Local Abbreviation ws := BrooksPointer.word_size.

Lemma advance_to_region_same_shape cl : same_shape (_heap cl) (_heap (advance_to_region cl)).
Proof.
  destruct (advance_to_region_spec cl) as (-> & _). apply same_shape_upd_new_top.
Qed.

Lemma do_object_same_shape p cl : same_shape (_heap cl) (_heap (do_object p cl)).
Proof.
  unfold do_object. case_decide; cbn [_heap].
  - eapply same_shape_trans; [apply advance_to_region_same_shape|].
    apply same_shape_with_mem.
  - apply same_shape_with_mem.
Qed.

Lemma do_objects_same_shape L cl :
  same_shape (_heap cl) (_heap (foldl (λ cl p, do_object p cl) cl L)).
Proof.
  revert cl. induction L as [|p L IH]; intros cl; simpl; [done|].
  eapply same_shape_trans; [apply do_object_same_shape|apply IH].
Qed.

Lemma plan_region_same_shape f cl : same_shape (_heap cl) (_heap (plan_region f cl)).
Proof.
  unfold plan_region, marked_object_iterate.
  set (cl1 := set_from_region f cl).
  pose proof (do_objects_same_shape (live_objects (_heap cl1) f) cl1) as Hs.
  by case_match.
Qed.

Lemma plan_regions_same_shape Ms cl :
  same_shape (_heap cl) (_heap (foldl (λ cl r, plan_region r cl) cl Ms)).
Proof.
  revert cl. induction Ms as [|r Ms IH]; intros cl; simpl; [done|].
  eapply same_shape_trans; [apply plan_region_same_shape|apply IH].
Qed.

Lemma movable_same_shape h h' view : same_shape h h' → movable h' view = movable h view.
Proof.
  intros Hs. unfold movable. apply list_filter_iff. intros i.
  by rewrite (same_shape_move_allowed h h' i Hs).
Qed.

Lemma claim_movable_None h view view' :
  claim_movable h view = (None, view') → movable h view = [].
Proof.
  induction view as [|r view IH]; simpl; [done|]. unfold movable in *.
  destruct (is_move_allowed (rgn h r)) eqn:E; [done|].
  intros Hc. rewrite filter_cons_False by (rewrite E; done). by apply IH.
Qed.

Lemma claim_movable_Some h view r view' :
  claim_movable h view = (Some r, view') →
  movable h view = r :: movable h view' ∧ (length view' < length view)%nat.
Proof.
  induction view as [|x view IH]; simpl; [done|]. unfold movable in *.
  destruct (is_move_allowed (rgn h x)) eqn:E.
  - intros [= -> ->]. rewrite filter_cons_True by done. split; [done|lia].
  - intros Hc. rewrite filter_cons_False by (rewrite E; done).
    destruct (IH Hc). split; [done|lia].
Qed.

Lemma work_loop_fold h0 fuel r view slice cl :
  same_shape h0 (_heap cl) → (length view < fuel)%nat →
  work_loop fuel (Some r) view slice cl
  = (foldl (λ s x, add_region x s) slice (movable h0 view),
     foldl (λ cl x, plan_region x cl) (plan_region r cl) (movable h0 view)).
Proof.
  revert r view slice cl. induction fuel as [|fuel IH]; intros r view slice cl Hs Hf; [lia|].
  cbn [work_loop].
  assert (Hs1 : same_shape h0 (_heap (plan_region r cl))).
  { eapply same_shape_trans; [done|apply plan_region_same_shape]. }
  unfold next_from_region.
  destruct (claim_movable (_heap (plan_region r cl)) view) as [[r'|] view'] eqn:Ec.
  - apply claim_movable_Some in Ec as [Em Hl].
    rewrite (movable_same_shape _ _ _ Hs1) in Em.
    rewrite (movable_same_shape _ _ _ Hs1) in Em.
    rewrite Em. simpl. apply IH; [done|lia].
  - apply claim_movable_None in Ec.
    rewrite (movable_same_shape _ _ _ Hs1) in Ec. rewrite Ec.
    by destruct fuel.
Qed.

Lemma mark_empty_loop_fold fuel r er h :
  (length (remaining er) < fuel)%nat →
  mark_empty_loop fuel (Some r) er h
  = foldl (λ h r, upd_region r (λ x, set_new_top (bottom x) x) h) h (r :: remaining er).
Proof.
  revert r er h. induction fuel as [|fuel IH]; intros r er h Hf; [lia|].
  cbn [mark_empty_loop].
  destruct (current_then_next er) as [[r'|] er'] eqn:Ec.
  - apply current_then_next_Some in Ec as (Hr & _ & _).
    rewrite Hr in *. simpl in Hf. rewrite IH by lia. done.
  - apply current_then_next_None in Ec as (Hr & ->). rewrite Hr.
    by destruct fuel.
Qed.

Lemma mark_remaining_empty_fold er h :
  mark_remaining_empty er h
  = foldl (λ h r, upd_region r (λ x, set_new_top (bottom x) x) h) h (remaining er).
Proof.
  unfold mark_remaining_empty.
  destruct (current_then_next er) as [[r'|] er'] eqn:Ec.
  - apply current_then_next_Some in Ec as (Hr & Hs & _). rewrite Hr.
    apply mark_empty_loop_fold. unfold remaining. rewrite length_drop. lia.
  - apply current_then_next_None in Ec as (Hr & ->). by rewrite Hr.
Qed.

Lemma work_fold h view slice :
  work h view slice
  = match movable h view with
    | [] => (h, slice)
    | r0 :: Ms =>
        let cl := finish_region (planned h r0 Ms) in
        (mark_remaining_empty (_empty_regions cl) (_heap cl),
         foldl (λ s x, add_region x s) slice (r0 :: Ms))
    end.
Proof.
  unfold work, next_from_region.
  destruct (claim_movable h view) as [[r0|] view'] eqn:Ec.
  - apply claim_movable_Some in Ec as [Em Hl]. rewrite Em.
    rewrite (work_loop_fold h) by (done || lia). done.
  - apply claim_movable_None in Ec. by rewrite Ec.
Qed.

Lemma set_regions_add_regions slice Ms :
  set_regions (foldl (λ s x, add_region x s) slice Ms) = set_regions slice ++ Ms
  ∧ current_index (foldl (λ s x, add_region x s) slice Ms) = current_index slice.
Proof.
  revert slice. induction Ms as [|r Ms IH]; intros slice; simpl.
  - by rewrite app_nil_r.
  - destruct (IH (add_region r slice)) as [-> ->]. simpl. by rewrite <- app_assoc.
Qed.
End PlanningTask.


(** ** The invariant along the walk of a slice *)

Section PlanningInvariant.
Context `{!KlassModel}.
Import ShenandoahPrepareForCompactionObjectClosure.
Import ShenandoahPrepareForCompactionTask.
Local Abbreviation ws := BrooksPointer.word_size.

Lemma sources_app mv1 mv2 : sources (mv1 ++ mv2) = sources mv1 ++ sources mv2.
Proof. apply fmap_app. Qed.

(** All the live objects of a region, one after the other. *)
Lemma do_objects_inv h0 M f L lo mv cl :
  geometry_ok h0 → Forall (λ r, (r < num_regions h0)%nat) M → f ∈ M →
  plan_inv h0 M f lo mv cl →
  objs_chain (mem h0) lo L →
  Forall (λ p, p + obj_size (mem h0) p ≤ end_ (rgn h0 f)) L →
  ∃ mvL,
    sources mvL = L
    ∧ plan_inv h0 M f (chain_end (mem h0) lo L) (mv ++ mvL)
               (foldl (λ cl p, do_object p cl) cl L).
Proof.
  intros Hg HM Hf. revert lo mv cl.
  induction L as [|p L IH]; intros lo mv cl HI Hc Hfit; simpl.
  - exists []. by rewrite app_nil_r.
  - destruct Hc as (Hlo & Hpos & Hc). apply Forall_cons in Hfit as [Hp Hfit].
    destruct (do_object_inv h0 M f lo mv p cl Hg HM Hf HI Hlo Hpos Hp) as (t & HI' & _).
    destruct (IH _ _ _ HI' Hc Hfit) as (mvL & Hsrc & HI'').
    exists ((p, t, obj_size (mem h0) p) :: mvL). split.
    + simpl. by rewrite Hsrc.
    + by rewrite <- app_assoc in HI''.
Qed.

Lemma StronglySorted_snoc (l : list nat) (x : nat) :
  StronglySorted Nat.lt l → Forall (λ y, (y < x)%nat) l → StronglySorted Nat.lt (l ++ [x]).
Proof.
  intros Hl Hx. apply StronglySorted_app. repeat split; [|done|repeat constructor].
  intros y z Hy ->%list_elem_of_singleton. rewrite Forall_forall in Hx. by apply Hx.
Qed.

Lemma plan_fin_ready h0 M f f' mv cl :
  geometry_ok h0 → Forall (λ r, (r < num_regions h0)%nat) M →
  plan_fin h0 M f mv cl → (f < f')%nat → f' ∈ M →
  plan_inv h0 M f' (bottom (rgn h0 f')) mv (set_from_region f' cl).
Proof.
  intros Hg HM [Hshape Htole Htoin Hcplo Hcphi Hidx Hempty Hsorted Hslide Hmem Hsizes Hinreg]
         Hff Hf'.
  rewrite Forall_forall in HM.
  pose proof (HM _ Hf') as Hn'. pose proof (HM _ Htoin) as Hnt.
  pose proof (region_size_eq h0 f' Hg Hn').
  pose proof (region_size_nonneg h0 Hg ltac:(lia)).
  pose proof (region_below h0 f f' Hg Hff Hn').
  assert (end_ (rgn h0 (_to_region cl)) ≤ end_ (rgn h0 f)).
  { destruct (decide (_to_region cl = f)) as [->|]; [lia|].
    pose proof (region_below h0 (_to_region cl) f Hg ltac:(lia) ltac:(lia)).
    pose proof (region_size_eq h0 f Hg ltac:(lia)). lia. }
  constructor; cbn [set_from_region _heap _empty_regions _to_region _from_region
                                    _compact_point]; try done; try lia.
  - eapply Forall_impl; [done|]. intros e [? ?]. split; [lia|done].
  - eapply slide_mono; [done|lia..].
Qed.

Lemma plan_region_fin h0 M f mv cl :
  parsable h0 → Forall (λ r, (r < num_regions h0)%nat) M → f ∈ M →
  is_move_allowed (rgn h0 f) = true →
  plan_inv h0 M f (bottom (rgn h0 f)) mv (set_from_region f cl) →
  ∃ mvL, sources mvL = live_objects h0 f
         ∧ plan_fin h0 M f (mv ++ mvL) (plan_region f cl).
Proof.
  intros Hp HM Hf Hmov HI.
  pose proof Hp as (_ & Hg & _).
  assert (Hfn : (f < num_regions h0)%nat) by (rewrite Forall_forall in HM; by apply HM).
  unfold plan_region, marked_object_iterate.
  rewrite (same_shape_live_objects h0 _ f (pi_shape _ _ _ _ _ _ HI)).
  destruct (do_objects_inv h0 M f (live_objects h0 f) _ mv _ Hg HM Hf HI)
    as (mvL & Hsrc & HI').
  { by apply region_chain. }
  { apply Forall_forall. intros p Hin. by apply region_objects_fit. }
  exists mvL. split; [done|].
  set (cl2 := foldl _ _ _) in *.
  destruct HI' as [Hshape Hfrom Htole Htoin Hcplo Hcphi Hlolo Hlohi Hidx Hempty Hsorted
                     Hslide Hmem Hsizes Hinreg].
  pose proof (slide_frontiers _ _ _ Hslide).
  unfold is_compact_same_region. rewrite Hfrom.
  case_bool_decide as Hsame; cbn [negb].
  - injection Hsame as Hsame.
    constructor; try done; try lia.
    + eapply Forall_impl; [done|]. intros e [? ?]. split; [lia|done].
    + eapply slide_mono; [done|lia..].
  - assert (_to_region cl2 ≠ f) by congruence.
    constructor; cbn [_heap _empty_regions _to_region _from_region _compact_point];
      try done; try lia.
    + unfold add_region. simpl. rewrite length_app. simpl. lia.
    + rewrite remaining_add_region by done. apply Forall_app. split.
      * eapply Forall_impl; [done|]. intros e [? ?]. split; [lia|done].
      * repeat constructor; [lia..|done].
    + rewrite remaining_add_region by done. apply StronglySorted_snoc; [done|].
      eapply Forall_impl; [done|]. intros e [? ?]. lia.
    + eapply slide_mono; [done|lia..].
Qed.

Lemma plan_new h M r0 :
  geometry_ok h → (r0 < num_regions h)%nat → r0 ∈ M →
  plan_inv h M r0 (bottom (rgn h r0)) [] (set_from_region r0 (new h new_region_set r0)).
Proof.
  intros Hg Hn Hin. destruct (geometry_region h r0 Hg Hn) as (_ & ? & ?).
  constructor; cbn [new set_from_region _heap _empty_regions _to_region _from_region
                        _compact_point]; try done; try lia.
  all: try (by constructor).
Qed.

Lemma plan_regions_fin h0 M Ms f mv cl :
  parsable h0 → Forall (λ r, (r < num_regions h0)%nat) M →
  plan_fin h0 M f mv cl →
  StronglySorted Nat.lt (f :: Ms) →
  Forall (λ r, r ∈ M ∧ is_move_allowed (rgn h0 r) = true) Ms →
  ∃ mvs, sources mvs = (r ← Ms; live_objects h0 r)
         ∧ plan_fin h0 M (default f (last Ms)) (mv ++ mvs)
                    (foldl (λ cl r, plan_region r cl) cl Ms).
Proof.
  intros Hp HM. pose proof Hp as (_ & Hg & _). revert f mv cl.
  induction Ms as [|r Ms IH]; intros f mv cl HF Hs HMs; simpl.
  - exists []. by rewrite app_nil_r.
  - apply Forall_cons in HMs as [[HrM Hrm] HMs].
    apply StronglySorted_inv in Hs as [Hs Hall].
    apply Forall_cons in Hall as [Hfr Hall].
    pose proof (plan_fin_ready h0 M f r mv cl Hg HM HF Hfr HrM) as HI.
    destruct (plan_region_fin h0 M r mv cl Hp HM HrM Hrm HI) as (mvL & Hsrc & HF').
    destruct (IH r _ _ HF' Hs HMs) as (mvs & Hsrcs & HF'').
    exists (mvL ++ mvs). split.
    + by rewrite sources_app, Hsrc, Hsrcs.
    + rewrite app_assoc, last_cons. by destruct (last Ms).
Qed.

Lemma planned_fin h M r0 Ms :
  parsable h → Forall (λ r, (r < num_regions h)%nat) M →
  StronglySorted Nat.lt (r0 :: Ms) →
  Forall (λ r, r ∈ M ∧ is_move_allowed (rgn h r) = true) (r0 :: Ms) →
  ∃ mv, sources mv = (r ← r0 :: Ms; live_objects h r)
        ∧ plan_fin h M (default r0 (last Ms)) mv (planned h r0 Ms).
Proof.
  intros Hp HM Hs HMs. pose proof Hp as (_ & Hg & _).
  apply Forall_cons in HMs as [[Hr0 Hm0] HMs].
  assert (Hn0 : (r0 < num_regions h)%nat) by (rewrite Forall_forall in HM; by apply HM).
  unfold planned. cbn [foldl].
  pose proof (plan_new h M r0 Hg Hn0 Hr0) as HI.
  destruct (plan_region_fin h M r0 [] _ Hp HM Hr0 Hm0 HI) as (mvL & Hsrc & HF).
  destruct (plan_regions_fin h M Ms r0 _ _ Hp HM HF Hs HMs) as (mvs & Hsrcs & HF').
  exists (mvL ++ mvs). split; [|done].
  simpl. by rewrite sources_app, Hsrc, Hsrcs.
Qed.

Lemma Forall_filter_weak {A} (P Q : A → Prop) `{!∀ x, Decision (P x)} (l : list A) :
  Forall Q l → Forall Q (filter P l).
Proof.
  rewrite !Forall_forall. intros HQ x Hx. apply HQ.
  by apply list_elem_of_filter in Hx as [_ ?].
Qed.

(** The movable claims of a well-formed view. *)
Lemma StronglySorted_filter (P : nat → Prop) `{!∀ x, Decision (P x)} (l : list nat) :
  StronglySorted Nat.lt l → StronglySorted Nat.lt (filter P l).
Proof.
  induction 1 as [|x l Hl IH Hx]; [constructor|].
  destruct (decide (P x)).
  - rewrite filter_cons_True by done. constructor; [done|].
    by apply Forall_filter_weak.
  - by rewrite filter_cons_False.
Qed.

Lemma movable_ok h view :
  view_ok h view →
  StronglySorted Nat.lt (movable h view)
  ∧ Forall (λ r, (r < num_regions h)%nat) (movable h view)
  ∧ Forall (λ r, r ∈ movable h view ∧ is_move_allowed (rgn h r) = true) (movable h view).
Proof.
  intros [Hs Hn]. split; [by apply StronglySorted_filter|]. split.
  - by apply Forall_filter_weak.
  - apply Forall_forall. intros r Hr. split; [done|].
    by apply list_elem_of_filter in Hr as [? _].
Qed.
End PlanningInvariant.


(** ** Planning one slice *)

Section PlanningSlice.
Context `{!KlassModel}.
Import ShenandoahPrepareForCompactionObjectClosure.
Import ShenandoahPrepareForCompactionTask.
Local Abbreviation ws := BrooksPointer.word_size.

(** Walking all the objects of [f] from that state and closing the turn
    is [plan_region]. *)
Lemma planning_state_plan_region h Ms1 f :
  let before := foldl (λ cl r, plan_region r cl) (new h new_region_set (hd f Ms1)) Ms1 in
  let cl := planning_state h Ms1 f (live_objects (_heap before) f) in
  plan_region f before
  = if negb (is_compact_same_region cl)
    then mk (_heap cl) (add_region f (_empty_regions cl)) (_to_region cl)
            (_from_region cl) (_compact_point cl)
    else cl.
Proof. done. Qed.

Lemma planned_app h r0 Ms1 f Ms2 :
  r0 = hd f Ms1 →
  foldl (λ cl r, plan_region r cl) (new h new_region_set r0) (Ms1 ++ f :: Ms2)
  = foldl (λ cl r, plan_region r cl)
          (plan_region f (foldl (λ cl r, plan_region r cl) (new h new_region_set r0) Ms1))
          Ms2.
Proof. intros _. by rewrite foldl_app. Qed.

Lemma planning_state_inv h view Ms1 f Ms2 L1 p L2 :
  parsable h → view_ok h view →
  movable h view = Ms1 ++ f :: Ms2 →
  live_objects h f = L1 ++ p :: L2 →
  ∃ mv lo,
    plan_inv h (movable h view) f lo mv (planning_state h Ms1 f L1)
    ∧ lo + ws ≤ p
    ∧ 0 < obj_size (mem h) p
    ∧ p + obj_size (mem h) p ≤ end_ (rgn h f)
    ∧ objs_chain (mem h) (p + obj_size (mem h) p) L2
    ∧ sources mv = (r ← Ms1; live_objects h r) ++ L1.
Proof.
  intros Hp Hv HM HL. pose proof Hp as (_ & Hg & _).
  destruct (movable_ok h view Hv) as (Hs & Hn & Hin).
  set (M := movable h view) in *.
  assert (HfM : f ∈ M) by (rewrite HM; apply elem_of_app; right; left).
  assert (Hfn : (f < num_regions h)%nat) by (rewrite Forall_forall in Hn; by apply Hn).
  assert (Hfm : is_move_allowed (rgn h f) = true).
  { rewrite Forall_forall in Hin. by apply Hin. }
  assert (Hready : ∃ mv, sources mv = (r ← Ms1; live_objects h r)
            ∧ plan_inv h M f (bottom (rgn h f)) mv
                (set_from_region f
                   (foldl (λ cl r, plan_region r cl) (new h new_region_set (hd f Ms1)) Ms1))).
  { destruct Ms1 as [|r0 Ms1]; simpl.
    - exists []. split; [done|]. by apply plan_new.
    - assert (Hs' : StronglySorted Nat.lt ((r0 :: Ms1) ++ f :: Ms2)) by by rewrite <- HM.
      assert (Hs1 : StronglySorted Nat.lt (r0 :: Ms1)).
      { by apply StronglySorted_app_1_l in Hs'. }
      assert (Hin1 : Forall (λ r, r ∈ M ∧ is_move_allowed (rgn h r) = true) (r0 :: Ms1)).
      { rewrite Forall_forall in Hin |- *. intros r Hr. apply Hin.
        rewrite HM. apply elem_of_app. by left. }
      destruct (planned_fin h M r0 Ms1 Hp Hn Hs1 Hin1) as (mv & Hsrc & HF).
      exists mv. split; [done|].
      apply (plan_fin_ready h M (default r0 (last Ms1)) f mv _ Hg Hn HF); [|done].
      eapply (StronglySorted_app_1_elem_of _ _ _ _ _ Hs'); [|left].
      destruct (last Ms1) as [x|] eqn:El; simpl; [|left].
      right. by apply last_Some_elem_of. }
  destruct Hready as (mv & Hsrc & HI).
  pose proof (region_chain h f Hp Hfn) as Hc. rewrite HL in Hc.
  apply objs_chain_app in Hc as [Hc1 Hc2].
  destruct (do_objects_inv h M f L1 _ mv _ Hg Hn HfM HI Hc1) as (mvL & HsrcL & HI').
  { apply Forall_forall. intros q Hq. apply region_objects_fit; [done..|].
    rewrite HL. apply elem_of_app. by left. }
  destruct Hc2 as (Hlo & Hpos & Hc2).
  exists (mv ++ mvL), (chain_end (mem h) (bottom (rgn h f)) L1).
  split; [exact HI'|]. split; [done|]. split; [done|]. split; [|split; [done|]].
  - apply region_objects_fit; [done..|]. rewrite HL. apply elem_of_app. right. left.
  - by rewrite sources_app, Hsrc, HsrcL.
Qed.

(** C2. While a slice is planned, the compact point never passes the
    object about to be planned, self-compacting or not; when the object
    lands in its own region, its target lies at or below it and ends
    before every live object of the region not yet processed; and the
    assertion that a newly chosen target region differs from the old one
    holds. [movable h view] is the worker's slice, [f] the from-region
    being walked, [L1] the objects of [f] already planned and [L2] those
    still to come. *)
Theorem self_compaction_is_safe (h : ShenandoahHeap) (view Ms1 Ms2 : list nat) (f : nat)
    (L1 L2 : list HeapWord) (p : HeapWord) :
  parsable h → view_ok h view →
  movable h view = Ms1 ++ f :: Ms2 →
  live_objects h f = L1 ++ p :: L2 →
  let cl := planning_state h Ms1 f L1 in
  let cl' := do_object p cl in
  let target := BrooksPointer.get_raw (mem (_heap cl')) p in
  (is_compact_same_region cl = true → _compact_point cl ≤ p)
  ∧ _compact_point cl + ws ≤ p
  ∧ (is_compact_same_region cl' = true →
       bottom (rgn h f) + ws ≤ target ∧ target ≤ p
       ∧ Forall (λ q, target + obj_size (mem h) p ≤ q - ws) L2)
  ∧ assert_new_to_region p cl = true.
Proof.
  intros Hp Hv HM HL cl cl' target. pose proof Hp as (_ & Hg & _).
  destruct (planning_state_inv h view Ms1 f Ms2 L1 p L2 Hp Hv HM HL)
    as (mv & lo & HI & Hlo & Hpos & Hfit & Hc2 & Hsrc).
  fold cl in HI.
  destruct (movable_ok h view Hv) as (Hs & Hn & Hin).
  assert (HfM : f ∈ movable h view) by (rewrite HM; apply elem_of_app; right; left).
  pose proof (slide_frontiers _ _ _ (pi_slide _ _ _ _ _ _ HI)) as Hcp.
  destruct (do_object_inv h _ f lo mv p cl Hg Hn HfM HI Hlo Hpos Hfit)
    as (t & HI' & Hcpt & Htp & Hbt & Hcp' & Hself & Hassert & _).
  fold cl' in HI', Hbt, Hcp', Hself.
  assert (Ht : target = t).
  { unfold target, BrooksPointer.get_raw. rewrite (pi_mem _ _ _ _ _ _ HI').
    eapply planned_mem_target; [exact (pi_slide _ _ _ _ _ _ HI')|].
    apply elem_of_app. right. left. }
  split; [intros _; unfold ws in *; lia|]. split; [unfold ws in *; lia|].
  split; [|done].
  intros Hsame.
  assert (Hto : _to_region cl' = f).
  { unfold is_compact_same_region in Hsame. apply bool_decide_eq_true in Hsame.
    rewrite (pi_from _ _ _ _ _ _ HI') in Hsame. congruence. }
  rewrite Hto in Hbt. rewrite Ht. split; [done|]. split; [done|].
  apply Forall_forall. intros q Hq.
  destruct (objs_chain_lower _ _ _ _ Hc2 Hq). unfold ws in *. lia.
Qed.

(** *** Finishing the slice *)

Lemma mark_empty_other L h i :
  i ∉ L →
  rgn (foldl (λ h r, upd_region r (λ x, set_new_top (bottom x) x) h) h L) i = rgn h i.
Proof.
  revert h. induction L as [|x L IH]; intros h Hi; simpl; [done|].
  apply not_elem_of_cons in Hi as [Hx HL].
  rewrite IH by done. by apply rgn_upd_region_ne.
Qed.

Lemma mark_empty_in L h r :
  r ∈ L → (r < num_regions h)%nat →
  new_top (rgn (foldl (λ h r, upd_region r (λ x, set_new_top (bottom x) x) h) h L) r)
  = bottom (rgn h r).
Proof.
  revert h. induction L as [|x L IH]; intros h Hr Hn; simpl; [by apply elem_of_nil in Hr|].
  destruct (decide (r ∈ L)) as [HL|HL].
  - rewrite IH; [|done|by rewrite num_regions_upd_region].
    apply same_shape_bottom, same_shape_upd_new_top_fn.
  - apply elem_of_cons in Hr as [->|?]; [|done].
    rewrite mark_empty_other by done. by rewrite rgn_upd_region_eq.
Qed.

Lemma mark_empty_same_shape L h :
  same_shape h (foldl (λ h r, upd_region r (λ x, set_new_top (bottom x) x) h) h L).
Proof.
  revert h. induction L as [|x L IH]; intros h; simpl; [done|].
  eapply same_shape_trans; [|apply IH]. apply same_shape_upd_new_top_fn.
Qed.

Lemma mark_empty_mem L h :
  mem (foldl (λ h r, upd_region r (λ x, set_new_top (bottom x) x) h) h L) = mem h.
Proof. revert h. induction L as [|x L IH]; intros h; simpl; [done|]. by rewrite IH. Qed.

Lemma do_object_set_regions p cl :
  set_regions (_empty_regions (do_object p cl)) = set_regions (_empty_regions cl).
Proof.
  unfold do_object. case_decide; cbn [_empty_regions]; [|done].
  destruct (advance_to_region_spec cl) as (_ & -> & _).
  destruct (current_then_next (_empty_regions cl)) as [[r|] er] eqn:Ec; simpl.
  - by apply current_then_next_Some in Ec as (_ & ? & _).
  - by apply current_then_next_None in Ec as (_ & ->).
Qed.

Lemma do_objects_set_regions L cl :
  set_regions (_empty_regions (foldl (λ cl p, do_object p cl) cl L))
  = set_regions (_empty_regions cl).
Proof.
  revert cl. induction L as [|p L IH]; intros cl; simpl; [done|].
  by rewrite IH, do_object_set_regions.
Qed.

Lemma plan_region_set_regions f cl x :
  x ∈ set_regions (_empty_regions cl) →
  x ∈ set_regions (_empty_regions (plan_region f cl)).
Proof.
  unfold plan_region, marked_object_iterate. intros Hx.
  case_match; cbn [_empty_regions add_region set_regions];
    rewrite ?elem_of_app, do_objects_set_regions; auto.
Qed.

Lemma plan_regions_set_regions Ms cl x :
  x ∈ set_regions (_empty_regions cl) →
  x ∈ set_regions (_empty_regions (foldl (λ cl r, plan_region r cl) cl Ms)).
Proof.
  revert cl. induction Ms as [|r Ms IH]; intros cl Hx; simpl; [done|].
  by apply IH, plan_region_set_regions.
Qed.

(** The planner keeps its from-region while it walks the objects. *)
Lemma do_object_from_region p cl : _from_region (do_object p cl) = _from_region cl.
Proof.
  unfold do_object. case_decide; cbn [_from_region]; [|done].
  by destruct (advance_to_region_spec cl) as (_ & _ & _ & -> & _).
Qed.

Lemma do_objects_from_region L cl :
  _from_region (foldl (λ cl p, do_object p cl) cl L) = _from_region cl.
Proof.
  revert cl. induction L as [|p L IH]; intros cl; simpl; [done|].
  by rewrite IH, do_object_from_region.
Qed.

(** What the turn of a from-region does to the empty regions, told by
    the target region the planner ends the turn with. *)
Lemma plan_region_turn f cl :
  let cl_f := plan_region f cl in
  (_to_region cl_f ≠ f →
     set_regions (_empty_regions cl_f) = set_regions (_empty_regions cl) ++ [f])
  ∧ (_to_region cl_f = f →
     set_regions (_empty_regions cl_f) = set_regions (_empty_regions cl)).
Proof.
  unfold plan_region, marked_object_iterate.
  set (mid := foldl _ (set_from_region f cl) _).
  assert (Hfrom : _from_region mid = Some f).
  { unfold mid. by rewrite do_objects_from_region. }
  assert (Hset : set_regions (_empty_regions mid) = set_regions (_empty_regions cl)).
  { unfold mid. by rewrite do_objects_set_regions. }
  unfold is_compact_same_region. rewrite Hfrom.
  case_bool_decide as Hd; cbn [negb _to_region _empty_regions add_region set_regions].
  - split; [|by rewrite Hset]. intros Hne. congruence.
  - split; [by rewrite Hset|]. intros He. congruence.
Qed.

(** Only from-regions get into the empty regions. *)
Lemma plan_regions_visited Ms cl x :
  x ∈ set_regions (_empty_regions (foldl (λ cl r, plan_region r cl) cl Ms)) →
  x ∈ set_regions (_empty_regions cl) ∨ x ∈ Ms.
Proof.
  revert cl. induction Ms as [|r Ms IH]; intros cl Hx; simpl in *; [by left|].
  destruct (IH _ Hx) as [Hin|Hin]; [|right; by right].
  destruct (plan_region_turn r cl) as [Hadd Hkeep].
  destruct (decide (_to_region (plan_region r cl) = r)) as [He|Hne].
  - rewrite (Hkeep He) in Hin. by left.
  - rewrite (Hadd Hne) in Hin.
    apply elem_of_app in Hin as [?| ->%list_elem_of_singleton]; [by left|right; left].
Qed.

(** The targets planned for the objects of a from-region whose turn ends
    with the target region elsewhere all end below the from-region. *)
Lemma plan_region_drained h r0 K f :
  parsable h → StronglySorted Nat.lt (r0 :: K) →
  Forall (λ r, (r < num_regions h)%nat) (r0 :: K) →
  Forall (λ r, is_move_allowed (rgn h r) = true) (r0 :: K) →
  default r0 (last K) = f →
  let cl_f := planned h r0 K in
  (_to_region cl_f ≤ f)%nat
  ∧ (_to_region cl_f ≠ f →
     Forall (λ p, BrooksPointer.get_raw (mem (_heap cl_f)) p + obj_size (mem h) p
                  ≤ bottom (rgn h f)) (live_objects h f)).
Proof.
  intros Hp Hs Hn Hm Hlast cl_f. pose proof Hp as (_ & Hg & _).
  destruct (planned_fin h (r0 :: K) r0 K Hp Hn Hs) as (mv & Hsrc & HF).
  { rewrite Forall_forall in Hm |- *. intros r Hr. split; [done|by apply Hm]. }
  rewrite Hlast in HF. fold cl_f in HF.
  destruct HF as [Hshape Htole Htoin Hcplo Hcphi Hidx Hempty Hsorted
                    Hslide Hmem Hsizes Hinreg].
  split; [done|]. intros Hne. apply Forall_forall. intros p Hpf.
  assert (HfK : f ∈ r0 :: K).
  { rewrite <- Hlast. destruct (last K) as [x|] eqn:El; simpl; [|left].
    right. by apply last_Some_elem_of. }
  assert (Hin : p ∈ sources mv).
  { rewrite Hsrc. apply list_elem_of_bind. by exists f. }
  unfold sources in Hin. apply list_elem_of_fmap in Hin as ([[p' t] s] & E & Hx).
  cbn in E. subst p'.
  destruct (slide_bounds _ _ _ _ _ _ Hslide Hx) as (_ & Hts & _ & _).
  rewrite Forall_forall in Hsizes. specialize (Hsizes _ Hx). cbn in Hsizes.
  assert (Ht : BrooksPointer.get_raw (mem (_heap cl_f)) p = t).
  { unfold BrooksPointer.get_raw. rewrite Hmem.
    exact (planned_mem_target _ _ _ _ _ _ _ Hslide Hx). }
  rewrite Forall_forall in Hn.
  pose proof (region_below h (_to_region cl_f) f Hg ltac:(lia) (Hn _ HfK)).
  rewrite Ht, <- Hsizes. lia.
Qed.

(** C8. When a worker has processed all the from-regions [r0 :: Ms] of
    its slice: the final target region gets [new_top = compact_point];
    every region left in the empty regions gets [new_top = bottom]; and
    every from-region that was not compacted into itself is in the empty
    regions when its turn of the loop ends, before the next claim, and
    stays there. A from-region [f] was not compacted into itself when
    the planner ends the turn of [f] with another target region: the
    targets planned for the live objects of [f] then all end at or below
    the bottom of [f]. A from-region that the planner ends as its own
    target is not in the empty regions, then or later. *)
Theorem worker_finishes_slice (h : ShenandoahHeap) (view : list nat)
    (slice : ShenandoahHeapRegionSet) (r0 : nat) (Ms : list nat) :
  parsable h → view_ok h view → movable h view = r0 :: Ms →
  let cl := planned h r0 Ms in
  let h' := (work h view slice).1 in
  h' = mark_remaining_empty (_empty_regions cl) (_heap (finish_region cl))
  ∧ new_top (rgn h' (_to_region cl)) = _compact_point cl
  ∧ Forall (λ r, new_top (rgn h' r) = bottom (rgn h' r)) (remaining (_empty_regions cl))
  ∧ (∀ Ms1 f Ms2, r0 :: Ms = Ms1 ++ f :: Ms2 →
       let cl_f := plan_region f (foldl (λ cl r, plan_region r cl)
                                        (new h new_region_set r0) Ms1) in
       (_to_region cl_f ≠ f →
          f ∈ set_regions (_empty_regions cl_f) ∧ f ∈ set_regions (_empty_regions cl)
          ∧ Forall (λ p, BrooksPointer.get_raw (mem (_heap cl_f)) p + obj_size (mem h) p
                         ≤ bottom (rgn h f)) (live_objects h f))
       ∧ (_to_region cl_f = f →
          (f ∉ set_regions (_empty_regions cl_f))
          ∧ (f ∉ set_regions (_empty_regions cl)))).
Proof.
  intros Hp Hv HM cl h'.
  destruct (movable_ok h view Hv) as (Hs & Hn & Hin). rewrite HM in Hs, Hn, Hin.
  destruct (planned_fin h (r0 :: Ms) r0 Ms Hp Hn Hs Hin) as (mv & _ & HF).
  fold cl in HF. destruct HF as [Hshape Htole Htoin Hcplo Hcphi Hidx Hempty Hsorted
                                   Hslide Hmem Hsizes Hinreg].
  assert (Hh' : h' = mark_remaining_empty (_empty_regions cl) (_heap (finish_region cl))).
  { unfold h'. by rewrite work_fold, HM. }
  assert (Hton : (_to_region cl < num_regions (_heap cl))%nat).
  { rewrite (same_shape_num_regions _ _ Hshape).
    rewrite Forall_forall in Hn. by apply Hn. }
  split; [done|]. split; [|split].
  - rewrite Forall_forall in Hempty.
    rewrite Hh', mark_remaining_empty_fold. cbn [finish_region _heap _empty_regions].
    rewrite mark_empty_other.
    + by rewrite rgn_upd_region_eq.
    + intros Hin'. destruct (Hempty _ Hin'). lia.
  - rewrite Forall_forall in Hn, Hempty.
    rewrite Hh', mark_remaining_empty_fold. cbn [finish_region _heap _empty_regions].
    apply Forall_forall. intros r Hr.
    rewrite mark_empty_in; [|done|].
    + symmetry. apply same_shape_bottom, mark_empty_same_shape.
    + rewrite num_regions_upd_region, (same_shape_num_regions _ _ Hshape).
      apply Hn. by destruct (Hempty _ Hr).
  - intros Ms1 f Ms2 E cl_f.
    set (before := foldl (λ cl r, plan_region r cl) (new h new_region_set r0) Ms1) in *.
    assert (Hcl : cl = foldl (λ cl r, plan_region r cl) cl_f Ms2).
    { unfold cl, planned. rewrite E, foldl_app. done. }
    destruct (plan_region_turn f before) as [Hadd Hkeep]. fold cl_f in Hadd, Hkeep.
    rewrite E in Hs, Hn, Hin.
    split.
    + intros Hne.
      assert (Hf : f ∈ set_regions (_empty_regions cl_f)).
      { rewrite (Hadd Hne). apply elem_of_app. right. left. }
      split; [done|]. split; [rewrite Hcl; by apply plan_regions_set_regions|].
      assert (Hpre : ∃ K, Ms1 ++ [f] = r0 :: K ∧ default r0 (last K) = f).
      { destruct Ms1 as [|x Ms1]; simplify_eq/=.
        - by exists [].
        - exists (Ms1 ++ [f]). by rewrite last_snoc. }
      destruct Hpre as (K & EK & Hlast).
      assert (Hcf : cl_f = planned h r0 K).
      { unfold planned. rewrite <- EK, foldl_app. done. }
      rewrite Hcf in Hne |- *.
      replace (Ms1 ++ f :: Ms2) with ((r0 :: K) ++ Ms2) in Hs, Hn, Hin
        by (by rewrite <- EK, <- app_assoc).
      apply StronglySorted_app_1_l in Hs.
      apply Forall_app in Hn as [Hn _]. apply Forall_app in Hin as [Hin _].
      refine (proj2 (plan_region_drained h r0 K f Hp Hs Hn _ Hlast) Hne).
      eapply Forall_impl; [exact Hin|]. by intros r [_ ?].
    + intros He.
      assert (Hf1 : f ∉ Ms1).
      { intros Hf. pose proof (StronglySorted_app_1_elem_of _ _ _ _ _ Hs Hf
                                 ltac:(left)) as Hlt. cbn in Hlt. lia. }
      assert (Hf2 : f ∉ Ms2).
      { intros Hf. apply StronglySorted_app_1_r in Hs.
        apply StronglySorted_inv in Hs as [_ Hall].
        rewrite Forall_forall in Hall. specialize (Hall _ Hf). lia. }
      assert (Hf : f ∉ set_regions (_empty_regions cl_f)).
      { rewrite (Hkeep He). intros Hx.
        by destruct (plan_regions_visited Ms1 _ f Hx) as [?%elem_of_nil|?]. }
      split; [done|]. rewrite Hcl. intros Hx.
      by destruct (plan_regions_visited Ms2 _ f Hx).
Qed.
End PlanningSlice.


(** ** Planning by the gang *)

Section PlanningGang.
Context `{!KlassModel}.
Import ShenandoahPrepareForCompactionObjectClosure.
Import ShenandoahPrepareForCompactionTask.
Local Abbreviation ws := BrooksPointer.word_size.

Lemma elem_of_claims_of owner n w i :
  i ∈ claims_of owner n w ↔ (i < n)%nat ∧ owner i = w.
Proof.
  unfold claims_of. rewrite list_elem_of_filter, elem_of_seq. intuition lia.
Qed.

Lemma StronglySorted_seq j n : StronglySorted Nat.lt (seq j n).
Proof.
  revert j. induction n as [|n IH]; intros j; simpl; constructor; [done|].
  apply Forall_forall. intros x Hx%elem_of_seq. unfold Nat.lt. lia.
Qed.

Lemma claims_of_view_ok owner h w : view_ok h (claims_of owner (num_regions h) w).
Proof.
  split.
  - apply StronglySorted_filter, StronglySorted_seq.
  - apply Forall_forall. by intros i [? _]%elem_of_claims_of.
Qed.

Lemma elem_of_movable h view i :
  i ∈ movable h view ↔ is_move_allowed (rgn h i) = true ∧ i ∈ view.
Proof. unfold movable. by rewrite list_elem_of_filter. Qed.

(** Objects of different regions are different objects. *)
Lemma live_objects_region_inj h i j p :
  geometry_ok h → (i < num_regions h)%nat → (j < num_regions h)%nat →
  p ∈ live_objects h i → p ∈ live_objects h j → i = j.
Proof.
  intros Hg Hi Hj [_ Hpi]%elem_of_live_objects [_ Hpj]%elem_of_live_objects.
  destruct (geometry_region h i Hg Hi) as (_ & _ & ?).
  destruct (geometry_region h j Hg Hj) as (_ & _ & ?).
  destruct (decide (i = j)) as [|Hne]; [done|]. unfold ws in *.
  destruct (decide (i < j)%nat).
  - pose proof (region_below h i j Hg ltac:(lia) Hj). lia.
  - pose proof (region_below h j i Hg ltac:(lia) Hi). lia.
Qed.

(** Parsability depends on the heap words through the class words of
    the live objects only. *)
Lemma parsable_transfer h h' :
  same_shape h h' → (∀ p, p ∈ all_objects h → mem h' p = mem h p) →
  parsable h → parsable h'.
Proof.
  intros Hs Hk (Hn & Hg & Hc & He & Hf).
  pose proof (same_shape_num_regions h h' Hs) as En.
  assert (Esz : ∀ p, p ∈ all_objects h → obj_size (mem h') p = obj_size (mem h) p).
  { intros p Hp. unfold obj_size. by rewrite Hk. }
  assert (Eb : heap_base h' = heap_base h) by apply (same_shape_bottom h h' _ Hs).
  assert (Er : region_size_words h' = region_size_words h).
  { unfold region_size_words.
    by rewrite (same_shape_bottom h h' _ Hs), (same_shape_end h h' _ Hs). }
  unfold parsable. rewrite (same_shape_all_objects h h' Hs), En.
  split; [done|]. split; [|split; [|split]].
  - unfold geometry_ok in *. rewrite En. eapply Forall_impl; [exact Hg|].
    intros i. cbv beta.
    by rewrite Eb, Er, (same_shape_bottom h h' _ Hs), (same_shape_end h h' _ Hs),
      (same_shape_top h h' _ Hs).
  - rewrite Eb. by apply (objs_chain_ext (mem h) (mem h')).
  - unfold heap_end. rewrite Eb, Er, En. rewrite Forall_forall in He |- *.
    intros p Hp. rewrite Esz by done. by apply He.
  - rewrite Forall_forall in Hf |- *. intros i Hi. specialize (Hf i Hi).
    apply elem_of_seq in Hi.
    rewrite (same_shape_move_allowed h h' i Hs), (same_shape_live_objects h h' i Hs).
    assert (Hall : ∀ p, p ∈ live_objects h i → p ∈ all_objects h).
    { intros p Hp. apply elem_of_all_objects. exists i. split; [lia|done]. }
    destruct (is_move_allowed (rgn h i)).
    + rewrite Forall_forall in Hf |- *. intros p Hp.
      rewrite (same_shape_end h h' _ Hs), Esz by auto. by apply Hf.
    + rewrite Forall_forall in Hf |- *. intros p Hp. specialize (Hf p Hp).
      rewrite Forall_forall in Hf |- *. intros j Hj.
      rewrite (same_shape_move_allowed h h' j Hs). intros Hm.
      specialize (Hf j Hj Hm). unfold misses_region in *.
      by rewrite Esz, (same_shape_bottom h h' _ Hs), (same_shape_end h h' _ Hs) by auto.
Qed.

(** What one worker leaves behind. *)
Lemma work_planned h view slice :
  parsable h → view_ok h view →
  ∃ mv slo tlo,
    slide slo tlo mv
    ∧ sources mv = (r ← movable h view; live_objects h r)
    ∧ Forall (λ '(p, _, s), s = obj_size (mem h) p) mv
    ∧ Forall (λ '(_, t, s),
                ∃ r, r ∈ movable h view ∧ bottom (rgn h r) + ws ≤ t
                     ∧ t + s ≤ end_ (rgn h r)) mv
    ∧ same_shape h (work h view slice).1
    ∧ (∀ a, mem (work h view slice).1 a = planned_mem mv (mem h) a)
    ∧ set_regions (work h view slice).2 = set_regions slice ++ movable h view
    ∧ current_index (work h view slice).2 = current_index slice.
Proof.
  intros Hp Hv. rewrite work_fold.
  destruct (movable_ok h view Hv) as (Hs & Hn & Hin).
  destruct (movable h view) as [|r0 Ms] eqn:EM.
  - exists [], 0, 0. simpl. rewrite app_nil_r.
    repeat split; try done. by constructor.
  - destruct (planned_fin h (r0 :: Ms) r0 Ms Hp Hn Hs Hin) as (mv & Hsrc & HF).
    destruct HF as [Hshape Htole Htoin Hcplo Hcphi Hidx Hempty Hsorted
                      Hslide Hmem Hsizes Hinreg].
    exists mv, (end_ (rgn h (default r0 (last Ms)))), (_compact_point (planned h r0 Ms)).
    cbn [fst snd]. rewrite mark_remaining_empty_fold.
    destruct (set_regions_add_regions slice (r0 :: Ms)) as [E1 E2].
    split; [done|]. split; [done|]. split; [done|]. split; [done|].
    split; [|split; [|done]].
    + eapply same_shape_trans; [|apply mark_empty_same_shape].
      cbn [finish_region _heap]. eapply same_shape_trans; [exact Hshape|].
      apply same_shape_upd_new_top.
    + intros a. rewrite mark_empty_mem. apply Hmem.
Qed.

Lemma prepare_for_compaction_S owner k s :
  prepare_for_compaction owner (S k) s
  = (let '(h', slice) :=
       work (prepare_for_compaction owner k s).1
            (claims_of owner (num_regions (prepare_for_compaction owner k s).1) k)
            ((prepare_for_compaction owner k s).2 !!! k) in
     (h', <[k := slice]> (prepare_for_compaction owner k s).2)).
Proof.
  unfold prepare_for_compaction, run_task. rewrite seq_S, foldl_snoc. simpl.
  by destruct (foldl _ s (seq 0 k)).
Qed.

Lemma gang_klass_words h owner slices k s p :
  parsable h → gang_planned h owner slices k s →
  p ∈ all_objects h → mem s.1 p = mem h p.
Proof.
  intros Hp HG Hin. apply (gp_frame _ _ _ _ _ HG).
  intros i q Hi _ _ Hq. apply (klass_word_not_fwd h p q Hp Hin).
  apply elem_of_all_objects. eauto.
Qed.

Lemma elem_of_sources_slice h Ms mv p :
  sources mv = (r ← Ms; live_objects h r) →
  p ∈ sources mv ↔ ∃ r, r ∈ Ms ∧ p ∈ live_objects h r.
Proof. intros ->. rewrite list_elem_of_bind. split; intros (r & ? & ?); eauto. Qed.

Lemma elem_of_sources mv p t s : (p, t, s) ∈ mv → p ∈ sources mv.
Proof. intros Hin. unfold sources. apply list_elem_of_fmap. by exists (p, t, s). Qed.

Lemma gang_planned_step h owner slices k s :
  parsable h → (k < length slices)%nat →
  gang_planned h owner slices k s →
  gang_planned h owner slices (S k)
    (let '(h', slice) := work s.1 (claims_of owner (num_regions s.1) k) (s.2 !!! k) in
     (h', <[k := slice]> s.2)).
Proof.
  intros Hp Hk HG. pose proof Hp as (_ & Hg & _).
  destruct s as [hk slk]. cbn [fst snd] in *.
  pose proof (gp_shape _ _ _ _ _ HG) as Hshape. cbn [fst] in Hshape.
  pose proof (gp_len _ _ _ _ _ HG) as Hlen. cbn [snd] in Hlen.
  pose proof (gp_frame _ _ _ _ _ HG) as Hframe. cbn [fst] in Hframe.
  pose proof (gp_done _ _ _ _ _ HG) as Hdone. cbn [fst snd] in Hdone.
  pose proof (gp_todo _ _ _ _ _ HG) as Htodo. cbn [snd] in Htodo.
  pose proof (same_shape_num_regions _ _ Hshape) as En.
  assert (Hpk : parsable hk).
  { apply (parsable_transfer h); [done| |done].
    intros p Hin. apply (gang_klass_words h owner slices k (hk, slk) p Hp HG Hin). }
  rewrite En. set (view := claims_of owner (num_regions h) k).
  assert (Hv : view_ok hk view).
  { unfold view. rewrite <- En. apply claims_of_view_ok. }
  destruct (work_planned hk view (slk !!! k) Hpk Hv)
    as (mv & slo & tlo & Hslide & Hsrc & Hsizes & Hinreg & Hsh' & Hmem & Hset & Hidx).
  rewrite (movable_same_shape _ _ _ Hshape) in Hsrc, Hinreg, Hset.
  fold (slice_of h owner k) in Hsrc, Hinreg, Hset.
  destruct (work hk view (slk !!! k)) as [h' slice'] eqn:Ew. cbn [fst snd] in *.
  assert (Hsrc' : sources mv = (r ← slice_of h owner k; live_objects h r)).
  { rewrite Hsrc. apply list_bind_ext; [|done]. intros r.
    by apply same_shape_live_objects. }
  assert (Hown : ∀ p, p ∈ sources mv →
            ∃ r, (r < num_regions h)%nat ∧ owner r = k
                 ∧ is_move_allowed (rgn h r) = true ∧ p ∈ live_objects h r).
  { intros p Hin. apply (elem_of_sources_slice h _ _ _ Hsrc') in Hin as (r & Hr & Hpr).
    apply elem_of_movable in Hr as [Hm Hr]. apply elem_of_claims_of in Hr as [? ?].
    eauto. }
  constructor; cbn [fst snd].
  - by eapply same_shape_trans.
  - by rewrite length_insert.
  - intros a Ha. rewrite Hmem, planned_mem_other.
    + apply Hframe. intros i p Hi Ho. apply Ha; [done|lia].
    + intros p t s0 Hin. apply elem_of_sources in Hin.
      destruct (Hown p Hin) as (r & Hr & Ho & Hm & Hpr). apply (Ha r p); [done|lia|done..].
  - intros w Hw. destruct (decide (w = k)) as [->|Hne].
    + rewrite list_lookup_total_insert_eq by lia.
      rewrite Hset, Hidx, (Htodo k) by done.
      split; [done|]. split; [done|]. exists mv. split; [eauto|]. split; [done|].
      rewrite Forall_forall in Hsizes, Hinreg |- *. intros [[p t] s0] Hin.
      specialize (Hsizes _ Hin). specialize (Hinreg _ Hin). cbn beta iota in *.
      assert (Hpin : p ∈ all_objects h).
      { destruct (Hown p (elem_of_sources _ _ _ _ Hin)) as (r & ? & _ & _ & ?).
        apply elem_of_all_objects. eauto. }
      split; [|split].
      * rewrite Hsizes. unfold obj_size.
        pose proof (gang_klass_words h owner slices k (hk, slk) p Hp HG Hpin) as Ek.
        cbn [fst] in Ek. by rewrite Ek.
      * unfold BrooksPointer.get_raw. rewrite Hmem.
        by apply (planned_mem_target slo tlo mv _ p t s0).
      * destruct Hinreg as (r & Hr & Hb & He). exists r. split; [done|].
        by rewrite <- (same_shape_bottom h hk r Hshape), <- (same_shape_end h hk r Hshape).
    + rewrite list_lookup_total_insert_ne by done.
      destruct (Hdone w ltac:(lia)) as (E1 & E2 & mvw & Hsl & Hsw & Hfw).
      split; [done|]. split; [done|]. exists mvw. split; [done|]. split; [done|].
      rewrite Forall_forall in Hfw |- *. intros [[p t] s0] Hin.
      destruct (Hfw _ Hin) as (Hs0 & Hget & Hreg). split; [done|]. split; [|done].
      rewrite <- Hget. unfold BrooksPointer.get_raw. rewrite Hmem.
      apply planned_mem_other. intros q tq sq Hq Heq.
      assert (p = q) as -> by lia.
      destruct (Hown q (elem_of_sources _ _ _ _ Hq)) as (r & Hr & Ho & _ & Hqr).
      apply elem_of_sources in Hin.
      apply (elem_of_sources_slice h _ _ _ Hsw) in Hin as (r' & Hr' & Hqr').
      apply elem_of_movable in Hr' as [_ Hr'].
      apply elem_of_claims_of in Hr' as [Hrn' Ho'].
      pose proof (live_objects_region_inj h r r' q Hg Hr Hrn' Hqr Hqr'). congruence.
  - intros w Hw. rewrite list_lookup_total_insert_ne by lia.
    apply Htodo. lia.
Qed.

Lemma gang_planned_all h owner slices k :
  parsable h → (k ≤ length slices)%nat →
  gang_planned h owner slices k (prepare_for_compaction owner k (h, slices)).
Proof.
  intros Hp. induction k as [|k IH]; intros Hk.
  - constructor; cbn [fst snd]; try done. intros w Hw. lia.
  - rewrite prepare_for_compaction_S.
    apply (gang_planned_step h owner slices k _ Hp); [lia|]. apply IH. lia.
Qed.
End PlanningGang.


(** ** Who writes forwarding words *)

Lemma foldl_preserves {A B C} (proj : A → C) (f : A → B → A) (a : A) (l : list B) :
  (∀ a x, proj (f a x) = proj a) → proj (foldl f a l) = proj a.
Proof.
  intros Hf. revert a. induction l as [|x l IH]; intros a; simpl; [done|].
  by rewrite IH, Hf.
Qed.

Lemma mem_trash_humongous_region_at i h : mem (trash_humongous_region_at i h) = mem h.
Proof. unfold trash_humongous_region_at. by apply (foldl_preserves mem). Qed.

Lemma mem_reclaim_humongous h : mem (reclaim_humongous h) = mem h.
Proof.
  unfold reclaim_humongous, heap_region_iterate. apply (foldl_preserves mem).
  intros a i. unfold ShenandoahMCReclaimHumongousRegionClosure.heap_region_do.
  repeat case_match; try done. apply mem_trash_humongous_region_at.
Qed.

Lemma mem_ensure_heap_active h : mem (ensure_heap_active h) = mem h.
Proof.
  unfold ensure_heap_active, heap_region_iterate. apply (foldl_preserves mem).
  intros a i. unfold ShenandoahEnsureHeapActiveClosure.heap_region_do.
  by repeat case_match.
Qed.

Lemma mem_clear_region_status h : mem (clear_region_status h) = mem h.
Proof.
  unfold clear_region_status, heap_region_iterate. by apply (foldl_preserves mem).
Qed.

Lemma mem_prepare_regions h : mem (prepare_regions h) = mem h.
Proof. unfold prepare_regions. by rewrite mem_clear_region_status, mem_ensure_heap_active. Qed.

Section FirstWriter.
Context `{!KlassModel}.
Import ShenandoahPrepareForCompactionObjectClosure.
Import ShenandoahPrepareForCompactionTask.
Local Abbreviation ws := BrooksPointer.word_size.

Lemma do_object_mem_other p cl a :
  a ≠ p + BrooksPointer.word_offset → mem (_heap (do_object p cl)) a = mem (_heap cl) a.
Proof.
  intros Ha. unfold do_object. cbn [_heap mem with_mem]. unfold BrooksPointer.set_raw.
  rewrite decide_False by done. case_decide; [|done].
  by destruct (advance_to_region_spec cl) as (-> & _).
Qed.

Lemma slice_of_spec h owner w r :
  r ∈ slice_of h owner w
  ↔ (r < num_regions h)%nat ∧ owner r = w ∧ is_move_allowed (rgn h r) = true.
Proof.
  unfold slice_of. rewrite elem_of_movable, elem_of_claims_of. tauto.
Qed.

Lemma NoDup_slice_of h owner w : NoDup (slice_of h owner w).
Proof. unfold slice_of, movable, claims_of. apply NoDup_filter, NoDup_filter, NoDup_seq. Qed.

Lemma NoDup_live_objects h i : parsable h → (i < num_regions h)%nat → NoDup (live_objects h i).
Proof. intros Hp Hi. eapply objs_chain_NoDup. by apply region_chain. Qed.

Lemma NoDup_slice_objects h owner w :
  parsable h → NoDup (r ← slice_of h owner w; live_objects h r).
Proof.
  intros Hp. pose proof Hp as (_ & Hg & _). apply NoDup_bind.
  - intros r1 r2 p [Hr1 _]%slice_of_spec [Hr2 _]%slice_of_spec.
    by apply live_objects_region_inj.
  - intros r [Hr _]%slice_of_spec. by apply NoDup_live_objects.
  - apply NoDup_slice_of.
Qed.

Lemma NoDup_planned_objects h owner nworkers :
  parsable h → NoDup (planned_objects h owner nworkers).
Proof.
  intros Hp. pose proof Hp as (_ & Hg & _). apply NoDup_bind.
  - intros w1 w2 p _ _ (r1 & Hp1 & Hr1)%list_elem_of_bind (r2 & Hp2 & Hr2)%list_elem_of_bind.
    apply slice_of_spec in Hr1 as (? & ? & _). apply slice_of_spec in Hr2 as (? & ? & _).
    pose proof (live_objects_region_inj h r1 r2 p Hg ltac:(done) ltac:(done) Hp1 Hp2).
    congruence.
  - intros w _. by apply NoDup_slice_objects.
  - apply NoDup_seq.
Qed.

(** C9. Every live object handed to the planner still is its own
    forwardee: on a heap whose live objects are self-forwarded when
    planning starts, the assertion of [do_object] on the forwarding word
    holds for every worker, region and object, whatever the workers before
    have planned. Nothing before the planner writes a heap word in phase 2
    or in Prepare, [do_object] writes the forwarding word of its object
    and no other word, and no object is handed to the planner twice. [h0]
    is the heap when phase 2 starts, [w] the worker, [f] its from-region,
    [L1] the objects of [f] planned before [p]. *)
Theorem planner_is_first_writer (h0 : ShenandoahHeap) (owner : nat → nat)
    (slices : list ShenandoahHeapRegionSet) (w : nat) (Ms1 Ms2 : list nat) (f : nat)
    (L1 L2 : list HeapWord) (p : HeapWord) :
  let h := ensure_heap_active (reclaim_humongous h0) in
  let hw := (prepare_for_compaction owner w (h, slices)).1 in
  parsable h → self_forwarded h → (w ≤ length slices)%nat →
  slice_of hw owner w = Ms1 ++ f :: Ms2 →
  live_objects hw f = L1 ++ p :: L2 →
  let cl := planning_state hw Ms1 f L1 in
  assert_not_forwarded p cl = true
  ∧ BrooksPointer.get_raw (mem (_heap cl)) p = p
  ∧ mem h = mem h0
  ∧ (∀ h', mem (prepare_regions h') = mem h')
  ∧ (∀ a, a ≠ p + BrooksPointer.word_offset →
          mem (_heap (do_object p cl)) a = mem (_heap cl) a)
  ∧ (∀ nworkers, NoDup (planned_objects h owner nworkers)).
Proof.
  intros h hw Hp Hself Hw HM HL cl. pose proof Hp as (_ & Hg & _).
  pose proof (gang_planned_all h owner slices w Hp Hw) as HG.
  pose proof (gp_shape _ _ _ _ _ HG) as Hshape. fold hw in Hshape.
  pose proof (gp_frame _ _ _ _ _ HG) as Hframe. fold hw in Hframe.
  assert (Hpw : parsable hw).
  { apply (parsable_transfer h); [done| |done].
    intros q Hq. apply (gang_klass_words h owner slices w _ q Hp HG Hq). }
  pose proof (claims_of_view_ok owner hw w) as Hv.
  destruct (planning_state_inv hw _ Ms1 f Ms2 L1 p L2 Hpw Hv HM HL)
    as (mv & lo & HI & Hlo & _).
  fold cl in HI.
  assert (Hfs : f ∈ slice_of hw owner w) by (rewrite HM; apply elem_of_app; right; left).
  apply slice_of_spec in Hfs as (Hfn & Hfo & Hfm).
  rewrite (same_shape_num_regions _ _ Hshape) in Hfn.
  assert (Hpf : p ∈ live_objects h f).
  { rewrite <- (same_shape_live_objects h hw f Hshape), HL.
    apply elem_of_app. right. left. }
  assert (Hget : BrooksPointer.get_raw (mem (_heap cl)) p = p).
  { rewrite (plan_inv_fwd _ _ _ _ _ _ p HI Hlo). unfold BrooksPointer.get_raw.
    rewrite Hframe.
    - unfold self_forwarded in Hself. rewrite Forall_forall in Hself.
      apply Hself. apply elem_of_all_objects. eauto.
    - intros i q Hi Ho _ Hq Heq. assert (p = q) as <- by lia.
      pose proof (live_objects_region_inj h f i p Hg Hfn Hi Hpf Hq). subst i. lia. }
  split; [by apply bool_decide_eq_true|]. split; [done|].
  split; [unfold h; by rewrite mem_ensure_heap_active, mem_reclaim_humongous|].
  split; [apply mem_prepare_regions|].
  split; [intros a Ha; by apply do_object_mem_other|].
  intros nworkers. by apply NoDup_planned_objects.
Qed.
End FirstWriter.


(** ** Phase 4: moving the objects of a slice *)

Section Compaction.
Context `{!KlassModel}.
Local Abbreviation ws := BrooksPointer.word_size.

Lemma compact_do_object p h :
  ShenandoahCompactObjectsClosure.do_object p h = with_mem (compact_mem p (mem h)) h.
Proof. done. Qed.

(** A word outside the target extent is not written. *)
Lemma compact_mem_other p m a :
  0 < obj_size m p →
  ¬ (BrooksPointer.get_raw m p - ws ≤ a < BrooksPointer.get_raw m p + obj_size m p) →
  compact_mem p m a = m a.
Proof.
  intros Hpos Ha. unfold compact_mem, BrooksPointer.initialize, BrooksPointer.set_raw,
    aligned_conjoint_words, BrooksPointer.word_offset, ws in *.
  repeat case_decide; try done; lia.
Qed.

Lemma compact_mem_fwd p m :
  BrooksPointer.get_raw (compact_mem p m) (BrooksPointer.get_raw m p)
  = BrooksPointer.get_raw m p.
Proof. unfold compact_mem, BrooksPointer.initialize. apply get_raw_set_raw_eq. Qed.

Lemma compact_mem_body p m k :
  0 ≤ k < obj_size m p →
  compact_mem p m (BrooksPointer.get_raw m p + k) = m (p + k).
Proof.
  intros Hk. unfold compact_mem, BrooksPointer.initialize, BrooksPointer.set_raw,
    aligned_conjoint_words, BrooksPointer.word_offset.
  set (t := BrooksPointer.get_raw m p).
  rewrite decide_False by lia. case_decide as Hne.
  - rewrite decide_True by lia. f_equal. lia.
  - assert (Hpt : p = t) by (destruct (decide (p = t)); [done|tauto]).
    by rewrite <- Hpt.
Qed.

(** The moves of a sliding plan, carried out in order on heap words [m0]
    whose forwarding words hold the targets: every object arrives at its
    target with the words it had, its forwarding word points to itself,
    and no word outside the target extents changes. *)
Lemma slide_compaction slo tlo mv m0 :
  slide slo tlo mv →
  Forall (λ '(p, t, s), BrooksPointer.get_raw m0 p = t ∧ obj_size m0 p = s) mv →
  let m' := foldl (λ m p, compact_mem p m) m0 (sources mv) in
  (∀ p t s, (p, t, s) ∈ mv →
     BrooksPointer.get_raw m' t = t ∧ ∀ k, 0 ≤ k < s → m' (t + k) = m0 (p + k))
  ∧ (∀ a, (∀ p t s, (p, t, s) ∈ mv → ¬ (t - ws ≤ a < t + s)) → m' a = m0 a).
Proof.
  induction 1 as [|slo tlo mv p t s slo' tlo' Hs IH Hp Ht Htp Hpos Hslo Htlo Hfr];
    intros Hm; cbn zeta.
  - split; [by intros ??? ?%elem_of_nil|done].
  - apply Forall_app in Hm as [Hm Hpts]. apply Forall_singleton in Hpts as [Hget Hsz].
    destruct (IH Hm) as [IHA IHB]. clear IH.
    rewrite sources_app, foldl_app. cbn [sources fmap list_fmap foldl fst].
    set (m1 := foldl (λ m p, compact_mem p m) m0 (sources mv)) in *.
    pose proof (slide_frontiers _ _ _ Hs) as Hfr0.
    assert (Hhigh : ∀ a, tlo ≤ a → m1 a = m0 a).
    { intros a Ha. apply IHB. intros p0 t0 s0 Hin.
      destruct (slide_bounds _ _ _ _ _ _ Hs Hin) as (_ & ? & _ & _). lia. }
    assert (Hget1 : BrooksPointer.get_raw m1 p = t).
    { unfold BrooksPointer.get_raw, BrooksPointer.word_offset in *.
      rewrite Hhigh; [done|]. unfold ws in *. lia. }
    assert (Hsz1 : obj_size m1 p = s).
    { unfold obj_size in *. rewrite Hhigh; [done|]. unfold ws in *. lia. }
    split.
    + intros p0 t0 s0 [Hin|Hin]%elem_of_app.
      * destruct (IHA _ _ _ Hin) as [Hf Hb].
        destruct (slide_bounds _ _ _ _ _ _ Hs Hin) as (_ & ? & _ & ?).
        split.
        -- unfold BrooksPointer.get_raw in Hf |- *.
           rewrite compact_mem_other; [done|by rewrite Hsz1|].
           rewrite Hget1, Hsz1. unfold BrooksPointer.word_offset, ws in *. lia.
        -- intros k Hk. rewrite compact_mem_other; [by apply Hb|by rewrite Hsz1|].
           rewrite Hget1, Hsz1. unfold ws in *. lia.
      * apply list_elem_of_singleton in Hin as [= -> -> ->]. split.
        -- pose proof (compact_mem_fwd p m1) as Hf. by rewrite Hget1 in Hf.
        -- intros k Hk. pose proof (compact_mem_body p m1 k) as Hb.
           rewrite Hget1, Hsz1 in Hb. rewrite Hb by done.
           apply Hhigh. unfold ws in *. lia.
    + intros a Ha. rewrite compact_mem_other.
      * apply IHB. intros p0 t0 s0 Hin. apply (Ha p0 t0 s0). apply elem_of_app. by left.
      * by rewrite Hsz1.
      * rewrite Hget1, Hsz1. apply (Ha p t s). apply elem_of_app. right. left.
Qed.
End Compaction.


(** ** Phase 3: adjusting the slots *)

Section Adjust.
Context `{!KlassModel}.
Import ShenandoahAdjustPointersClosure.
Local Abbreviation ws := BrooksPointer.word_size.

Lemma do_oop_work_eq slot m a :
  do_oop_work slot m a = if decide (a = slot) then forwardee m (m slot) else m a.
Proof.
  unfold do_oop_work, forwardee, store. repeat case_decide; congruence.
Qed.

Lemma do_oop_works_other S m a :
  a ∉ S → foldl (λ m p, do_oop_work p m) m S a = m a.
Proof.
  revert m. induction S as [|x S IH]; intros m Ha; simpl; [done|].
  apply not_elem_of_cons in Ha as [Hx HS].
  rewrite IH by done. rewrite do_oop_work_eq. by rewrite decide_False.
Qed.

(** Distinct slots, none of them the forwarding word of a referent: every
    slot ends up holding the forwardee of what it held. *)
Lemma do_oop_works_slot S m a :
  NoDup S →
  (∀ x, x ∈ S → m x ≠ 0 → m x + BrooksPointer.word_offset ∉ S) →
  a ∈ S → foldl (λ m p, do_oop_work p m) m S a = forwardee m (m a).
Proof.
  induction S as [|x S IH] using rev_ind; intros Hnd Hfw Ha; [by apply elem_of_nil in Ha|].
  apply NoDup_app in Hnd as (Hnd & Hdisj & _).
  rewrite foldl_snoc, do_oop_work_eq.
  assert (Hx : x ∉ S). { intros Hin. apply (Hdisj x Hin). left. }
  assert (Hfwd : ∀ y, y ∈ S ∨ y = x →
            forwardee (foldl (λ m p, do_oop_work p m) m S) (m y) = forwardee m (m y)).
  { intros y Hy. unfold forwardee. case_decide; [|done]. unfold BrooksPointer.get_raw.
    apply do_oop_works_other. intros Hin. apply (Hfw y); [|done|].
    - apply elem_of_app. destruct Hy as [?| ->]; [by left|right; left].
    - apply elem_of_app. by left. }
  case_decide as Hax.
  - subst a. rewrite do_oop_works_other by done. apply Hfwd. by right.
  - apply elem_of_app in Ha as [Ha|Ha%list_elem_of_singleton]; [|done].
    apply IH; [done| |done].
    intros y Hy Hne Hin. apply (Hfw y); [apply elem_of_app; by left|done|].
    apply elem_of_app. by left.
Qed.

Lemma oop_iterate_slots m p m' :
  oop_iterate m p do_oop m' = foldl (λ m p, do_oop_work p m) m' (slots_of m p).
Proof.
  unfold oop_iterate, slots_of. generalize (klass_oop_offsets (m p)). intros O.
  revert m'. induction O as [|o O IHO]; intros m'; simpl; [done|]. apply IHO.
Qed.

(** Adjusting the objects [L] one after the other is adjusting their
    slots, as long as no slot is the class word of one of them. *)
Lemma adjust_objects_slots m0 L m :
  (∀ p, p ∈ L → m p = m0 p) →
  (∀ p q, p ∈ L → q ∈ L → q ∉ slots_of m0 p) →
  foldl (λ m p, oop_iterate m p do_oop m) m L
  = foldl (λ m p, do_oop_work p m) m (p ← L; slots_of m0 p).
Proof.
  revert m. induction L as [|p L IH]; intros m Hk Hs; simpl; [done|].
  rewrite foldl_app.
  assert (Eo : oop_iterate m p do_oop m
               = foldl (λ m p, do_oop_work p m) m (slots_of m0 p)).
  { rewrite oop_iterate_slots. unfold slots_of. by rewrite (Hk p) by left. }
  rewrite Eo. apply IH.
  - intros q Hq. rewrite do_oop_works_other.
    + apply Hk. by right.
    + apply Hs; [left|by right].
  - intros q1 q2 H1 H2. apply Hs; by right.
Qed.
End Adjust.


(** ** Phase 3 on the heap *)

Section AdjustHeap.
Context `{!KlassModel}.
Import ShenandoahAdjustPointersClosure.
Local Abbreviation ws := BrooksPointer.word_size.

Lemma with_mem_with_mem m m' h : with_mem m (with_mem m' h) = with_mem m h.
Proof. done. Qed.

Lemma with_mem_id h : with_mem (mem h) h = h.
Proof. by destruct h. Qed.

Lemma adjust_objects_with_mem m h view :
  adjust_objects (with_mem m h) view = adjust_objects h view.
Proof. done. Qed.

Lemma adjust_iterate_gen L h m :
  foldl (λ h p, ShenandoahAdjustPointersObjectClosure.do_object p h) (with_mem m h) L
  = with_mem (foldl (λ m p, oop_iterate m p do_oop m) m L) h.
Proof.
  revert m. induction L as [|p L IH]; intros m; simpl; [done|].
  unfold ShenandoahAdjustPointersObjectClosure.do_object at 2.
  cbn [mem with_mem]. rewrite with_mem_with_mem. apply IH.
Qed.

Lemma adjust_iterate_eq h r :
  marked_object_iterate h r ShenandoahAdjustPointersObjectClosure.do_object h
  = with_mem (foldl (λ m p, oop_iterate m p do_oop m) (mem h) (live_objects h r)) h.
Proof.
  unfold marked_object_iterate. rewrite <- adjust_iterate_gen. by rewrite with_mem_id.
Qed.

Lemma adjust_work_eq view h :
  ShenandoahAdjustPointersTask.work view h
  = with_mem (foldl (λ m p, oop_iterate m p do_oop m) (mem h) (adjust_objects h view)) h.
Proof.
  revert h. induction view as [|r view IH]; intros h; simpl.
  - by rewrite with_mem_id.
  - rewrite IH. destruct (is_humongous_continuation (rgn h r)); simpl.
    + done.
    + rewrite adjust_iterate_eq, adjust_objects_with_mem, foldl_app. done.
Qed.

Lemma adjust_gang_eq owner k h :
  run_task k (λ w h, ShenandoahAdjustPointersTask.work
                       (claims_of owner (num_regions h) w) h) h
  = with_mem (foldl (λ m p, oop_iterate m p do_oop m) (mem h)
                    (adjusted_objects h owner k)) h.
Proof.
  unfold run_task, adjusted_objects. induction k as [|k IH].
  - simpl. by rewrite with_mem_id.
  - rewrite seq_S, foldl_snoc, bind_app, foldl_app, IH. simpl.
    rewrite adjust_work_eq, app_nil_r. done.
Qed.

Lemma phase3_eq rp owner k h :
  phase3_update_references rp owner k h
  = with_mem (foldl (λ m p, oop_iterate m p do_oop m)
                    (foldl (λ m p, do_oop_work p m) (mem h) rp)
                    (adjusted_objects h owner k)) h.
Proof.
  unfold phase3_update_references, process_all_roots. by rewrite adjust_gang_eq.
Qed.

Lemma elem_of_adjust_objects h view p :
  p ∈ adjust_objects h view
  ↔ ∃ r, r ∈ view ∧ is_humongous_continuation (rgn h r) = false ∧ p ∈ live_objects h r.
Proof.
  unfold adjust_objects. rewrite list_elem_of_bind. split.
  - intros (r & Hp & Hr). exists r.
    destruct (is_humongous_continuation (rgn h r)); [by apply elem_of_nil in Hp|done].
  - intros (r & Hr & Hc & Hp). exists r. by rewrite Hc.
Qed.

Lemma elem_of_adjusted_objects h owner k p :
  p ∈ adjusted_objects h owner k
  ↔ ∃ r, (r < num_regions h)%nat ∧ (owner r < k)%nat
         ∧ is_humongous_continuation (rgn h r) = false ∧ p ∈ live_objects h r.
Proof.
  unfold adjusted_objects. rewrite list_elem_of_bind. split.
  - intros (w & Hp & Hw). apply elem_of_seq in Hw.
    apply elem_of_adjust_objects in Hp as (r & Hr & Hc & Hp).
    apply elem_of_claims_of in Hr as [? ?]. exists r. repeat split; [done|lia|done..].
  - intros (r & Hr & Ho & Hc & Hp). exists (owner r). split.
    + apply elem_of_adjust_objects. exists r. split; [|done].
      by apply elem_of_claims_of.
    + apply elem_of_seq. lia.
Qed.

Lemma NoDup_adjusted_objects h owner k :
  parsable h → NoDup (adjusted_objects h owner k).
Proof.
  intros Hp. pose proof Hp as (_ & Hg & _).
  assert (Hin : ∀ w p, p ∈ adjust_objects h (claims_of owner (num_regions h) w) →
             ∃ r, (r < num_regions h)%nat ∧ owner r = w ∧ p ∈ live_objects h r).
  { intros w p (r & Hr & _ & Hpr)%elem_of_adjust_objects.
    apply elem_of_claims_of in Hr as [? ?]. eauto. }
  apply NoDup_bind.
  - intros w1 w2 p _ _ (r1 & ? & ? & Hp1)%Hin (r2 & ? & ? & Hp2)%Hin.
    pose proof (live_objects_region_inj h r1 r2 p Hg ltac:(done) ltac:(done) Hp1 Hp2).
    congruence.
  - intros w _. apply NoDup_bind.
    + intros r1 r2 p [? _]%elem_of_claims_of [? _]%elem_of_claims_of Hp1 Hp2.
      destruct (is_humongous_continuation (rgn h r1)); [by apply elem_of_nil in Hp1|].
      destruct (is_humongous_continuation (rgn h r2)); [by apply elem_of_nil in Hp2|].
      by apply (live_objects_region_inj h r1 r2 p).
    + intros r [? _]%elem_of_claims_of.
      destruct (is_humongous_continuation (rgn h r)); [constructor|].
      by apply NoDup_live_objects.
    + unfold claims_of. apply NoDup_filter, NoDup_seq.
  - apply NoDup_seq.
Qed.
End AdjustHeap.


(** ** Phase 4 on the heap *)

Section CompactHeap.
Context `{!KlassModel}.
Import ShenandoahCompactObjectsTask.
Local Abbreviation ws := BrooksPointer.word_size.

Lemma compact_loop_fold fuel r slice h :
  (length (remaining slice) < fuel)%nat →
  work_loop fuel (Some r) slice h
  = foldl (λ h r, compact_region r h) h (r :: remaining slice).
Proof.
  revert r slice h. induction fuel as [|fuel IH]; intros r slice h Hf; [lia|].
  cbn [work_loop foldl].
  destruct (current_then_next slice) as [[r'|] slice'] eqn:Ec.
  - apply current_then_next_Some in Ec as (Hr & _ & _).
    rewrite Hr in *. simpl in Hf. rewrite IH by lia. done.
  - apply current_then_next_None in Ec as (Hr & ->). rewrite Hr.
    by destruct fuel.
Qed.

Lemma compact_work_fold slice h :
  work slice h = foldl (λ h r, compact_region r h) h (set_regions slice).
Proof.
  unfold work.
  destruct (current_then_next (clear_current_index slice)) as [[r|] slice'] eqn:Ec.
  - apply current_then_next_Some in Ec as (Hr & Hs & _).
    unfold remaining in Hr at 1. simpl in Hr. rewrite drop_0 in Hr. rewrite Hr.
    apply compact_loop_fold. unfold remaining. rewrite length_drop. lia.
  - apply current_then_next_None in Ec as (Hr & _).
    unfold remaining in Hr. simpl in Hr. rewrite drop_0 in Hr. by rewrite Hr.
Qed.

Lemma compact_iterate_gen L h m :
  foldl (λ h p, ShenandoahCompactObjectsClosure.do_object p h) (with_mem m h) L
  = with_mem (foldl (λ m p, compact_mem p m) m L) h.
Proof.
  revert m. induction L as [|p L IH]; intros m; simpl; [done|].
  rewrite compact_do_object. cbn [mem with_mem]. rewrite with_mem_with_mem. apply IH.
Qed.

Lemma compact_region_eq r h :
  compact_region r h
  = upd_region r (λ x, set_top (new_top x) x)
      (with_mem (foldl (λ m p, compact_mem p m) (mem h) (live_objects h r)) h).
Proof.
  unfold compact_region, marked_object_iterate.
  rewrite <- compact_iterate_gen. by rewrite with_mem_id.
Qed.

Lemma same_but_tops_live_objects R h h' i :
  same_but_tops R h h' → i ∉ R → live_objects h' i = live_objects h i.
Proof. intros (Hb & _ & Hr) Hi. unfold live_objects. by rewrite Hb, Hr. Qed.

Lemma bind_ext_in {A B} (f g : A → list B) (l : list A) :
  (∀ x, x ∈ l → f x = g x) → l ≫= f = l ≫= g.
Proof.
  induction l as [|x l IH]; intros Hfg; [done|]. csimpl.
  rewrite (Hfg x) by left. f_equal. apply IH. intros y Hy. apply Hfg. by right.
Qed.

Lemma compact_region_same_but_tops r h : same_but_tops [r] h (compact_region r h).
Proof.
  rewrite compact_region_eq. split; [done|]. split.
  - intros i. rewrite rgn_upd_region. case_decide as Hc; [|done].
    by destruct Hc as [-> _].
  - intros i Hi. rewrite rgn_upd_region_ne; [done|]. intros ->. apply Hi. left.
Qed.

Lemma compact_regions_spec R h :
  NoDup R →
  same_but_tops R h (foldl (λ h r, compact_region r h) h R)
  ∧ mem (foldl (λ h r, compact_region r h) h R)
    = foldl (λ m p, compact_mem p m) (mem h) (r ← R; live_objects h r).
Proof.
  revert h. induction R as [|r R IH]; intros h Hnd; simpl; [done|].
  apply NoDup_cons in Hnd as [Hr Hnd].
  destruct (IH (compact_region r h) Hnd) as [(Hb & Hs & Ho) Hm].
  destruct (compact_region_same_but_tops r h) as (Hb1 & Hs1 & Ho1).
  split; [split; [|split]|].
  - by rewrite Hb.
  - intros i. by rewrite Hs.
  - intros i Hi. apply not_elem_of_cons in Hi as [? ?].
    rewrite Ho by done. apply Ho1. by intros ->%list_elem_of_singleton.
  - rewrite Hm, foldl_app. f_equal.
    + by rewrite compact_region_eq.
    + apply bind_ext_in. intros r' Hr'.
      apply (same_but_tops_live_objects [r]); [apply compact_region_same_but_tops|].
      intros ->%list_elem_of_singleton. done.
Qed.

(** The gang: every worker on the regions of its own slice. *)
Lemma compact_gang_spec (slices : list ShenandoahHeapRegionSet) k h :
  (∀ w, (w < k)%nat → NoDup (set_regions (slices !!! w))) →
  (∀ w1 w2 r, (w1 < k)%nat → (w2 < k)%nat → r ∈ set_regions (slices !!! w1) →
              r ∈ set_regions (slices !!! w2) → w1 = w2) →
  same_but_tops (w ← seq 0 k; set_regions (slices !!! w)) h (compact_objects k slices h)
  ∧ mem (compact_objects k slices h)
    = foldl (λ m p, compact_mem p m) (mem h)
            (w ← seq 0 k; r ← set_regions (slices !!! w); live_objects h r).
Proof.
  unfold compact_objects, run_task. induction k as [|k IH]; intros Hnd Hdisj; [done|].
  rewrite !seq_S, foldl_snoc, !bind_app, foldl_app. simpl. rewrite !app_nil_r.
  destruct IH as [(Hb & Hs & Ho) Hm].
  { intros w Hw. apply Hnd. lia. }
  { intros w1 w2 r H1 H2. apply Hdisj; lia. }
  set (hk := foldl _ h (seq 0 k)) in *.
  rewrite compact_work_fold.
  destruct (compact_regions_spec (set_regions (slices !!! k)) hk (Hnd k ltac:(lia)))
    as [(Hb' & Hs' & Ho') Hm'].
  split; [split; [|split]|].
  - by rewrite Hb'.
  - intros i. by rewrite Hs'.
  - intros i Hi. apply not_elem_of_app in Hi as [? ?]. rewrite Ho' by done. by apply Ho.
  - rewrite Hm', Hm. f_equal. apply bind_ext_in. intros r Hr.
    apply (same_but_tops_live_objects (w ← seq 0 k; set_regions (slices !!! w))); [done|].
    intros (w & Hrw & Hw)%list_elem_of_bind. apply elem_of_seq in Hw.
    pose proof (Hdisj w k r ltac:(lia) ltac:(lia) Hrw Hr). lia.
Qed.
End CompactHeap.


(** ** The gang moves the slices *)

Section GangCompaction.
Context `{!KlassModel}.
Local Abbreviation ws := BrooksPointer.word_size.

(** The workers carry out their plans one after the other on heap words
    [m3] whose forwarding words hold the targets: every object arrives at
    its target with the words it had in [m3], forwarding word set to
    itself, and no word outside the target extents changes. *)
Lemma gang_compaction (plan : nat → list move) (m3 : HeapWord → Z) (k : nat) :
  (∀ w, (w < k)%nat → ∃ slo tlo, slide slo tlo (plan w)) →
  (∀ w, (w < k)%nat →
        Forall (λ '(p, t, s), BrooksPointer.get_raw m3 p = t ∧ obj_size m3 p = s) (plan w)) →
  (∀ w1 w2 x y, (w1 < k)%nat → (w2 < k)%nat → w1 ≠ w2 →
                x ∈ plan w1 → y ∈ plan w2 → apart x y) →
  let m' := foldl (λ m p, compact_mem p m) m3 (w ← seq 0 k; sources (plan w)) in
  (∀ w p t s, (w < k)%nat → (p, t, s) ∈ plan w →
     BrooksPointer.get_raw m' t = t ∧ ∀ j, 0 ≤ j < s → m' (t + j) = m3 (p + j))
  ∧ (∀ a, (∀ w p t s, (w < k)%nat → (p, t, s) ∈ plan w → ¬ (t - ws ≤ a < t + s)) →
          m' a = m3 a).
Proof.
  induction k as [|k IH]; intros Hslide Hm Hapart; cbn zeta.
  - split; [intros; lia|done].
  - rewrite seq_S, bind_app, foldl_app. simpl. rewrite app_nil_r.
    destruct IH as [IHA IHB].
    { intros w Hw. apply Hslide. lia. }
    { intros w Hw. apply Hm. lia. }
    { intros w1 w2 x y H1 H2. apply Hapart; lia. }
    set (mk := foldl (λ m p, compact_mem p m) m3 (w ← seq 0 k; sources (plan w))) in *.
    destruct (Hslide k ltac:(lia)) as (slo & tlo & Hsl).
    assert (Hsrc : ∀ p t s a, (p, t, s) ∈ plan k → p - ws ≤ a < p + s → mk a = m3 a).
    { intros p t s a Hin Ha. apply IHB. intros w p1 t1 s1 Hw Hin1.
      pose proof (Hapart w k _ _ ltac:(lia) ltac:(lia) ltac:(lia) Hin1 Hin) as [Hd _].
      lia. }
    assert (Hmk : Forall (λ '(p, t, s),
                            BrooksPointer.get_raw mk p = t ∧ obj_size mk p = s) (plan k)).
    { specialize (Hm k ltac:(lia)). rewrite Forall_forall in Hm |- *.
      intros [[p t] s] Hin. destruct (Hm _ Hin) as [Hg Hs].
      destruct (slide_bounds _ _ _ _ _ _ Hsl Hin) as (_ & _ & _ & Hpos).
      unfold BrooksPointer.get_raw, obj_size, BrooksPointer.word_offset in *.
      rewrite !(Hsrc p t s) by (done || unfold ws; lia). done. }
    destruct (slide_compaction slo tlo (plan k) mk Hsl Hmk) as [HA HB].
    split.
    + intros w p t s Hw Hin. destruct (decide (w = k)) as [->|Hne].
      * destruct (HA _ _ _ Hin) as [Hf Hb]. split; [done|].
        intros j Hj. rewrite Hb by done. apply (Hsrc p t s); [done|unfold ws; lia].
      * destruct (IHA w p t s ltac:(lia) Hin) as [Hf Hb].
        assert (Hout : ∀ a, t - ws ≤ a < t + s →
                  ∀ p2 t2 s2, (p2, t2, s2) ∈ plan k → ¬ (t2 - ws ≤ a < t2 + s2)).
        { intros a Ha p2 t2 s2 Hin2.
          pose proof (Hapart w k _ _ ltac:(lia) ltac:(lia) Hne Hin Hin2) as [_ Hd]. lia. }
        assert (Hpos : 0 < s).
        { destruct (Hslide w ltac:(lia)) as (slo' & tlo' & Hsl').
          by destruct (slide_bounds _ _ _ _ _ _ Hsl' Hin) as (_ & _ & _ & ?). }
        split.
        -- unfold BrooksPointer.get_raw, BrooksPointer.word_offset in *.
           rewrite HB; [done|]. apply Hout. unfold ws. lia.
        -- intros j Hj. rewrite HB; [by apply Hb|]. apply Hout. unfold ws. lia.
    + intros a Ha. rewrite HB.
      * apply IHB. intros w p t s Hw. apply Ha. lia.
      * intros p t s. apply Ha. lia.
Qed.
End GangCompaction.


(** ** Phases 2 to 4 in a row *)

Lemma do_it_move_eq `{!KlassModel} sch rp h0 :
  do_it_move sch rp h0
  = post_compact (move_phase sch rp (ensure_heap_active (reclaim_humongous h0))).
Proof.
  unfold do_it_move, phase2_calculate_target_addresses, move_phase, adjust_phase, plan_phase,
    phase4_compact_objects. cbn [fst snd].
  by destruct (prepare_for_compaction _ _ _).
Qed.

Section Pipeline.
Context `{!KlassModel}.
Variables (h : ShenandoahHeap) (sch : Schedule) (rp : list HeapWord).
Hypothesis Hpars : parsable h.
Hypothesis Hrefs : refs_ok rp h.
Hypothesis Hsched : schedule_ok sch h.
Local Abbreviation ws := BrooksPointer.word_size.
Local Abbreviation size := (obj_size (mem h)).
Local Abbreviation h2 := (plan_phase sch h).1.
Local Abbreviation h3 := (adjust_phase sch rp h).
Local Abbreviation h4 := (move_phase sch rp h).
Local Abbreviation moves := (moves_of h sch).
Local Abbreviation slots := (adjusted_slots h sch rp).

(** *** Objects, slots and roots of the heap *)

Lemma obj_in_heap p :
  p ∈ all_objects h → heap_base h + ws ≤ p ∧ 0 < size p ∧ p + size p ≤ heap_end h.
Proof.
  intros Hp. destruct Hpars as (_ & _ & Hc & He & _).
  destruct (objs_chain_lower _ _ _ _ Hc Hp). rewrite Forall_forall in He.
  repeat split; [done..|]. by apply He.
Qed.

Lemma live_in_all i p : (i < num_regions h)%nat → p ∈ live_objects h i → p ∈ all_objects h.
Proof. intros. apply elem_of_all_objects. eauto. Qed.

Lemma movable_obj_in_region i p :
  (i < num_regions h)%nat → is_move_allowed (rgn h i) = true → p ∈ live_objects h i →
  bottom (rgn h i) + ws ≤ p ∧ p + size p ≤ end_ (rgn h i).
Proof.
  intros Hi Hm Hp. split; [|by apply region_objects_fit].
  apply elem_of_live_objects in Hp. lia.
Qed.

Lemma immovable_obj_misses i p j :
  (i < num_regions h)%nat → is_move_allowed (rgn h i) = false → p ∈ live_objects h i →
  (j < num_regions h)%nat → is_move_allowed (rgn h j) = true →
  misses_region (mem h) p (rgn h j).
Proof.
  intros Hi Hm Hp Hj Hmj. destruct Hpars as (_ & _ & _ & _ & Hf).
  rewrite Forall_forall in Hf. specialize (Hf i ltac:(apply elem_of_seq; lia)).
  rewrite Hm in Hf. rewrite Forall_forall in Hf. specialize (Hf p Hp).
  rewrite Forall_forall in Hf. apply Hf; [apply elem_of_seq; lia|done].
Qed.

Lemma offsets_ok p :
  p ∈ all_objects h →
  NoDup (klass_oop_offsets (mem h p))
  ∧ ∀ off, off ∈ klass_oop_offsets (mem h p) →
           0 < off < size p ∧ (mem h (p + off) = 0 ∨ mem h (p + off) ∈ all_objects h).
Proof.
  intros Hp. destruct Hrefs as (Ho & _). rewrite Forall_forall in Ho.
  destruct (Ho p Hp) as [Hnd Hf]. split; [done|]. by rewrite Forall_forall in Hf.
Qed.

Lemma elem_of_slots_of p a :
  a ∈ slots_of (mem h) p ↔ ∃ off, off ∈ klass_oop_offsets (mem h p) ∧ a = p + off.
Proof.
  unfold slots_of. rewrite list_elem_of_fmap. split; intros (off & ? & ?); eauto.
Qed.

Lemma slot_in_obj p a :
  p ∈ all_objects h → a ∈ slots_of (mem h) p → p < a < p + size p.
Proof.
  intros Hp (off & Hoff & ->)%elem_of_slots_of.
  destruct (offsets_ok p Hp) as [_ Ho]. destruct (Ho off Hoff). lia.
Qed.

(** A slot is neither a class word nor a forwarding word. *)
Lemma slot_not_header p q a :
  p ∈ all_objects h → q ∈ all_objects h → a ∈ slots_of (mem h) p →
  a ≠ q ∧ a ≠ q + BrooksPointer.word_offset.
Proof.
  intros Hp Hq Ha. pose proof (slot_in_obj p a Hp Ha).
  destruct (obj_in_heap q Hq) as (_ & ? & _). unfold BrooksPointer.word_offset.
  destruct (decide (p = q)) as [->|Hne]; [lia|].
  destruct (parsable_disjoint h p q Hpars Hp Hq Hne); unfold ws in *; lia.
Qed.

Lemma slot_owner p q a :
  p ∈ all_objects h → q ∈ all_objects h →
  a ∈ slots_of (mem h) p → a ∈ slots_of (mem h) q → p = q.
Proof.
  intros Hp Hq Hap Haq.
  pose proof (slot_in_obj p a Hp Hap). pose proof (slot_in_obj q a Hq Haq).
  destruct (decide (p = q)) as [|Hne]; [done|].
  destruct (parsable_disjoint h p q Hpars Hp Hq Hne); unfold ws in *; lia.
Qed.

Lemma root_ok s :
  s ∈ rp →
  (s < heap_base h ∨ heap_end h ≤ s) ∧ (mem h s = 0 ∨ mem h s ∈ all_objects h).
Proof.
  intros Hs. destruct Hrefs as (_ & _ & Hr & _). rewrite Forall_forall in Hr. by apply Hr.
Qed.

Lemma root_not_in_obj s q a :
  s ∈ rp → q ∈ all_objects h → q - ws ≤ a < q + size q → s ≠ a.
Proof.
  intros Hs Hq Ha. destruct (root_ok s Hs) as [? _].
  destruct (obj_in_heap q Hq) as (? & ? & ?). lia.
Qed.

(** A region of the table lies in the heap. *)
Lemma region_in_heap i :
  (i < num_regions h)%nat →
  heap_base h ≤ bottom (rgn h i) ∧ end_ (rgn h i) ≤ heap_end h.
Proof.
  intros Hi. pose proof Hpars as (_ & Hg & _).
  destruct (geometry_region h i Hg Hi) as (Hb & He & _).
  pose proof (region_size_nonneg h Hg ltac:(lia)). unfold heap_end. nia.
Qed.

Lemma regions_apart i j :
  (i < num_regions h)%nat → (j < num_regions h)%nat → i ≠ j →
  end_ (rgn h i) ≤ bottom (rgn h j) ∨ end_ (rgn h j) ≤ bottom (rgn h i).
Proof.
  intros Hi Hj Hne. pose proof Hpars as (_ & Hg & _).
  destruct (decide (i < j)%nat).
  - left. by apply region_below.
  - right. apply region_below; [done|lia|done].
Qed.

(** *** After planning *)

Lemma plan_gang :
  gang_planned h (plan_owner sch) (replicate (max_workers sch) new_region_set)
               (nworkers sch) (plan_phase sch h).
Proof.
  apply gang_planned_all; [done|]. rewrite length_replicate. by destruct Hsched.
Qed.

Lemma plan_shape : same_shape h h2.
Proof. apply (gp_shape _ _ _ _ _ plan_gang). Qed.

Lemma plan_frame a :
  (∀ i p, (i < num_regions h)%nat → is_move_allowed (rgn h i) = true →
          p ∈ live_objects h i → a ≠ p + BrooksPointer.word_offset) →
  mem h2 a = mem h a.
Proof. intros Ha. apply (gp_frame _ _ _ _ _ plan_gang). intros i p Hi _. by apply Ha. Qed.

Lemma plan_klass p : p ∈ all_objects h → mem h2 p = mem h p.
Proof.
  intros Hp. apply plan_frame. intros i q Hi _ Hq.
  apply (klass_word_not_fwd h p q Hpars Hp). by apply (live_in_all i).
Qed.

Lemma plan_size p : p ∈ all_objects h → obj_size (mem h2) p = size p.
Proof. intros Hp. unfold obj_size. by rewrite plan_klass. Qed.

Lemma plan_slot p a : p ∈ all_objects h → a ∈ slots_of (mem h) p → mem h2 a = mem h a.
Proof.
  intros Hp Ha. apply plan_frame. intros i q Hi _ Hq.
  apply (slot_not_header p q a Hp); [|done]. by apply (live_in_all i).
Qed.

Lemma plan_root s : s ∈ rp → mem h2 s = mem h s.
Proof.
  intros Hs. apply plan_frame. intros i q Hi _ Hq.
  pose proof (live_in_all i q Hi Hq) as Hqa. destruct (obj_in_heap q Hqa) as (_ & ? & _).
  apply (root_not_in_obj s q _ Hs Hqa). unfold BrooksPointer.word_offset, ws. lia.
Qed.

Lemma plan_immovable i q :
  (i < num_regions h)%nat → is_move_allowed (rgn h i) = false → q ∈ live_objects h i →
  BrooksPointer.get_raw (mem h2) q = BrooksPointer.get_raw (mem h) q.
Proof.
  intros Hi Hm Hq. unfold BrooksPointer.get_raw. apply plan_frame.
  intros j p Hj Hmj Hp Heq. assert (q = p) as -> by lia.
  destruct Hpars as (_ & Hg & _).
  pose proof (live_objects_region_inj h i j p Hg Hi Hj Hq Hp). congruence.
Qed.

Lemma plan_slices w :
  (w < nworkers sch)%nat →
  set_regions ((plan_phase sch h).2 !!! w) = slice_of h (plan_owner sch) w.
Proof.
  intros Hw. destruct (gp_done _ _ _ _ _ plan_gang w Hw) as (-> & _).
  rewrite lookup_total_replicate_2; [done|]. destruct Hsched. lia.
Qed.

Lemma moves_eq (L : list HeapWord) (mv : list move) (f g : HeapWord → Z) :
  sources mv = L → Forall (λ '(p, t, s), s = f p ∧ g p = t) mv →
  mv = (λ p, (p, g p, f p)) <$> L.
Proof.
  revert L. induction mv as [|[[p t] s] mv IH]; intros L <- Hf; [done|].
  apply Forall_cons in Hf as [[-> <-] Hf]. simpl. f_equal. by apply IH.
Qed.

Lemma sources_moves_of w :
  sources (moves w) = (r ← slice_of h (plan_owner sch) w; live_objects h r).
Proof.
  unfold moves_of, sources. rewrite <- list_fmap_compose. apply list_fmap_id.
Qed.

Lemma elem_of_moves_of w p t s :
  (p, t, s) ∈ moves w
  ↔ t = new_address sch h p ∧ s = size p
    ∧ ∃ r, (r < num_regions h)%nat ∧ plan_owner sch r = w
           ∧ is_move_allowed (rgn h r) = true ∧ p ∈ live_objects h r.
Proof.
  unfold moves_of. rewrite list_elem_of_fmap. split.
  - intros (q & [= -> -> ->] & (r & Hq & Hr)%list_elem_of_bind).
    apply slice_of_spec in Hr as (? & ? & ?). eauto 10.
  - intros (-> & -> & r & Hr & Ho & Hm & Hp). exists p. split; [done|].
    apply list_elem_of_bind. exists r. split; [done|]. by apply slice_of_spec.
Qed.

Lemma plan_moves w :
  (w < nworkers sch)%nat →
  (∃ slo tlo, slide slo tlo (moves w))
  ∧ Forall (λ '(_, t, s),
              ∃ r, r ∈ slice_of h (plan_owner sch) w
                   ∧ bottom (rgn h r) + ws ≤ t ∧ t + s ≤ end_ (rgn h r)) (moves w).
Proof.
  intros Hw. destruct (gp_done _ _ _ _ _ plan_gang w Hw) as (_ & _ & mv & Hsl & Hsrc & Hf).
  assert (E : mv = moves w).
  { unfold moves_of. apply (moves_eq _ mv size (new_address sch h)); [done|].
    eapply Forall_impl; [exact Hf|]. intros [[p t] s] (? & ? & _). done. }
  rewrite <- E. split; [done|].
  eapply Forall_impl; [exact Hf|]. intros [[p t] s] (_ & _ & ?). done.
Qed.

(** *** After adjusting *)

Lemma adjusted_objects_plan :
  adjusted_objects h2 (adjust_owner sch) (nworkers sch)
  = adjusted_objects h (adjust_owner sch) (nworkers sch).
Proof.
  pose proof plan_shape as Hs. unfold adjusted_objects, adjust_objects.
  rewrite (same_shape_num_regions _ _ Hs).
  apply bind_ext_in. intros w _. apply bind_ext_in. intros r _.
  unfold is_humongous_continuation.
  by rewrite (same_shape_state _ _ r Hs), (same_shape_live_objects _ _ r Hs).
Qed.

Lemma adjusted_objects_all p :
  p ∈ adjusted_objects h (adjust_owner sch) (nworkers sch) ↔ p ∈ all_objects h.
Proof.
  rewrite elem_of_adjusted_objects, elem_of_all_objects. split.
  - intros (r & ? & _ & _ & ?). eauto.
  - intros (r & Hr & Hp). exists r.
    destruct Hsched as [_ Ho]. rewrite Forall_forall in Ho.
    destruct (Ho r ltac:(apply elem_of_seq; lia)) as [_ ?].
    destruct Hrefs as (_ & _ & _ & Hc). rewrite Forall_forall in Hc.
    specialize (Hc r ltac:(apply elem_of_seq; lia)).
    destruct (is_humongous_continuation (rgn h r)); [|done].
    rewrite Hc in Hp by done. by apply elem_of_nil in Hp.
Qed.

Lemma slots_of_plan p : p ∈ all_objects h → slots_of (mem h2) p = slots_of (mem h) p.
Proof. intros Hp. unfold slots_of. by rewrite plan_klass. Qed.

Lemma elem_of_adjusted_slots a :
  a ∈ slots ↔ a ∈ rp ∨ ∃ p, p ∈ all_objects h ∧ a ∈ slots_of (mem h) p.
Proof.
  unfold adjusted_slots. rewrite elem_of_app, list_elem_of_bind.
  split; (intros [?|(p & ? & ?)]; [by left|right; exists p]).
  - split; [by apply adjusted_objects_all|done].
  - split; [done|by apply adjusted_objects_all].
Qed.

Lemma adjust_eq :
  h3 = with_mem (foldl (λ m p, ShenandoahAdjustPointersClosure.do_oop_work p m)
                       (mem h2) slots) h2.
Proof.
  unfold adjust_phase. rewrite phase3_eq, adjusted_objects_plan.
  unfold adjusted_slots. rewrite foldl_app. f_equal.
  rewrite (adjust_objects_slots (mem h)).
  - done.
  - intros p Hp%adjusted_objects_all. rewrite do_oop_works_other; [by apply plan_klass|].
    intros Hin. destruct (obj_in_heap p Hp) as (? & ? & ?).
    apply (root_not_in_obj p p p Hin Hp); [unfold ws; lia|done].
  - intros p q Hp%adjusted_objects_all Hq%adjusted_objects_all Hin.
    by destruct (slot_not_header p q q Hp Hq Hin).
Qed.

Lemma NoDup_adjusted_slots : NoDup slots.
Proof.
  unfold adjusted_slots. apply NoDup_app. split; [|split].
  - by destruct Hrefs as (_ & ? & _).
  - intros s Hs (p & Ha & Hp%adjusted_objects_all)%list_elem_of_bind.
    pose proof (slot_in_obj p s Hp Ha).
    apply (root_not_in_obj s p s Hs Hp); [unfold ws; lia|done].
  - apply NoDup_bind.
    + intros p q a Hp%adjusted_objects_all Hq%adjusted_objects_all. by apply slot_owner.
    + intros p Hp%adjusted_objects_all. destruct (offsets_ok p Hp) as [Hnd _].
      unfold slots_of. apply NoDup_fmap_2; [|done]. intros x y ?. lia.
    + by apply NoDup_adjusted_objects.
Qed.

Lemma adjusted_slot_value a :
  a ∈ slots → mem h2 a = mem h a ∧ (mem h a = 0 ∨ mem h a ∈ all_objects h).
Proof.
  intros [Hs|(p & Hp & Ha)]%elem_of_adjusted_slots.
  - split; [by apply plan_root|]. by destruct (root_ok a Hs).
  - split; [by apply (plan_slot p)|].
    apply elem_of_slots_of in Ha as (off & Hoff & ->).
    destruct (offsets_ok p Hp) as [_ Ho]. by destruct (Ho off Hoff).
Qed.

Lemma fwd_word_not_adjusted q :
  q ∈ all_objects h → q + BrooksPointer.word_offset ∉ slots.
Proof.
  intros Hq [Hs|(p & Hp & Ha)]%elem_of_adjusted_slots.
  - destruct (obj_in_heap q Hq) as (_ & ? & _).
    apply (root_not_in_obj _ q (q + BrooksPointer.word_offset) Hs Hq); [|done].
    unfold BrooksPointer.word_offset, ws. lia.
  - by destruct (slot_not_header p q _ Hp Hq Ha).
Qed.

Lemma klass_word_not_adjusted q : q ∈ all_objects h → q ∉ slots.
Proof.
  intros Hq [Hs|(p & Hp & Ha)]%elem_of_adjusted_slots.
  - destruct (obj_in_heap q Hq) as (_ & ? & _).
    apply (root_not_in_obj _ q q Hs Hq); [|done]. unfold ws. lia.
  - by destruct (slot_not_header p q _ Hp Hq Ha).
Qed.

(** A slot holds the forwardee of what it held when planning started. *)
Lemma adjust_slot a :
  a ∈ slots → mem h3 a = forwardee (mem h2) (mem h a).
Proof.
  intros Ha. rewrite adjust_eq. cbn [mem with_mem].
  rewrite do_oop_works_slot; [|apply NoDup_adjusted_slots| |done].
  - by destruct (adjusted_slot_value a Ha) as [-> _].
  - intros x Hx Hne. destruct (adjusted_slot_value x Hx) as [E [E0|Hin]].
    + congruence.
    + rewrite E. by apply fwd_word_not_adjusted.
Qed.

Lemma adjust_other a : a ∉ slots → mem h3 a = mem h2 a.
Proof. intros Ha. rewrite adjust_eq. cbn [mem with_mem]. by apply do_oop_works_other. Qed.

Lemma adjust_klass p : p ∈ all_objects h → mem h3 p = mem h p.
Proof.
  intros Hp. rewrite adjust_other by by apply klass_word_not_adjusted. by apply plan_klass.
Qed.

Lemma adjust_fwd p :
  p ∈ all_objects h → BrooksPointer.get_raw (mem h3) p = new_address sch h p.
Proof.
  intros Hp. unfold BrooksPointer.get_raw, new_address.
  rewrite adjust_other by by apply fwd_word_not_adjusted. done.
Qed.

Lemma adjust_shape : same_shape h h3.
Proof.
  rewrite adjust_eq. eapply same_shape_trans; [apply plan_shape|apply same_shape_with_mem].
Qed.

(** *** After moving *)

Lemma slices_NoDup w :
  (w < nworkers sch)%nat → NoDup (set_regions ((plan_phase sch h).2 !!! w)).
Proof. intros Hw. rewrite plan_slices by done. apply NoDup_slice_of. Qed.

Lemma slices_disjoint w1 w2 r :
  (w1 < nworkers sch)%nat → (w2 < nworkers sch)%nat →
  r ∈ set_regions ((plan_phase sch h).2 !!! w1) →
  r ∈ set_regions ((plan_phase sch h).2 !!! w2) → w1 = w2.
Proof.
  intros H1 H2. rewrite !plan_slices by done.
  intros (_ & ? & _)%slice_of_spec (_ & ? & _)%slice_of_spec. congruence.
Qed.

Lemma move_mem :
  mem h4 = foldl (λ m p, compact_mem p m) (mem h3)
                 (w ← seq 0 (nworkers sch); sources (moves w)).
Proof.
  unfold move_phase.
  destruct (compact_gang_spec (plan_phase sch h).2 (nworkers sch) h3
              slices_NoDup slices_disjoint) as [_ ->].
  f_equal. apply bind_ext_in. intros w Hw%elem_of_seq.
  rewrite plan_slices, sources_moves_of by lia.
  apply bind_ext_in. intros r _. apply same_shape_live_objects, adjust_shape.
Qed.

Lemma move_same_but_tops :
  same_but_tops (w ← seq 0 (nworkers sch); set_regions ((plan_phase sch h).2 !!! w)) h3 h4.
Proof.
  unfold move_phase.
  by destruct (compact_gang_spec (plan_phase sch h).2 (nworkers sch) h3
                 slices_NoDup slices_disjoint) as [? _].
Qed.

Lemma moves_state w :
  Forall (λ '(p, t, s),
            BrooksPointer.get_raw (mem h3) p = t ∧ obj_size (mem h3) p = s) (moves w).
Proof.
  apply Forall_forall. intros [[p t] s] (-> & -> & r & Hr & _ & _ & Hp)%elem_of_moves_of.
  pose proof (live_in_all r p Hr Hp) as Hpa. split; [by apply adjust_fwd|].
  unfold obj_size. by rewrite adjust_klass.
Qed.

(** The target extent of a move lies in a region of the worker's slice,
    and so does its source extent. *)
Lemma move_extents w p t s :
  (w < nworkers sch)%nat → (p, t, s) ∈ moves w →
  (∃ r, (r < num_regions h)%nat ∧ plan_owner sch r = w
        ∧ is_move_allowed (rgn h r) = true
        ∧ bottom (rgn h r) + ws ≤ t ∧ t + s ≤ end_ (rgn h r))
  ∧ (∃ r, (r < num_regions h)%nat ∧ plan_owner sch r = w
          ∧ bottom (rgn h r) + ws ≤ p ∧ p + s ≤ end_ (rgn h r)).
Proof.
  intros Hw Hin. split.
  - destruct (plan_moves w Hw) as [_ Hf]. rewrite Forall_forall in Hf.
    destruct (Hf _ Hin) as (r & (? & ? & ?)%slice_of_spec & ? & ?). eauto 10.
  - apply elem_of_moves_of in Hin as (_ & -> & r & Hr & Ho & Hm & Hp).
    destruct (movable_obj_in_region r p Hr Hm Hp). eauto 10.
Qed.

Lemma moves_apart w1 w2 x y :
  (w1 < nworkers sch)%nat → (w2 < nworkers sch)%nat → w1 ≠ w2 →
  x ∈ moves w1 → y ∈ moves w2 → apart x y.
Proof.
  intros H1 H2 Hne Hx Hy. destruct x as [[p1 t1] s1], y as [[p2 t2] s2].
  destruct (move_extents w1 p1 t1 s1 H1 Hx) as [(r1 & Hr1 & Ho1 & _ & ? & ?) _].
  destruct (move_extents w2 p2 t2 s2 H2 Hy)
    as [(r2 & Hr2 & Ho2 & _ & ? & ?) (r3 & Hr3 & Ho3 & ? & ?)].
  assert (r1 ≠ r2) by congruence. assert (r1 ≠ r3) by congruence.
  pose proof (regions_apart r1 r2 Hr1 Hr2 ltac:(done)).
  pose proof (regions_apart r1 r3 Hr1 Hr3 ltac:(done)).
  unfold apart, ws in *. lia.
Qed.

Lemma move_gang :
  (∀ w p t s, (w < nworkers sch)%nat → (p, t, s) ∈ moves w →
     BrooksPointer.get_raw (mem h4) t = t ∧ ∀ j, 0 ≤ j < s → mem h4 (t + j) = mem h3 (p + j))
  ∧ (∀ a, (∀ w p t s, (w < nworkers sch)%nat → (p, t, s) ∈ moves w →
                      ¬ (t - ws ≤ a < t + s)) →
          mem h4 a = mem h3 a).
Proof.
  rewrite move_mem.
  apply (gang_compaction moves (mem h3) (nworkers sch)).
  - intros w Hw. by destruct (plan_moves w Hw).
  - intros w _. apply moves_state.
  - apply moves_apart.
Qed.

(** A moved object arrives at its new address with the words it had after
    adjusting, its forwarding word pointing to itself. *)
Lemma move_object r p :
  (r < num_regions h)%nat → is_move_allowed (rgn h r) = true → p ∈ live_objects h r →
  BrooksPointer.get_raw (mem h4) (new_address sch h p) = new_address sch h p
  ∧ ∀ j, 0 ≤ j < size p → mem h4 (new_address sch h p + j) = mem h3 (p + j).
Proof.
  intros Hr Hm Hp. destruct move_gang as [HA _].
  destruct Hsched as [_ Ho]. rewrite Forall_forall in Ho.
  destruct (Ho r ltac:(apply elem_of_seq; lia)) as [Hw _].
  apply (HA (plan_owner sch r) p); [done|].
  apply elem_of_moves_of. eauto 10.
Qed.

(** A word outside the movable regions is left alone. *)
Lemma move_outside a :
  (∀ r, (r < num_regions h)%nat → is_move_allowed (rgn h r) = true →
        ¬ (bottom (rgn h r) ≤ a < end_ (rgn h r))) →
  mem h4 a = mem h3 a.
Proof.
  intros Ha. destruct move_gang as [_ HB]. apply HB. intros w p t s Hw Hin.
  destruct (move_extents w p t s Hw Hin) as [(r & Hr & _ & Hm & ? & ?) _].
  specialize (Ha r Hr Hm). unfold ws in *. lia.
Qed.

(** An object of a region that may not be moved keeps all its words. *)
Lemma move_immovable i q a :
  (i < num_regions h)%nat → is_move_allowed (rgn h i) = false → q ∈ live_objects h i →
  q - ws ≤ a < q + size q → mem h4 a = mem h3 a.
Proof.
  intros Hi Hm Hq Ha. apply move_outside. intros r Hr Hmr.
  pose proof (immovable_obj_misses i q r Hi Hm Hq Hr Hmr) as Hmiss.
  unfold misses_region, ws in *. lia.
Qed.

Lemma move_root s : s ∈ rp → mem h4 s = mem h3 s.
Proof.
  intros Hs. apply move_outside. intros r Hr _.
  destruct (root_ok s Hs) as [? _]. pose proof (region_in_heap r Hr). lia.
Qed.
End Pipeline.


(** ** The claims on phases 3 and 4 *)

Lemma copy_words_ascending_conjoint (count : nat) (from to : HeapWord) (m : HeapWord → Z) a :
  to ≤ from →
  copy_words_ascending count from to m a = aligned_conjoint_words from to (Z.of_nat count) m a.
Proof.
  revert from to m. induction count as [|n IH]; intros from to m Hle.
  - unfold aligned_conjoint_words. simpl. rewrite decide_False by lia. done.
  - cbn [copy_words_ascending]. rewrite IH by lia. unfold aligned_conjoint_words.
    destruct (decide (to + 1 ≤ a < to + 1 + Z.of_nat n)).
    + rewrite decide_False by lia. rewrite decide_True by lia. f_equal. lia.
    + destruct (decide (a = to)) as [->|].
      * rewrite decide_True by lia. f_equal. lia.
      * rewrite decide_False by lia. done.
Qed.

Lemma mem_post_compact_do i s :
  mem (ShenandoahPostCompactClosure.heap_region_do i s).2 = mem s.2.
Proof.
  destruct s as [l h]. unfold ShenandoahPostCompactClosure.heap_region_do.
  repeat case_match; simplify_eq; done.
Qed.

Lemma mem_post_compact h : mem (post_compact h) = mem h.
Proof.
  unfold post_compact, heap_region_iterate. cbn [mem with_collection_set set_used].
  rewrite (foldl_preserves (λ s : Z * ShenandoahHeap, mem s.2)); [done|].
  intros s i. apply mem_post_compact_do.
Qed.

Section MovingClaims.
Context `{!KlassModel}.
Local Abbreviation ws := BrooksPointer.word_size.

Lemma new_address_immovable sch h rp i q :
  parsable h → refs_ok rp h → schedule_ok sch h → self_forwarded h →
  (i < num_regions h)%nat → is_move_allowed (rgn h i) = false → q ∈ live_objects h i →
  new_address sch h q = q.
Proof.
  intros Hp Hr Hs Hself Hi Hm Hq. unfold new_address.
  rewrite (plan_immovable h sch Hp Hs i q Hi Hm Hq).
  unfold self_forwarded in Hself. rewrite Forall_forall in Hself. apply Hself.
  apply elem_of_all_objects. eauto.
Qed.

Lemma new_address_movable sch h i p :
  parsable h → schedule_ok sch h →
  (i < num_regions h)%nat → is_move_allowed (rgn h i) = true → p ∈ live_objects h i →
  new_address sch h p ≤ p.
Proof.
  intros Hp Hs Hi Hm Hq.
  pose proof Hs as [_ Ho]. rewrite Forall_forall in Ho.
  destruct (Ho i ltac:(apply elem_of_seq; lia)) as [Hw _].
  destruct (plan_moves h sch Hp Hs (plan_owner sch i) Hw) as [(slo & tlo & Hsl) _].
  assert (Hin : (p, new_address sch h p, obj_size (mem h) p) ∈ moves_of h sch (plan_owner sch i)).
  { apply elem_of_moves_of; [done..|]. eauto 10. }
  by destruct (slide_bounds _ _ _ _ _ _ Hsl Hin) as (_ & _ & ? & _).
Qed.

(** After moving, the object is at its new address: its forwarding word
    points to itself and each of its words is what adjusting left. *)
Lemma object_after_move sch h rp p :
  parsable h → refs_ok rp h → schedule_ok sch h → self_forwarded h →
  p ∈ all_objects h →
  BrooksPointer.get_raw (mem (move_phase sch rp h)) (new_address sch h p)
  = new_address sch h p
  ∧ ∀ j, 0 ≤ j < obj_size (mem h) p →
         mem (move_phase sch rp h) (new_address sch h p + j)
         = mem (adjust_phase sch rp h) (p + j).
Proof.
  intros Hp Hr Hs Hself Hin.
  pose proof Hin as (i & Hi & Hpi)%elem_of_all_objects.
  destruct (is_move_allowed (rgn h i)) eqn:Hm.
  - by apply (move_object h sch rp Hp Hr Hs i p).
  - rewrite (new_address_immovable sch h rp i p) by done.
    destruct (obj_in_heap h Hp p Hin) as (_ & Hpos & _).
    split.
    + unfold BrooksPointer.get_raw.
      rewrite (move_immovable h sch rp Hp Hr Hs i p) by
        (done || unfold BrooksPointer.word_offset, ws; lia).
      fold (BrooksPointer.get_raw (mem (adjust_phase sch rp h)) p).
      rewrite (adjust_fwd h sch rp Hp Hr Hs p Hin).
      by apply (new_address_immovable sch h rp i p).
    + intros j Hj. apply (move_immovable h sch rp Hp Hr Hs i p); [done..|].
      unfold ws. lia.
Qed.

(** C3. Phase 4. [do_object] copies [p->size()] words from the object to
    its forwarding target when the two differ, every destination word
    receiving the word its source held before the copy, which is also what
    an ascending word-by-word copy gives since no target lies above its
    source; it then makes the forwarding word at the target point to the
    target, moved or not, and touches no other word; a region gets
    [top = new_top] once its objects are processed; and after phase 4, on
    a parsable heap with self-forwarded live objects, every live object is
    at its new address and is its own forwardee. [h0] is the heap when
    phase 2 starts. *)
Theorem compaction_moves_objects (sch : Schedule) (rp : list HeapWord)
    (h0 : ShenandoahHeap) :
  let h := ensure_heap_active (reclaim_humongous h0) in
  parsable h → refs_ok rp h → schedule_ok sch h → self_forwarded h →
  (∀ p hh,
     let size := obj_size (mem hh) p in
     let compact_to := BrooksPointer.get_raw (mem hh) p in
     let hh' := ShenandoahCompactObjectsClosure.do_object p hh in
     (compact_to ≠ p → ∀ k, 0 ≤ k < size → mem hh' (compact_to + k) = mem hh (p + k))
     ∧ (compact_to ≤ p → 0 ≤ size → ∀ a, a ≠ compact_to + BrooksPointer.word_offset →
          mem hh' a = copy_words_ascending (Z.to_nat size) p compact_to (mem hh) a)
     ∧ BrooksPointer.get_raw (mem hh') compact_to = compact_to
     ∧ (∀ a, a ≠ compact_to + BrooksPointer.word_offset →
             ¬ (compact_to ≠ p ∧ compact_to ≤ a < compact_to + size) →
             mem hh' a = mem hh a)
     ∧ regions hh' = regions hh)
  ∧ (∀ r hh, (r < num_regions hh)%nat →
       top (rgn (ShenandoahCompactObjectsTask.compact_region r hh) r) = new_top (rgn hh r))
  ∧ (∀ p, p ∈ all_objects h →
       new_address sch h p ≤ p
       ∧ mem (do_it_move sch rp h0) (new_address sch h p) = mem h p
       ∧ BrooksPointer.get_raw (mem (do_it_move sch rp h0)) (new_address sch h p)
         = new_address sch h p).
Proof.
  intros h Hp Hr Hs Hself. split; [|split].
  - intros p hh size compact_to hh'.
    assert (Hmem : mem hh' = compact_mem p (mem hh)) by done.
    rewrite Hmem. unfold compact_mem. fold size compact_to.
    unfold BrooksPointer.initialize, BrooksPointer.set_raw, BrooksPointer.get_raw.
    split; [|split; [|split; [|split]]].
    + intros Hne k Hk. unfold BrooksPointer.word_offset.
      rewrite decide_False by lia. rewrite decide_True by done.
      unfold aligned_conjoint_words. rewrite decide_True by lia. f_equal. lia.
    + intros Hle Hsz a Ha. rewrite decide_False by done.
      rewrite copy_words_ascending_conjoint by done. rewrite Z2Nat.id by done.
      case_decide as Hc; [done|].
      assert (p = compact_to) as <- by (destruct (decide (p = compact_to)); [done|tauto]).
      unfold aligned_conjoint_words. case_decide; [f_equal; lia|done].
    + by rewrite decide_True.
    + intros a Ha Hout. rewrite decide_False by done. case_decide as Hc; [|done].
      unfold aligned_conjoint_words. rewrite decide_False; [done|]. intros Hin.
      apply Hout. split; [congruence|done].
    + done.
  - intros r hh Hrn. rewrite compact_region_eq, rgn_upd_region_eq by done. done.
  - intros p Hin. rewrite do_it_move_eq, mem_post_compact. fold h.
    destruct (object_after_move sch h rp p Hp Hr Hs Hself Hin) as [Hf Hb].
    destruct (obj_in_heap h Hp p Hin) as (_ & Hpos & _).
    split; [|split; [|done]].
    + pose proof Hin as (i & Hi & Hpi)%elem_of_all_objects.
      destruct (is_move_allowed (rgn h i)) eqn:Hm.
      * by apply (new_address_movable sch h i p).
      * rewrite (new_address_immovable sch h rp i p) by done. lia.
    + specialize (Hb 0 ltac:(lia)). rewrite !Z.add_0_r in Hb. rewrite Hb.
      by apply (adjust_klass h sch rp Hp Hr Hs).
Qed.

Lemma adjust_objects_filter hh view :
  adjust_objects hh (filter (λ r, is_humongous_continuation (rgn hh r) = false) view)
  = adjust_objects hh view.
Proof.
  unfold adjust_objects. induction view as [|r view IH]; [done|].
  rewrite filter_cons, bind_cons.
  destruct (is_humongous_continuation (rgn hh r)) eqn:E.
  - rewrite decide_False by done. by rewrite IH.
  - rewrite decide_True by done. by rewrite bind_cons, E, IH.
Qed.

(** C4. Phase 3. [do_oop_work] on a slot that holds a reference to [o]
    stores [o]'s forwarding word in the slot, leaves a NULL slot NULL and
    touches no other word; a worker of [ShenandoahAdjustPointersTask]
    visits the live objects of the regions it claims, the humongous
    continuations apart; on a parsable heap as marking leaves it, phase 3
    leaves in every root slot and every reference field of every live
    object the forwardee of what the slot held; and after the full GC
    every reference field of every live object, read at the object's new
    address, and every root slot, holds NULL if it held NULL and the new
    address of its referent otherwise. [h0] is the heap when phase 2
    starts. *)
Theorem references_follow_objects (sch : Schedule) (rp : list HeapWord)
    (h0 : ShenandoahHeap) :
  let h := ensure_heap_active (reclaim_humongous h0) in
  let final := do_it_move sch rp h0 in
  let new_ref v := if decide (v = 0) then 0 else new_address sch h v in
  parsable h → refs_ok rp h → schedule_ok sch h → self_forwarded h →
  (∀ slot m,
     ShenandoahAdjustPointersClosure.do_oop_work slot m slot
     = (if decide (m slot = 0) then 0 else BrooksPointer.get_raw m (m slot))
     ∧ ∀ a, a ≠ slot → ShenandoahAdjustPointersClosure.do_oop_work slot m a = m a)
  ∧ (∀ view hh,
       ShenandoahAdjustPointersTask.work view hh
       = ShenandoahAdjustPointersTask.work
           (filter (λ r, is_humongous_continuation (rgn hh r) = false) view) hh)
  ∧ (∀ a, (a ∈ rp ∨ ∃ p off, p ∈ all_objects h ∧ off ∈ klass_oop_offsets (mem h p)
                              ∧ a = p + off) →
          mem (adjust_phase sch rp h) a
          = (if decide (mem h a = 0) then 0
             else BrooksPointer.get_raw (mem (plan_phase sch h).1) (mem h a))
          ∧ mem (adjust_phase sch rp h) a = new_ref (mem h a))
  ∧ (∀ s, s ∈ rp → mem final s = new_ref (mem h s))
  ∧ (∀ p off, p ∈ all_objects h →
              off ∈ klass_oop_offsets (mem final (new_address sch h p)) →
              mem final (new_address sch h p + off) = new_ref (mem h (p + off))).
Proof.
  intros h final new_ref Hp Hr Hs Hself.
  assert (Hslot : ∀ a, a ∈ adjusted_slots h sch rp →
            mem (adjust_phase sch rp h) a
            = (if decide (mem h a = 0) then 0
               else BrooksPointer.get_raw (mem (plan_phase sch h).1) (mem h a))
            ∧ mem (adjust_phase sch rp h) a = new_ref (mem h a)).
  { intros a Ha. rewrite (adjust_slot h sch rp Hp Hr Hs a Ha).
    unfold forwardee, new_ref. repeat case_decide; try done. }
  assert (Hroot : ∀ s, s ∈ rp → s ∈ adjusted_slots h sch rp).
  { intros s Hin. apply elem_of_adjusted_slots; auto. }
  assert (Hfield : ∀ p off, p ∈ all_objects h → off ∈ klass_oop_offsets (mem h p) →
            p + off ∈ adjusted_slots h sch rp).
  { intros p off Hin Hoff. apply elem_of_adjusted_slots; [done..|]. right. exists p.
    split; [done|]. apply elem_of_slots_of. eauto. }
  split; [|split; [|split; [|split]]].
  - intros slot m. split.
    + rewrite do_oop_work_eq, decide_True by done. unfold forwardee.
      repeat case_decide; congruence.
    + intros a Ha. rewrite do_oop_work_eq. by rewrite decide_False.
  - intros view hh. by rewrite !adjust_work_eq, adjust_objects_filter.
  - intros a [Ha|(p & off & Hin & Hoff & ->)]; apply Hslot; auto.
  - intros s Hin. unfold final. rewrite do_it_move_eq, mem_post_compact. fold h.
    rewrite (move_root h sch rp Hp Hr Hs s Hin). by apply Hslot, Hroot.
  - intros p off Hin. unfold final. rewrite do_it_move_eq, mem_post_compact. fold h.
    destruct (object_after_move sch h rp p Hp Hr Hs Hself Hin) as [_ Hb].
    destruct (obj_in_heap h Hp p Hin) as (_ & Hpos & _).
    pose proof (Hb 0 ltac:(lia)) as Hk. rewrite !Z.add_0_r in Hk.
    rewrite Hk, (adjust_klass h sch rp Hp Hr Hs p Hin). intros Hoff.
    destruct (offsets_ok h rp Hr p Hin) as [_ Ho]. destruct (Ho off Hoff) as [Hrange _].
    rewrite Hb by lia. by apply Hslot, Hfield.
Qed.

Lemma same_but_tops_state R hh hh' i :
  same_but_tops R hh hh' → state (rgn hh' i) = state (rgn hh i).
Proof.
  intros (_ & Hs & _). specialize (Hs i).
  by apply (f_equal state) in Hs.
Qed.

Lemma move_allowed_not_humongous r : is_move_allowed r = true → is_humongous r = false.
Proof.
  unfold is_move_allowed, is_humongous, is_regular, is_cset, is_humongous_start,
    is_humongous_continuation. by destruct (state r).
Qed.

(** C10. [next_from_region] adds a region to the slice only when it
    claimed one, and the region it claimed may be moved; a region that
    may be moved is not humongous; so after phase 2 every region of every
    slice may be moved and is neither a humongous start nor a
    continuation; the assertion of [ShenandoahCompactObjectsTask::work]
    then holds at every region a worker of phase 4 visits, on the heap as
    it is when the worker gets there; and no word of a live object of a
    humongous region, its forwarding word included, is written by phase 2
    or by phase 4. [h0] is the heap when phase 2 starts. *)
Theorem slices_hold_no_humongous (sch : Schedule) (rp : list HeapWord)
    (h0 : ShenandoahHeap) :
  let h := ensure_heap_active (reclaim_humongous h0) in
  let slices := (plan_phase sch h).2 in
  parsable h → refs_ok rp h → schedule_ok sch h →
  (∀ hh view slice from_region view' slice',
     ShenandoahPrepareForCompactionTask.next_from_region hh view slice
     = (from_region, view', slice') →
     match from_region with
     | Some r => is_move_allowed (rgn hh r) = true
                 ∧ set_regions slice' = set_regions slice ++ [r]
     | None => slice' = slice
     end
     ∧ ShenandoahPrepareForCompactionTask.assert_move_allowed hh from_region = true)
  ∧ (∀ r, is_move_allowed r = true →
          is_humongous_start r = false ∧ is_humongous_continuation r = false)
  ∧ (∀ w r, (w < nworkers sch)%nat → r ∈ set_regions (slices !!! w) →
            is_move_allowed (rgn h r) = true ∧ is_humongous (rgn h r) = false)
  ∧ (∀ w R1 r R2, (w < nworkers sch)%nat → set_regions (slices !!! w) = R1 ++ r :: R2 →
       let hw := compact_objects w slices (adjust_phase sch rp h) in
       let hr := foldl (λ hh x, ShenandoahCompactObjectsTask.compact_region x hh) hw R1 in
       ShenandoahCompactObjectsTask.work (slices !!! w) hw
       = foldl (λ hh x, ShenandoahCompactObjectsTask.compact_region x hh) hr (r :: R2)
       ∧ ShenandoahCompactObjectsTask.assert_not_humongous hr r = true)
  ∧ (∀ i q a, (i < num_regions h)%nat → is_humongous (rgn h i) = true →
              q ∈ live_objects h i →
              q - BrooksPointer.word_size ≤ a < q + obj_size (mem h) q →
              mem (plan_phase sch h).1 a = mem h a
              ∧ mem (move_phase sch rp h) a = mem (adjust_phase sch rp h) a).
Proof.
  intros h slices Hp Hr Hs.
  assert (Hslice : ∀ w r, (w < nworkers sch)%nat → r ∈ set_regions (slices !!! w) →
            is_move_allowed (rgn h r) = true ∧ is_humongous (rgn h r) = false).
  { intros w r Hw Hin. unfold slices in Hin.
    rewrite (plan_slices h sch Hp Hs w Hw) in Hin.
    apply slice_of_spec in Hin as (_ & _ & Hm). split; [done|].
    by apply move_allowed_not_humongous. }
  split; [|split; [|split; [done|split]]].
  - intros hh view slice from_region view' slice'.
    unfold ShenandoahPrepareForCompactionTask.next_from_region.
    destruct (ShenandoahPrepareForCompactionTask.claim_movable hh view)
      as [[r|] v] eqn:Ec; intros [= <- <- <-].
    + apply claim_movable_Some in Ec as [Hm _].
      assert (Hin : r ∈ movable hh view) by (rewrite Hm; left).
      apply list_elem_of_filter in Hin as [Hr' _]. cbn.
      by destruct (is_move_allowed (rgn hh r)).
    + done.
  - intros r Hm. apply move_allowed_not_humongous in Hm.
    unfold is_humongous in Hm. by apply orb_false_iff in Hm.
  - intros w R1 r R2 Hw HR hw hr. split.
    + rewrite compact_work_fold, HR. unfold hr. by rewrite foldl_app.
    + unfold ShenandoahCompactObjectsTask.assert_not_humongous.
      assert (Hin : r ∈ set_regions (slices !!! w)) by (rewrite HR; apply elem_of_app; right; left).
      destruct (Hslice w r Hw Hin) as [_ Hh].
      assert (Hst : state (rgn hr r) = state (rgn h r)).
      { unfold hr, hw. assert (Hnd : NoDup R1).
        { pose proof (slices_NoDup h sch Hp Hs w Hw) as Hnd. fold slices in Hnd.
          rewrite HR in Hnd. by apply NoDup_app in Hnd as [? _]. }
        destruct (compact_regions_spec R1 (compact_objects w slices (adjust_phase sch rp h))
                    Hnd) as [H1 _].
        rewrite (same_but_tops_state _ _ _ r H1).
        destruct (compact_gang_spec slices w (adjust_phase sch rp h)) as [H2 _].
        { intros w' Hw'. apply (slices_NoDup h sch Hp Hs). lia. }
        { intros w1 w2 x H1' H2'. apply (slices_disjoint h sch Hp Hs); lia. }
        rewrite (same_but_tops_state _ _ _ r H2).
        apply same_shape_state, (adjust_shape h sch rp Hp Hr Hs). }
      unfold is_humongous, is_humongous_start, is_humongous_continuation in *.
      rewrite Hst. by rewrite Hh.
  - intros i q a Hi Hh Hq Ha.
    assert (Hm : is_move_allowed (rgn h i) = false).
    { destruct (is_move_allowed (rgn h i)) eqn:E; [|done].
      apply move_allowed_not_humongous in E. congruence. }
    split.
    + apply (plan_frame h sch Hp Hs). intros j p Hj Hmj Hpj.
      pose proof (immovable_obj_misses h Hp i q j Hi Hm Hq Hj Hmj) as Hmiss.
      destruct (movable_obj_in_region h Hp j p Hj Hmj Hpj) as [Hlo Hhi].
      destruct (obj_in_heap h Hp p (live_in_all h j p Hj Hpj)) as (_ & Hpos & _).
      unfold misses_region, BrooksPointer.word_offset, BrooksPointer.word_size in *. lia.
    + by apply (move_immovable h sch rp Hp Hr Hs i q a).
Qed.
End MovingClaims.


(** ** Post-compact *)

Section PostCompact.
Import ShenandoahPostCompactClosure.

Lemma post_region_cases r :
  (is_cset r = true → used r ≠ 0 →
     post_region r = set_live_data (used r) (make_regular_bypass r)
     ∧ state (post_region r) = regular)
  ∧ (is_regular r || is_cset r = true → used r = 0 →
     post_region r = set_live_data 0 (recycle (make_trash r)))
  ∧ (is_trash r = true → post_region r = set_live_data 0 (recycle r))
  ∧ (is_cset r = false → is_trash r = false → (is_regular r = true → used r ≠ 0) →
     post_region r = set_live_data (used r) r).
Proof.
  destruct r as [b t e nt s l c].
  unfold post_region, is_cset, is_regular, is_trash, make_regular_bypass, make_trash, used.
  cbn [state top bottom set_state].
  destruct (Z.eqb_spec (t - b) 0) as [E|E]; destruct s; cbn.
  all: repeat split; intros; try (exfalso; lia).
  all: try (match goal with H : _ → _ ≠ 0 |- _ => exfalso; apply H; [done|lia] end).
  all: by vm_compute in *.
Qed.

Lemma upd_region_insert i f h :
  (i < num_regions h)%nat →
  upd_region i f h = with_regions (<[i := f (rgn h i)]> (regions h)) h.
Proof.
  intros Hi. unfold upd_region, rgn. f_equal.
  pose proof Hi as [r Hr]%lookup_lt_is_Some_2.
  apply list_eq. intros j. destruct (decide (i = j)) as [<-|Hne].
  - rewrite list_lookup_alter_eq, list_lookup_insert_eq by done.
    by rewrite list_lookup_total_alt, Hr.
  - by rewrite list_lookup_alter_ne, list_lookup_insert_ne.
Qed.

Lemma with_regions_insert i x y h :
  with_regions (<[i := y]> (regions (with_regions (<[i := x]> (regions h)) h)))
               (with_regions (<[i := x]> (regions h)) h)
  = with_regions (<[i := y]> (regions h)) h.
Proof. unfold with_regions. cbn. by rewrite list_insert_insert_eq. Qed.

Lemma rgn_with_regions_insert i x h :
  (i < num_regions h)%nat → rgn (with_regions (<[i := x]> (regions h)) h) i = x.
Proof. intros Hi. unfold rgn. cbn. by apply list_lookup_total_insert_eq. Qed.

Lemma if_upd_region (b : bool) i f h :
  (if b then upd_region i f h else h) = upd_region i (if b then f else id) h.
Proof.
  destruct b; [done|]. unfold upd_region. rewrite list_alter_id by done. by destruct h.
Qed.

Lemma num_regions_with_regions_insert i x h :
  num_regions (with_regions (<[i := x]> (regions h)) h) = num_regions h.
Proof. unfold num_regions. cbn. apply length_insert. Qed.

Lemma heap_region_do_eq i acc h :
  (i < num_regions h)%nat →
  heap_region_do i (acc, h)
  = (acc + live_data (post_region (rgn h i)),
     with_regions (<[i := post_region (rgn h i)]> (regions h))
       (post_free i (set_complete_top_at_mark_start i (bottom (rgn h i)) h))).
Proof.
  intros Hi. unfold heap_region_do.
  set (h1 := set_complete_top_at_mark_start i (bottom (rgn h i)) h).
  assert (Hi1 : (i < num_regions h1)%nat) by done.
  change (rgn h i) with (rgn h1 i). change (regions h) with (regions h1).
  clearbody h1. clear h Hi. cbn zeta.
  set (r := rgn h1 i). set (live := used r).
  rewrite !if_upd_region.
  rewrite !rgn_upd_region_eq by (rewrite ?num_regions_upd_region; done). fold r.
  set (f1 := if is_cset r && negb (live =? 0) then make_regular_bypass else id).
  set (f2 := if (is_regular (f1 r) || is_cset (f1 r)) && (live =? 0) then make_trash else id).
  assert (Hpost : post_region r
                  = if is_trash (f2 (f1 r)) then set_live_data 0 (recycle (f2 (f1 r)))
                    else set_live_data live (f2 (f1 r))).
  { unfold post_region, f2, f1. fold live.
    by destruct (is_cset r && negb (live =? 0)),
                ((is_regular _ || is_cset _) && (live =? 0)). }
  assert (Hup : ∀ g3 l3,
            (acc + l3,
             upd_region i (set_live_data l3)
               (let h := upd_region i g3 (upd_region i f2 (upd_region i f1 h1)) in
                if is_alloc_allowed (rgn h i)
                then add_free_region i
                       (if bool_decide (i ∈ collection_set h)
                        then with_collection_set (collection_set h ∖ {[i]}) h else h)
                else h))
            = (acc + live_data (set_live_data l3 (g3 (f2 (f1 r)))),
               with_regions (<[i := set_live_data l3 (g3 (f2 (f1 r)))]> (regions h1))
                 (if is_alloc_allowed (set_live_data l3 (g3 (f2 (f1 r))))
                  then add_free_region i
                         (with_collection_set (collection_set h1 ∖ {[i]}) h1)
                  else h1))).
  { intros g3 l3. cbn zeta.
    rewrite !rgn_upd_region_eq by (rewrite ?num_regions_upd_region; done). fold r.
    f_equal.
    change (is_alloc_allowed (set_live_data l3 (g3 (f2 (f1 r)))))
      with (is_alloc_allowed (g3 (f2 (f1 r)))).
    assert (Hcs : (if bool_decide (i ∈ collection_set h1)
                   then collection_set h1 ∖ {[i]} else collection_set h1)
                  = collection_set h1 ∖ {[i]}).
    { case_bool_decide; [done|]. symmetry. apply difference_disjoint_L. set_solver. }
    assert (Hrs : alter (set_live_data l3) i (alter g3 i (alter f2 i (alter f1 i (regions h1))))
                  = <[i := set_live_data l3 (g3 (f2 (f1 r)))]> (regions h1)).
    { rewrite !list_alter_alter_eq.
      pose proof (upd_region_insert i (set_live_data l3 ∘ g3 ∘ f2 ∘ f1) h1 Hi1) as E.
      by apply (f_equal regions) in E. }
    destruct (is_alloc_allowed (g3 (f2 (f1 r)))).
    - unfold upd_region, with_regions, add_free_region, with_collection_set.
      cbn [regions mem complete_mark_bit_map next_top_at_mark_start
           complete_top_at_mark_start collection_set free_regions heap_used].
      rewrite <- Hcs, <- Hrs.
      by destruct (bool_decide (i ∈ collection_set h1)).
    - unfold upd_region, with_regions.
      cbn [regions mem complete_mark_bit_map next_top_at_mark_start
           complete_top_at_mark_start collection_set free_regions heap_used].
      by rewrite <- Hrs. }
  unfold post_free. fold r. rewrite Hpost.
  destruct (is_trash (f2 (f1 r))).
  - exact (Hup recycle 0).
  - etrans; [|exact (Hup id live)]. cbn zeta.
    pose proof (if_upd_region false i id (upd_region i f2 (upd_region i f1 h1))) as E.
    cbn iota in E. by rewrite <- E.
Qed.

Lemma total_live_app rs rs' : total_live (rs ++ rs') = total_live rs + total_live rs'.
Proof. unfold total_live. induction rs as [|r rs IH]; simpl; lia. Qed.

Lemma post_pass k h :
  (k ≤ num_regions h)%nat →
  let s := heap_region_iterate k heap_region_do (0, h) in
  regions s.2 = (post_region <$> take k (regions h)) ++ drop k (regions h)
  ∧ s.1 = total_live (post_region <$> take k (regions h))
  ∧ free_regions s.2
    = free_regions h
      ++ filter (λ i, is_alloc_allowed (post_region (rgn h i)) = true) (seq 0 k).
Proof.
  unfold heap_region_iterate. induction k as [|k IH]; intros Hk.
  - cbn. by rewrite app_nil_r.
  - destruct IH as (Hrs & Hacc & Hfree); [lia|].
    rewrite seq_S, foldl_snoc. change (0 + k)%nat with k.
    destruct (foldl _ (0, h) (seq 0 k)) as [acc hk]. cbn [fst snd] in *.
    assert (Hlen : num_regions hk = num_regions h).
    { unfold num_regions. rewrite Hrs, length_app, length_fmap, length_take, length_drop.
      unfold num_regions in Hk. lia. }
    destruct (lookup_lt_is_Some_2 (regions h) k ltac:(unfold num_regions in Hk; lia))
      as [r Hr].
    assert (Hrk : rgn hk k = r).
    { unfold rgn. rewrite Hrs, list_lookup_total_alt, lookup_app_r;
        rewrite length_fmap, length_take_le by (unfold num_regions in Hk; lia); [|lia].
      by rewrite Nat.sub_diag, lookup_drop, Nat.add_0_r, Hr. }
    assert (Hrk0 : rgn h k = r) by (by apply rgn_lookup).
    rewrite heap_region_do_eq by lia. cbn [fst snd]. rewrite Hrk.
    rewrite (take_S_r _ _ r), fmap_app, total_live_app by done.
    split; [|split].
    + cbn [regions with_regions].
      rewrite Hrs, (drop_S _ r k) by done.
      rewrite insert_app_r_alt;
        rewrite length_fmap, length_take_le by (unfold num_regions in Hk; lia); [|lia].
      rewrite Nat.sub_diag. cbn. by rewrite <- app_assoc.
    + rewrite Hacc. cbn. lia.
    + rewrite filter_app, app_assoc, <- Hfree. unfold post_free.
      cbn [free_regions with_regions]. change (rgn _ k) with (rgn hk k).
      rewrite Hrk. rewrite filter_cons, filter_nil, Hrk0.
      destruct (is_alloc_allowed (post_region r)).
      * by rewrite decide_True.
      * rewrite decide_False by done. by rewrite app_nil_r.
Qed.

Lemma filter_ext_in {A} (P Q : A → Prop) `{!∀ x, Decision (P x), !∀ x, Decision (Q x)}
    (l : list A) :
  (∀ x, x ∈ l → P x ↔ Q x) → filter P l = filter Q l.
Proof.
  induction l as [|x l IH]; intros HPQ; [done|].
  rewrite !filter_cons, IH by (intros y Hy; apply HPQ; by right).
  destruct (decide (P x)) as [HP|HP], (decide (Q x)) as [HQ|HQ]; try done.
  - exfalso. apply HQ, HPQ; [left|done].
  - exfalso. apply HP, HPQ; [left|done].
Qed.

Lemma post_compact_spec h :
  regions (post_compact h) = post_region <$> regions h
  ∧ heap_used (post_compact h) = total_live (regions (post_compact h))
  ∧ collection_set (post_compact h) = ∅
  ∧ free_regions (post_compact h)
    = filter (λ i, is_alloc_allowed (rgn (post_compact h) i) = true)
             (seq 0 (num_regions h)).
Proof.
  unfold post_compact, new, get_live. cbn zeta.
  set (h' := clear_free_regions (reset_complete_mark_bitmap h)).
  change (num_regions (reset_complete_mark_bitmap h)) with (num_regions h').
  destruct (post_pass (num_regions h') h' ltac:(done)) as (Hrs & Hacc & Hfree).
  cbn zeta in Hrs, Hacc, Hfree.
  rewrite take_ge, drop_ge, app_nil_r in Hrs by (unfold num_regions; lia).
  rewrite take_ge in Hacc by (unfold num_regions; lia).
  cbn [regions heap_used collection_set free_regions with_collection_set set_used].
  rewrite Hrs, Hacc, Hfree. repeat split.
  apply filter_ext_in. intros i Hin%elem_of_seq.
  unfold rgn. cbn [regions with_collection_set set_used]. rewrite Hrs.
  rewrite (rgn_fmap post_region); [done|].
  change (length (regions h')) with (num_regions h). lia.
Qed.

(** C5. Post-compact. [heap_region_do] on a region with [live = used()],
    which is [top - bottom]: a cset region with live data becomes regular;
    a regular or cset region without live data is made trash, and as
    trash it is recycled in the same visit; a trash region is recycled,
    with live data 0; any other region keeps its state; the region's live
    data is set to [live], to 0 when it was recycled, and added to the
    closure's total; when the region then allows allocation it is taken
    out of the collection set and appended to the free set; no other
    region changes. After [post_compact] every region is what its visit
    made of it, the free set lists the regions that allow allocation, the
    heap's used counter is the sum of the live data of the regions, and
    the collection set is empty. *)
Theorem post_compact_reclassifies (h : ShenandoahHeap) (i : nat) (acc : Z) :
  (i < num_regions h)%nat →
  let r := rgn h i in
  let live := used r in
  let s' := heap_region_do i (acc, h) in
  let r' := rgn s'.2 i in
  let final := post_compact h in
  live = top r - bottom r
  ∧ (is_cset r = true → live ≠ 0 → state r' = regular ∧ live_data r' = live)
  ∧ (is_regular r || is_cset r = true → live = 0 →
       r' = set_live_data 0 (recycle (make_trash r)))
  ∧ (is_trash r = true → r' = set_live_data 0 (recycle r))
  ∧ (is_cset r = false → is_trash r = false → (is_regular r = true → live ≠ 0) →
       r' = set_live_data live r)
  ∧ (∀ j, j ≠ i → rgn s'.2 j = rgn h j)
  ∧ (if is_alloc_allowed r'
     then collection_set s'.2 = collection_set h ∖ {[i]}
          ∧ free_regions s'.2 = free_regions h ++ [i]
     else collection_set s'.2 = collection_set h ∧ free_regions s'.2 = free_regions h)
  ∧ s'.1 = acc + live_data r'
  ∧ rgn final i = r'
  ∧ free_regions final
    = filter (λ j, is_alloc_allowed (rgn final j) = true) (seq 0 (num_regions h))
  ∧ heap_used final = total_live (regions final)
  ∧ collection_set final = ∅.
Proof.
  intros Hi r live s' r' final.
  assert (Hr' : r' = post_region r).
  { unfold r', s'. rewrite heap_region_do_eq by done. cbn [snd].
    unfold rgn at 1. cbn [regions with_regions].
    by apply list_lookup_total_insert_eq. }
  destruct (post_region_cases r) as (H1 & H2 & H3 & H4).
  destruct (post_compact_spec h) as (Hrs & Hused & Hcs & Hfree).
  split; [done|]. rewrite Hr'.
  split; [|split; [done|split; [done|split; [done|]]]].
  { intros Hc Hl. destruct (H1 Hc Hl) as [E Hst]. split; [done|]. by rewrite E. }
  split; [|split; [|split; [|split; [|done]]]].
  - intros j Hj. unfold s'. rewrite heap_region_do_eq by done. cbn [snd].
    unfold rgn at 1. cbn [regions with_regions].
    by rewrite list_lookup_total_insert_ne.
  - unfold s'. rewrite heap_region_do_eq by done. cbn [snd]. unfold post_free.
    change (rgn (set_complete_top_at_mark_start i (bottom (rgn h i)) h) i) with r.
    by destruct (is_alloc_allowed (post_region r)).
  - unfold s'. by rewrite heap_region_do_eq.
  - unfold final, rgn at 1. rewrite Hrs. by apply rgn_fmap.
Qed.
End PostCompact.

(** ** The humongous sweep *)

Section Sweep.
Import ShenandoahMCReclaimHumongousRegionClosure.

Lemma reclaimed_iff h k j :
  reclaimed h k j
  ↔ ∃ i, (i < k)%nat ∧ dead_humongous_start h i = true
         ∧ (i ≤ j ≤ i + humongous_extent h i)%nat.
Proof.
  unfold reclaimed. rewrite Exists_exists. split.
  - intros (i & Hi%elem_of_seq & ?). exists i. split; [lia|done].
  - intros (i & Hi & ?). exists i. split; [apply elem_of_seq; lia|done].
Qed.

Lemma reclaimed_S h k j :
  reclaimed h (S k) j
  ↔ reclaimed h k j
    ∨ (dead_humongous_start h k = true ∧ (k ≤ j ≤ k + humongous_extent h k)%nat).
Proof. unfold reclaimed. rewrite seq_S, Exists_app, Exists_cons, Exists_nil. tauto. Qed.

Lemma continuation_run_spec rs d :
  (d < continuation_run rs)%nat →
  ∃ r, rs !! d = Some r ∧ is_humongous_continuation r = true.
Proof.
  revert d. induction rs as [|r rs IH]; intros d Hd; simpl in Hd; [lia|].
  destruct (is_humongous_continuation r) eqn:E; [|lia].
  destruct d as [|d]; [by exists r|]. apply IH. lia.
Qed.

Lemma humongous_extent_spec h i j :
  (i < j ≤ i + humongous_extent h i)%nat →
  (j < num_regions h)%nat ∧ is_humongous_continuation (rgn h j) = true.
Proof.
  intros Hj. unfold humongous_extent in Hj.
  destruct (continuation_run_spec (drop (S i) (regions h)) (j - S i) ltac:(lia))
    as (r & Hr & Hc).
  rewrite lookup_drop in Hr. replace (S i + (j - S i))%nat with j in Hr by lia.
  split; [by apply lookup_lt_Some in Hr|]. by rewrite (rgn_lookup h j r).
Qed.

Lemma start_not_continuation r :
  is_humongous_start r = true → is_humongous_continuation r = false.
Proof. unfold is_humongous_start, is_humongous_continuation. by destruct (state r). Qed.

(** The extent of a humongous object holds no other humongous start. *)
Lemma extent_no_start h i j :
  (i < j ≤ i + humongous_extent h i)%nat → is_humongous_start (rgn h j) = false.
Proof.
  intros Hj. destruct (humongous_extent_spec h i j Hj) as [_ Hc].
  destruct (is_humongous_start (rgn h j)) eqn:E; [|done].
  apply start_not_continuation in E. congruence.
Qed.

Lemma rgn_trash_run i len h j :
  (i + len ≤ num_regions h)%nat →
  rgn (foldl (λ h j, upd_region j make_trash h) h (seq i len)) j
  = if decide (i ≤ j < i + len)%nat then make_trash (rgn h j) else rgn h j.
Proof.
  revert j. induction len as [|len IH]; intros j Hlen.
  - simpl. by rewrite decide_False by lia.
  - rewrite seq_S, foldl_snoc, rgn_upd_region.
    rewrite (foldl_preserves num_regions) by (intros; apply num_regions_upd_region).
    rewrite !IH by lia.
    repeat case_decide; try done; try lia. destruct_and!. by subst.
Qed.

Lemma rgn_trash_humongous_region_at i h j :
  (i < num_regions h)%nat →
  rgn (trash_humongous_region_at i h) j
  = if decide (i ≤ j ≤ i + humongous_extent h i)%nat then make_trash (rgn h j) else rgn h j.
Proof.
  intros Hi. unfold trash_humongous_region_at. fold (humongous_extent h i).
  assert (Hlen : (i + S (humongous_extent h i) ≤ num_regions h)%nat).
  { destruct (humongous_extent h i) as [|e] eqn:E; [lia|].
    destruct (humongous_extent_spec h i (i + S e)) as [? _]; lia. }
  rewrite rgn_trash_run by done. repeat case_decide; try done; lia.
Qed.

Lemma drop_rgn_ext k h h' :
  num_regions h' = num_regions h → (∀ j, (k ≤ j)%nat → rgn h' j = rgn h j) →
  drop k (regions h') = drop k (regions h).
Proof.
  intros Hn Hr. apply list_eq. intros d. rewrite !lookup_drop.
  destruct (decide (k + d < num_regions h)%nat) as [Hlt|Hge].
  - destruct (lookup_lt_is_Some_2 (regions h) (k + d) Hlt) as [r Hr1].
    destruct (lookup_lt_is_Some_2 (regions h') (k + d) ltac:(unfold num_regions in *; lia))
      as [r' Hr2].
    pose proof (Hr (k + d)%nat ltac:(lia)) as E.
    rewrite (rgn_lookup _ _ _ Hr1), (rgn_lookup _ _ _ Hr2) in E. congruence.
  - rewrite !lookup_ge_None_2; [done|unfold num_regions in *; lia..].
Qed.

(** The heap after the first [k] regions have been visited: the regions
    of the dead humongous objects that start below [k] are trash, and
    nothing else has changed. *)
Lemma sweep_inv k h :
  (k ≤ num_regions h)%nat →
  let hk := heap_region_iterate k heap_region_do h in
  num_regions hk = num_regions h
  ∧ complete_mark_bit_map hk = complete_mark_bit_map h
  ∧ ∀ j, rgn hk j = if decide (reclaimed h k j) then make_trash (rgn h j) else rgn h j.
Proof.
  unfold heap_region_iterate. induction k as [|k IH]; intros Hk.
  - cbn. split; [done|split; [done|]].
    intros j. rewrite decide_False; [done|]. by intros ?%Exists_nil.
  - destruct IH as (Hn & Hb & Hr); [lia|]. cbn zeta in *.
    assert (E : foldl (λ s i, heap_region_do i s) h (seq 0 (S k))
                = heap_region_do k (foldl (λ s i, heap_region_do i s) h (seq 0 k)))
      by (by rewrite seq_S, foldl_snoc).
    rewrite E. clear E.
    set (hk := foldl (λ s i, heap_region_do i s) h (seq 0 k)) in *.
    assert (Hstart : is_humongous_start (rgn h k) = true →
              ∀ j, (k ≤ j)%nat → ¬ reclaimed h k j).
    { intros Hs j Hj (i & Hi & _ & Hext)%reclaimed_iff.
      rewrite (extent_no_start h i k) in Hs by lia. done. }
    assert (Hsame : is_humongous_start (rgn hk k) = is_humongous_start (rgn h k)).
    { rewrite Hr. case_decide as Hc; [|done].
      destruct (is_humongous_start (rgn h k)) eqn:E; [|done].
      by destruct (Hstart eq_refl k ltac:(lia)). }
    unfold heap_region_do. rewrite Hsame.
    destruct (is_humongous_start (rgn h k)) eqn:Es.
    + assert (Hrk : rgn hk k = rgn h k).
      { rewrite Hr, decide_False; [done|]. by apply Hstart. }
      rewrite Hrk. unfold is_marked_complete. rewrite Hb.
      fold (is_marked_complete h (bottom (rgn h k) + BrooksPointer.word_size)).
      destruct (is_marked_complete h _) eqn:Em; cbn [negb].
      * split; [done|split; [done|]]. intros j. rewrite Hr.
        apply decide_ext. rewrite reclaimed_S. unfold dead_humongous_start.
        rewrite Es, Em. cbn. intuition congruence.
      * assert (Hext : humongous_extent hk k = humongous_extent h k).
        { unfold humongous_extent. f_equal. apply drop_rgn_ext; [done|].
          intros j Hj. rewrite Hr, decide_False; [done|]. apply Hstart; [done|lia]. }
        split; [|split].
        -- unfold trash_humongous_region_at.
           rewrite (foldl_preserves num_regions) by (intros; apply num_regions_upd_region).
           done.
        -- unfold trash_humongous_region_at.
           by rewrite (foldl_preserves complete_mark_bit_map).
        -- intros j. rewrite rgn_trash_humongous_region_at, Hext by lia.
           assert (Hdead : dead_humongous_start h k = true).
           { unfold dead_humongous_start. by rewrite Es, Em. }
           case_decide as Hin.
           ++ rewrite Hr, decide_False by (apply Hstart; [done|lia]).
              rewrite decide_True; [done|]. apply reclaimed_S. by right.
           ++ rewrite Hr. apply decide_ext. rewrite reclaimed_S. tauto.
    + split; [done|split; [done|]]. intros j. rewrite Hr.
      apply decide_ext. rewrite reclaimed_S. unfold dead_humongous_start.
      rewrite Es. cbn. intuition congruence.
Qed.
End Sweep.

Section SweepClaim.
Context `{!KlassModel}.
Import ShenandoahPrepareForCompactionObjectClosure ShenandoahPrepareForCompactionTask.

Lemma humongous_not_reclaimed h i j k :
  (i < num_regions h)%nat → is_humongous_start (rgn h i) = true →
  dead_humongous_start h i = false →
  (i ≤ j ≤ i + humongous_extent h i)%nat → ¬ reclaimed h k j.
Proof.
  intros Hi Hs Hd Hj (i' & _ & Hd' & Hj')%reclaimed_iff.
  pose proof Hd' as Hs'. unfold dead_humongous_start in Hs'.
  apply andb_true_iff in Hs' as [Hs' _].
  destruct (decide (i' = i)) as [->|Hne]; [congruence|].
  destruct (decide (i' < i)%nat).
  - rewrite (extent_no_start h i' i) in Hs by lia. done.
  - rewrite (extent_no_start h i i') in Hs' by lia. done.
Qed.

Lemma ensure_active_region_humongous r :
  is_humongous r = true → ensure_active_region r = r.
Proof.
  unfold is_humongous, is_humongous_start, is_humongous_continuation.
  destruct r as [b t e n s l c]. by destruct s.
Qed.

Lemma rgn_ensure_heap_active h j :
  (j < num_regions h)%nat → rgn (ensure_heap_active h) j = ensure_active_region (rgn h j).
Proof. intros Hj. unfold rgn. rewrite regions_ensure_heap_active. by apply rgn_fmap. Qed.

(** C6. The humongous sweep. At a humongous start,
    [ShenandoahMCReclaimHumongousRegionClosure] looks up the head object
    at [bottom + word_size] in the complete bitmap and hands the region to
    [trash_humongous_region_at] when it is not marked. After the sweep,
    the start region and every continuation of a humongous object with an
    unmarked head are trash; the regions of a humongous object with a
    marked head are as they were, also when the heap has been made active
    again, and on every heap the planner sees the start region may not be
    moved and is never claimed as a from-region. The sweep writes no
    heap word. *)
Theorem humongous_sweep_reclaims (h : ShenandoahHeap) (i : nat) :
  (i < num_regions h)%nat → is_humongous_start (rgn h i) = true →
  let humongous_obj := bottom (rgn h i) + BrooksPointer.word_size in
  let h' := reclaim_humongous h in
  let hp := ensure_heap_active h' in
  ShenandoahMCReclaimHumongousRegionClosure.heap_region_do i h
  = (if is_marked_complete h humongous_obj then h else trash_humongous_region_at i h)
  ∧ (is_marked_complete h humongous_obj = false →
     ∀ j, (i ≤ j ≤ i + humongous_extent h i)%nat →
          rgn h' j = make_trash (rgn h j) ∧ is_trash (rgn h' j) = true)
  ∧ (is_marked_complete h humongous_obj = true →
     (∀ j, (i ≤ j ≤ i + humongous_extent h i)%nat →
           rgn h' j = rgn h j ∧ rgn hp j = rgn h j)
     ∧ ∀ hh, same_shape hp hh →
         is_move_allowed (rgn hh i) = false
         ∧ (∀ view slice, (next_from_region hh view slice).1.1 ≠ Some i)
         ∧ (∀ f cl, _heap cl = hh → same_shape hp (_heap (plan_region f cl))))
  ∧ mem h' = mem h.
Proof.
  intros Hi Hs humongous_obj h' hp.
  destruct (sweep_inv (num_regions h) h ltac:(done)) as (Hn & Hb & Hr).
  cbn zeta in Hn, Hb, Hr. fold (reclaim_humongous h) in Hn, Hb, Hr. fold h' in Hn, Hb, Hr.
  assert (Hin : ∀ j, (i ≤ j ≤ i + humongous_extent h i)%nat →
            (j < num_regions h)%nat ∧ is_humongous (rgn h j) = true).
  { intros j Hj. unfold is_humongous. destruct (decide (j = i)) as [->|Hne].
    - by rewrite Hs.
    - destruct (humongous_extent_spec h i j ltac:(lia)) as [? ->].
      split; [done|apply orb_true_r]. }
  split; [|split; [|split]].
  - unfold ShenandoahMCReclaimHumongousRegionClosure.heap_region_do. rewrite Hs.
    fold humongous_obj. by destruct (is_marked_complete h humongous_obj).
  - intros Hm j Hj. rewrite Hr, decide_True; [done|].
    apply reclaimed_iff. exists i. split; [done|]. split; [|done].
    unfold dead_humongous_start. fold humongous_obj. by rewrite Hs, Hm.
  - intros Hm.
    assert (Hkeep : ∀ j, (i ≤ j ≤ i + humongous_extent h i)%nat →
              rgn h' j = rgn h j ∧ rgn hp j = rgn h j).
    { intros j Hj. destruct (Hin j Hj) as [Hjn Hh].
      assert (E : rgn h' j = rgn h j).
      { rewrite Hr, decide_False; [done|].
        apply (humongous_not_reclaimed h i j); [done..| |done].
        unfold dead_humongous_start. fold humongous_obj. by rewrite Hs, Hm. }
      split; [done|]. unfold hp. rewrite rgn_ensure_heap_active by lia.
      rewrite E. by apply ensure_active_region_humongous. }
    split; [done|]. intros hh Hshape.
    assert (Hmv : is_move_allowed (rgn hh i) = false).
    { rewrite (same_shape_move_allowed hp hh i Hshape).
      destruct (Hkeep i ltac:(lia)) as [_ ->].
      unfold is_move_allowed, is_regular, is_cset, is_humongous_start in *.
      by destruct (state (rgn h i)). }
    split; [done|split].
    + intros view slice. unfold next_from_region.
      destruct (claim_movable hh view) as [[r|] v] eqn:Ec; [|done].
      cbn. intros [= ->]. apply claim_movable_Some in Ec as [Em _].
      assert (Hi' : i ∈ movable hh view) by (rewrite Em; left).
      apply list_elem_of_filter in Hi' as [Hi' _]. rewrite Hmv in Hi'. done.
    + intros f cl <-. eapply same_shape_trans; [done|apply plan_region_same_shape].
  - apply mem_reclaim_humongous.
Qed.
End SweepClaim.


(** * The collector on the small heap *)

Section OnTheSmallHeap.
Import SmallHeap.
Import ShenandoahPrepareForCompactionObjectClosure ShenandoahPrepareForCompactionTask.
Existing Instance klasses.

Lemma do_object_placement_witness :
  (_to_region planner1 < num_regions (_heap planner1))%nat
  ∧ _from_region planner1 = Some 0%nat
  ∧ BrooksPointer.get_raw (mem (_heap (do_object 7 planner1))) 7 = 4
  ∧ _compact_point (do_object 7 planner1) = 6.
Proof.
  assert (H1 : (_to_region planner1 < num_regions (_heap planner1))%nat)
    by (vm_compute; lia).
  assert (H2 : _from_region planner1 = Some 0%nat) by (vm_compute; reflexivity).
  split; [exact H1|]. split; [exact H2|].
  destruct (do_object_placement 7 planner1 0 H1 H2) as [Hfit _].
  destruct Hfit as (Hfwd & Hcp & _); [vm_compute; discriminate|].
  rewrite Hfwd, Hcp. vm_compute. split; reflexivity.
Defined.

Lemma example_parsable : parsable swept.
Proof. apply (bool_decide_unpack _). vm_compute. exact I. Defined.

Lemma example_refs_ok : refs_ok roots swept.
Proof. apply (bool_decide_unpack _). vm_compute. exact I. Defined.

Lemma example_schedule_ok : schedule_ok gang swept.
Proof. apply (bool_decide_unpack _). vm_compute. exact I. Defined.

Lemma example_self_forwarded : self_forwarded swept.
Proof. apply (bool_decide_unpack _). vm_compute. exact I. Defined.

Lemma example_view_ok : view_ok swept [0; 1; 2; 3]%nat.
Proof.
  split.
  - repeat (constructor; [|repeat (constructor; [lia|])]); constructor.
  - repeat (constructor; [vm_compute; lia|]). constructor.
Defined.

Lemma self_compaction_is_safe_witness :
  parsable swept ∧ view_ok swept [0; 1; 2; 3]%nat
  ∧ movable swept [0; 1; 2; 3]%nat = [] ++ 0%nat :: [1%nat]
  ∧ live_objects swept 0 = [1] ++ 7 :: []
  ∧ _compact_point (planning_state swept [] 0 [1]) + BrooksPointer.word_size ≤ 7.
Proof.
  assert (Hm : movable swept [0; 1; 2; 3]%nat = [] ++ 0%nat :: [1%nat])
    by (vm_compute; reflexivity).
  assert (Hl : live_objects swept 0 = [1] ++ 7 :: []) by (vm_compute; reflexivity).
  split; [exact example_parsable|]. split; [exact example_view_ok|].
  split; [exact Hm|]. split; [exact Hl|].
  exact (proj1 (proj2 (self_compaction_is_safe swept [0; 1; 2; 3]%nat [] [1%nat] 0 [1] [] 7
                         example_parsable example_view_ok Hm Hl))).
Defined.

Lemma worker_finishes_slice_witness :
  parsable swept ∧ view_ok swept [0; 1; 2; 3]%nat
  ∧ movable swept [0; 1; 2; 3]%nat = [0; 1]%nat
  ∧ new_top (rgn (work swept [0; 1; 2; 3]%nat new_region_set).1
                 (_to_region (planned swept 0 [1%nat])))
    = _compact_point (planned swept 0 [1%nat])
  ∧ _to_region (plan_region 1 (foldl (λ cl r, plan_region r cl)
                                     (new swept new_region_set 0) [0%nat])) ≠ 1%nat
  ∧ 1%nat ∈ set_regions (_empty_regions (planned swept 0 [1%nat]))
  ∧ Forall (λ p, BrooksPointer.get_raw
                   (mem (_heap (plan_region 1 (foldl (λ cl r, plan_region r cl)
                                                     (new swept new_region_set 0)
                                                     [0%nat])))) p
                 + obj_size (mem swept) p ≤ bottom (rgn swept 1))
           (live_objects swept 1)
  ∧ _to_region (plan_region 0 (new swept new_region_set 0)) = 0%nat
  ∧ (0%nat ∉ set_regions (_empty_regions (planned swept 0 [1%nat]))).
Proof.
  assert (Hm : movable swept [0; 1; 2; 3]%nat = [0; 1]%nat) by (vm_compute; reflexivity).
  assert (Hne : _to_region (plan_region 1 (foldl (λ cl r, plan_region r cl)
                              (new swept new_region_set 0) [0%nat])) ≠ 1%nat)
    by (vm_compute; lia).
  assert (He : _to_region (plan_region 0 (new swept new_region_set 0)) = 0%nat)
    by (vm_compute; reflexivity).
  pose proof (worker_finishes_slice swept [0; 1; 2; 3]%nat new_region_set 0 [1%nat]
                example_parsable example_view_ok Hm) as (_ & Htop & _ & Hturn).
  split; [exact example_parsable|]. split; [exact example_view_ok|]. split; [exact Hm|].
  split; [exact Htop|]. split; [exact Hne|].
  split; [exact (proj1 (proj2 (proj1 (Hturn [0%nat] 1%nat [] eq_refl) Hne)))|].
  split; [exact (proj2 (proj2 (proj1 (Hturn [0%nat] 1%nat [] eq_refl) Hne)))|].
  split; [exact He|].
  exact (proj2 (proj2 (Hturn [] 0%nat [1%nat] eq_refl) He)).
Defined.

Lemma prepare_makes_active_and_resets_marks_witness :
  (1 < num_regions heap_with_trash)%nat
  ∧ is_active (rgn (ensure_heap_active heap_with_trash) 1) = true
  ∧ live_data (rgn (prepare_regions heap_with_trash) 1) = 0.
Proof.
  assert (Hi : (1 < num_regions heap_with_trash)%nat) by (vm_compute; lia).
  split; [exact Hi|].
  destruct (prepare_makes_active_and_resets_marks heap_with_trash 1 Hi)
    as (_ & _ & _ & Hact & _ & _ & Hlive & _).
  split; [exact Hact|exact Hlive].
Defined.

Lemma planner_is_first_writer_witness :
  parsable swept ∧ self_forwarded swept
  ∧ (0 ≤ length (replicate 2 new_region_set))%nat
  ∧ slice_of swept (plan_owner gang) 0 = [] ++ 0%nat :: [1%nat]
  ∧ live_objects swept 0 = [1] ++ 7 :: []
  ∧ BrooksPointer.get_raw (mem (_heap (planning_state swept [] 0 [1]))) 7 = 7.
Proof.
  assert (Hlen : (0 ≤ length (replicate 2 new_region_set))%nat) by (vm_compute; lia).
  assert (Hs : slice_of swept (plan_owner gang) 0 = [] ++ 0%nat :: [1%nat])
    by (vm_compute; reflexivity).
  assert (Hl : live_objects swept 0 = [1] ++ 7 :: []) by (vm_compute; reflexivity).
  split; [exact example_parsable|]. split; [exact example_self_forwarded|].
  split; [exact Hlen|]. split; [exact Hs|]. split; [exact Hl|].
  exact (proj1 (proj2 (planner_is_first_writer heap (plan_owner gang)
                         (replicate 2 new_region_set) 0 [] [1%nat] 0 [1] [] 7
                         example_parsable example_self_forwarded Hlen Hs Hl))).
Defined.

Lemma example_live_object : 7 ∈ all_objects swept.
Proof. apply (bool_decide_unpack _). vm_compute. exact I. Defined.

Lemma compaction_moves_objects_witness :
  parsable swept ∧ refs_ok roots swept ∧ schedule_ok gang swept ∧ self_forwarded swept
  ∧ 7 ∈ all_objects swept
  ∧ BrooksPointer.get_raw (mem (do_it_move gang roots heap)) (new_address gang swept 7)
    = new_address gang swept 7.
Proof.
  split; [exact example_parsable|]. split; [exact example_refs_ok|].
  split; [exact example_schedule_ok|]. split; [exact example_self_forwarded|].
  split; [exact example_live_object|].
  destruct (compaction_moves_objects gang roots heap example_parsable example_refs_ok
              example_schedule_ok example_self_forwarded) as (_ & _ & Hlive).
  exact (proj2 (proj2 (Hlive 7 example_live_object))).
Defined.

Lemma references_follow_objects_witness :
  parsable swept ∧ refs_ok roots swept ∧ schedule_ok gang swept ∧ self_forwarded swept
  ∧ 50 ∈ roots
  ∧ mem (do_it_move gang roots heap) 50
    = (if decide (mem swept 50 = 0) then 0 else new_address gang swept (mem swept 50)).
Proof.
  assert (Hroot : 50 ∈ roots) by (apply (bool_decide_unpack _); vm_compute; exact I).
  split; [exact example_parsable|]. split; [exact example_refs_ok|].
  split; [exact example_schedule_ok|]. split; [exact example_self_forwarded|].
  split; [exact Hroot|].
  destruct (references_follow_objects gang roots heap example_parsable example_refs_ok
              example_schedule_ok example_self_forwarded) as (_ & _ & _ & Hr & _).
  exact (Hr 50 Hroot).
Defined.

Lemma slices_hold_no_humongous_witness :
  parsable swept ∧ refs_ok roots swept ∧ schedule_ok gang swept
  ∧ (0 < nworkers gang)%nat
  ∧ 1%nat ∈ set_regions ((plan_phase gang swept).2 !!! 0%nat)
  ∧ is_humongous (rgn swept 1) = false.
Proof.
  assert (Hw : (0 < nworkers gang)%nat) by (vm_compute; lia).
  assert (Hin : 1%nat ∈ set_regions ((plan_phase gang swept).2 !!! 0%nat))
    by (apply (bool_decide_unpack _); vm_compute; exact I).
  split; [exact example_parsable|]. split; [exact example_refs_ok|].
  split; [exact example_schedule_ok|]. split; [exact Hw|]. split; [exact Hin|].
  destruct (slices_hold_no_humongous gang roots heap example_parsable example_refs_ok
              example_schedule_ok) as (_ & _ & Hslices & _).
  exact (proj2 (Hslices 0%nat 1%nat Hw Hin)).
Defined.

Lemma post_compact_reclassifies_witness :
  (1 < num_regions moved)%nat
  ∧ is_regular (rgn moved 1) || is_cset (rgn moved 1) = true
  ∧ used (rgn moved 1) = 0
  ∧ rgn (post_compact moved) 1 = set_live_data 0 (recycle (make_trash (rgn moved 1)))
  ∧ heap_used (post_compact moved) = total_live (regions (post_compact moved)).
Proof.
  assert (Hi : (1 < num_regions moved)%nat) by (vm_compute; lia).
  assert (Hs : is_regular (rgn moved 1) || is_cset (rgn moved 1) = true)
    by (vm_compute; reflexivity).
  assert (Hu : used (rgn moved 1) = 0) by (vm_compute; reflexivity).
  split; [exact Hi|]. split; [exact Hs|]. split; [exact Hu|].
  destruct (post_compact_reclassifies moved 1 0 Hi)
    as (_ & _ & Htrash & _ & _ & _ & _ & _ & Hfinal & _ & Hused & _).
  split; [|exact Hused]. rewrite Hfinal. exact (Htrash Hs Hu).
Defined.

Lemma humongous_sweep_reclaims_witness :
  (2 < num_regions heap_dead_humongous)%nat
  ∧ is_humongous_start (rgn heap_dead_humongous 2) = true
  ∧ is_marked_complete heap_dead_humongous
      (bottom (rgn heap_dead_humongous 2) + BrooksPointer.word_size) = false
  ∧ is_trash (rgn (reclaim_humongous heap_dead_humongous) 3) = true.
Proof.
  assert (Hi : (2 < num_regions heap_dead_humongous)%nat) by (vm_compute; lia).
  assert (Hs : is_humongous_start (rgn heap_dead_humongous 2) = true)
    by (vm_compute; reflexivity).
  assert (Hm : is_marked_complete heap_dead_humongous
                 (bottom (rgn heap_dead_humongous 2) + BrooksPointer.word_size) = false)
    by (vm_compute; reflexivity).
  split; [exact Hi|]. split; [exact Hs|]. split; [exact Hm|].
  destruct (humongous_sweep_reclaims heap_dead_humongous 2 Hi Hs) as (_ & Hdead & _).
  refine (proj2 (Hdead Hm 3%nat _)). vm_compute. lia.
Defined.
End OnTheSmallHeap.


(** * Further properties of the collector *)

(** ** The slices and the region sets of phase 2 *)

Section Slices.
Context `{!KlassModel}.
Import ShenandoahPrepareForCompactionObjectClosure.
Import ShenandoahPrepareForCompactionTask.

Lemma work_same_shape h view slice : same_shape h (work h view slice).1.
Proof.
  rewrite work_fold. destruct (movable h view) as [|r0 Ms]; [apply same_shape_refl|].
  cbn [fst]. rewrite mark_remaining_empty_fold.
  eapply same_shape_trans; [|apply mark_empty_same_shape].
  unfold finish_region. cbn [_heap].
  eapply same_shape_trans; [|apply same_shape_upd_new_top].
  unfold planned. apply (plan_regions_same_shape (r0 :: Ms) (new h new_region_set r0)).
Qed.

Lemma work_slice h view slice :
  set_regions (work h view slice).2 = set_regions slice ++ movable h view
  ∧ current_index (work h view slice).2 = current_index slice.
Proof.
  rewrite work_fold. destruct (movable h view) as [|r0 Ms].
  - by rewrite app_nil_r.
  - cbn [snd]. apply set_regions_add_regions.
Qed.

(** The slices after the first [k] workers have planned, on any heap. *)
Lemma prepare_slices owner k h slices :
  (k ≤ length slices)%nat →
  let s := prepare_for_compaction owner k (h, slices) in
  same_shape h s.1
  ∧ length s.2 = length slices
  ∧ (∀ w, (w < k)%nat →
       set_regions (s.2 !!! w) = set_regions (slices !!! w) ++ slice_of h owner w
       ∧ current_index (s.2 !!! w) = current_index (slices !!! w))
  ∧ (∀ w, (k ≤ w)%nat → s.2 !!! w = slices !!! w).
Proof.
  induction k as [|k IH]; intros Hk; cbn zeta.
  - split; [apply same_shape_refl|]. split; [done|]. split; [lia|done].
  - destruct IH as (Hs & Hlen & Hdone & Htodo); [lia|]. cbn zeta in *.
    rewrite prepare_for_compaction_S.
    set (s := prepare_for_compaction owner k (h, slices)) in *.
    pose proof (work_same_shape s.1 (claims_of owner (num_regions s.1) k) (s.2 !!! k)) as Hw.
    pose proof (work_slice s.1 (claims_of owner (num_regions s.1) k) (s.2 !!! k)) as [Hr Hc].
    destruct (work s.1 _ _) as [h' slice'] eqn:Ew. cbn [fst snd] in *.
    split; [by eapply same_shape_trans|]. split; [by rewrite length_insert|].
    split.
    + intros w Hwk. destruct (decide (w = k)) as [->|Hne].
      * rewrite list_lookup_total_insert_eq by lia. rewrite Hr, Hc.
        rewrite (Htodo k) by lia. split; [|done]. f_equal.
        unfold slice_of. rewrite (same_shape_num_regions _ _ Hs).
        by apply movable_same_shape.
      * rewrite list_lookup_total_insert_ne by done. apply Hdone. lia.
    + intros w Hwk. rewrite list_lookup_total_insert_ne by lia. apply Htodo. lia.
Qed.

(** X1. Whatever the heap, after phase 2 the slice of a worker of the gang
    holds exactly the regions it claimed that may be moved, in the order
    of the region table; so every region that may be moved is in one
    slice and in no other, the slices of workers that did not run are
    empty, and no slice holds more regions than the heap has, which is
    the capacity the slices are created with. *)
Theorem slices_partition_movable (sch : Schedule) (h : ShenandoahHeap) :
  (nworkers sch ≤ max_workers sch)%nat →
  let slices := (plan_phase sch h).2 in
  length slices = max_workers sch
  ∧ (∀ w r, (w < nworkers sch)%nat →
       r ∈ set_regions (slices !!! w)
       ↔ (r < num_regions h)%nat ∧ plan_owner sch r = w
         ∧ is_move_allowed (rgn h r) = true)
  ∧ (∀ w, (w < nworkers sch)%nat → StronglySorted Nat.lt (set_regions (slices !!! w)))
  ∧ (∀ w, (nworkers sch ≤ w)%nat → set_regions (slices !!! w) = [])
  ∧ (∀ w, (length (set_regions (slices !!! w)) ≤ num_regions h)%nat)
  ∧ (∀ w, current_index (slices !!! w) = 0%nat).
Proof.
  intros Hle slices.
  destruct (prepare_slices (plan_owner sch) (nworkers sch) h
              (replicate (max_workers sch) new_region_set))
    as (_ & Hlen & Hdone & Htodo); [by rewrite length_replicate|].
  cbn zeta in *. fold (plan_phase sch h) in Hlen, Hdone, Htodo. fold slices in Hlen, Hdone, Htodo.
  assert (Hnew : ∀ w, replicate (max_workers sch) new_region_set !!! w = new_region_set).
  { intros w. destruct (decide (w < max_workers sch)%nat).
    - by apply lookup_total_replicate_2.
    - rewrite list_lookup_total_alt, lookup_ge_None_2; [done|]. rewrite length_replicate. lia. }
  assert (Hslice : ∀ w, (w < nworkers sch)%nat →
            set_regions (slices !!! w) = slice_of h (plan_owner sch) w).
  { intros w Hw. destruct (Hdone w Hw) as [-> _]. by rewrite Hnew. }
  split; [by rewrite Hlen, length_replicate|]. split; [|split; [|split; [|split]]].
  - intros w r Hw. rewrite (Hslice w Hw). apply slice_of_spec.
  - intros w Hw. rewrite (Hslice w Hw). unfold slice_of, movable, claims_of.
    apply StronglySorted_filter, StronglySorted_filter, StronglySorted_seq.
  - intros w Hw. by rewrite (Htodo w Hw), Hnew.
  - intros w. destruct (decide (w < nworkers sch)%nat) as [Hw|Hw].
    + rewrite (Hslice w Hw). unfold slice_of, movable, claims_of.
      etrans; [apply length_filter|]. etrans; [apply length_filter|].
      by rewrite length_seq.
    + rewrite (Htodo w) by lia. rewrite Hnew. cbn. lia.
  - intros w. destruct (decide (w < nworkers sch)%nat) as [Hw|Hw].
    + destruct (Hdone w Hw) as [_ ->]. by rewrite Hnew.
    + rewrite (Htodo w) by lia. by rewrite Hnew.
Qed.

Lemma current_then_next_cursor s : cursor_ok s → cursor_ok (current_then_next s).2.
Proof.
  unfold cursor_ok, current_then_next.
  destruct (set_regions s !! current_index s) as [x|] eqn:E; [|done].
  intros _. cbn. by apply lookup_lt_Some in E.
Qed.

Lemma do_object_cursor p cl :
  cursor_ok (_empty_regions cl) → cursor_ok (_empty_regions (do_object p cl)).
Proof.
  intros Hc. unfold do_object. cbn [_empty_regions]. case_decide; [|done].
  destruct (advance_to_region_spec cl) as (_ & -> & _). by apply current_then_next_cursor.
Qed.

Lemma do_objects_cursor L cl :
  cursor_ok (_empty_regions cl) →
  cursor_ok (_empty_regions (foldl (λ s p, do_object p s) cl L)).
Proof.
  revert cl. induction L as [|p L IH]; intros cl Hc; [done|].
  cbn. apply IH. by apply do_object_cursor.
Qed.

Lemma plan_region_empty_regions f cl :
  cursor_ok (_empty_regions cl) →
  cursor_ok (_empty_regions (plan_region f cl))
  ∧ ∃ added, added `sublist_of` [f]
             ∧ set_regions (_empty_regions (plan_region f cl))
               = set_regions (_empty_regions cl) ++ added.
Proof.
  intros Hc. unfold plan_region, marked_object_iterate.
  set (cl0 := set_from_region f cl).
  set (cl1 := foldl (λ s p, do_object p s) cl0 (live_objects (_heap cl0) f)).
  assert (Hc1 : cursor_ok (_empty_regions cl1)) by (by apply do_objects_cursor).
  assert (Hs1 : set_regions (_empty_regions cl1) = set_regions (_empty_regions cl)).
  { unfold cl1. by rewrite do_objects_set_regions. }
  destruct (is_compact_same_region cl1); cbn [negb _empty_regions].
  - split; [done|]. exists []. split; [apply sublist_nil_l|]. by rewrite app_nil_r.
  - split.
    + unfold cursor_ok, add_region in *. cbn. rewrite length_app. cbn. lia.
    + exists [f]. split; [done|]. unfold add_region. cbn. by rewrite Hs1.
Qed.

Lemma plan_regions_empty_regions Ms cl :
  cursor_ok (_empty_regions cl) →
  let cl' := foldl (λ cl r, plan_region r cl) cl Ms in
  cursor_ok (_empty_regions cl')
  ∧ ∃ added, added `sublist_of` Ms
             ∧ set_regions (_empty_regions cl') = set_regions (_empty_regions cl) ++ added.
Proof.
  revert cl. induction Ms as [|f Ms IH]; intros cl Hc; cbn zeta.
  - split; [done|]. exists []. split; [done|]. by rewrite app_nil_r.
  - cbn [foldl]. destruct (plan_region_empty_regions f cl Hc) as (Hc1 & a1 & Ha1 & E1).
    destruct (IH _ Hc1) as (Hc2 & a2 & Ha2 & E2). split; [done|].
    exists (a1 ++ a2). split.
    + by apply (sublist_app a1 [f] a2 Ms).
    + cbn zeta in E2. by rewrite E2, E1, <- app_assoc.
Qed.

(** X2. The set of empty regions a worker keeps in phase 2 is created
    with room for [num_regions] regions. Whatever the heap, when the
    worker has walked the regions [r0 :: Ms] it claimed, the set holds
    regions among these only, each once and in the order they were
    claimed, so it holds no more regions than the heap has, and its
    cursor has not passed its end. *)
Theorem empty_regions_within_capacity (h : ShenandoahHeap) (view : list nat)
    (r0 : nat) (Ms : list nat) :
  view_ok h view → movable h view = r0 :: Ms →
  let empty_regions := _empty_regions (planned h r0 Ms) in
  set_regions empty_regions `sublist_of` (r0 :: Ms)
  ∧ StronglySorted Nat.lt (set_regions empty_regions)
  ∧ (length (set_regions empty_regions) ≤ num_regions h)%nat
  ∧ (current_index empty_regions ≤ length (set_regions empty_regions))%nat.
Proof.
  intros Hview HM empty_regions.
  destruct (plan_regions_empty_regions (r0 :: Ms) (new h new_region_set r0))
    as (Hc & added & Hsub & E); [unfold cursor_ok; cbn; lia|].
  change (foldl _ _ _) with (planned h r0 Ms) in Hc, E. cbn zeta in E.
  fold empty_regions in Hc, E. cbn in E. subst added.
  destruct (movable_ok h view Hview) as (Hsorted & Hlt & _). rewrite HM in Hsorted, Hlt.
  assert (Hmv : (length (r0 :: Ms) ≤ num_regions h)%nat).
  { rewrite <- HM. unfold movable. etrans; [apply length_filter|].
    destruct Hview as [Hss Hall].
    assert (Hnd : NoDup view).
    { clear -Hss. induction Hss as [|x l _ IH Hx]; constructor; [|done].
      intros Hin. rewrite Forall_forall in Hx. specialize (Hx x Hin). lia. }
    apply Nat.le_trans with (length (seq 0 (num_regions h))); [|by rewrite length_seq].
    apply submseteq_length.
    apply NoDup_submseteq; [done|]. intros x Hx. rewrite Forall_forall in Hall.
    apply elem_of_seq. specialize (Hall x Hx). lia. }
  split; [done|]. split; [|split; [|done]].
  - clear -Hsub Hsorted. revert Hsorted.
    induction Hsub as [|x l1 l2 H12 IH|x l1 l2 _ IH]; intros Hs; [constructor| |].
    + apply StronglySorted_inv in Hs as [Hs Hx]. constructor; [by apply IH|].
      rewrite Forall_forall in Hx |- *. intros y Hy. apply Hx.
      by apply (elem_of_sublist l1 l2).
    + apply StronglySorted_inv in Hs as [Hs _]. by apply IH.
  - etrans; [by apply sublist_length|done].
Qed.

(** X3. A worker that claims no region that may be moved returns at once:
    the heap and its slice are as they were. *)
Theorem work_without_movable_region (h : ShenandoahHeap) (view : list nat)
    (slice : ShenandoahHeapRegionSet) :
  Forall (λ r, is_move_allowed (rgn h r) = false) view →
  work h view slice = (h, slice).
Proof.
  intros Hn. rewrite work_fold.
  assert (E : movable h view = []).
  { unfold movable. induction Hn as [|r view Hr _ IH]; [done|].
    rewrite filter_cons_False; [done|]. by rewrite Hr. }
  by rewrite E.
Qed.
End Slices.


(** ** What each phase writes, and what it leaves alone *)

Section SlideOrder.
Local Abbreviation ws := BrooksPointer.word_size.

(** Two moves of a sliding plan: the one planned first lies below the
    other, source and target. *)
Lemma slide_apart slo tlo mv p1 t1 s1 p2 t2 s2 :
  slide slo tlo mv → (p1, t1, s1) ∈ mv → (p2, t2, s2) ∈ mv → p1 ≠ p2 →
  (p1 + s1 + ws ≤ p2 ∧ t1 + s1 + ws ≤ t2) ∨ (p2 + s2 + ws ≤ p1 ∧ t2 + s2 + ws ≤ t1).
Proof.
  induction 1 as [|slo tlo mv p t s slo' tlo' Hs IH Hp Ht Htp Hpos Hps Hts Hfr];
    [by intros ?%elem_of_nil|].
  intros [Ha|Ha]%elem_of_app [Hb|Hb]%elem_of_app Hne.
  - by apply IH.
  - apply list_elem_of_singleton in Hb as [= -> -> ->]. left.
    destruct (slide_bounds _ _ _ _ _ _ Hs Ha) as (? & ? & _). lia.
  - apply list_elem_of_singleton in Ha as [= -> -> ->]. right.
    destruct (slide_bounds _ _ _ _ _ _ Hs Hb) as (? & ? & _). lia.
  - apply list_elem_of_singleton in Ha as [= -> -> ->].
    apply list_elem_of_singleton in Hb as [= -> -> ->]. done.
Qed.
End SlideOrder.

Section Frames.
Context `{!KlassModel}.
Variables (h : ShenandoahHeap) (sch : Schedule) (rp : list HeapWord).
Hypothesis Hpars : parsable h.
Hypothesis Hrefs : refs_ok rp h.
Hypothesis Hsched : schedule_ok sch h.
Hypothesis Hself : self_forwarded h.
Local Abbreviation ws := BrooksPointer.word_size.
Local Abbreviation size := (obj_size (mem h)).
Local Abbreviation h2 := (plan_phase sch h).1.
Local Abbreviation h3 := (adjust_phase sch rp h).
Local Abbreviation h4 := (move_phase sch rp h).
Local Abbreviation new := (new_address sch h).

(** X4. Phase 2 writes the planned top of regions and the forwarding
    words of the live objects of the regions that may be moved, and
    nothing else: every other field of every region, the mark bitmap,
    the class word of every live object, the forwarding word of every
    live object of a region that may not be moved, and every other heap
    word are as before. *)
Theorem planning_writes_forwarding_words_only :
  num_regions h2 = num_regions h
  ∧ (∀ i, set_new_top 0 (rgn h2 i) = set_new_top 0 (rgn h i))
  ∧ complete_mark_bit_map h2 = complete_mark_bit_map h
  ∧ (∀ a, (∀ i p, (i < num_regions h)%nat → is_move_allowed (rgn h i) = true →
                  p ∈ live_objects h i → a ≠ p + BrooksPointer.word_offset) →
          mem h2 a = mem h a)
  ∧ (∀ p, p ∈ all_objects h → mem h2 p = mem h p)
  ∧ (∀ i q, (i < num_regions h)%nat → is_move_allowed (rgn h i) = false →
            q ∈ live_objects h i →
            BrooksPointer.get_raw (mem h2) q = BrooksPointer.get_raw (mem h) q).
Proof.
  pose proof (plan_shape h sch Hpars Hsched) as Hs.
  split; [by apply same_shape_num_regions|]. split; [intros i; by apply same_shape_rgn|].
  split; [by destruct Hs|]. split; [apply (plan_frame h sch Hpars Hsched)|].
  split; [apply (plan_klass h sch Hpars Hsched)|apply (plan_immovable h sch Hpars Hsched)].
Qed.

(** X5. Phase 3 writes heap words only, and of these only the root slots
    and the reference fields of live objects: the region table, the mark
    bitmap and every other word, the class word and the forwarding word
    of every live object among them, are as phase 2 left them. *)
Theorem adjusting_writes_reference_slots_only :
  (∃ m, h3 = with_mem m h2)
  ∧ (∀ a, a ∉ rp →
          (∀ p off, p ∈ all_objects h → off ∈ klass_oop_offsets (mem h p) → a ≠ p + off) →
          mem h3 a = mem h2 a)
  ∧ (∀ p, p ∈ all_objects h →
          mem h3 p = mem h p
          ∧ BrooksPointer.get_raw (mem h3) p = BrooksPointer.get_raw (mem h2) p).
Proof.
  split; [|split].
  - unfold adjust_phase. rewrite phase3_eq. eauto.
  - intros a Hroot Hslot. apply (adjust_other h sch rp Hpars Hrefs Hsched).
    intros [?|(p & Hp & (off & Hoff & ->)%elem_of_slots_of)]%elem_of_adjusted_slots;
      [done| |done..].
    by apply (Hslot p off).
  - intros p Hp. split; [by apply adjust_klass|].
    by rewrite (adjust_fwd h sch rp Hpars Hrefs Hsched p Hp).
Qed.

(** The moves of the worker that owns region [i]. *)
Lemma owner_in_gang i : (i < num_regions h)%nat → (plan_owner sch i < nworkers sch)%nat.
Proof.
  intros Hi. destruct Hsched as [_ Ho]. rewrite Forall_forall in Ho.
  by destruct (Ho i ltac:(apply elem_of_seq; lia)).
Qed.

Lemma move_of_object i p :
  (i < num_regions h)%nat → is_move_allowed (rgn h i) = true → p ∈ live_objects h i →
  (p, new p, size p) ∈ moves_of h sch (plan_owner sch i).
Proof. intros Hi Hm Hp. apply elem_of_moves_of. eauto 10. Qed.

(** X6. An object of a region that may be moved slides down, to a region
    of the slice of the worker that claimed its region, and never to a
    region above its own: its new extent, forwarding word included, lies
    inside that region. *)
Theorem objects_slide_down_within_slice (i : nat) (p : HeapWord) :
  (i < num_regions h)%nat → is_move_allowed (rgn h i) = true → p ∈ live_objects h i →
  new p ≤ p
  ∧ ∃ r, (r ≤ i)%nat ∧ plan_owner sch r = plan_owner sch i
         ∧ is_move_allowed (rgn h r) = true
         ∧ bottom (rgn h r) + ws ≤ new p ∧ new p + size p ≤ end_ (rgn h r).
Proof.
  intros Hi Hm Hp.
  pose proof (new_address_movable sch h i p Hpars Hsched Hi Hm Hp) as Hle.
  split; [done|].
  destruct (move_extents h sch Hpars Hsched _ _ _ _ (owner_in_gang i Hi)
              (move_of_object i p Hi Hm Hp)) as [(r & Hr & Ho & Hmr & Hlo & Hhi) _].
  exists r. repeat split; try done.
  destruct (decide (r ≤ i)%nat) as [|Hgt]; [done|].
  pose proof Hpars as (_ & Hg & _).
  pose proof (region_below h i r Hg ltac:(lia) Hr).
  destruct (movable_obj_in_region h Hpars i p Hi Hm Hp).
  destruct (obj_in_heap h Hpars p (live_in_all h i p Hi Hp)) as (_ & ? & _).
  unfold ws in *. lia.
Qed.

Lemma region_of_object p :
  p ∈ all_objects h → ∃ i, (i < num_regions h)%nat ∧ p ∈ live_objects h i.
Proof. by intros ?%elem_of_all_objects. Qed.

Lemma target_in_movable_region i p :
  (i < num_regions h)%nat → is_move_allowed (rgn h i) = true → p ∈ live_objects h i →
  ∃ r, (r < num_regions h)%nat ∧ is_move_allowed (rgn h r) = true
       ∧ bottom (rgn h r) + ws ≤ new p ∧ new p + size p ≤ end_ (rgn h r).
Proof.
  intros Hi Hm Hp.
  destruct (move_extents h sch Hpars Hsched _ _ _ _ (owner_in_gang i Hi)
              (move_of_object i p Hi Hm Hp)) as [(r & Hr & Ho & Hmr & Hlo & Hhi) _].
  eauto 10.
Qed.

Lemma new_extents_apart p q :
  p ∈ all_objects h → q ∈ all_objects h → p ≠ q →
  new p + size p + ws ≤ new q ∨ new q + size q + ws ≤ new p.
Proof.
  intros Hp Hq Hne.
  destruct (region_of_object p Hp) as (i & Hi & Hpi).
  destruct (region_of_object q Hq) as (j & Hj & Hqj).
  destruct (is_move_allowed (rgn h i)) eqn:Hmi, (is_move_allowed (rgn h j)) eqn:Hmj.
  - pose proof (move_of_object i p Hi Hmi Hpi) as Hx.
    pose proof (move_of_object j q Hj Hmj Hqj) as Hy.
    destruct (decide (plan_owner sch i = plan_owner sch j)) as [E|Hw].
    + rewrite <- E in Hy.
      destruct (plan_moves h sch Hpars Hsched _ (owner_in_gang i Hi)) as [(slo & tlo & Hsl) _].
      destruct (slide_apart _ _ _ _ _ _ _ _ _ Hsl Hx Hy Hne) as [[_ ?]|[_ ?]]; lia.
    + pose proof (moves_apart h sch Hpars Hsched _ _ _ _ (owner_in_gang i Hi)
                    (owner_in_gang j Hj) Hw Hx Hy) as Ha.
      unfold apart, BrooksPointer.word_size in *. lia.
  - rewrite (new_address_immovable sch h rp j q) by done.
    destruct (target_in_movable_region i p Hi Hmi Hpi) as (r & Hr & Hmr & ? & ?).
    pose proof (immovable_obj_misses h Hpars j q r Hj Hmj Hqj Hr Hmr) as Hmiss.
    unfold misses_region, BrooksPointer.word_size in *. lia.
  - rewrite (new_address_immovable sch h rp i p) by done.
    destruct (target_in_movable_region j q Hj Hmj Hqj) as (r & Hr & Hmr & ? & ?).
    pose proof (immovable_obj_misses h Hpars i p r Hi Hmi Hpi Hr Hmr) as Hmiss.
    unfold misses_region, BrooksPointer.word_size in *. lia.
  - rewrite (new_address_immovable sch h rp i p), (new_address_immovable sch h rp j q)
      by done.
    by apply parsable_disjoint.
Qed.

(** X7. Compaction keeps the live objects apart and in order: the new
    extents of two live objects, forwarding words included, do not
    overlap, wherever the two lived; and of two objects that one worker
    moves, the one at the lower address stays the lower one. *)
Theorem moved_objects_do_not_overlap (p q : HeapWord) :
  p ∈ all_objects h → q ∈ all_objects h → p ≠ q →
  (new p + size p + ws ≤ new q ∨ new q + size q + ws ≤ new p)
  ∧ (∀ i j, (i < num_regions h)%nat → (j < num_regions h)%nat →
            is_move_allowed (rgn h i) = true → is_move_allowed (rgn h j) = true →
            p ∈ live_objects h i → q ∈ live_objects h j →
            plan_owner sch i = plan_owner sch j → p < q → new p < new q).
Proof.
  intros Hp Hq Hne. split; [by apply new_extents_apart|].
  intros i j Hi Hj Hmi Hmj Hpi Hqj E Hlt.
  pose proof (move_of_object i p Hi Hmi Hpi) as Hx.
  pose proof (move_of_object j q Hj Hmj Hqj) as Hy. rewrite <- E in Hy.
  destruct (plan_moves h sch Hpars Hsched _ (owner_in_gang i Hi)) as [(slo & tlo & Hsl) _].
  destruct (obj_in_heap h Hpars p Hp) as (_ & ? & _).
  destruct (obj_in_heap h Hpars q Hq) as (_ & ? & _).
  destruct (slide_apart _ _ _ _ _ _ _ _ _ Hsl Hx Hy Hne) as [[? ?]|[? ?]];
    unfold BrooksPointer.word_size in *; lia.
Qed.

Lemma body_word_kept p j :
  p ∈ all_objects h → 0 ≤ j < size p → j ∉ klass_oop_offsets (mem h p) →
  mem h3 (p + j) = mem h (p + j).
Proof.
  intros Hp Hj Hoff.
  rewrite (adjust_other h sch rp Hpars Hrefs Hsched).
  - apply (plan_frame h sch Hpars Hsched). intros i q Hi Hm Hq.
    pose proof (live_in_all h i q Hi Hq) as Hqa.
    destruct (obj_in_heap h Hpars q Hqa) as (_ & ? & _).
    unfold BrooksPointer.word_offset.
    destruct (decide (p = q)) as [->|Hne]; [lia|].
    destruct (parsable_disjoint h p q Hpars Hp Hqa Hne);
      unfold BrooksPointer.word_size in *; lia.
  - intros [Hr|(q & Hq & Ha)]%elem_of_adjusted_slots; [| |done..].
    + apply (root_not_in_obj h rp Hpars Hrefs _ p (p + j) Hr Hp); [|done].
      unfold BrooksPointer.word_size. lia.
    + pose proof (slot_in_obj h rp Hrefs q _ Hq Ha).
      apply elem_of_slots_of in Ha as (off & Ho & E).
      destruct (decide (p = q)) as [->|Hne].
      * assert (j = off) as -> by lia. done.
      * destruct (obj_in_heap h Hpars q Hq) as (_ & ? & _).
        destruct (parsable_disjoint h p q Hpars Hp Hq Hne);
          unfold BrooksPointer.word_size in *; lia.
Qed.

(** X8. The collection keeps what objects hold: every word of a live
    object that is not a reference field, the class word among them, is
    found at the same offset of the object's new address when the
    collection is over. *)
Theorem object_payload_survives (p : HeapWord) (j : Z) :
  p ∈ all_objects h → 0 ≤ j < size p → j ∉ klass_oop_offsets (mem h p) →
  mem (post_compact h4) (new p + j) = mem h (p + j).
Proof.
  intros Hp Hj Hoff. rewrite mem_post_compact.
  destruct (object_after_move sch h rp p Hpars Hrefs Hsched Hself Hp) as [_ Hb].
  rewrite Hb by done. by apply body_word_kept.
Qed.

(** X9. An object of a region that may not be moved, pinned or humongous,
    stays where it is: its planned address is its own, its forwarding
    word still points to it after phase 4, and its region is as it was
    but for the planned top. *)
Theorem immovable_objects_stay (i : nat) (q : HeapWord) :
  (i < num_regions h)%nat → is_move_allowed (rgn h i) = false → q ∈ live_objects h i →
  new q = q
  ∧ BrooksPointer.get_raw (mem h4) q = q
  ∧ mem h4 q = mem h q
  ∧ set_new_top 0 (rgn h4 i) = set_new_top 0 (rgn h i).
Proof.
  intros Hi Hm Hq. pose proof (live_in_all h i q Hi Hq) as Hqa.
  pose proof (new_address_immovable sch h rp i q Hpars Hrefs Hsched Hself Hi Hm Hq) as Hn.
  destruct (object_after_move sch h rp q Hpars Hrefs Hsched Hself Hqa) as [Hf Hb].
  destruct (obj_in_heap h Hpars q Hqa) as (_ & Hpos & _).
  rewrite Hn in Hf, Hb. split; [done|]. split; [done|]. split.
  - specialize (Hb 0 ltac:(lia)). rewrite !Z.add_0_r in Hb. rewrite Hb.
    by apply adjust_klass.
  - destruct (move_same_but_tops h sch rp Hpars Hsched) as (_ & _ & Ht).
    rewrite <- (same_shape_rgn h h3 i (adjust_shape h sch rp Hpars Hrefs Hsched)).
    rewrite Ht; [done|].
    intros (w & Hr & Hw%elem_of_seq)%list_elem_of_bind.
    rewrite (plan_slices h sch Hpars Hsched) in Hr by lia.
    unfold slice_of, movable in Hr. apply list_elem_of_filter in Hr as [Hr _].
    congruence.
Qed.
End Frames.


(** ** The region table before planning and after compaction *)

Section Activation.
Import ShenandoahEnsureHeapActiveClosure.

Lemma ensure_active_do_with i h :
  heap_region_do i h = with_regions (regions (heap_region_do i h)) h.
Proof.
  unfold heap_region_do, upd_region. destruct h as [rs m bm nt ct cs fr u].
  repeat case_match; done.
Qed.

Lemma ensure_heap_active_eq h :
  ensure_heap_active h = with_regions (ensure_active_region <$> regions h) h.
Proof.
  rewrite <- regions_ensure_heap_active.
  unfold ensure_heap_active, heap_region_iterate.
  generalize (seq 0 (num_regions h)). intros l.
  induction l as [|i l IH] using rev_ind; [by destruct h|].
  rewrite foldl_snoc, ensure_active_do_with, IH. done.
Qed.

Lemma ensure_active_region_id r : is_active r = true → ensure_active_region r = r.
Proof. destruct r as [b t e n s l c]. by destruct s. Qed.

Lemma ensure_active_region_twice r :
  ensure_active_region (ensure_active_region r) = ensure_active_region r.
Proof. apply ensure_active_region_id, ensure_active_region_active. Qed.

Lemma with_regions_id h : with_regions (regions h) h = h.
Proof. by destruct h. Qed.

(** X10. Making the heap active wakes sleeping regions and does nothing
    else: heap words, bitmap, free set and counters are not touched, a
    region that is active is left as it is and no region's bounds change;
    on a heap whose regions are all active the pass changes nothing, and
    a second pass never changes anything. *)
Theorem activation_wakes_sleeping_regions_only (h : ShenandoahHeap) :
  let h' := ensure_heap_active h in
  h' = with_regions (regions h') h
  ∧ num_regions h' = num_regions h
  ∧ (∀ i, (i < num_regions h)%nat →
          is_active (rgn h' i) = true
          ∧ bottom (rgn h' i) = bottom (rgn h i)
          ∧ end_ (rgn h' i) = end_ (rgn h i)
          ∧ (is_active (rgn h i) = true → rgn h' i = rgn h i))
  ∧ ((∀ i, (i < num_regions h)%nat → is_active (rgn h i) = true) → h' = h)
  ∧ ensure_heap_active h' = h'.
Proof.
  intros h'. unfold h'.
  assert (Hn : num_regions (ensure_heap_active h) = num_regions h).
  { unfold num_regions. by rewrite regions_ensure_heap_active, length_fmap. }
  split; [|split; [done|split; [|split]]].
  - rewrite ensure_heap_active_eq at 1. by rewrite regions_ensure_heap_active.
  - intros i Hi. rewrite rgn_ensure_heap_active by done.
    split; [apply ensure_active_region_active|].
    split; [|split].
    + destruct (rgn h i) as [b t e n s l c]. by destruct s.
    + destruct (rgn h i) as [b t e n s l c]. by destruct s.
    + apply ensure_active_region_id.
  - intros Hact. rewrite ensure_heap_active_eq.
    assert (E : ensure_active_region <$> regions h = regions h).
    { apply list_eq. intros i. rewrite list_lookup_fmap.
      destruct (regions h !! i) as [r|] eqn:Hr; [|done]. cbn. f_equal.
      apply ensure_active_region_id. rewrite <- (rgn_lookup h i r Hr).
      apply Hact. by apply lookup_lt_Some in Hr. }
    rewrite E. apply with_regions_id.
  - rewrite (ensure_heap_active_eq (ensure_heap_active h)).
    rewrite regions_ensure_heap_active, <- list_fmap_compose.
    assert (E : ensure_active_region ∘ ensure_active_region <$> regions h
                = ensure_active_region <$> regions h).
    { apply list_fmap_ext. intros i r _. apply ensure_active_region_twice. }
    rewrite E, ensure_heap_active_eq. done.
Qed.
End Activation.

Section SweepAndActivation.
Import ShenandoahMCReclaimHumongousRegionClosure.

Lemma reclaimed_humongous h k j :
  reclaimed h k j → is_humongous (rgn h j) = true ∧ (j < num_regions h)%nat.
Proof.
  intros (i & _ & Hd & Hj)%reclaimed_iff.
  unfold dead_humongous_start in Hd. apply andb_true_iff in Hd as [Hs _].
  destruct (decide (j = i)) as [->|Hne].
  - split; [unfold is_humongous; by rewrite Hs|].
    destruct (decide (i < num_regions h)%nat) as [|Hge]; [done|].
    unfold rgn in Hs. rewrite list_lookup_total_alt, lookup_ge_None_2 in Hs; [done|].
    unfold num_regions in Hge. lia.
  - destruct (continuation_run_spec (drop (S i) (regions h)) (j - S i)) as (r & Hr & Hc).
    { unfold humongous_extent in Hj. lia. }
    rewrite lookup_drop in Hr. replace (S i + (j - S i))%nat with j in Hr by lia.
    split.
    + rewrite (rgn_lookup h j r Hr). unfold is_humongous. rewrite Hc. apply orb_true_r.
    + by apply lookup_lt_Some in Hr.
Qed.

(** X11. The start of phase 2, the humongous sweep followed by the
    activation: every region of a humongous object whose head is not
    marked ends as an empty regular region that planning may slide data
    into; a region that is not humongous is not touched by the sweep, and
    on a heap of active regions every region outside the dead humongous
    objects is as it was. When no humongous object is dead the sweep
    returns the heap it was given. *)
Theorem dead_humongous_storage_is_reused (h : ShenandoahHeap) :
  let h' := reclaim_humongous h in
  let hp := ensure_heap_active h' in
  (∀ i j, dead_humongous_start h i = true → (i ≤ j ≤ i + humongous_extent h i)%nat →
          (j < num_regions h)%nat
          ∧ rgn hp j = set_state regular (clear_live_data (set_top (bottom (rgn h j)) (rgn h j)))
          ∧ is_move_allowed (rgn hp j) = true
          ∧ used (rgn hp j) = 0)
  ∧ (∀ j, is_humongous (rgn h j) = false → rgn h' j = rgn h j)
  ∧ (∀ j, (j < num_regions h)%nat → is_active (rgn h j) = true →
          (∀ i, dead_humongous_start h i = true →
                ¬ (i ≤ j ≤ i + humongous_extent h i)%nat) →
          rgn hp j = rgn h j)
  ∧ ((∀ i, (i < num_regions h)%nat → dead_humongous_start h i = false) → h' = h).
Proof.
  intros h' hp.
  destruct (sweep_inv (num_regions h) h ltac:(done)) as (Hn & Hb & Hr).
  cbn zeta in Hn, Hb, Hr. fold (reclaim_humongous h) in Hn, Hb, Hr. fold h' in Hn, Hb, Hr.
  assert (Hin : ∀ i, dead_humongous_start h i = true → (i < num_regions h)%nat).
  { intros i Hd. destruct (decide (i < num_regions h)%nat) as [|Hge]; [done|].
    unfold dead_humongous_start in Hd. apply andb_true_iff in Hd as [Hs _].
    unfold rgn in Hs. rewrite list_lookup_total_alt, lookup_ge_None_2 in Hs; [done|].
    unfold num_regions in Hge. lia. }
  split; [|split; [|split]].
  - intros i j Hd Hj.
    assert (Hrec : reclaimed h (num_regions h) j).
    { apply reclaimed_iff. exists i. split; [by apply Hin|done]. }
    destruct (reclaimed_humongous _ _ _ Hrec) as [_ Hjn]. split; [done|].
    assert (E : rgn hp j
                = set_state regular (clear_live_data (set_top (bottom (rgn h j)) (rgn h j)))).
    { unfold hp. rewrite rgn_ensure_heap_active by lia.
      rewrite Hr, decide_True by done.
      destruct (rgn h j) as [b t e n s l c]. done. }
    rewrite E. split; [done|]. split; [done|].
    unfold used. cbn. lia.
  - intros j Hh. rewrite Hr, decide_False; [done|].
    intros [Hh' _]%reclaimed_humongous. congruence.
  - intros j Hj Hact Hout. unfold hp. rewrite rgn_ensure_heap_active by lia.
    rewrite Hr, decide_False.
    + by apply ensure_active_region_id.
    + intros (i & _ & Hd & Hext)%reclaimed_iff. by apply (Hout i).
  - intros Hnone. unfold h', reclaim_humongous, heap_region_iterate.
    assert (Hl : Forall (λ i, (i < num_regions h)%nat) (seq 0 (num_regions h))).
    { apply Forall_forall. intros i Hi%elem_of_seq. lia. }
    revert Hl. generalize (seq 0 (num_regions h)). intros l.
    induction l as [|i l IH] using rev_ind; intros Hl; [done|].
    apply Forall_app in Hl as [Hl Hi]. apply Forall_cons in Hi as [Hi _].
    rewrite foldl_snoc, IH by done.
    pose proof (Hnone i Hi) as Hd. unfold dead_humongous_start in Hd.
    unfold heap_region_do. destruct (is_humongous_start (rgn h i)); [|done].
    cbn in Hd. by rewrite Hd.
Qed.
End SweepAndActivation.

Section AfterPostCompact.
Import ShenandoahPostCompactClosure.

Lemma post_region_eq r :
  post_region r
  = if is_trash r || ((is_regular r || is_cset r) && (used r =? 0)) then recycle r
    else if is_cset r then set_live_data (used r) (set_state regular r)
    else set_live_data (used r) r.
Proof.
  destruct r as [b t e nt s l c]. unfold post_region, used. cbn [top bottom].
  generalize (t - b). intros u. generalize (u =? 0). intros z.
  destruct z, s; vm_compute; reflexivity.
Qed.

Lemma post_region_facts r :
  let r' := post_region r in
  is_cset r' = false ∧ is_trash r' = false
  ∧ live_data r' = used r'
  ∧ bottom r' = bottom r ∧ end_ r' = end_ r
  ∧ (top r' = top r ∨ top r' = bottom r)
  ∧ (is_regular r' = true → used r' ≠ 0)
  ∧ (is_humongous r = true ∨ is_pinned r = true → r' = set_live_data (used r) r)
  ∧ post_region r' = r'.
Proof.
  intros r'.
  assert (Hcases :
    (r' = recycle r ∧ (is_humongous r = true ∨ is_pinned r = true → False))
    ∨ (r' = set_live_data (used r) (set_state regular r) ∧ used r ≠ 0
       ∧ (is_humongous r = true ∨ is_pinned r = true → False))
    ∨ (r' = set_live_data (used r) r ∧ is_cset r = false ∧ is_trash r = false
       ∧ (is_regular r = true → used r ≠ 0))).
  { unfold r'. rewrite post_region_eq. destruct r as [b t e nt s l c]. unfold used.
    cbn [top bottom]. destruct (Z.eqb_spec (t - b) 0) as [E|E]; destruct s; cbn;
      first [ left; split; [done|by intros [?|?]]
            | right; left; split; [done|split; [done|by intros [?|?]]]
            | right; right; split; [done|split; [done|split; [done|]]];
              first [done | by intros _] ]. }
  destruct Hcases as [[-> Hh]|[(-> & Hu & Hh)|(-> & Hc & Ht & Hreg)]].
  - destruct r as [b t e nt s l c]. unfold used in *. cbn in *.
    rewrite (post_region_eq (recycle _)). unfold used. cbn. rewrite Z.sub_diag. cbn.
    repeat split; try done; try lia; by right.
  - destruct r as [b t e nt s l c]. unfold used in *. cbn in *.
    rewrite (post_region_eq (set_live_data _ _)). unfold used. cbn.
    destruct (Z.eqb_spec (t - b) 0); [done|].
    repeat split; try done; try lia; by left.
  - destruct r as [b t e nt s l c]. unfold used in *. cbn in *.
    rewrite (post_region_eq (set_live_data _ _)). unfold used. cbn.
    unfold is_cset, is_trash, is_regular in *. cbn in *.
    rewrite Hc, Ht. cbn.
    destruct (Z.eqb_spec (t - b) 0) as [E|E].
    + destruct (bool_decide (s = regular)) eqn:Er; [by destruct Hreg|].
      cbn. repeat split; try done; by left.
    + rewrite andb_false_r. repeat split; try done; by left.
Qed.

Lemma total_live_used rs :
  Forall (λ r, live_data r = used r) rs → total_live rs = foldr (λ r a, used r + a) 0 rs.
Proof.
  induction 1 as [|r rs Hr _ IH]; [done|].
  unfold total_live in *. cbn [foldr]. by rewrite Hr, IH.
Qed.

Lemma tams_post_pass k h j :
  (k ≤ num_regions h)%nat → (j < k)%nat →
  complete_top_at_mark_start (heap_region_iterate k heap_region_do (0, h)).2 !! j
  = Some (bottom (rgn h j)).
Proof.
  unfold heap_region_iterate. induction k as [|k IH]; intros Hk Hj; [lia|].
  destruct (post_pass k h ltac:(lia)) as (Hrs & _). cbn zeta in Hrs.
  unfold heap_region_iterate in Hrs.
  rewrite seq_S, foldl_snoc. change (0 + k)%nat with k.
  destruct (foldl _ (0, h) (seq 0 k)) as [acc hk]. cbn [fst snd] in *.
  assert (Hlen : num_regions hk = num_regions h).
  { unfold num_regions. rewrite Hrs, length_app, length_fmap, length_take, length_drop.
    unfold num_regions in Hk. lia. }
  destruct (lookup_lt_is_Some_2 (regions h) k ltac:(unfold num_regions in Hk; lia))
    as [r Hr].
  assert (Hrk : rgn hk k = rgn h k).
  { rewrite (rgn_lookup h k r Hr).
    unfold rgn. rewrite Hrs, list_lookup_total_alt, lookup_app_r;
      rewrite length_fmap, length_take_le by (unfold num_regions in Hk; lia); [|lia].
    by rewrite Nat.sub_diag, lookup_drop, Nat.add_0_r, Hr. }
  rewrite heap_region_do_eq by lia. cbn [snd]. unfold post_free.
  assert (E : ∀ rs hh, complete_top_at_mark_start
                (with_regions rs
                   (if is_alloc_allowed (post_region (rgn hh k))
                    then add_free_region k (with_collection_set (collection_set hh ∖ {[k]}) hh)
                    else hh))
              = complete_top_at_mark_start hh).
  { intros rs hh. by destruct (is_alloc_allowed _). }
  rewrite E. cbn [complete_top_at_mark_start set_complete_top_at_mark_start].
  destruct (decide (j = k)) as [->|Hne].
  - by rewrite lookup_insert_eq, Hrk.
  - rewrite lookup_insert_ne by done. apply IH; lia.
Qed.

Lemma tams_post_compact h i :
  (i < num_regions h)%nat →
  complete_top_at_mark_start (post_compact h) !! i = Some (bottom (rgn h i)).
Proof.
  intros Hi. unfold post_compact, new, get_live. cbn zeta.
  cbn [complete_top_at_mark_start with_collection_set set_used].
  set (h0 := clear_free_regions (reset_complete_mark_bitmap h)).
  change (num_regions (reset_complete_mark_bitmap h)) with (num_regions h0).
  change (rgn h i) with (rgn h0 i). by apply tams_post_pass.
Qed.

Lemma bitmap_post_compact h : complete_mark_bit_map (post_compact h) = ∅.
Proof.
  unfold post_compact, heap_region_iterate.
  cbn [complete_mark_bit_map with_collection_set set_used].
  rewrite (foldl_preserves (λ s : Z * ShenandoahHeap, complete_mark_bit_map s.2));
    [done|].
  intros [l hh] i. unfold heap_region_do. repeat case_match; simplify_eq; done.
Qed.

(** X12. The heap that [post_compact] leaves is consistent: no region is
    trash or in the collection set, a regular region is not empty, the
    live data of every region is what it uses and the heap's used counter
    is the sum of what the regions use; bounds are kept and a top is
    either kept or reset to bottom; humongous and pinned regions only get
    their live data set. The free set is in ascending order, the complete
    bitmap is empty, the complete top-at-mark-start of every region is its
    bottom, no heap word is written, and a second pass over the regions
    would change none. *)
Theorem post_compact_leaves_heap_consistent (h : ShenandoahHeap) :
  let final := post_compact h in
  num_regions final = num_regions h
  ∧ (∀ i, (i < num_regions h)%nat →
       let r := rgn h i in
       let r' := rgn final i in
       is_cset r' = false ∧ is_trash r' = false
       ∧ live_data r' = used r'
       ∧ bottom r' = bottom r ∧ end_ r' = end_ r
       ∧ (top r' = top r ∨ top r' = bottom r)
       ∧ (is_regular r' = true → used r' ≠ 0)
       ∧ (is_humongous r = true ∨ is_pinned r = true → r' = set_live_data (used r) r)
       ∧ complete_top_at_mark_start final !! i = Some (bottom r))
  ∧ heap_used final = foldr (λ r a, used r + a) 0 (regions final)
  ∧ StronglySorted Nat.lt (free_regions final)
  ∧ (∀ i, i ∈ free_regions final ↔
          (i < num_regions h)%nat ∧ is_alloc_allowed (rgn final i) = true)
  ∧ complete_mark_bit_map final = ∅
  ∧ mem final = mem h
  ∧ regions (post_compact final) = regions final.
Proof.
  intros final. destruct (post_compact_spec h) as (Hrs & Hu & _ & Hfree).
  fold final in Hrs, Hu, Hfree.
  assert (Hn : num_regions final = num_regions h).
  { unfold num_regions. by rewrite Hrs, length_fmap. }
  assert (Hrgn : ∀ i, (i < num_regions h)%nat → rgn final i = post_region (rgn h i)).
  { intros i Hi. unfold rgn. rewrite Hrs. by apply rgn_fmap. }
  split; [done|]. split; [|split; [|split; [|split; [|split; [|split]]]]].
  - intros i Hi r r'. unfold r'. rewrite Hrgn by done.
    destruct (post_region_facts r) as (? & ? & ? & ? & ? & ? & ? & ? & _).
    repeat (split; [done|]).
    by apply tams_post_compact.
  - rewrite Hu. apply total_live_used. rewrite Hrs.
    apply Forall_fmap, Forall_true. intros r. apply post_region_facts.
  - rewrite Hfree. apply StronglySorted_filter, StronglySorted_seq.
  - intros i. rewrite Hfree, list_elem_of_filter, elem_of_seq. split; intros [? ?].
    + split; [lia|done].
    + split; [done|lia].
  - apply bitmap_post_compact.
  - apply mem_post_compact.
  - destruct (post_compact_spec final) as (Hrs2 & _). rewrite Hrs2, Hrs.
    rewrite <- list_fmap_compose. apply list_fmap_ext.
    intros i r _. cbn. apply post_region_facts.
Qed.
End AfterPostCompact.


(** ** Phase 4 and the region tops *)

Section CompactTops.
Context `{!KlassModel}.
Import ShenandoahCompactObjectsTask.

Lemma compact_objects_fold k slices h :
  compact_objects k slices h
  = foldl (λ h r, compact_region r h) h (w ← seq 0 k; set_regions (slices !!! w)).
Proof.
  unfold compact_objects, run_task. induction k as [|k IH]; [done|].
  rewrite seq_S, foldl_snoc, bind_app, foldl_app, IH. simpl.
  by rewrite compact_work_fold, app_nil_r.
Qed.

Lemma compact_regions_tops R h :
  let h' := foldl (λ h r, compact_region r h) h R in
  num_regions h' = num_regions h
  ∧ (∀ j, new_top (rgn h' j) = new_top (rgn h j))
  ∧ (∀ j, j ∈ R → (j < num_regions h)%nat → top (rgn h' j) = new_top (rgn h j)).
Proof.
  induction R as [|r R IH] using rev_ind; cbn zeta.
  - split; [done|]. split; [done|]. by intros j ?%elem_of_nil.
  - destruct IH as (Hn & Hnt & Ht). rewrite foldl_snoc.
    set (hk := foldl _ h R) in *. rewrite compact_region_eq.
    split; [|split].
    + by rewrite num_regions_upd_region.
    + intros j. rewrite rgn_upd_region. case_decide as Hc; [|apply Hnt].
      destruct Hc as [-> _]. cbn. apply Hnt.
    + intros j Hj Hlt. rewrite rgn_upd_region. case_decide as Hc.
      * destruct Hc as [-> _]. cbn. apply Hnt.
      * apply elem_of_app in Hj as [Hj|Hj%list_elem_of_singleton].
        -- by apply Ht.
        -- subst j. exfalso. apply Hc. split; [done|].
           change (num_regions (with_mem _ hk)) with (num_regions hk). lia.
Qed.
End CompactTops.

Section Phase4.
Context `{!KlassModel}.
Variables (h : ShenandoahHeap) (sch : Schedule) (rp : list HeapWord).
Hypothesis Hpars : parsable h.
Hypothesis Hrefs : refs_ok rp h.
Hypothesis Hsched : schedule_ok sch h.
Local Abbreviation ws := BrooksPointer.word_size.
Local Abbreviation size := (obj_size (mem h)).
Local Abbreviation h2 := (plan_phase sch h).1.
Local Abbreviation h3 := (adjust_phase sch rp h).
Local Abbreviation h4 := (move_phase sch rp h).
Local Abbreviation new := (new_address sch h).

Lemma in_gang i : (i < num_regions h)%nat → (plan_owner sch i < nworkers sch)%nat.
Proof.
  intros Hi. destruct Hsched as [_ Ho]. rewrite Forall_forall in Ho.
  by destruct (Ho i ltac:(apply elem_of_seq; lia)).
Qed.

Lemma elem_of_gang_slices i :
  i ∈ (w ← seq 0 (nworkers sch); set_regions ((plan_phase sch h).2 !!! w))
  ↔ (i < num_regions h)%nat ∧ is_move_allowed (rgn h i) = true.
Proof.
  rewrite list_elem_of_bind. split.
  - intros (w & Hr & Hw%elem_of_seq).
    rewrite (plan_slices h sch Hpars Hsched) in Hr by lia.
    apply slice_of_spec in Hr. tauto.
  - intros [Hi Hm]. exists (plan_owner sch i). split.
    + rewrite (plan_slices h sch Hpars Hsched) by (by apply in_gang).
      by apply slice_of_spec.
    + apply elem_of_seq. pose proof (in_gang i Hi). lia.
Qed.

Lemma moved_top i :
  (i < num_regions h)%nat → is_move_allowed (rgn h i) = true →
  top (rgn h4 i) = new_top (rgn h2 i).
Proof.
  intros Hi Hm. unfold move_phase. rewrite compact_objects_fold.
  destruct (compact_regions_tops
              (w ← seq 0 (nworkers sch); set_regions ((plan_phase sch h).2 !!! w)) h3)
    as (_ & _ & Ht).
  assert (Hn3 : num_regions h3 = num_regions h).
  { apply same_shape_num_regions, (adjust_shape h sch rp Hpars Hrefs Hsched). }
  rewrite Ht; [|by apply elem_of_gang_slices|lia].
  by rewrite (adjust_eq h sch rp Hpars Hrefs Hsched).
Qed.

(** X13. Phase 4 writes the target extents of the objects it moves and
    the tops of the regions of the slices, and nothing else: a heap word
    outside the new extent of every object of a region that may be moved
    is as phase 3 left it, and so are the mark bitmap, every field of a
    region but its top, and every region that may not be moved; the top
    of a region that may be moved is the top planned for it in
    phase 2. *)
Theorem compaction_writes_target_extents_only :
  (∀ a, (∀ i p, (i < num_regions h)%nat → is_move_allowed (rgn h i) = true →
                p ∈ live_objects h i → ¬ (new p - ws ≤ a < new p + size p)) →
        mem h4 a = mem h3 a)
  ∧ complete_mark_bit_map h4 = complete_mark_bit_map h3
  ∧ (∀ i, set_top 0 (rgn h4 i) = set_top 0 (rgn h3 i))
  ∧ (∀ i, (i < num_regions h)%nat → is_move_allowed (rgn h i) = false →
          rgn h4 i = rgn h3 i)
  ∧ (∀ i, (i < num_regions h)%nat → is_move_allowed (rgn h i) = true →
          top (rgn h4 i) = new_top (rgn h2 i)).
Proof.
  destruct (move_same_but_tops h sch rp Hpars Hsched) as (Hb & Hs & Ho).
  split; [|split; [done|split; [done|split]]].
  - intros a Ha. destruct (move_gang h sch rp Hpars Hrefs Hsched) as [_ Hout].
    apply Hout. intros w p t s Hw (-> & -> & r & Hr & Hrw & Hm & Hp)%elem_of_moves_of.
    by apply (Ha r p).
  - intros i Hi Hm. apply Ho. rewrite elem_of_gang_slices. intros [_ ?]. congruence.
  - apply moved_top.
Qed.
End Phase4.


(** ** Dense packing *)

Section Packs.
Local Abbreviation ws := BrooksPointer.word_size.

Lemma packs_snoc lo g hi p s :
  packs lo g hi → packs lo (g ++ [(p, hi + ws, s)]) (hi + ws + s).
Proof.
  revert lo. induction g as [|[[q t] sq] g IH]; intros lo; simpl.
  - by intros ->.
  - intros [-> Hg]. split; [done|]. by apply IH.
Qed.

Lemma packs_footprint lo g hi : packs lo g hi → hi - lo = footprint g.
Proof.
  revert lo. induction g as [|[[q t] sq] g IH]; intros lo; simpl.
  - intros ->. unfold footprint, sum_over. simpl. lia.
  - intros [-> Hg]. specialize (IH _ Hg). unfold footprint, sum_over in *. simpl. lia.
Qed.

Lemma targets_in_snoc h d mv x :
  targets_in h d (mv ++ [x])
  = targets_in h d mv ++ (if decide (lands_in h d x) then [x] else []).
Proof.
  unfold targets_in. rewrite filter_app, filter_cons, filter_nil.
  by destruct (decide (lands_in h d x)).
Qed.

Lemma targets_in_snoc_out h d mv x :
  ¬ lands_in h d x → targets_in h d (mv ++ [x]) = targets_in h d mv.
Proof. intros Hx. by rewrite targets_in_snoc, decide_False, app_nil_r. Qed.

Lemma targets_in_snoc_in h d mv x :
  lands_in h d x → targets_in h d (mv ++ [x]) = targets_in h d mv ++ [x].
Proof. intros Hx. by rewrite targets_in_snoc, decide_True. Qed.

Lemma targets_in_app h d mv mv' :
  targets_in h d (mv ++ mv') = targets_in h d mv ++ targets_in h d mv'.
Proof. apply filter_app. Qed.

Lemma lands_in_inj h d d' x :
  geometry_ok h → (d < num_regions h)%nat → (d' < num_regions h)%nat →
  lands_in h d x → lands_in h d' x → d = d'.
Proof.
  intros Hg Hd Hd' H1 H2. unfold lands_in in *.
  destruct (decide (d = d')) as [|Hne]; [done|]. exfalso.
  destruct (decide (d < d')%nat).
  - pose proof (region_below h d d' Hg ltac:(lia) Hd'). lia.
  - pose proof (region_below h d' d Hg ltac:(lia) Hd). lia.
Qed.

Lemma lands_in_same_shape h h' d x : same_shape h h' → lands_in h' d x ↔ lands_in h d x.
Proof.
  intros Hs. unfold lands_in.
  by rewrite (same_shape_bottom h h' d Hs), (same_shape_end h h' d Hs).
Qed.
End Packs.

Section PackingSteps.
Context `{!KlassModel}.
Import ShenandoahPrepareForCompactionObjectClosure.
Import ShenandoahPrepareForCompactionTask.
Local Abbreviation ws := BrooksPointer.word_size.

(** The two branches of [do_object], on the fields the packing looks at. *)
Lemma do_object_cases p cl :
  let s := obj_size (mem (_heap cl)) p + ws in
  (_compact_point cl + s ≤ end_ (rgn (_heap cl) (_to_region cl))
   ∧ _to_region (do_object p cl) = _to_region cl
   ∧ _empty_regions (do_object p cl) = _empty_regions cl
   ∧ _compact_point (do_object p cl) = _compact_point cl + s
   ∧ ∀ d, rgn (_heap (do_object p cl)) d = rgn (_heap cl) d)
  ∨ (_compact_point cl + s > end_ (rgn (_heap cl) (_to_region cl))
     ∧ _to_region (do_object p cl) = next_to_region cl
     ∧ _empty_regions (do_object p cl) = (current_then_next (_empty_regions cl)).2
     ∧ _compact_point (do_object p cl) = bottom (rgn (_heap cl) (next_to_region cl)) + s
     ∧ ∀ d, rgn (_heap (do_object p cl)) d
            = rgn (upd_region (_to_region cl) (set_new_top (_compact_point cl)) (_heap cl)) d).
Proof.
  cbn zeta. unfold do_object.
  destruct (decide (_compact_point cl + (obj_size (mem (_heap cl)) p + ws)
                    > end_ (rgn (_heap cl) (_to_region cl)))) as [Hover|Hfits].
  - right. destruct (advance_to_region_spec cl) as (Hh1 & He1 & Ht1 & _ & Hc1).
    cbn [_heap _empty_regions _to_region _compact_point].
    rewrite Hh1, He1, Ht1, Hc1. repeat split; try done.
  - left. cbn [_heap _empty_regions _to_region _compact_point].
    repeat split; try done; lia.
Qed.

(** One object. *)
Lemma do_object_packing h0 M Pd f lo mv p t cl :
  geometry_ok h0 → Forall (λ r, (r < num_regions h0)%nat) M → f ∈ M →
  plan_inv h0 M f lo mv cl →
  lo + ws ≤ p → 0 < obj_size (mem h0) p → p + obj_size (mem h0) p ≤ end_ (rgn h0 f) →
  plan_inv h0 M f (p + obj_size (mem h0) p) (mv ++ [(p, t, obj_size (mem h0) p)])
           (do_object p cl) →
  bottom (rgn h0 (_to_region (do_object p cl))) + ws ≤ t →
  _compact_point (do_object p cl) = t + obj_size (mem h0) p →
  assert_new_to_region p cl = true →
  packing h0 Pd f mv cl →
  packing h0 Pd f (mv ++ [(p, t, obj_size (mem h0) p)]) (do_object p cl).
Proof.
  intros Hg HM Hf HI Hlo Hpos Hfit HI' Hbt Hcp' Hnew HP.
  pose proof (plan_inv_klass _ _ _ _ _ _ p HI Hlo) as Hk.
  assert (Hsz : obj_size (mem (_heap cl)) p = obj_size (mem h0) p).
  { unfold obj_size. by rewrite Hk. }
  set (sz := obj_size (mem h0) p) in *.
  set (x := (p, t, sz)).
  rewrite Forall_forall in HM.
  pose proof (pi_shape _ _ _ _ _ _ HI) as Hshape.
  pose proof (pi_from _ _ _ _ _ _ HI) as Hfromeq.
  pose proof (pi_to_in _ _ _ _ _ _ HI) as HtoM.
  pose proof (pi_empty _ _ _ _ _ _ HI) as Hempty.
  pose proof (pi_sorted _ _ _ _ _ _ HI) as Hsorted.
  pose proof (pi_to_in _ _ _ _ _ _ HI') as HtoM'.
  pose proof (pi_cp_hi _ _ _ _ _ _ HI') as Hcphi'.
  pose proof (HM _ HtoM) as Hton. pose proof (HM _ HtoM') as Hton'.
  pose proof (HM _ Hf) as Hfn.
  assert (Hland : lands_in h0 (_to_region (do_object p cl)) x).
  { unfold lands_in, x. cbn [fst snd]. rewrite Hcp' in Hcphi'. unfold ws in *. lia. }
  assert (Hout : ∀ d, (d < num_regions h0)%nat → d ≠ _to_region (do_object p cl) →
                      ¬ lands_in h0 d x).
  { intros d Hd Hne Hl. apply Hne. by apply (lands_in_inj h0 d _ x Hg). }
  destruct HP as [Hcur Hdone Hfree Hrem Hfrom Hto Hframe Hrange].
  rewrite Forall_forall in Hrange.
  destruct (do_object_cases p cl) as [(Hfits & Eto & Eer & Ecp & Ergn)
                                     |(Hover & Eto & Eer & Ecp & Ergn)].
  - (* the object fits *)
    rewrite Hsz in Ecp.
    assert (Et : t = _compact_point cl + ws) by lia.
    constructor.
    + rewrite targets_in_snoc_in by done. unfold x. rewrite Eto, Hcp', Et.
      by apply packs_snoc.
    + intros d Hd Hne Hnr. rewrite Eto in Hne. rewrite Eer in Hnr.
      rewrite targets_in_snoc_out by (apply Hout; [by apply Hrange|by rewrite Eto]).
      rewrite Ergn. by apply Hdone.
    + intros d Hd. rewrite Eer in Hd.
      rewrite targets_in_snoc_out; [by apply Hfree|].
      apply Hout; [by apply Hrange, Hrem|]. rewrite Eto.
      rewrite Forall_forall in Hempty. destruct (Hempty d Hd). lia.
    + intros d Hd. rewrite Eer in Hd. by apply Hrem.
    + intros Hne. rewrite Eto in Hne.
      rewrite targets_in_snoc_out; [by apply Hfrom|].
      apply Hout; [done|]. by rewrite Eto.
    + by rewrite Eto.
    + intros d Hd Hdf. rewrite Ergn. by apply Hframe.
    + by apply Forall_forall.
  - (* the object does not fit *)
    rewrite Hsz in Ecp, Hover.
    assert (Hne : next_to_region cl ≠ _to_region cl).
    { unfold assert_new_to_region in Hnew. rewrite Hsz, decide_True in Hnew by done.
      apply bool_decide_eq_true in Hnew.
      by destruct (advance_to_region_spec cl) as (_ & _ & <- & _). }
    set (nt := next_to_region cl) in *.
    assert (Et : t = bottom (rgn h0 nt) + ws).
    { rewrite (same_shape_bottom h0 (_heap cl) nt Hshape) in Ecp. lia. }
    assert (Hnext : (remaining (_empty_regions cl)
                     = nt :: remaining (_empty_regions (do_object p cl)))
                    ∨ (remaining (_empty_regions cl) = []
                       ∧ remaining (_empty_regions (do_object p cl)) = [] ∧ nt = f)).
    { rewrite Eer. unfold nt, next_to_region.
      destruct (current_then_next (_empty_regions cl)) as [[e|] er] eqn:Ecn; simpl.
      - left. by apply current_then_next_Some in Ecn as (? & _).
      - right. apply current_then_next_None in Ecn as (Hr & ->).
        rewrite Hfromeq. by simpl. }
    assert (Hnil : targets_in h0 nt mv = []).
    { destruct Hnext as [Hr|(_ & _ & Enf)].
      - apply Hfree. rewrite Hr. left.
      - rewrite Enf. apply Hfrom. rewrite <- Enf. done. }
    assert (Hrem' : ∀ d, d ∈ remaining (_empty_regions (do_object p cl)) →
                         d ∈ remaining (_empty_regions cl) ∧ d ≠ nt).
    { intros d Hd. destruct Hnext as [Hr|(_ & Hr & _)].
      - rewrite Hr in Hsorted |- *. apply StronglySorted_inv in Hsorted as [_ Hall].
        rewrite Forall_forall in Hall. specialize (Hall d Hd). split; [by right|].
        unfold Nat.lt in Hall. lia.
      - rewrite Hr in Hd. by apply elem_of_nil in Hd. }
    constructor.
    + rewrite targets_in_snoc_in by done. unfold x. rewrite Eto, Hnil, Hcp', Et.
      cbn [app packs]. done.
    + intros d Hd Hdne Hnr. rewrite Eto in Hdne.
      rewrite targets_in_snoc_out by (apply Hout; [by apply Hrange|by rewrite Eto]).
      rewrite Ergn, rgn_upd_region.
      destruct (decide (d = _to_region cl)) as [->|Hdto].
      * rewrite decide_True.
        -- cbn [new_top set_new_top]. done.
        -- split; [done|]. by rewrite (same_shape_num_regions h0 (_heap cl)).
      * rewrite decide_False by (intros [? _]; congruence).
        apply Hdone; [done..|].
        intros Hin. destruct Hnext as [Hr|(Hr & _ & _)].
        -- rewrite Hr in Hin. apply elem_of_cons in Hin as [?|?]; [done|]. by apply Hnr.
        -- rewrite Hr in Hin. by apply elem_of_nil in Hin.
    + intros d Hd. destruct (Hrem' d Hd) as [Hd' Hdn].
      rewrite targets_in_snoc_out; [by apply Hfree|].
      apply Hout; [by apply Hrange, Hrem|]. by rewrite Eto.
    + intros d Hd. apply Hrem. by apply Hrem'.
    + intros Hnf. rewrite Eto in Hnf.
      rewrite targets_in_snoc_out by (apply Hout; [done|by rewrite Eto]).
      apply Hfrom. intros Htf. rewrite Htf in *.
      destruct Hnext as [Hr|(_ & _ & ?)]; [|done].
      rewrite Hr in Hempty. apply Forall_cons in Hempty as [[? ?] _]. lia.
    + rewrite Eto. destruct Hnext as [Hr|(_ & _ & ?)]; [|by right].
      left. apply Hrem. rewrite Hr. left.
    + intros d Hd Hdf. rewrite Ergn, rgn_upd_region_ne; [by apply Hframe|].
      intros <-. destruct Hto as [?|?]; [done|]. done.
    + by apply Forall_forall.
Qed.

(** All the live objects of a region, one after the other. *)
Lemma do_objects_packing h0 M Pd f L lo mv cl :
  geometry_ok h0 → Forall (λ r, (r < num_regions h0)%nat) M → f ∈ M →
  plan_inv h0 M f lo mv cl → packing h0 Pd f mv cl →
  objs_chain (mem h0) lo L →
  Forall (λ p, p + obj_size (mem h0) p ≤ end_ (rgn h0 f)) L →
  ∃ mvL,
    sources mvL = L
    ∧ plan_inv h0 M f (chain_end (mem h0) lo L) (mv ++ mvL)
               (foldl (λ cl p, do_object p cl) cl L)
    ∧ packing h0 Pd f (mv ++ mvL) (foldl (λ cl p, do_object p cl) cl L).
Proof.
  intros Hg HM Hf. revert lo mv cl.
  induction L as [|p L IH]; intros lo mv cl HI HP Hc Hfit; simpl.
  - exists []. by rewrite app_nil_r.
  - destruct Hc as (Hlo & Hpos & Hc). apply Forall_cons in Hfit as [Hp Hfit].
    destruct (do_object_inv h0 M f lo mv p cl Hg HM Hf HI Hlo Hpos Hp)
      as (t & HI' & _ & _ & Hbt & Hcp' & _ & Hnew & _).
    pose proof (do_object_packing h0 M Pd f lo mv p t cl Hg HM Hf HI Hlo Hpos Hp
                  HI' Hbt Hcp' Hnew HP) as HP'.
    destruct (IH _ _ _ HI' HP' Hc Hfit) as (mvL & Hsrc & HI'' & HP'').
    exists ((p, t, obj_size (mem h0) p) :: mvL). split; [|split].
    + simpl. by rewrite Hsrc.
    + by rewrite <- app_assoc in HI''.
    + by rewrite <- app_assoc in HP''.
Qed.

Lemma targets_in_nil h d mv :
  (∀ x, x ∈ mv → ¬ lands_in h d x) → targets_in h d mv = [].
Proof.
  intros Hno. unfold targets_in. induction mv as [|x mv IH]; [done|].
  rewrite filter_cons_False by (apply Hno; left).
  apply IH. intros y Hy. apply Hno. by right.
Qed.

(** From one from-region to the next. *)
Lemma packed_ready h0 M Pd f f' mv cl :
  geometry_ok h0 → Forall (λ r, (r < num_regions h0)%nat) M →
  plan_fin h0 M f mv cl → (f < f')%nat → f' ∈ M →
  packed h0 Pd mv cl →
  packing h0 Pd f' mv (set_from_region f' cl).
Proof.
  intros Hg HM [Hshape Htole Htoin Hcplo Hcphi Hidx Hempty Hsorted Hslide Hmem Hsizes Hinreg]
         Hff Hf' [Hcur Hdone Hfree Hrem Hto Hframe Hrange].
  rewrite Forall_forall in HM.
  pose proof (HM _ Hf') as Hn'. pose proof (HM _ Htoin) as Hnt.
  pose proof (region_below h0 f f' Hg Hff Hn').
  assert (end_ (rgn h0 (_to_region cl)) ≤ end_ (rgn h0 f)).
  { destruct (decide (_to_region cl = f)) as [->|]; [lia|].
    pose proof (region_below h0 (_to_region cl) f Hg ltac:(lia) ltac:(lia)).
    pose proof (region_size_eq h0 f Hg ltac:(lia)).
    pose proof (region_size_nonneg h0 Hg ltac:(lia)). lia. }
  constructor; cbn [set_from_region _heap _empty_regions _to_region _from_region
                                    _compact_point]; try done.
  - intros _. apply targets_in_nil. intros [[p t] s] Hin Hl.
    destruct (slide_bounds _ _ _ _ _ _ Hslide Hin) as (_ & ? & _ & ?).
    unfold lands_in in Hl. cbn [fst snd] in Hl. lia.
  - by left.
  - intros d Hd _. by apply Hframe.
Qed.

(** One from-region. *)
Lemma plan_region_packed h0 M Pd f mv cl :
  parsable h0 → Forall (λ r, (r < num_regions h0)%nat) M → f ∈ M →
  is_move_allowed (rgn h0 f) = true →
  plan_inv h0 M f (bottom (rgn h0 f)) mv (set_from_region f cl) →
  packing h0 Pd f mv (set_from_region f cl) →
  ∃ mvL, sources mvL = live_objects h0 f
         ∧ plan_fin h0 M f (mv ++ mvL) (plan_region f cl)
         ∧ packed h0 (Pd ++ [f]) (mv ++ mvL) (plan_region f cl).
Proof.
  intros Hp HM Hf Hmov HI HP.
  pose proof Hp as (_ & Hg & _).
  assert (Hfn : (f < num_regions h0)%nat) by (rewrite Forall_forall in HM; by apply HM).
  unfold plan_region, marked_object_iterate.
  rewrite (same_shape_live_objects h0 _ f (pi_shape _ _ _ _ _ _ HI)).
  destruct (do_objects_packing h0 M Pd f (live_objects h0 f) _ mv _ Hg HM Hf HI HP)
    as (mvL & Hsrc & HI' & HP').
  { by apply region_chain. }
  { apply Forall_forall. intros p Hin. by apply region_objects_fit. }
  exists mvL. split; [done|].
  set (cl2 := foldl _ _ _) in *.
  destruct HI' as [Hshape Hfrom Htole Htoin Hcplo Hcphi Hlolo Hlohi Hidx Hempty Hsorted
                     Hslide Hmem Hsizes Hinreg].
  destruct HP' as [Hcur Hdone Hfree Hrem Hfromnil Hto Hframe Hrange].
  pose proof (slide_frontiers _ _ _ Hslide).
  assert (Hrange' : Forall (λ d, (d < num_regions h0)%nat) (Pd ++ [f])).
  { apply Forall_app. split; [done|]. by apply Forall_singleton. }
  unfold is_compact_same_region. rewrite Hfrom.
  case_bool_decide as Hsame; cbn [negb].
  - injection Hsame as Hsame. split.
    + constructor; try done; try lia.
      * eapply Forall_impl; [done|]. intros e [? ?]. split; [lia|done].
      * eapply slide_mono; [done|lia..].
    + constructor; try done.
      * intros d [Hd|Hd%list_elem_of_singleton]%elem_of_app Hne Hnr; [by apply Hdone|].
        congruence.
      * intros d Hd. apply elem_of_app. left. by apply Hrem.
      * apply elem_of_app. right. rewrite <- Hsame. left.
      * intros d [Hd1 Hd2]%not_elem_of_app. apply Hframe; [done|].
        intros ->. apply Hd2. left.
  - assert (Hne : _to_region cl2 ≠ f) by congruence.
    assert (Er : remaining (add_region f (_empty_regions cl2))
                 = remaining (_empty_regions cl2) ++ [f])
      by (by apply remaining_add_region).
    split.
    + constructor; cbn [_heap _empty_regions _to_region _from_region _compact_point];
        try done; try lia.
      * unfold add_region. simpl. rewrite length_app. simpl. lia.
      * rewrite Er. apply Forall_app. split.
        -- eapply Forall_impl; [done|]. intros e [? ?]. split; [lia|done].
        -- repeat constructor; [lia..|done].
      * rewrite Er. apply StronglySorted_snoc; [done|].
        eapply Forall_impl; [done|]. intros e [? ?]. lia.
      * eapply slide_mono; [done|lia..].
    + constructor; cbn [_heap _empty_regions _to_region _from_region _compact_point];
        try done.
      * intros d Hd Hdne Hnr. rewrite Er in Hnr. apply not_elem_of_app in Hnr as [Hnr Hdf].
        apply elem_of_app in Hd as [Hd|Hd%list_elem_of_singleton]; [by apply Hdone|].
        exfalso. apply Hdf. rewrite Hd. left.
      * intros d Hd. rewrite Er in Hd.
        apply elem_of_app in Hd as [Hd|Hd%list_elem_of_singleton]; [by apply Hfree|].
        rewrite Hd. by apply Hfromnil.
      * intros d Hd. rewrite Er in Hd. apply elem_of_app.
        apply elem_of_app in Hd as [Hd|Hd]; [left; by apply Hrem|by right].
      * apply elem_of_app. left. by destruct Hto.
      * intros d [Hd1 Hd2]%not_elem_of_app. apply Hframe; [done|].
        intros ->. apply Hd2. left.
Qed.

Lemma plan_new_packing h r0 :
  packing h [] r0 [] (set_from_region r0 (new h new_region_set r0)).
Proof.
  constructor; cbn [new set_from_region _heap _empty_regions _to_region _from_region
                        _compact_point]; try done.
  all: try (by intros d ?%elem_of_nil).
  by right.
Qed.

(** The from-regions [Ms] in a row. *)
Lemma plan_regions_packed h0 M Pd Ms f mv cl :
  parsable h0 → Forall (λ r, (r < num_regions h0)%nat) M →
  plan_fin h0 M f mv cl → packed h0 Pd mv cl →
  StronglySorted Nat.lt (f :: Ms) →
  Forall (λ r, r ∈ M ∧ is_move_allowed (rgn h0 r) = true) Ms →
  ∃ mvs, sources mvs = (r ← Ms; live_objects h0 r)
         ∧ plan_fin h0 M (default f (last Ms)) (mv ++ mvs)
                    (foldl (λ cl r, plan_region r cl) cl Ms)
         ∧ packed h0 (Pd ++ Ms) (mv ++ mvs) (foldl (λ cl r, plan_region r cl) cl Ms).
Proof.
  intros Hp HM. pose proof Hp as (_ & Hg & _). revert Pd f mv cl.
  induction Ms as [|r Ms IH]; intros Pd f mv cl HF HP Hs HMs; simpl.
  - exists []. by rewrite !app_nil_r.
  - apply Forall_cons in HMs as [[HrM Hrm] HMs].
    apply StronglySorted_inv in Hs as [Hs Hall].
    apply Forall_cons in Hall as [Hfr Hall].
    pose proof (plan_fin_ready h0 M f r mv cl Hg HM HF Hfr HrM) as HI.
    pose proof (packed_ready h0 M Pd f r mv cl Hg HM HF Hfr HrM HP) as HK.
    destruct (plan_region_packed h0 M Pd r mv cl Hp HM HrM Hrm HI HK)
      as (mvL & Hsrc & HF' & HP').
    destruct (IH _ r _ _ HF' HP' Hs HMs) as (mvs & Hsrcs & HF'' & HP'').
    exists (mvL ++ mvs). split; [|split].
    + by rewrite sources_app, Hsrc, Hsrcs.
    + rewrite app_assoc, last_cons. by destruct (last Ms).
    + rewrite app_assoc. by rewrite <- app_assoc in HP''.
Qed.

Lemma planned_packed h M r0 Ms :
  parsable h → Forall (λ r, (r < num_regions h)%nat) M →
  StronglySorted Nat.lt (r0 :: Ms) →
  Forall (λ r, r ∈ M ∧ is_move_allowed (rgn h r) = true) (r0 :: Ms) →
  ∃ mv, sources mv = (r ← r0 :: Ms; live_objects h r)
        ∧ plan_fin h M (default r0 (last Ms)) mv (planned h r0 Ms)
        ∧ packed h (r0 :: Ms) mv (planned h r0 Ms).
Proof.
  intros Hp HM Hs HMs. pose proof Hp as (_ & Hg & _).
  apply Forall_cons in HMs as [[Hr0 Hm0] HMs].
  assert (Hn0 : (r0 < num_regions h)%nat) by (rewrite Forall_forall in HM; by apply HM).
  unfold planned. cbn [foldl].
  pose proof (plan_new h M r0 Hg Hn0 Hr0) as HI.
  pose proof (plan_new_packing h r0) as HK.
  destruct (plan_region_packed h M [] r0 [] _ Hp HM Hr0 Hm0 HI HK) as (mvL & Hsrc & HF & HP).
  destruct (plan_regions_packed h M _ Ms r0 _ _ Hp HM HF HP Hs HMs)
    as (mvs & Hsrcs & HF' & HP').
  exists (mvL ++ mvs). split; [|split; [done|done]].
  simpl. by rewrite sources_app, Hsrc, Hsrcs.
Qed.

(** What one worker leaves behind: every region of its slice packed up
    to its planned top, and no other region written. *)
Lemma work_packed h view slice :
  parsable h → view_ok h view →
  ∃ mv slo tlo,
    slide slo tlo mv
    ∧ sources mv = (r ← movable h view; live_objects h r)
    ∧ Forall (λ '(p, _, s), s = obj_size (mem h) p) mv
    ∧ (∀ a, mem (work h view slice).1 a = planned_mem mv (mem h) a)
    ∧ (∀ d, d ∈ movable h view →
            packs (bottom (rgn h d)) (targets_in h d mv)
                  (new_top (rgn (work h view slice).1 d)))
    ∧ (∀ d, d ∉ movable h view → rgn (work h view slice).1 d = rgn h d).
Proof.
  intros Hp Hv. rewrite work_fold.
  destruct (movable_ok h view Hv) as (Hs & Hn & Hin).
  destruct (movable h view) as [|r0 Ms] eqn:EM.
  - exists [], 0, 0. simpl.
    split; [by constructor|]. repeat split; try done. by intros d ?%elem_of_nil.
  - destruct (planned_packed h (r0 :: Ms) r0 Ms Hp Hn Hs Hin) as (mv & Hsrc & HF & HP).
    destruct HF as [Hshape Htole Htoin Hcplo Hcphi Hidx Hempty Hsorted
                      Hslide Hmem Hsizes Hinreg].
    destruct HP as [Hcur Hdone Hfree Hrem Hto Hframe Hrange].
    exists mv, (end_ (rgn h (default r0 (last Ms)))), (_compact_point (planned h r0 Ms)).
    cbn [fst snd]. rewrite mark_remaining_empty_fold.
    set (cl := planned h r0 Ms) in *.
    cbn [finish_region _heap _empty_regions].
    set (h1 := upd_region (_to_region cl) (set_new_top (_compact_point cl)) (_heap cl)).
    assert (Hnto : _to_region cl ∉ remaining (_empty_regions cl)).
    { intros Hin'. rewrite Forall_forall in Hempty. destruct (Hempty _ Hin'). lia. }
    rewrite Forall_forall in Hn.
    split; [done|]. split; [done|]. split; [done|]. split; [|split].
    + intros a. rewrite mark_empty_mem. apply Hmem.
    + intros d Hd.
      destruct (decide (d = _to_region cl)) as [->|Hdto].
      * rewrite mark_empty_other by done. unfold h1. rewrite rgn_upd_region_eq.
        -- done.
        -- rewrite (same_shape_num_regions h (_heap cl) Hshape). by apply Hn.
      * destruct (decide (d ∈ remaining (_empty_regions cl))) as [Hr|Hr].
        -- rewrite mark_empty_in; [|done|].
           ++ rewrite (Hfree d Hr). unfold h1. rewrite bottom_upd_new_top.
              by rewrite (same_shape_bottom h (_heap cl) d Hshape).
           ++ unfold h1. rewrite num_regions_upd_region.
              rewrite (same_shape_num_regions h (_heap cl) Hshape). by apply Hn.
        -- rewrite mark_empty_other by done. unfold h1.
           rewrite rgn_upd_region_ne by done. by apply Hdone.
    + intros d Hd. rewrite mark_empty_other.
      * unfold h1. rewrite rgn_upd_region_ne; [by apply Hframe|].
        intros <-. done.
      * intros Hr. by apply Hd, Hrem.
Qed.
End PackingSteps.

Section PackingGang.
Context `{!KlassModel}.
Import ShenandoahPrepareForCompactionObjectClosure.
Import ShenandoahPrepareForCompactionTask.
Local Abbreviation ws := BrooksPointer.word_size.

Lemma targets_in_same_shape h h' d mv :
  same_shape h h' → targets_in h' d mv = targets_in h d mv.
Proof.
  intros Hs. unfold targets_in. apply list_filter_iff. intros x.
  by apply lands_in_same_shape.
Qed.

Lemma plan_of_ext h h2 h2' Ms :
  (∀ r p, r ∈ Ms → p ∈ live_objects h r →
          BrooksPointer.get_raw (mem h2') p = BrooksPointer.get_raw (mem h2) p) →
  plan_of h h2' Ms = plan_of h h2 Ms.
Proof.
  intros Hext. unfold plan_of. apply list_fmap_ext. intros i p Hp.
  apply list_elem_of_lookup_2 in Hp. apply list_elem_of_bind in Hp as (r & Hp & Hr).
  by rewrite (Hext r p).
Qed.

(** The gang after its first [k] workers have planned: every region of
    their slices is packed up to its planned top, and the regions
    outside these slices are as they were. *)
Lemma gang_packed h owner slices k :
  parsable h → (k ≤ length slices)%nat →
  let s := prepare_for_compaction owner k (h, slices) in
  (∀ w d, (w < k)%nat → d ∈ slice_of h owner w →
          packs (bottom (rgn h d)) (targets_in h d (plan_of h s.1 (slice_of h owner w)))
                (new_top (rgn s.1 d)))
  ∧ (∀ d, (∀ w, (w < k)%nat → d ∉ slice_of h owner w) → rgn s.1 d = rgn h d).
Proof.
  intros Hp. pose proof Hp as (_ & Hg & _). cbn zeta.
  induction k as [|k IH]; intros Hk.
  - split; [intros w d Hw; lia|done].
  - destruct IH as [IHp IHf]; [lia|].
    pose proof (gang_planned_all h owner slices k Hp ltac:(lia)) as HG.
    rewrite prepare_for_compaction_S.
    destruct (prepare_for_compaction owner k (h, slices)) as [hk slk].
    cbn [fst snd] in *.
    pose proof (gp_shape _ _ _ _ _ HG) as Hshape. cbn [fst] in Hshape.
    pose proof (same_shape_num_regions _ _ Hshape) as En.
    assert (Hkl : ∀ p, p ∈ all_objects h → mem hk p = mem h p).
    { intros p Hin. apply (gang_klass_words h owner slices k (hk, slk) p Hp HG Hin). }
    assert (Hpk : parsable hk) by (by apply (parsable_transfer h)).
    rewrite En. set (view := claims_of owner (num_regions h) k).
    assert (Hv : view_ok hk view).
    { unfold view. rewrite <- En. apply claims_of_view_ok. }
    destruct (work_packed hk view (slk !!! k) Hpk Hv)
      as (mv & slo & tlo & Hslide & Hsrc & Hsizes & Hmem & Hpack & Hframe).
    rewrite (movable_same_shape _ _ _ Hshape) in Hsrc, Hpack, Hframe.
    fold (slice_of h owner k) in Hsrc, Hpack, Hframe.
    destruct (work hk view (slk !!! k)) as [h' slice'] eqn:Ew. cbn [fst snd] in *.
    assert (Hsrc' : sources mv = (r ← slice_of h owner k; live_objects h r)).
    { rewrite Hsrc. apply list_bind_ext; [|done]. intros r.
      by apply same_shape_live_objects. }
    assert (Hown : ∀ p, p ∈ sources mv →
              ∃ r, (r < num_regions h)%nat ∧ owner r = k
                   ∧ is_move_allowed (rgn h r) = true ∧ p ∈ live_objects h r).
    { intros p Hin. apply (elem_of_sources_slice h _ _ _ Hsrc') in Hin as (r & Hr & Hpr).
      apply slice_of_spec in Hr as (? & ? & ?). eauto. }
    assert (Emv : mv = plan_of h h' (slice_of h owner k)).
    { unfold plan_of. apply moves_eq; [done|].
      rewrite Forall_forall in Hsizes |- *. intros [[p t] s0] Hin.
      specialize (Hsizes _ Hin). cbn beta iota in *.
      destruct (Hown p (elem_of_sources _ _ _ _ Hin)) as (r & ? & _ & _ & ?).
      split.
      - rewrite Hsizes. unfold obj_size. rewrite Hkl; [done|].
        apply elem_of_all_objects. eauto.
      - unfold BrooksPointer.get_raw. rewrite Hmem.
        by apply (planned_mem_target slo tlo mv _ p t s0). }
    split.
    + intros w d Hw Hd. destruct (decide (w = k)) as [->|Hne].
      * rewrite <- Emv, <- (same_shape_bottom h hk d Hshape),
          <- (targets_in_same_shape h hk d mv Hshape).
        by apply Hpack.
      * assert (Hdk : d ∉ slice_of h owner k).
        { intros Hdk. apply slice_of_spec in Hd as (_ & ? & _).
          apply slice_of_spec in Hdk as (_ & ? & _). congruence. }
        rewrite (Hframe d Hdk).
        rewrite (plan_of_ext h hk h'); [apply IHp; [lia|done]|].
        intros r p Hr Hpr. unfold BrooksPointer.get_raw. rewrite Hmem.
        apply planned_mem_other. intros q tq sq Hq Heq.
        assert (p = q) as -> by lia.
        destruct (Hown q (elem_of_sources _ _ _ _ Hq)) as (r' & Hr' & Ho' & _ & Hqr').
        apply slice_of_spec in Hr as (Hrn & Ho & _).
        pose proof (live_objects_region_inj h r r' q Hg Hrn Hr' Hpr Hqr'). congruence.
    + intros d Hd. rewrite Hframe by (apply Hd; lia). apply IHf.
      intros w Hw. apply Hd. lia.
Qed.
End PackingGang.


(** ** The compacted heap *)

Section Walks.
Context `{!KlassModel}.
Local Abbreviation ws := BrooksPointer.word_size.

Lemma packs_dense m lo g hi :
  packs lo g hi → Forall (λ x : move, obj_size m x.1.2 = x.2) g →
  dense_chain m lo ((λ x : move, x.1.2) <$> g) hi.
Proof.
  revert lo. induction g as [|[[p t] s] g IH]; intros lo; simpl; [done|].
  intros [-> Hg] [Hs Hf]%Forall_cons. cbn [fst snd] in Hs. split; [done|].
  rewrite Hs. by apply IH.
Qed.

Lemma packs_hi lo g hi :
  packs lo g hi → (g = [] ∧ hi = lo) ∨ ∃ p t s, (p, t, s) ∈ g ∧ hi = t + s.
Proof.
  revert lo. induction g as [|[[p t] s] g IH]; intros lo; simpl; [by left|].
  intros [-> Hg]. right. destruct (IH _ Hg) as [[-> ->]|(p' & t' & s' & Hin & ->)].
  - exists p, (lo + ws), s. split; [left|done].
  - exists p', t', s'. split; [by right|done].
Qed.

Lemma sum_over_app {A} (f : A → Z) l l' : sum_over f (l ++ l') = sum_over f l + sum_over f l'.
Proof. unfold sum_over. induction l as [|x l IH]; simpl; lia. Qed.

Lemma sum_over_fmap {A B} (g : A → B) (f : B → Z) l :
  sum_over f (g <$> l) = sum_over (f ∘ g) l.
Proof.
  unfold sum_over. induction l as [|x l IH]; [done|].
  rewrite fmap_cons. cbn [foldr]. by rewrite IH.
Qed.

Lemma sum_over_ext {A} (f g : A → Z) l :
  (∀ x, x ∈ l → f x = g x) → sum_over f l = sum_over g l.
Proof.
  unfold sum_over. induction l as [|x l IH]; intros Hfg; simpl; [done|].
  rewrite (Hfg x) by left. rewrite IH; [done|]. intros y Hy. apply Hfg. by right.
Qed.

(** A value that exactly one element of the list selects. *)
Lemma sum_over_select {A} (P : A → Prop) `{!∀ x, Decision (P x)} (c : Z) (l : list A) x0 :
  NoDup l → x0 ∈ l → P x0 → (∀ x, x ∈ l → P x → x = x0) →
  sum_over (λ x, if decide (P x) then c else 0) l = c.
Proof.
  unfold sum_over. induction l as [|x l IH]; intros Hnd Hin HP Huniq; simpl.
  - by apply elem_of_nil in Hin.
  - apply NoDup_cons in Hnd as [Hx Hnd].
    destruct (decide (P x)) as [Hpx|Hpx].
    + assert (x = x0) as -> by (apply Huniq; [left|done]).
      assert (E : foldr (λ x a, (if decide (P x) then c else 0) + a) 0 l = 0).
      { clear IH Hin. induction l as [|y l IHl]; simpl; [done|].
        apply not_elem_of_cons in Hx as [Hne Hx]. apply NoDup_cons in Hnd as [_ Hnd].
        rewrite decide_False.
        - rewrite IHl; [done..|]. intros z Hz. apply Huniq.
          apply elem_of_cons in Hz as [->|Hz]; [left|right; by right].
        - intros Hy. apply Hne. symmetry. apply Huniq; [right; left|done]. }
      lia.
    + apply elem_of_cons in Hin as [->|Hin]; [done|].
      rewrite IH; [lia|done..|]. intros z Hz. apply Huniq. by right.
Qed.

(** The footprint of a plan, split by the regions of the targets. *)
Lemma footprint_split h (S : list nat) (mv : list move) :
  NoDup S →
  (∀ x, x ∈ mv → ∃ d, d ∈ S ∧ lands_in h d x ∧ ∀ d', d' ∈ S → lands_in h d' x → d' = d) →
  sum_over (λ d, footprint (targets_in h d mv)) S = footprint mv.
Proof.
  intros Hnd. induction mv as [|x mv IH]; intros Hall.
  - transitivity (sum_over (λ _ : nat, 0) S); [by apply sum_over_ext|].
    clear. unfold footprint, sum_over. induction S as [|d S IHS]; simpl; [done|].
    by rewrite IHS.
  - specialize (IH ltac:(intros y Hy; apply Hall; by right)).
    destruct (Hall x ltac:(left)) as (d0 & Hd0 & Hl0 & Huniq).
    replace (footprint (x :: mv)) with ((x.2 + ws) + footprint mv) by done.
    rewrite <- IH.
    rewrite <- (sum_over_select (λ d, lands_in h d x) (x.2 + ws) S d0 Hnd Hd0 Hl0 Huniq).
    clear. unfold sum_over. induction S as [|d S IHS]; simpl; [done|].
    rewrite IHS. unfold targets_in. rewrite filter_cons.
    destruct (decide (lands_in h d x)); unfold footprint, sum_over; simpl; lia.
Qed.
End Walks.

Section Dense.
Context `{!KlassModel}.
Variables (h : ShenandoahHeap) (sch : Schedule) (rp : list HeapWord).
Hypothesis Hpars : parsable h.
Hypothesis Hrefs : refs_ok rp h.
Hypothesis Hsched : schedule_ok sch h.
Local Abbreviation ws := BrooksPointer.word_size.
Local Abbreviation size := (obj_size (mem h)).
Local Abbreviation h2 := (plan_phase sch h).1.
Local Abbreviation h3 := (adjust_phase sch rp h).
Local Abbreviation h4 := (move_phase sch rp h).
Local Abbreviation new := (new_address sch h).
Local Abbreviation owner := (plan_owner sch).

Lemma filter_fmap_iff {A B} (g : A → B) (P : B → Prop) (Q : A → Prop)
    `{!∀ y, Decision (P y), !∀ x, Decision (Q x)} (l : list A) :
  (∀ x, P (g x) ↔ Q x) → filter P (g <$> l) = g <$> filter Q l.
Proof.
  intros HPQ. induction l as [|x l IH]; [done|].
  rewrite fmap_cons, !filter_cons, IH.
  destruct (decide (P (g x))) as [HP|HP], (decide (Q x)) as [HQ|HQ]; try done.
  - by apply HPQ in HP.
  - by apply HPQ in HQ.
Qed.

Lemma targets_planned_into d :
  targets_in h d (moves_of h sch (owner d))
  = (λ p, (p, new p, size p)) <$> planned_into sch h d.
Proof. unfold targets_in, moves_of, planned_into. by apply filter_fmap_iff. Qed.

Lemma plan_packed d :
  (d < num_regions h)%nat → is_move_allowed (rgn h d) = true →
  packs (bottom (rgn h d)) (targets_in h d (moves_of h sch (owner d)))
        (new_top (rgn h2 d)).
Proof.
  intros Hd Hm.
  destruct (gang_packed h owner (replicate (max_workers sch) new_region_set)
              (nworkers sch) Hpars) as [Hp _].
  { rewrite length_replicate. by destruct Hsched. }
  apply (Hp (owner d) d); [by apply (in_gang h sch Hsched)|by apply slice_of_spec].
Qed.

Lemma planned_into_spec d p :
  p ∈ planned_into sch h d
  ↔ bottom (rgn h d) ≤ new p < end_ (rgn h d)
    ∧ ∃ r, (r < num_regions h)%nat ∧ owner r = owner d
           ∧ is_move_allowed (rgn h r) = true ∧ p ∈ live_objects h r.
Proof.
  unfold planned_into. rewrite list_elem_of_filter, list_elem_of_bind.
  split; intros [? (r & ? & Hr)]; (split; [done|]); exists r.
  - apply slice_of_spec in Hr. tauto.
  - split; [tauto|]. apply slice_of_spec. tauto.
Qed.

Lemma moved_copy r p :
  (r < num_regions h)%nat → is_move_allowed (rgn h r) = true → p ∈ live_objects h r →
  BrooksPointer.get_raw (mem h4) (new p) = new p ∧ obj_size (mem h4) (new p) = size p.
Proof.
  intros Hr Hm Hp.
  destruct (move_object h sch rp Hpars Hrefs Hsched r p Hr Hm Hp) as [Hf Hb].
  split; [done|]. unfold obj_size.
  destruct (obj_in_heap h Hpars p (live_in_all h r p Hr Hp)) as (_ & Hpos & _).
  specialize (Hb 0 ltac:(lia)). rewrite !Z.add_0_r in Hb. rewrite Hb.
  f_equal. apply (adjust_klass h sch rp Hpars Hrefs Hsched). by apply (live_in_all h r).
Qed.

Lemma bottom_moved d : bottom (rgn h4 d) = bottom (rgn h d).
Proof.
  destruct (move_same_but_tops h sch rp Hpars Hsched) as (_ & Hs & _).
  pose proof (f_equal bottom (Hs d)) as E. cbn in E. rewrite E.
  apply same_shape_bottom, (adjust_shape h sch rp Hpars Hrefs Hsched).
Qed.

(** X14. After phase 4 every region that may be moved is densely packed.
    A walk that starts at the bottom of the region, finds each object
    right behind its forwarding word and steps over it by the size its
    class word gives, visits exactly the new copies of the live objects
    planned into the region, in the order they were planned, and stops
    at the region's top; each copy has its forwarding word pointing to
    itself and the size of its original. So the words the region uses
    are the footprint of these objects, forwarding words included, the
    top lies within the region, and every live object of a region that
    may be moved is planned into one such region of its worker. *)
Theorem compacted_regions_are_dense (d : nat) :
  (d < num_regions h)%nat → is_move_allowed (rgn h d) = true →
  let L := planned_into sch h d in
  dense_chain (mem h4) (bottom (rgn h d)) (new <$> L) (top (rgn h4 d))
  ∧ Forall (λ p, BrooksPointer.get_raw (mem h4) (new p) = new p
                 ∧ obj_size (mem h4) (new p) = size p) L
  ∧ used (rgn h4 d) = sum_over (λ p, size p + ws) L
  ∧ bottom (rgn h d) ≤ top (rgn h4 d) ≤ end_ (rgn h d)
  ∧ (∀ i p, (i < num_regions h)%nat → is_move_allowed (rgn h i) = true →
            p ∈ live_objects h i →
            ∃ r, (r ≤ i)%nat ∧ owner r = owner i ∧ is_move_allowed (rgn h r) = true
                 ∧ p ∈ planned_into sch h r).
Proof.
  intros Hd Hm L.
  pose proof (plan_packed d Hd Hm) as Hpk.
  rewrite <- (moved_top h sch rp Hpars Hrefs Hsched d Hd Hm) in Hpk.
  rewrite targets_planned_into in Hpk. fold L in Hpk.
  assert (Hcopies : Forall (λ p, BrooksPointer.get_raw (mem h4) (new p) = new p
                                 ∧ obj_size (mem h4) (new p) = size p) L).
  { apply Forall_forall. intros p (_ & r & Hr & _ & Hmr & Hp)%planned_into_spec.
    by apply (moved_copy r p). }
  split; [|split; [done|split; [|split]]].
  - replace (new <$> L) with ((λ x : move, x.1.2) <$> ((λ p, (p, new p, size p)) <$> L))
      by (rewrite <- list_fmap_compose; done).
    apply packs_dense; [done|]. apply Forall_fmap.
    eapply Forall_impl; [exact Hcopies|]. by intros p [_ ?].
  - unfold used. rewrite bottom_moved, (packs_footprint _ _ _ Hpk).
    unfold footprint. by rewrite sum_over_fmap.
  - pose proof (packs_footprint _ _ _ Hpk) as Hfp.
    destruct (packs_hi _ _ _ Hpk) as [[_ ->]|(p & t & s & Hin & ->)].
    + pose proof Hpars as (_ & Hg & _).
      destruct (geometry_region h d Hg Hd) as (_ & ? & ?). lia.
    + apply list_elem_of_fmap in Hin as (q & [= -> -> ->] & Hq).
      apply planned_into_spec in Hq as (Hland & r & Hr & Ho & Hmr & Hq).
      destruct (move_extents h sch Hpars Hsched (owner r) q (new q) (size q)
                  (in_gang h sch Hsched r Hr))
        as [(r' & Hr' & _ & _ & Hlo & Hhi) _].
      { apply elem_of_moves_of. eauto 10. }
      pose proof Hpars as (_ & Hg & _).
      destruct (obj_in_heap h Hpars q (live_in_all h r q Hr Hq)) as (_ & Hpos & _).
      assert (r' = d) as ->.
      { apply (lands_in_inj h r' d (q, new q, size q) Hg Hr' Hd).
        - unfold lands_in. cbn [fst snd]. unfold ws in *. lia.
        - done. }
      unfold ws in *. lia.
  - intros i p Hi Hmi Hp.
    destruct (move_extents h sch Hpars Hsched (owner i) p (new p) (size p)
                (in_gang h sch Hsched i Hi))
      as [(r & Hr & Ho & Hmr & Hlo & Hhi) _].
    { apply elem_of_moves_of. eauto 10. }
    destruct (obj_in_heap h Hpars p (live_in_all h i p Hi Hp)) as (_ & Hpos & _).
    exists r. split; [|split; [done|split; [done|]]].
    + destruct (decide (r ≤ i)%nat) as [|Hgt]; [done|].
      pose proof Hpars as (_ & Hg & _).
      pose proof (region_below h i r Hg ltac:(lia) Hr).
      destruct (movable_obj_in_region h Hpars i p Hi Hmi Hp).
      pose proof (new_address_movable sch h i p Hpars Hsched Hi Hmi Hp).
      unfold ws in *. lia.
    + apply planned_into_spec. split; [unfold ws in *; lia|].
      exists i. by rewrite Ho.
Qed.

Lemma used_moved d :
  (d < num_regions h)%nat → is_move_allowed (rgn h d) = true →
  used (rgn h4 d) = footprint (targets_in h d (moves_of h sch (owner d))).
Proof.
  intros Hd Hm. pose proof (plan_packed d Hd Hm) as Hpk.
  rewrite <- (moved_top h sch rp Hpars Hrefs Hsched d Hd Hm) in Hpk.
  unfold used. by rewrite bottom_moved, (packs_footprint _ _ _ Hpk).
Qed.

Lemma used_planned_into d :
  (d < num_regions h)%nat → is_move_allowed (rgn h d) = true →
  used (rgn h4 d) = sum_over (λ p, size p + ws) (planned_into sch h d).
Proof.
  intros Hd Hm. rewrite used_moved, targets_planned_into by done.
  unfold footprint. by rewrite sum_over_fmap.
Qed.

Lemma slice_used w :
  (w < nworkers sch)%nat →
  sum_over (λ d, used (rgn h4 d)) (slice_of h owner w)
  = sum_over (λ p, size p + ws) (r ← slice_of h owner w; live_objects h r).
Proof.
  intros Hw. pose proof Hpars as (_ & Hg & _).
  rewrite (sum_over_ext _ (λ d, footprint (targets_in h d (moves_of h sch w)))).
  - rewrite (footprint_split h _ _ (NoDup_slice_of h owner w)).
    + unfold footprint, moves_of. by rewrite sum_over_fmap.
    + intros [[p t] s] Hin.
      destruct (move_extents h sch Hpars Hsched w p t s Hw Hin)
        as [(r & Hr & Ho & Hmr & Hlo & Hhi) _].
      apply elem_of_moves_of in Hin as (-> & -> & i & Hi & Hoi & Hmi & Hp).
      destruct (obj_in_heap h Hpars p (live_in_all h i p Hi Hp)) as (_ & Hpos & _).
      assert (Hl : lands_in h r (p, new p, size p)).
      { unfold lands_in. cbn [fst snd]. unfold ws in *. lia. }
      exists r. split; [by apply slice_of_spec|]. split; [done|].
      intros d' (Hd' & _ & _)%slice_of_spec Hl'.
      by apply (lands_in_inj h d' r (p, new p, size p) Hg).
  - intros d (Hd & Ho & Hm)%slice_of_spec. rewrite <- Ho. by apply used_moved.
Qed.

End Dense.

Section Sums.
Lemma sum_over_bind {A B} (f : B → Z) (g : A → list B) (l : list A) :
  sum_over f (l ≫= g) = sum_over (λ x, sum_over f (g x)) l.
Proof.
  induction l as [|x l IH]; [done|].
  rewrite bind_cons, sum_over_app, IH. done.
Qed.

Lemma sum_over_filter {A} (f : A → Z) (P : A → Prop) `{!∀ x, Decision (P x)} (l : list A) :
  sum_over f l = sum_over f (filter P l) + sum_over f (filter (λ x, ¬ P x) l).
Proof.
  induction l as [|x l IH]; [done|]. rewrite !filter_cons.
  destruct (decide (P x)) as [HP|HP].
  - rewrite decide_False by tauto. unfold sum_over in *. simpl. lia.
  - rewrite decide_True by done. unfold sum_over in *. simpl. lia.
Qed.

Lemma sum_over_zero {A} (l : list A) : sum_over (λ _, 0) l = 0.
Proof. unfold sum_over. induction l as [|x l IH]; simpl; [done|]. by rewrite IH. Qed.

Lemma sum_over_plus {A} (f g : A → Z) (l : list A) :
  sum_over (λ x, f x + g x) l = sum_over f l + sum_over g l.
Proof. unfold sum_over. induction l as [|x l IH]; simpl; lia. Qed.

(** A sum over regions, split by the worker that owns each. *)
Lemma sum_over_owner (f : nat → Z) (g : nat → nat) (k : nat) (l : list nat) :
  Forall (λ i, (g i < k)%nat) l →
  sum_over f l = sum_over (λ w, sum_over f (filter (λ i, g i = w) l)) (seq 0 k).
Proof.
  induction 1 as [|i l Hi _ IH].
  - by rewrite sum_over_zero.
  - assert (E1 : sum_over (λ w, if decide (g i = w) then f i else 0) (seq 0 k) = f i).
    { apply (sum_over_select (λ w, g i = w) (f i) (seq 0 k) (g i)).
      - apply NoDup_seq.
      - apply elem_of_seq. lia.
      - done.
      - by intros w _ <-. }
    change (sum_over f (i :: l)) with (f i + sum_over f l).
    rewrite IH, <- E1, <- sum_over_plus. apply sum_over_ext.
    intros w _. rewrite filter_cons. by destruct (decide (g i = w)).
Qed.

Lemma regions_seq h : regions h = (λ i, rgn h i) <$> seq 0 (num_regions h).
Proof.
  unfold num_regions, rgn. generalize (regions h). intros l.
  induction l as [|x l IH] using rev_ind; [done|].
  rewrite length_app, Nat.add_1_r, seq_S, fmap_app. simpl. f_equal.
  - rewrite IH at 1. apply list_fmap_ext. intros j i Hi.
    apply lookup_seq in Hi as [-> Hi]. simpl.
    by rewrite lookup_total_app_l.
  - by rewrite list_lookup_total_middle.
Qed.
End Sums.

Section FullGC.
Context `{!KlassModel}.
Variables (h0 : ShenandoahHeap) (sch : Schedule) (rp : list HeapWord).
Local Abbreviation h := (ensure_heap_active (reclaim_humongous h0)).
Hypothesis Hpars : parsable h.
Hypothesis Hrefs : refs_ok rp h.
Hypothesis Hsched : schedule_ok sch h.
Local Abbreviation ws := BrooksPointer.word_size.
Local Abbreviation size := (obj_size (mem h)).
Local Abbreviation h3 := (adjust_phase sch rp h).
Local Abbreviation h4 := (move_phase sch rp h).
Local Abbreviation owner := (plan_owner sch).

Lemma live_data_post_region r :
  is_trash r = false → live_data (post_region r) = used r.
Proof.
  intros Ht. rewrite post_region_eq, Ht. cbn [orb].
  destruct r as [b t e nt s l c]. unfold used, is_regular, is_cset in *. cbn in *.
  destruct (Z.eqb_spec (t - b) 0) as [E|E]; destruct s; cbn; try done; lia.
Qed.

Lemma state_moved i : state (rgn h4 i) = state (rgn h i).
Proof.
  rewrite (same_but_tops_state _ h3 h4 i (move_same_but_tops h sch rp Hpars Hsched)).
  apply same_shape_state, (adjust_shape h sch rp Hpars Hrefs Hsched).
Qed.

Lemma used_immovable i :
  (i < num_regions h)%nat → is_move_allowed (rgn h i) = false →
  used (rgn h4 i) = used (rgn h i).
Proof.
  intros Hi Hm.
  destruct (move_same_but_tops h sch rp Hpars Hsched) as (_ & _ & Ho).
  rewrite Ho.
  - unfold used.
    by rewrite (same_shape_top h h3 i (adjust_shape h sch rp Hpars Hrefs Hsched)),
      (same_shape_bottom h h3 i (adjust_shape h sch rp Hpars Hrefs Hsched)).
  - rewrite (elem_of_gang_slices h sch Hpars Hsched). intros [_ ?]. congruence.
Qed.

(** X15. Compaction loses no space among the objects it moves, and the
    used counter tells it. After phase 4 the words in use in the regions
    of a worker's slice, summed over the slice, are exactly the
    footprint of the live objects of the slice, forwarding words
    included; and when the collection is over the heap's used counter is
    the footprint of the live objects of the regions that may be moved
    plus what the regions that may not be moved, pinned or humongous,
    used before. *)
Theorem used_is_live_footprint :
  (∀ w, (w < nworkers sch)%nat →
        sum_over (λ d, used (rgn h4 d)) (slice_of h owner w)
        = sum_over (λ p, size p + ws) (r ← slice_of h owner w; live_objects h r))
  ∧ heap_used (do_it_move sch rp h0)
    = sum_over (λ p, size p + ws) (planned_objects h owner (nworkers sch))
      + sum_over (λ i, used (rgn h i))
                 (filter (λ i, ¬ is_move_allowed (rgn h i) = true)
                         (seq 0 (num_regions h))).
Proof.
  split; [intros w Hw; by apply (slice_used h sch rp Hpars Hrefs Hsched)|].
  rewrite do_it_move_eq.
  destruct (post_compact_spec h4) as (Hrs & Hu & _). rewrite Hu, Hrs.
  assert (Hn4 : num_regions h4 = num_regions h).
  { unfold move_phase. rewrite compact_objects_fold.
    destruct (compact_regions_tops
                (w ← seq 0 (nworkers sch); set_regions ((plan_phase sch h).2 !!! w)) h3)
      as (-> & _).
    apply same_shape_num_regions, (adjust_shape h sch rp Hpars Hrefs Hsched). }
  change (total_live (post_region <$> regions h4))
    with (sum_over live_data (post_region <$> regions h4)).
  rewrite sum_over_fmap, (regions_seq h4), sum_over_fmap, Hn4.
  rewrite (sum_over_ext _ (λ i, used (rgn h4 i))).
  2:{ intros i Hi%elem_of_seq. cbn. apply live_data_post_region.
      unfold is_trash. rewrite state_moved.
      pose proof (ensure_active_region_active (rgn (reclaim_humongous h0) i)) as Hact.
      rewrite <- rgn_ensure_heap_active in Hact.
      - unfold is_active, is_trash in Hact. by apply andb_true_iff in Hact as [_ ?%negb_true_iff].
      - pose proof (regions_ensure_heap_active (reclaim_humongous h0)) as E.
        apply (f_equal length) in E. rewrite length_fmap in E.
        unfold num_regions in *. lia. }
  rewrite (sum_over_filter _ (λ i, is_move_allowed (rgn h i) = true)). f_equal.
  - rewrite (sum_over_owner _ owner (nworkers sch)).
    + unfold planned_objects. rewrite sum_over_bind. apply sum_over_ext.
      intros w Hw%elem_of_seq.
      rewrite <- (slice_used h sch rp Hpars Hrefs Hsched w) by lia.
      f_equal. unfold slice_of, movable, claims_of.
      rewrite !list_filter_filter. apply list_filter_iff. tauto.
    + apply Forall_forall. intros i [_ Hi%elem_of_seq]%list_elem_of_filter.
      apply (in_gang h sch Hsched). lia.
  - apply sum_over_ext. intros i [Hm Hi%elem_of_seq]%list_elem_of_filter.
    apply used_immovable; [lia|]. by destruct (is_move_allowed (rgn h i)).
Qed.

Lemma footprint_pos L :
  L ≠ [] → Forall (λ p, 0 < size p) L → 0 < sum_over (λ p, size p + ws) L.
Proof.
  intros Hne HL. assert (Hge : 0 ≤ sum_over (λ p, size p + ws) L ∧
                               (L ≠ [] → 0 < sum_over (λ p, size p + ws) L)).
  { clear Hne. induction HL as [|p L Hp _ [IH _]]; [done|].
    unfold sum_over in *. cbn [foldr]. cbn beta in *.
    unfold BrooksPointer.word_size in *. split; [lia|]. intros _. lia. }
  by apply Hge.
Qed.

(** X16. What becomes of a region that may be moved when the collection
    is over depends on the plan alone. A region no live object was
    planned into is recycled: it is committed-empty, its top is its
    bottom, it has no live data and it is in the free set. A region
    some object was planned into is regular, keeps the top phase 4 gave
    it, and its live data is the footprint of the objects planned into
    it, which is positive. *)
Theorem emptied_regions_are_recycled (d : nat) :
  (d < num_regions h)%nat → is_move_allowed (rgn h d) = true →
  let final := do_it_move sch rp h0 in
  let L := planned_into sch h d in
  (L = [] →
     state (rgn final d) = empty_committed ∧ top (rgn final d) = bottom (rgn h d)
     ∧ live_data (rgn final d) = 0 ∧ d ∈ free_regions final)
  ∧ (L ≠ [] →
     state (rgn final d) = regular ∧ top (rgn final d) = top (rgn h4 d)
     ∧ live_data (rgn final d) = sum_over (λ p, size p + ws) L
     ∧ 0 < live_data (rgn final d) ∧ d ∈ free_regions final).
Proof.
  intros Hd Hm final L.
  assert (Hn4 : num_regions h4 = num_regions h).
  { unfold move_phase. rewrite compact_objects_fold.
    destruct (compact_regions_tops
                (w ← seq 0 (nworkers sch); set_regions ((plan_phase sch h).2 !!! w)) h3)
      as (-> & _).
    apply same_shape_num_regions, (adjust_shape h sch rp Hpars Hrefs Hsched). }
  destruct (post_compact_spec h4) as (Hrs & _ & _ & Hfree).
  assert (Hfin : final = post_compact h4) by apply do_it_move_eq.
  assert (Hr : rgn final d = post_region (rgn h4 d)).
  { rewrite Hfin. unfold rgn. rewrite Hrs. apply rgn_fmap.
    change (length (regions h4)) with (num_regions h4). lia. }
  assert (Hin : is_alloc_allowed (rgn final d) = true → d ∈ free_regions final).
  { intros Ha. rewrite Hfin, Hfree. apply list_elem_of_filter.
    split; [by rewrite <- Hfin|]. apply elem_of_seq. lia. }
  pose proof (used_planned_into h sch rp Hpars Hrefs Hsched d Hd Hm) as Hu. fold L in Hu.
  pose proof (state_moved d) as Hst.
  pose proof (bottom_moved h sch rp Hpars Hrefs Hsched d) as Hb.
  assert (Hrc : is_regular (rgn h4 d) || is_cset (rgn h4 d) = true).
  { unfold is_move_allowed, is_regular, is_cset in *. by rewrite Hst. }
  destruct (post_region_cases (rgn h4 d)) as (Hcs & Hempty & _ & Hkeep).
  split.
  - intros HL. rewrite HL in Hu. change (sum_over _ []) with 0 in Hu.
    assert (E : rgn final d = set_live_data 0 (recycle (make_trash (rgn h4 d)))).
    { rewrite Hr. by apply Hempty. }
    split; [by rewrite E|]. split; [rewrite E, <- Hb; done|].
    split; [by rewrite E|].
    apply Hin. by rewrite E.
  - intros HL.
    assert (Hpos : 0 < sum_over (λ p, size p + ws) L).
    { apply footprint_pos; [done|]. apply Forall_forall.
      intros p (_ & r & Hrn & _ & _ & Hp)%planned_into_spec.
      by destruct (obj_in_heap h Hpars p (live_in_all h r p Hrn Hp)) as (_ & ? & _). }
    assert (Hne : used (rgn h4 d) ≠ 0) by lia.
    assert (E : state (rgn final d) = regular ∧ top (rgn final d) = top (rgn h4 d)
                ∧ live_data (rgn final d) = used (rgn h4 d)
                ∧ is_alloc_allowed (rgn final d) = true).
    { rewrite Hr. destruct (is_cset (rgn h4 d)) eqn:Ec.
      - destruct (Hcs eq_refl Hne) as [-> _].
        unfold is_cset in Ec. apply bool_decide_eq_true in Ec.
        destruct (rgn h4 d) as [b t e nt s l c]. cbn in Ec. subst s.
        by repeat split.
      - rewrite Hkeep; [|done| |done].
        + rewrite orb_false_r in Hrc. unfold is_regular in Hrc.
          apply bool_decide_eq_true in Hrc.
          destruct (rgn h4 d) as [b t e nt s l c]. cbn in Hrc. subst s.
          by repeat split.
        + unfold is_trash. rewrite orb_false_r in Hrc. unfold is_regular in Hrc.
          apply bool_decide_eq_true in Hrc. rewrite Hrc. done. }
    destruct E as (E1 & E2 & E3 & E4).
    split; [done|]. split; [done|]. split; [by rewrite E3|].
    split; [rewrite E3; lia|by apply Hin].
Qed.

(** X17. The collection writes heap words in three places only: inside
    the regions that may be moved, in the root slots, and in the
    reference fields of live objects. Every other word, a word of a
    dead object of a pinned region or the forwarding word of a humongous
    object for one, holds after the collection what it held before the
    sweep. *)
Theorem collection_writes_within_movable_regions (a : HeapWord) :
  (∀ r, (r < num_regions h)%nat → is_move_allowed (rgn h r) = true →
        ¬ (bottom (rgn h r) ≤ a < end_ (rgn h r))) →
  a ∉ rp →
  (∀ p off, p ∈ all_objects h → off ∈ klass_oop_offsets (mem h p) → a ≠ p + off) →
  mem (do_it_move sch rp h0) a = mem h0 a.
Proof.
  intros Hout Hroot Hslot.
  rewrite do_it_move_eq, mem_post_compact.
  rewrite (move_outside h sch rp Hpars Hrefs Hsched a Hout).
  rewrite (adjust_other h sch rp Hpars Hrefs Hsched).
  - rewrite (plan_frame h sch Hpars Hsched).
    + by rewrite mem_ensure_heap_active, mem_reclaim_humongous.
    + intros i p Hi Hm Hp ->. apply (Hout i Hi Hm).
      destruct (movable_obj_in_region h Hpars i p Hi Hm Hp).
      destruct (obj_in_heap h Hpars p (live_in_all h i p Hi Hp)) as (_ & ? & _).
      unfold BrooksPointer.word_offset, ws in *. lia.
  - intros [?|(p & Hp & (off & Hoff & ->)%elem_of_slots_of)]%elem_of_adjusted_slots;
      [done| |done..].
    by apply (Hslot p off).
Qed.
End FullGC.


(** ** Who claims which region in phase 3 *)

Section AdjustSchedules.
Context `{!KlassModel}.
Variables (h : ShenandoahHeap) (rp : list HeapWord).
Variables (nw mw : nat) (po ao ao' : nat → nat).
Local Abbreviation sch := (mkSchedule nw mw po ao).
Local Abbreviation sch' := (mkSchedule nw mw po ao').
Hypothesis Hpars : parsable h.
Hypothesis Hrefs : refs_ok rp h.
Hypothesis Hsched : schedule_ok sch h.
Hypothesis Hsched' : schedule_ok sch' h.
Local Abbreviation ws := BrooksPointer.word_size.





End AdjustSchedules.

(** ** The referents phase 3 reads *)

Section AdjustedReferents.
Context `{!KlassModel}.
Variables (h : ShenandoahHeap) (sch : Schedule) (rp : list HeapWord).
Hypothesis Hpars : parsable h.
Hypothesis Hrefs : refs_ok rp h.
Hypothesis Hsched : schedule_ok sch h.
Local Abbreviation h2 := (plan_phase sch h).1.
Local Abbreviation do_oops :=
  (foldl (λ m p, ShenandoahAdjustPointersClosure.do_oop_work p m)).

Lemma live_is_marked hh p :
  same_shape h hh → p ∈ all_objects h → is_marked_complete hh p = true.
Proof.
  intros [_ Hb] (i & _ & Hp)%elem_of_all_objects.
  apply elem_of_live_objects in Hp as [Hp _].
  unfold is_marked_complete. apply bool_decide_eq_true. by rewrite Hb.
Qed.

(** X19. Phase 3 reads every slot before it writes it, and once. With the
    slots in the order the gang adjusts them, roots first, the heap on
    which the closure reaches a slot still holds there the reference
    that marking left; the referent, when it is not NULL, is a marked
    object, which is what the closure asserts, and its forwarding word
    holds the address planned for it, which is what the closure stores.
    No slot comes twice, and phase 3 is the closure applied to the slots
    in this order. *)
Theorem adjusted_referents_are_marked (S1 S2 : list HeapWord) (a : HeapWord) :
  adjusted_slots h sch rp = S1 ++ a :: S2 →
  let hh := with_mem (do_oops (mem h2) S1) h2 in
  mem hh a = mem h a
  ∧ ShenandoahAdjustPointersClosure.assert_marked hh a = true
  ∧ (mem h a ≠ 0 →
     ShenandoahAdjustPointersClosure.do_oop_work a (mem hh) a
     = new_address sch h (mem h a))
  ∧ (a ∉ S1) ∧ (a ∉ S2)
  ∧ adjust_phase sch rp h = with_mem (do_oops (mem h2) (adjusted_slots h sch rp)) h2.
Proof.
  intros Hsplit hh.
  pose proof (NoDup_adjusted_slots h sch rp Hpars Hrefs Hsched) as Hnd.
  rewrite Hsplit in Hnd. apply NoDup_app in Hnd as (_ & Hdisj & Hnd2).
  apply NoDup_cons in Hnd2 as [Ha2 _].
  assert (Ha1 : a ∉ S1).
  { intros Hin. apply (Hdisj a Hin). left. }
  assert (Hin : a ∈ adjusted_slots h sch rp).
  { rewrite Hsplit. apply elem_of_app. right. left. }
  destruct (adjusted_slot_value h sch rp Hpars Hrefs Hsched a Hin) as [Hv Hlive].
  assert (Hma : mem hh a = mem h a).
  { unfold hh. cbn [mem with_mem]. by rewrite do_oop_works_other. }
  split; [done|]. split; [|split; [|split; [done|split; [done|]]]].
  - unfold ShenandoahAdjustPointersClosure.assert_marked. rewrite Hma.
    case_decide as Hnz; [|done]. destruct Hlive as [?|Hlive]; [done|].
    apply live_is_marked; [|done].
    apply (same_shape_trans _ h2); [apply (plan_shape h sch Hpars Hsched)|done].
  - intros Hnz. rewrite do_oop_work_eq, decide_True by done.
    unfold forwardee. rewrite Hma, decide_True by done.
    destruct Hlive as [?|Hlive]; [done|].
    unfold new_address, BrooksPointer.get_raw, hh. cbn [mem with_mem].
    apply do_oop_works_other. intros Hin1.
    apply (fwd_word_not_adjusted h sch rp Hpars Hrefs Hsched _ Hlive).
    rewrite Hsplit. apply elem_of_app. by left.
  - apply (adjust_eq h sch rp Hpars Hrefs Hsched).
Qed.
End AdjustedReferents.


(** ** A worker plans its slice on its own *)

Section PlanAlone.
Context `{!KlassModel}.
Import ShenandoahPrepareForCompactionObjectClosure.
Import ShenandoahPrepareForCompactionTask.
Local Abbreviation ws := BrooksPointer.word_size.

Lemma alike_weaken h Q Q' cl cl' :
  alike h Q cl cl' → (∀ q, q ∈ Q' → q ∈ Q) → alike h Q' cl cl'.
Proof. intros [] HQ. constructor; try done. intros q Hq. auto. Qed.

Lemma do_object_alike h Q p cl cl' :
  parsable h → p ∈ all_objects h →
  alike h Q cl cl' → alike h (p :: Q) (do_object p cl) (do_object p cl').
Proof.
  intros Hp Hin [Hto Hfrom Hcp Hempty Hs Hs' Hk Hk' Hfwd].
  assert (Hsz : obj_size (mem (_heap cl)) p = obj_size (mem (_heap cl')) p).
  { unfold obj_size. by rewrite Hk, Hk'. }
  assert (Hend : end_ (rgn (_heap cl) (_to_region cl))
                 = end_ (rgn (_heap cl') (_to_region cl'))).
  { by rewrite (same_shape_end h _ _ Hs), (same_shape_end h _ _ Hs'), Hto. }
  assert (Hnk : ∀ q, q ∈ all_objects h → q ≠ p + BrooksPointer.word_offset).
  { intros q Hq. by apply (klass_word_not_fwd h q p Hp). }
  unfold do_object. cbv zeta.
  destruct (decide (_compact_point cl + (obj_size (mem (_heap cl)) p + ws)
                    > end_ (rgn (_heap cl) (_to_region cl)))) as [Hover|Hfits],
           (decide (_compact_point cl' + (obj_size (mem (_heap cl')) p + ws)
                    > end_ (rgn (_heap cl') (_to_region cl')))) as [Hover'|Hfits'];
    [|exfalso; lia|exfalso; lia|].
  - destruct (advance_to_region_spec cl) as (Hh1 & He1 & Ht1 & Hf1 & Hc1).
    destruct (advance_to_region_spec cl') as (Hh1' & He1' & Ht1' & Hf1' & Hc1').
    assert (Hnext : next_to_region cl = next_to_region cl').
    { unfold next_to_region. by rewrite Hempty, Hto, Hfrom. }
    assert (Es : same_shape h (_heap (advance_to_region cl))).
    { rewrite Hh1. eapply same_shape_trans; [exact Hs|]. apply same_shape_upd_new_top. }
    assert (Es' : same_shape h (_heap (advance_to_region cl'))).
    { rewrite Hh1'. eapply same_shape_trans; [exact Hs'|]. apply same_shape_upd_new_top. }
    assert (Ec : _compact_point (advance_to_region cl)
                 = _compact_point (advance_to_region cl')).
    { rewrite Hc1, Hc1', <- Hnext.
      by rewrite (same_shape_bottom h _ _ Hs), (same_shape_bottom h _ _ Hs'). }
    constructor; cbn [_heap _empty_regions _to_region _from_region _compact_point
                      mem with_mem].
    + rewrite Ht1, Ht1'. exact Hnext.
    + by rewrite Hf1, Hf1'.
    + by rewrite Ec, Hsz.
    + by rewrite He1, He1', Hempty.
    + eapply same_shape_trans; [exact Es|]. apply same_shape_with_mem.
    + eapply same_shape_trans; [exact Es'|]. apply same_shape_with_mem.
    + intros q Hq. unfold BrooksPointer.set_raw.
      rewrite decide_False by (by apply Hnk). rewrite Hh1. by apply Hk.
    + intros q Hq. unfold BrooksPointer.set_raw.
      rewrite decide_False by (by apply Hnk). rewrite Hh1'. by apply Hk'.
    + intros q Hq. rewrite Ec.
      destruct (decide (q = p)) as [->|Hne].
      * by rewrite !get_raw_set_raw_eq.
      * rewrite !get_raw_set_raw_ne by done. rewrite Hh1, Hh1'.
        apply Hfwd. by apply elem_of_cons in Hq as [?|?].
  - constructor; cbn [_heap _empty_regions _to_region _from_region _compact_point
                      mem with_mem].
    + done.
    + done.
    + by rewrite Hcp, Hsz.
    + done.
    + eapply same_shape_trans; [exact Hs|]. apply same_shape_with_mem.
    + eapply same_shape_trans; [exact Hs'|]. apply same_shape_with_mem.
    + intros q Hq. unfold BrooksPointer.set_raw.
      rewrite decide_False by (by apply Hnk). by apply Hk.
    + intros q Hq. unfold BrooksPointer.set_raw.
      rewrite decide_False by (by apply Hnk). by apply Hk'.
    + intros q Hq. rewrite Hcp.
      destruct (decide (q = p)) as [->|Hne].
      * by rewrite !get_raw_set_raw_eq.
      * rewrite !get_raw_set_raw_ne by done.
        apply Hfwd. by apply elem_of_cons in Hq as [?|?].
Qed.

Lemma do_objects_alike h Q L cl cl' :
  parsable h → (∀ p, p ∈ L → p ∈ all_objects h) →
  alike h Q cl cl' →
  alike h (L ++ Q) (foldl (λ cl p, do_object p cl) cl L)
                   (foldl (λ cl p, do_object p cl) cl' L).
Proof.
  intros Hp. revert Q cl cl'. induction L as [|p L IH]; intros Q cl cl' HL HA; [done|].
  cbn [foldl]. eapply alike_weaken.
  - apply (IH (p :: Q)); [intros q Hq; apply HL; by right|].
    apply do_object_alike; [done|apply HL; left|done].
  - intros q Hq. rewrite elem_of_app, elem_of_cons.
    apply elem_of_app in Hq as [Hq|Hq]; [|tauto].
    apply elem_of_cons in Hq. tauto.
Qed.

Lemma plan_region_alike h Q f cl cl' :
  parsable h → (f < num_regions h)%nat →
  alike h Q cl cl' →
  alike h (live_objects h f ++ Q) (plan_region f cl) (plan_region f cl').
Proof.
  intros Hp Hf HA. unfold plan_region, marked_object_iterate.
  cbn [set_from_region _heap].
  rewrite (same_shape_live_objects h _ f (al_shape _ _ _ _ HA)),
    (same_shape_live_objects h _ f (al_shape' _ _ _ _ HA)).
  assert (HA0 : alike h Q (set_from_region f cl) (set_from_region f cl')).
  { destruct HA. by constructor. }
  pose proof (do_objects_alike h Q (live_objects h f) _ _ Hp
                ltac:(intros p Hpf; by apply (live_in_all h f)) HA0) as HA1.
  set (c := foldl _ (set_from_region f cl) _) in *.
  set (c' := foldl _ (set_from_region f cl') _) in *.
  destruct HA1 as [Hto Hfrom Hcp Hempty Hs Hs' Hk Hk' Hfwd].
  unfold is_compact_same_region. rewrite <- Hfrom, <- Hto.
  destruct (bool_decide (_from_region c = Some (_to_region c))); cbn [negb].
  - by constructor.
  - constructor; cbn [_heap _empty_regions _to_region _from_region _compact_point];
      try done. by rewrite Hempty.
Qed.

Lemma plan_regions_alike h Q Ms cl cl' :
  parsable h → Forall (λ r, (r < num_regions h)%nat) Ms →
  alike h Q cl cl' →
  alike h ((r ← Ms; live_objects h r) ++ Q)
        (foldl (λ cl r, plan_region r cl) cl Ms)
        (foldl (λ cl r, plan_region r cl) cl' Ms).
Proof.
  intros Hp. revert Q cl cl'. induction Ms as [|r Ms IH]; intros Q cl cl' HM HA; [done|].
  apply Forall_cons in HM as [Hr HM]. cbn [foldl]. eapply alike_weaken.
  - apply (IH (live_objects h r ++ Q)); [done|]. by apply plan_region_alike.
  - intros q. rewrite bind_cons, !elem_of_app. tauto.
Qed.

(** A worker plans its slice on any heap that has the shape and the
    class words of [h] as it would on [h]. *)
Lemma work_alike h hA hB viewA viewB sA sB q :
  parsable h → same_shape h hA → same_shape h hB →
  (∀ p, p ∈ all_objects h → mem hA p = mem h p) →
  (∀ p, p ∈ all_objects h → mem hB p = mem h p) →
  Forall (λ r, (r < num_regions h)%nat) (movable h viewA) →
  movable h viewA = movable h viewB →
  q ∈ (r ← movable h viewA; live_objects h r) →
  BrooksPointer.get_raw (mem (work hA viewA sA).1) q
  = BrooksPointer.get_raw (mem (work hB viewB sB).1) q.
Proof.
  intros Hp HsA HsB HkA HkB Hn Hv Hq. rewrite !work_fold.
  rewrite (movable_same_shape h hA viewA HsA), (movable_same_shape h hB viewB HsB), <- Hv.
  destruct (movable h viewA) as [|r0 Ms] eqn:EM; [by apply elem_of_nil in Hq|].
  cbn [fst]. rewrite !mark_remaining_empty_fold, !mark_empty_mem.
  cbn [finish_region _heap mem upd_region with_regions].
  unfold planned.
  assert (HA0 : alike h [] (new hA new_region_set r0) (new hB new_region_set r0)).
  { constructor; cbn [new _heap _empty_regions _to_region _from_region _compact_point];
      try done.
    - by rewrite (same_shape_bottom h hA r0 HsA), (same_shape_bottom h hB r0 HsB).
    - by intros ? ?%elem_of_nil. }
  pose proof (plan_regions_alike h [] (r0 :: Ms) _ _ Hp Hn HA0) as HA.
  apply (al_fwd _ _ _ _ HA). by rewrite app_nil_r.
Qed.
End PlanAlone.

Section PlanAloneGang.
Context `{!KlassModel}.
Import ShenandoahPrepareForCompactionObjectClosure.
Import ShenandoahPrepareForCompactionTask.

Lemma slice_in_range h owner w :
  Forall (λ r, (r < num_regions h)%nat) (slice_of h owner w).
Proof. apply Forall_forall. by intros r (? & _)%slice_of_spec. Qed.

(** The forwarding words the gang leaves for the slice of worker [w]
    are those the worker would leave alone on the heap [h]. *)
Lemma gang_alone h owner slices k w q :
  parsable h → (k ≤ length slices)%nat → (w < k)%nat →
  q ∈ (r ← slice_of h owner w; live_objects h r) →
  BrooksPointer.get_raw (mem (prepare_for_compaction owner k (h, slices)).1) q
  = BrooksPointer.get_raw
      (mem (work h (claims_of owner (num_regions h) w) new_region_set).1) q.
Proof.
  intros Hp. pose proof Hp as (_ & Hg & _).
  induction k as [|k IH]; intros Hk Hw Hq; [lia|].
  pose proof (gang_planned_all h owner slices k Hp ltac:(lia)) as HG.
  rewrite prepare_for_compaction_S.
  destruct (prepare_for_compaction owner k (h, slices)) as [hk slk].
  cbn [fst snd] in *.
  pose proof (gp_shape _ _ _ _ _ HG) as Hshape. cbn [fst] in Hshape.
  pose proof (same_shape_num_regions _ _ Hshape) as En.
  assert (Hkl : ∀ p, p ∈ all_objects h → mem hk p = mem h p).
  { intros p Hin. apply (gang_klass_words h owner slices k (hk, slk) p Hp HG Hin). }
  rewrite En. set (view := claims_of owner (num_regions h) k).
  destruct (decide (w = k)) as [->|Hne].
  - destruct (work hk view (slk !!! k)) as [h' slice'] eqn:Ew.
    change h' with (h', slice').1. rewrite <- Ew.
    apply (work_alike h hk h view view); try done.
    apply slice_in_range.
  - assert (Hpk : parsable hk) by (by apply (parsable_transfer h)).
    assert (Hv : view_ok hk view).
    { unfold view. rewrite <- En. apply claims_of_view_ok. }
    destruct (work_planned hk view (slk !!! k) Hpk Hv)
      as (mv & slo & tlo & _ & Hsrc & _ & _ & _ & Hmem & _).
    rewrite (movable_same_shape _ _ _ Hshape) in Hsrc.
    fold (slice_of h owner k) in Hsrc.
    destruct (work hk view (slk !!! k)) as [h' slice'] eqn:Ew. cbn [fst snd] in *.
    rewrite <- IH by (done || lia).
    unfold BrooksPointer.get_raw. rewrite Hmem.
    apply planned_mem_other. intros p t s Hin Heq.
    assert (q = p) as -> by lia.
    apply elem_of_sources in Hin. rewrite Hsrc in Hin.
    apply list_elem_of_bind in Hin as (r & Hpr & Hr).
    rewrite (same_shape_live_objects h hk r Hshape) in Hpr.
    apply list_elem_of_bind in Hq as (r' & Hpr' & Hr').
    apply slice_of_spec in Hr as (Hrn & Ho & _).
    apply slice_of_spec in Hr' as (Hrn' & Ho' & _).
    pose proof (live_objects_region_inj h r r' p Hg Hrn Hrn' Hpr Hpr'). congruence.
Qed.

Lemma new_address_alone h sch w q :
  parsable h → schedule_ok sch h → (w < nworkers sch)%nat →
  q ∈ (r ← slice_of h (plan_owner sch) w; live_objects h r) →
  new_address sch h q
  = BrooksPointer.get_raw
      (mem (work h (claims_of (plan_owner sch) (num_regions h) w) new_region_set).1) q.
Proof.
  intros Hp [Hle _] Hw Hq. unfold new_address, plan_phase.
  apply gang_alone; [done| |done..]. by rewrite length_replicate.
Qed.

Lemma new_address_slice h sch sch' w w' q :
  parsable h → schedule_ok sch h → schedule_ok sch' h →
  (w < nworkers sch)%nat → (w' < nworkers sch')%nat →
  slice_of h (plan_owner sch) w = slice_of h (plan_owner sch') w' →
  q ∈ (r ← slice_of h (plan_owner sch) w; live_objects h r) →
  new_address sch h q = new_address sch' h q.
Proof.
  intros Hp Hs Hs' Hw Hw' Hslice Hq.
  rewrite (new_address_alone h sch w q), (new_address_alone h sch' w' q)
    by (done || by rewrite <- Hslice).
  apply (work_alike h h h); try done. apply slice_in_range.
Qed.

(** X20. A worker plans its slice on its own. The address phase 2 plans
    for a live object of a slice is the address the worker of the slice
    would plan if it ran alone on the heap on which planning starts; so
    it does not depend on what the workers that ran before have planned,
    on the number of workers or on their order, and two schedules that
    give some worker the same slice plan the same addresses for the
    objects of that slice. *)
Theorem worker_plans_its_slice_alone (h : ShenandoahHeap) (sch sch' : Schedule)
    (w w' : nat) (q : HeapWord) :
  parsable h → schedule_ok sch h → schedule_ok sch' h →
  (w < nworkers sch)%nat → (w' < nworkers sch')%nat →
  slice_of h (plan_owner sch) w = slice_of h (plan_owner sch') w' →
  q ∈ (r ← slice_of h (plan_owner sch) w; live_objects h r) →
  new_address sch h q
  = BrooksPointer.get_raw
      (mem (work h (claims_of (plan_owner sch) (num_regions h) w) new_region_set).1) q
  ∧ new_address sch h q = new_address sch' h q.
Proof.
  intros Hp Hs Hs' Hw Hw' Hslice Hq. split.
  - by apply new_address_alone.
  - by apply (new_address_slice h sch sch' w w').
Qed.
End PlanAloneGang.


(** ** Which worker gets which slice *)

(** Two schedules that cut the regions into the same slices: one half of
    the comparison, used in both directions. *)
Section SameSlices.
Context `{!KlassModel}.
Variables (h : ShenandoahHeap) (sch sch' : Schedule).
Hypothesis Hpars : parsable h.
Hypothesis Hsched : schedule_ok sch h.
Hypothesis Hsched' : schedule_ok sch' h.
Hypothesis Hpart : ∀ r r', (r < num_regions h)%nat → (r' < num_regions h)%nat →
  (plan_owner sch r = plan_owner sch r' ↔ plan_owner sch' r = plan_owner sch' r').

Lemma same_slice r :
  (r < num_regions h)%nat →
  slice_of h (plan_owner sch) (plan_owner sch r)
  = slice_of h (plan_owner sch') (plan_owner sch' r).
Proof.
  intros Hr. unfold slice_of, movable, claims_of. f_equal.
  apply filter_ext_in. intros i Hi%elem_of_seq. apply Hpart; [lia|done].
Qed.

Lemma in_own_slice i p :
  (i < num_regions h)%nat → is_move_allowed (rgn h i) = true →
  p ∈ live_objects h i →
  p ∈ (r ← slice_of h (plan_owner sch) (plan_owner sch i); live_objects h r).
Proof.
  intros Hi Hm Hp. apply list_elem_of_bind. exists i. split; [done|].
  unfold slice_of, movable, claims_of.
  apply list_elem_of_filter. split; [done|].
  apply list_elem_of_filter. split; [done|]. apply elem_of_seq. lia.
Qed.

Lemma new_address_relabel p :
  p ∈ all_objects h → new_address sch h p = new_address sch' h p.
Proof.
  intros (i & Hi & Hp)%elem_of_all_objects.
  destruct (is_move_allowed (rgn h i)) eqn:Hm.
  - apply (new_address_slice h sch sch' (plan_owner sch i) (plan_owner sch' i));
      try done.
    + by apply (owner_in_gang h sch Hsched).
    + by apply (owner_in_gang h sch' Hsched').
    + by apply same_slice.
    + by apply in_own_slice.
  - unfold new_address.
    by rewrite (plan_immovable h sch Hpars Hsched i p),
      (plan_immovable h sch' Hpars Hsched' i p).
Qed.

Lemma moves_relabel w p t s :
  (w < nworkers sch)%nat → (p, t, s) ∈ moves_of h sch w →
  ∃ w', (w' < nworkers sch')%nat ∧ (p, t, s) ∈ moves_of h sch' w'.
Proof.
  intros Hw (-> & -> & r & Hr & Hrw & Hm & Hp)%elem_of_moves_of.
  exists (plan_owner sch' r). split; [by apply (owner_in_gang h sch' Hsched')|].
  apply elem_of_moves_of. split; [|split; [done|]].
  - apply new_address_relabel, elem_of_all_objects. eauto.
  - exists r. by repeat split.
Qed.

Lemma moves_of_relabel r :
  (r < num_regions h)%nat →
  moves_of h sch (plan_owner sch r) = moves_of h sch' (plan_owner sch' r).
Proof.
  intros Hr. unfold moves_of. rewrite (same_slice r Hr).
  apply list_fmap_ext. intros k p Hk. f_equal. f_equal.
  apply new_address_relabel.
  apply list_elem_of_lookup_2, list_elem_of_bind in Hk as (i & Hp & Hi).
  apply elem_of_all_objects. exists i. split; [|done].
  unfold slice_of, movable, claims_of in Hi.
  apply list_elem_of_filter in Hi as [_ Hi].
  apply list_elem_of_filter in Hi as [_ Hi%elem_of_seq]. lia.
Qed.

Lemma plan_mem_relabel a :
  mem (plan_phase sch h).1 a = mem (plan_phase sch' h).1 a.
Proof.
  destruct (decide (a - BrooksPointer.word_offset ∈ all_objects h)) as [Hin|Hout].
  - pose proof (new_address_relabel _ Hin) as E.
    unfold new_address, BrooksPointer.get_raw in E.
    by replace (a - BrooksPointer.word_offset + BrooksPointer.word_offset)
      with a in E by lia.
  - rewrite (plan_frame h sch Hpars Hsched a), (plan_frame h sch' Hpars Hsched' a); [done|..].
    all: intros i p Hi Hm Hp ->; apply Hout.
    all: replace (p + BrooksPointer.word_offset - BrooksPointer.word_offset)
           with p by lia.
    all: apply elem_of_all_objects; eauto.
Qed.

Lemma plan_rgn_immovable i :
  is_move_allowed (rgn h i) = false → rgn (plan_phase sch h).1 i = rgn h i.
Proof.
  intros Hm. unfold plan_phase.
  destruct (gang_packed h (plan_owner sch)
              (replicate (max_workers sch) new_region_set) (nworkers sch) Hpars)
    as [_ Hf].
  { rewrite length_replicate. by destruct Hsched. }
  apply Hf. intros w _ Hin. unfold slice_of, movable in Hin.
  apply list_elem_of_filter in Hin as [Hin _]. congruence.
Qed.
End SameSlices.

Section Relabel.
Context `{!KlassModel}.
Variables (h0 : ShenandoahHeap) (sch sch' : Schedule) (rp : list HeapWord).
Local Abbreviation h := (ensure_heap_active (reclaim_humongous h0)).
Hypothesis Hpars : parsable h.
Hypothesis Hrefs : refs_ok rp h.
Hypothesis Hsched : schedule_ok sch h.
Hypothesis Hsched' : schedule_ok sch' h.
Hypothesis Hpart : ∀ r r', (r < num_regions h)%nat → (r' < num_regions h)%nat →
  (plan_owner sch r = plan_owner sch r' ↔ plan_owner sch' r = plan_owner sch' r').
Local Abbreviation ws := BrooksPointer.word_size.

Lemma same_partition_sym r r' :
  (r < num_regions h)%nat → (r' < num_regions h)%nat →
  (plan_owner sch' r = plan_owner sch' r' ↔ plan_owner sch r = plan_owner sch r').
Proof. intros Hr Hr'. symmetry. by apply Hpart. Qed.

Lemma plan_rgn_relabel i :
  (i < num_regions h)%nat →
  rgn (plan_phase sch h).1 i = rgn (plan_phase sch' h).1 i.
Proof.
  intros Hi. destruct (is_move_allowed (rgn h i)) eqn:Hm.
  - pose proof (same_shape_rgn _ _ i (plan_shape h sch Hpars Hsched)) as Hs.
    pose proof (same_shape_rgn _ _ i (plan_shape h sch' Hpars Hsched')) as Hs'.
    pose proof (packs_footprint _ _ _ (plan_packed h sch Hpars Hsched i Hi Hm)) as Hf.
    pose proof (packs_footprint _ _ _ (plan_packed h sch' Hpars Hsched' i Hi Hm)) as Hf'.
    rewrite (moves_of_relabel h sch sch' Hpars Hsched Hsched' Hpart i Hi) in Hf.
    assert (Hnt : new_top (rgn (plan_phase sch h).1 i)
                  = new_top (rgn (plan_phase sch' h).1 i)) by lia.
    rewrite <- Hs' in Hs.
    destruct (rgn (plan_phase sch h).1 i), (rgn (plan_phase sch' h).1 i).
    unfold set_new_top in Hs. cbn in Hs, Hnt. congruence.
  - by rewrite (plan_rgn_immovable h sch Hpars Hsched i Hm),
      (plan_rgn_immovable h sch' Hpars Hsched' i Hm).
Qed.

Lemma adjust_mem_relabel a :
  mem (adjust_phase sch rp h) a = mem (adjust_phase sch' rp h) a.
Proof.
  pose proof (plan_mem_relabel h sch sch' Hpars Hsched Hsched' Hpart) as Hpm.
  destruct (decide (a ∈ adjusted_slots h sch rp)) as [Hin|Hout].
  - rewrite (adjust_slot h sch rp Hpars Hrefs Hsched a Hin).
    rewrite (adjust_slot h sch' rp Hpars Hrefs Hsched' a).
    + unfold forwardee. case_decide; [|done].
      unfold BrooksPointer.get_raw. apply Hpm.
    + apply elem_of_adjusted_slots; [done..|].
      by apply (elem_of_adjusted_slots h sch rp Hrefs Hsched).
  - rewrite (adjust_other h sch rp Hpars Hrefs Hsched a Hout).
    rewrite (adjust_other h sch' rp Hpars Hrefs Hsched' a); [apply Hpm|].
    intros Hin. apply Hout.
    apply elem_of_adjusted_slots; [done..|].
    by apply (elem_of_adjusted_slots h sch' rp Hrefs Hsched').
Qed.

Lemma adjust_rgn_relabel i :
  (i < num_regions h)%nat →
  rgn (adjust_phase sch rp h) i = rgn (adjust_phase sch' rp h) i.
Proof.
  intros Hi.
  rewrite (adjust_eq h sch rp Hpars Hrefs Hsched),
    (adjust_eq h sch' rp Hpars Hrefs Hsched').
  by apply plan_rgn_relabel.
Qed.

Lemma move_rgn_relabel i :
  (i < num_regions h)%nat →
  rgn (move_phase sch rp h) i = rgn (move_phase sch' rp h) i.
Proof.
  intros Hi.
  destruct (move_same_but_tops h sch rp Hpars Hsched) as (_ & Hs & Ho).
  destruct (move_same_but_tops h sch' rp Hpars Hsched') as (_ & Hs' & Ho').
  pose proof (adjust_rgn_relabel i Hi) as E3.
  destruct (is_move_allowed (rgn h i)) eqn:Hm.
  - pose proof (moved_top h sch rp Hpars Hrefs Hsched i Hi Hm) as Ht.
    pose proof (moved_top h sch' rp Hpars Hrefs Hsched' i Hi Hm) as Ht'.
    rewrite <- (plan_rgn_relabel i Hi) in Ht'.
    specialize (Hs i). specialize (Hs' i). rewrite E3 in Hs.
    set (nt := new_top (rgn (plan_phase sch h).1 i)) in *. clearbody nt.
    destruct (rgn (move_phase sch rp h) i), (rgn (move_phase sch' rp h) i),
      (rgn (adjust_phase sch' rp h) i).
    unfold set_top in Hs, Hs'. cbn in Hs, Hs', Ht, Ht'. congruence.
  - rewrite Ho, Ho', E3; [done|..].
    + rewrite (elem_of_gang_slices h sch' Hpars Hsched'). intros [_ ?]. congruence.
    + rewrite (elem_of_gang_slices h sch Hpars Hsched). intros [_ ?]. congruence.
Qed.

Lemma move_mem_relabel a :
  mem (move_phase sch rp h) a = mem (move_phase sch' rp h) a.
Proof.
  destruct (move_gang h sch rp Hpars Hrefs Hsched) as [Hin Hout].
  destruct (move_gang h sch' rp Hpars Hrefs Hsched') as [Hin' Hout'].
  set (all := w ← seq 0 (nworkers sch); moves_of h sch w).
  destruct (decide (Exists (λ x : move, x.1.2 - ws ≤ a < x.1.2 + x.2) all)) as [He|Hne].
  - apply Exists_exists in He as ([[p t] s] & Hx & Ha). cbn [fst snd] in Ha.
    apply list_elem_of_bind in Hx as (w & Hx & Hw%elem_of_seq).
    destruct (moves_relabel h sch sch' Hpars Hsched Hsched' Hpart w p t s
                ltac:(lia) Hx) as (w' & Hw' & Hx').
    destruct (Hin w p t s ltac:(lia) Hx) as [Hf Hb].
    destruct (Hin' w' p t s Hw' Hx') as [Hf' Hb'].
    destruct (decide (a = t - ws)) as [->|Hat].
    + unfold BrooksPointer.get_raw, BrooksPointer.word_offset, ws in *.
      replace (t - 1) with (t + -1) by lia. by rewrite Hf, Hf'.
    + replace a with (t + (a - t)) by lia. unfold ws in *.
      rewrite Hb, Hb' by lia. apply adjust_mem_relabel.
  - rewrite Hout, Hout'; [apply adjust_mem_relabel|..].
    + intros w' p t s Hw' Hx' Ha.
      destruct (moves_relabel h sch' sch Hpars Hsched' Hsched same_partition_sym w' p t s
                  Hw' Hx') as (w & Hw & Hx).
      apply Hne, Exists_exists. exists (p, t, s).
      split; [|done]. apply list_elem_of_bind. exists w. split; [done|].
      apply elem_of_seq. lia.
    + intros w p t s Hw Hx Ha. apply Hne, Exists_exists. exists (p, t, s).
      split; [|done]. apply list_elem_of_bind. exists w. split; [done|].
      apply elem_of_seq. lia.
Qed.

Lemma num_regions_moved (s : Schedule) :
  schedule_ok s h → num_regions (move_phase s rp h) = num_regions h.
Proof.
  intros Hs. unfold move_phase. rewrite compact_objects_fold.
  destruct (compact_regions_tops
              (w ← seq 0 (nworkers s); set_regions ((plan_phase s h).2 !!! w))
              (adjust_phase s rp h)) as (-> & _).
  apply same_shape_num_regions, (adjust_shape h s rp Hpars Hrefs Hs).
Qed.

Lemma move_regions_relabel :
  regions (move_phase sch rp h) = regions (move_phase sch' rp h).
Proof.
  rewrite (regions_seq (move_phase sch rp h)), (regions_seq (move_phase sch' rp h)).
  rewrite !num_regions_moved by done.
  apply list_fmap_ext. intros k i Hk. apply lookup_seq in Hk as [-> Hk].
  by apply move_rgn_relabel.
Qed.

(** X21. The outcome of the collection depends on how the regions are cut
    into slices, and on nothing else in the schedule. Two schedules under
    which the same regions are claimed together in phase 2, whatever the
    numbers of the workers that claim them, the size of the gang and the
    claims of phase 3, plan the same address for every live object, and
    when the collection is over they leave the same heap words, the same
    region table, the same used counter and the same free set. *)
Theorem outcome_depends_on_slices_only :
  (∀ p, p ∈ all_objects h → new_address sch h p = new_address sch' h p)
  ∧ (∀ a, mem (do_it_move sch rp h0) a = mem (do_it_move sch' rp h0) a)
  ∧ regions (do_it_move sch rp h0) = regions (do_it_move sch' rp h0)
  ∧ heap_used (do_it_move sch rp h0) = heap_used (do_it_move sch' rp h0)
  ∧ free_regions (do_it_move sch rp h0) = free_regions (do_it_move sch' rp h0).
Proof.
  split; [apply (new_address_relabel h sch sch' Hpars Hsched Hsched' Hpart)|].
  rewrite !do_it_move_eq.
  destruct (post_compact_spec (move_phase sch rp h)) as (Hr & Hu & _ & Hfr).
  destruct (post_compact_spec (move_phase sch' rp h)) as (Hr' & Hu' & _ & Hfr').
  assert (E : regions (post_compact (move_phase sch rp h))
              = regions (post_compact (move_phase sch' rp h))).
  { by rewrite Hr, Hr', move_regions_relabel. }
  split; [|split; [done|split]].
  - intros a. rewrite !mem_post_compact. apply move_mem_relabel.
  - by rewrite Hu, Hu', E.
  - rewrite Hfr, Hfr', !num_regions_moved by done. unfold rgn. by rewrite E.
Qed.
End Relabel.


(** * Further properties on the small heap *)

Section MoreOnTheSmallHeap.
Import SmallHeap.
Import ShenandoahPrepareForCompactionObjectClosure ShenandoahPrepareForCompactionTask.
Existing Instance klasses.

Lemma example_region_0 :
  (0 < num_regions swept)%nat ∧ is_move_allowed (rgn swept 0) = true
  ∧ 7 ∈ live_objects swept 0.
Proof.
  split; [vm_compute; lia|]. split; [vm_compute; reflexivity|].
  apply (bool_decide_unpack _). vm_compute. exact I.
Defined.

Lemma example_first_object : 1 ∈ all_objects swept.
Proof. apply (bool_decide_unpack _). vm_compute. exact I. Defined.

Lemma slices_partition_movable_witness :
  (nworkers gang ≤ max_workers gang)%nat
  ∧ length (plan_phase gang swept).2 = max_workers gang.
Proof.
  assert (Hw : (nworkers gang ≤ max_workers gang)%nat) by (vm_compute; lia).
  split; [exact Hw|].
  destruct (slices_partition_movable gang swept Hw) as [Hlen _]. exact Hlen.
Defined.

Lemma empty_regions_within_capacity_witness :
  view_ok swept [0; 1; 2; 3]%nat
  ∧ movable swept [0; 1; 2; 3]%nat = 0%nat :: [1%nat]
  ∧ set_regions (_empty_regions (planned swept 0 [1%nat])) `sublist_of` 0%nat :: [1%nat].
Proof.
  assert (Hm : movable swept [0; 1; 2; 3]%nat = 0%nat :: [1%nat])
    by (vm_compute; reflexivity).
  split; [exact example_view_ok|]. split; [exact Hm|].
  destruct (empty_regions_within_capacity swept [0; 1; 2; 3]%nat 0 [1%nat]
              example_view_ok Hm) as [Hsub _].
  exact Hsub.
Defined.

Lemma work_without_movable_region_witness :
  Forall (λ r, is_move_allowed (rgn swept r) = false) [2; 3]%nat
  ∧ work swept [2; 3]%nat new_region_set = (swept, new_region_set).
Proof.
  assert (Hf : Forall (λ r, is_move_allowed (rgn swept r) = false) [2; 3]%nat).
  { repeat (constructor; [vm_compute; reflexivity|]). constructor. }
  split; [exact Hf|].
  exact (work_without_movable_region swept [2; 3]%nat new_region_set Hf).
Defined.

Lemma planning_writes_forwarding_words_only_witness :
  parsable swept ∧ schedule_ok gang swept
  ∧ complete_mark_bit_map (plan_phase gang swept).1 = complete_mark_bit_map swept.
Proof.
  split; [exact example_parsable|]. split; [exact example_schedule_ok|].
  destruct (planning_writes_forwarding_words_only swept gang example_parsable
              example_schedule_ok) as (_ & _ & Hb & _).
  exact Hb.
Defined.

Lemma adjusting_writes_reference_slots_only_witness :
  parsable swept ∧ refs_ok roots swept ∧ schedule_ok gang swept
  ∧ 7 ∈ all_objects swept
  ∧ mem (adjust_phase gang roots swept) 7 = mem swept 7.
Proof.
  split; [exact example_parsable|]. split; [exact example_refs_ok|].
  split; [exact example_schedule_ok|]. split; [exact example_live_object|].
  destruct (adjusting_writes_reference_slots_only swept gang roots example_parsable
              example_refs_ok example_schedule_ok) as (_ & _ & Hk).
  exact (proj1 (Hk 7 example_live_object)).
Defined.

Lemma objects_slide_down_within_slice_witness :
  parsable swept ∧ schedule_ok gang swept
  ∧ (0 < num_regions swept)%nat ∧ is_move_allowed (rgn swept 0) = true
  ∧ 7 ∈ live_objects swept 0
  ∧ new_address gang swept 7 ≤ 7.
Proof.
  destruct example_region_0 as (Hi & Hm & Hp).
  split; [exact example_parsable|]. split; [exact example_schedule_ok|].
  split; [exact Hi|]. split; [exact Hm|]. split; [exact Hp|].
  exact (proj1 (objects_slide_down_within_slice swept gang example_parsable
                  example_schedule_ok 0%nat 7 Hi Hm Hp)).
Defined.

Lemma moved_objects_do_not_overlap_witness :
  parsable swept ∧ refs_ok roots swept ∧ schedule_ok gang swept ∧ self_forwarded swept
  ∧ 1 ∈ all_objects swept ∧ 7 ∈ all_objects swept ∧ 1 ≠ 7
  ∧ (new_address gang swept 1 + obj_size (mem swept) 1 + BrooksPointer.word_size
       ≤ new_address gang swept 7
     ∨ new_address gang swept 7 + obj_size (mem swept) 7 + BrooksPointer.word_size
       ≤ new_address gang swept 1).
Proof.
  assert (Hne : 1 ≠ 7) by lia.
  split; [exact example_parsable|]. split; [exact example_refs_ok|].
  split; [exact example_schedule_ok|]. split; [exact example_self_forwarded|].
  split; [exact example_first_object|]. split; [exact example_live_object|].
  split; [exact Hne|].
  exact (proj1 (moved_objects_do_not_overlap swept gang roots example_parsable
                  example_refs_ok example_schedule_ok example_self_forwarded 1 7
                  example_first_object example_live_object Hne)).
Defined.

Lemma object_payload_survives_witness :
  parsable swept ∧ refs_ok roots swept ∧ schedule_ok gang swept ∧ self_forwarded swept
  ∧ 7 ∈ all_objects swept ∧ 0 ≤ 0 < obj_size (mem swept) 7
  ∧ (0 ∉ klass_oop_offsets (mem swept 7))
  ∧ mem (post_compact (move_phase gang roots swept)) (new_address gang swept 7 + 0)
    = mem swept (7 + 0).
Proof.
  assert (Hj : 0 ≤ 0 < obj_size (mem swept) 7) by (vm_compute; split; [discriminate|reflexivity]).
  assert (Ho : 0 ∉ klass_oop_offsets (mem swept 7))
    by (apply (bool_decide_unpack _); vm_compute; exact I).
  split; [exact example_parsable|]. split; [exact example_refs_ok|].
  split; [exact example_schedule_ok|]. split; [exact example_self_forwarded|].
  split; [exact example_live_object|]. split; [exact Hj|]. split; [exact Ho|].
  exact (object_payload_survives swept gang roots example_parsable example_refs_ok
           example_schedule_ok example_self_forwarded 7 0 example_live_object Hj Ho).
Defined.

Lemma immovable_objects_stay_witness :
  parsable swept ∧ refs_ok roots swept ∧ schedule_ok gang swept ∧ self_forwarded swept
  ∧ (2 < num_regions swept)%nat ∧ is_move_allowed (rgn swept 2) = false
  ∧ 21 ∈ live_objects swept 2
  ∧ new_address gang swept 21 = 21.
Proof.
  assert (Hi : (2 < num_regions swept)%nat) by (vm_compute; lia).
  assert (Hm : is_move_allowed (rgn swept 2) = false) by (vm_compute; reflexivity).
  assert (Hq : 21 ∈ live_objects swept 2)
    by (apply (bool_decide_unpack _); vm_compute; exact I).
  split; [exact example_parsable|]. split; [exact example_refs_ok|].
  split; [exact example_schedule_ok|]. split; [exact example_self_forwarded|].
  split; [exact Hi|]. split; [exact Hm|]. split; [exact Hq|].
  exact (proj1 (immovable_objects_stay swept gang roots example_parsable example_refs_ok
                  example_schedule_ok example_self_forwarded 2%nat 21 Hi Hm Hq)).
Defined.

Lemma compaction_writes_target_extents_only_witness :
  parsable swept ∧ refs_ok roots swept ∧ schedule_ok gang swept
  ∧ complete_mark_bit_map (move_phase gang roots swept)
    = complete_mark_bit_map (adjust_phase gang roots swept).
Proof.
  split; [exact example_parsable|]. split; [exact example_refs_ok|].
  split; [exact example_schedule_ok|].
  destruct (compaction_writes_target_extents_only swept gang roots example_parsable
              example_refs_ok example_schedule_ok) as (_ & Hb & _).
  exact Hb.
Defined.

Lemma compacted_regions_are_dense_witness :
  parsable swept ∧ refs_ok roots swept ∧ schedule_ok gang swept
  ∧ (0 < num_regions swept)%nat ∧ is_move_allowed (rgn swept 0) = true
  ∧ dense_chain (mem (move_phase gang roots swept)) (bottom (rgn swept 0))
      (new_address gang swept <$> planned_into gang swept 0)
      (top (rgn (move_phase gang roots swept) 0)).
Proof.
  destruct example_region_0 as (Hi & Hm & _).
  split; [exact example_parsable|]. split; [exact example_refs_ok|].
  split; [exact example_schedule_ok|]. split; [exact Hi|]. split; [exact Hm|].
  destruct (compacted_regions_are_dense swept gang roots example_parsable example_refs_ok
              example_schedule_ok 0%nat Hi Hm) as [Hwalk _].
  exact Hwalk.
Defined.

Lemma used_is_live_footprint_witness :
  parsable swept ∧ refs_ok roots swept ∧ schedule_ok gang swept
  ∧ heap_used (do_it_move gang roots heap)
    = sum_over (λ p, obj_size (mem swept) p + BrooksPointer.word_size)
               (planned_objects swept (plan_owner gang) (nworkers gang))
      + sum_over (λ i, used (rgn swept i))
                 (filter (λ i, ¬ is_move_allowed (rgn swept i) = true)
                         (seq 0 (num_regions swept))).
Proof.
  split; [exact example_parsable|]. split; [exact example_refs_ok|].
  split; [exact example_schedule_ok|].
  exact (proj2 (used_is_live_footprint heap gang roots example_parsable example_refs_ok
                  example_schedule_ok)).
Defined.

Lemma emptied_regions_are_recycled_witness :
  parsable swept ∧ refs_ok roots swept ∧ schedule_ok gang swept
  ∧ (1 < num_regions swept)%nat ∧ is_move_allowed (rgn swept 1) = true
  ∧ planned_into gang swept 1 = []
  ∧ state (rgn (do_it_move gang roots heap) 1) = empty_committed.
Proof.
  assert (Hi : (1 < num_regions swept)%nat) by (vm_compute; lia).
  assert (Hm : is_move_allowed (rgn swept 1) = true) by (vm_compute; reflexivity).
  assert (HL : planned_into gang swept 1 = []) by (vm_compute; reflexivity).
  split; [exact example_parsable|]. split; [exact example_refs_ok|].
  split; [exact example_schedule_ok|]. split; [exact Hi|]. split; [exact Hm|].
  split; [exact HL|].
  destruct (emptied_regions_are_recycled heap gang roots example_parsable example_refs_ok
              example_schedule_ok 1%nat Hi Hm) as [Hempty _].
  exact (proj1 (Hempty HL)).
Defined.

Lemma example_outside_movable r :
  (r < num_regions swept)%nat → is_move_allowed (rgn swept r) = true →
  ¬ (bottom (rgn swept r) ≤ 20 < end_ (rgn swept r)).
Proof.
  intros Hr Hm. change (num_regions swept) with 4%nat in Hr.
  destruct r as [|[|[|[|r]]]]; [| | | |lia].
  - vm_compute. intros [_ H]. discriminate H.
  - vm_compute. intros [_ H]. discriminate H.
  - vm_compute in Hm. discriminate Hm.
  - vm_compute in Hm. discriminate Hm.
Defined.

Lemma example_not_a_slot p off :
  p ∈ all_objects swept → off ∈ klass_oop_offsets (mem swept p) → 20 ≠ p + off.
Proof.
  assert (H : Forall (λ p, Forall (λ off, 20 ≠ p + off) (klass_oop_offsets (mem swept p)))
                     (all_objects swept))
    by (apply (bool_decide_unpack _); vm_compute; exact I).
  intros Hp Hoff. rewrite Forall_forall in H. specialize (H p Hp).
  rewrite Forall_forall in H. exact (H off Hoff).
Defined.

Lemma collection_writes_within_movable_regions_witness :
  parsable swept ∧ refs_ok roots swept ∧ schedule_ok gang swept
  ∧ (20 ∉ roots)
  ∧ mem (do_it_move gang roots heap) 20 = mem heap 20.
Proof.
  assert (Hroot : 20 ∉ roots) by (apply (bool_decide_unpack _); vm_compute; exact I).
  split; [exact example_parsable|]. split; [exact example_refs_ok|].
  split; [exact example_schedule_ok|]. split; [exact Hroot|].
  exact (collection_writes_within_movable_regions heap gang roots example_parsable
           example_refs_ok example_schedule_ok 20 example_outside_movable Hroot
           example_not_a_slot).
Defined.


Lemma adjusted_referents_are_marked_witness :
  parsable swept ∧ refs_ok roots swept ∧ schedule_ok gang swept
  ∧ adjusted_slots swept gang roots = [50; 51; 52; 2] ++ 8 :: [12; 13]
  ∧ ShenandoahAdjustPointersClosure.assert_marked
      (with_mem (foldl (λ m p, ShenandoahAdjustPointersClosure.do_oop_work p m)
                       (mem (plan_phase gang swept).1) [50; 51; 52; 2])
                (plan_phase gang swept).1) 8 = true.
Proof.
  assert (Hs : adjusted_slots swept gang roots = [50; 51; 52; 2] ++ 8 :: [12; 13])
    by (vm_compute; reflexivity).
  split; [exact example_parsable|]. split; [exact example_refs_ok|].
  split; [exact example_schedule_ok|]. split; [exact Hs|].
  exact (proj1 (proj2 (adjusted_referents_are_marked swept gang roots example_parsable
                         example_refs_ok example_schedule_ok [50; 51; 52; 2] [12; 13] 8
                         Hs))).
Defined.

Lemma worker_plans_its_slice_alone_witness :
  parsable swept ∧ schedule_ok gang swept
  ∧ schedule_ok (mkSchedule 1 1 (λ _, 0%nat) (λ _, 0%nat)) swept
  ∧ (0 < nworkers gang)%nat
  ∧ (0 < nworkers (mkSchedule 1 1 (λ _, 0%nat) (λ _, 0%nat)))%nat
  ∧ slice_of swept (plan_owner gang) 0
    = slice_of swept (plan_owner (mkSchedule 1 1 (λ _, 0%nat) (λ _, 0%nat))) 0
  ∧ 11 ∈ (r ← slice_of swept (plan_owner gang) 0; live_objects swept r)
  ∧ new_address gang swept 11
    = new_address (mkSchedule 1 1 (λ _, 0%nat) (λ _, 0%nat)) swept 11.
Proof.
  assert (Hs : schedule_ok (mkSchedule 1 1 (λ _, 0%nat) (λ _, 0%nat)) swept)
    by (apply (bool_decide_unpack _); vm_compute; exact I).
  assert (Hw : (0 < nworkers gang)%nat) by (vm_compute; lia).
  assert (Hw' : (0 < nworkers (mkSchedule 1 1 (λ _, 0%nat) (λ _, 0%nat)))%nat)
    by (vm_compute; lia).
  assert (Hsl : slice_of swept (plan_owner gang) 0
                = slice_of swept (plan_owner (mkSchedule 1 1 (λ _, 0%nat) (λ _, 0%nat))) 0)
    by (vm_compute; reflexivity).
  assert (Hq : 11 ∈ (r ← slice_of swept (plan_owner gang) 0; live_objects swept r))
    by (apply (bool_decide_unpack _); vm_compute; exact I).
  split; [exact example_parsable|]. split; [exact example_schedule_ok|].
  split; [exact Hs|]. split; [exact Hw|]. split; [exact Hw'|]. split; [exact Hsl|].
  split; [exact Hq|].
  exact (proj2 (worker_plans_its_slice_alone swept gang
                  (mkSchedule 1 1 (λ _, 0%nat) (λ _, 0%nat)) 0 0 11 example_parsable
                  example_schedule_ok Hs Hw Hw' Hsl Hq)).
Defined.
(** The gang with its two slices handed to other workers, in a gang of
    three of which one stays idle. *)
Local Abbreviation regang :=
  (mkSchedule 3 4 (λ i, (2 - i / 2)%nat) (λ _, 0%nat)).

Lemma outcome_depends_on_slices_only_witness :
  parsable swept ∧ refs_ok roots swept ∧ schedule_ok gang swept
  ∧ schedule_ok regang swept
  ∧ (∀ r r', (r < num_regions swept)%nat → (r' < num_regions swept)%nat →
       (plan_owner gang r = plan_owner gang r'
        ↔ plan_owner regang r = plan_owner regang r'))
  ∧ regions (do_it_move gang roots heap) = regions (do_it_move regang roots heap).
Proof.
  assert (Hs : schedule_ok regang swept)
    by (apply (bool_decide_unpack _); vm_compute; exact I).
  assert (Hn : num_regions swept = 4%nat) by (vm_compute; reflexivity).
  assert (Hp : ∀ r r', (r < num_regions swept)%nat → (r' < num_regions swept)%nat →
       (plan_owner gang r = plan_owner gang r'
        ↔ plan_owner regang r = plan_owner regang r')).
  { rewrite Hn. intros r r' Hr Hr'.
    destruct r as [|[|[|[|r]]]]; [..|lia];
      (destruct r' as [|[|[|[|r']]]]; [..|lia]); vm_compute; split; congruence. }
  split; [exact example_parsable|]. split; [exact example_refs_ok|].
  split; [exact example_schedule_ok|]. split; [exact Hs|]. split; [exact Hp|].
  exact (proj1 (proj2 (proj2 (outcome_depends_on_slices_only heap gang regang roots
                  example_parsable example_refs_ok example_schedule_ok Hs Hp)))).
Defined.
End MoreOnTheSmallHeap.

